(** * HexBoard firmware: envelope engine, voice allocator, MIDI/MPE channel
      allocator and just-intonation retune, embedded from the Arduino sketch.

    Integers of the sketch are modelled as [Z] with their wrap-around written
    out; the parallel per-voice arrays ([envelopeStates], [envelopeCommands],
    [channelInUse], [envelopeNeedsFree], [voiceGenerations],
    [synthChannelOwners], [synth], [releaseRetries], [releaseRetryCountdown])
    are gathered in one record per voice index; the key table [h] is a list of
    key records.  Values the sketch derives with floating point arithmetic are
    taken as parameters of the model, except for the ratio search of
    [justIntonationRetune], which is embedded twice: over the real numbers
    ([ratioScan]), and over whatever values the float arithmetic computes
    ([ratioScanComputed]).  [sendToLog] prints under its [debugMessages]
    guard, and [positiveMod] wraps its [int] sum as the target does. *)

From Stdlib Require Import ZArith List Lia String Bool Reals Lra DecimalString.
From stdpp Require Import base list.

Local Open Scope Z_scope.

(** ** Machine integers *)

Definition u8 (z : Z) : Z := z mod 256.
Definition u16 (z : Z) : Z := z mod 65536.
Definition u32 (z : Z) : Z := z mod 4294967296.
Definition i32 (z : Z) : Z := (z + 2147483648) mod 4294967296 - 2147483648.

Definition POLYPHONY_LIMIT : Z := 8.
Definition POLL_INTERVAL_IN_MICROSECONDS : Z := 24.
Definition COLCOUNT : Z := 10.
Definition ROWCOUNT : Z := 16.
Definition BTN_COUNT : Z := COLCOUNT * ROWCOUNT.
Definition UNUSED_NOTE : Z := 255.
Definition NO_SYNTH_OWNER : Z := -1.

Definition SYNTH_OFF : Z := 0.
Definition SYNTH_MONO : Z := 1.
Definition SYNTH_ARPEGGIO : Z := 2.
Definition SYNTH_POLY : Z := 3.

Definition MPE_MODE_AUTO : Z := 0.
Definition MPE_MODE_DISABLE : Z := 1.
Definition MPE_MODE_FORCE : Z := 2.

Definition MIDID_USB : Z := 1.
Definition MIDID_SER : Z := 2.

(** [std::to_string] on the integers that reach the log. *)
Definition to_string (z : Z) : string := NilZero.string_of_int (Z.to_int z).

(** C++ [%] truncates toward zero, as [Z.rem] does; the sum [(n % d) + d] is
    an [int], which wraps around on the target when it passes [2^31 - 1]. *)
Definition positiveMod (n d : Z) : Z := Z.rem (i32 (Z.rem n d + d)) d.

(** ** Envelope parameters *)

Definition envelopeTimeMicrosOptions : list Z :=
  [0; 5000; 10000; 20000; 50000; 100000; 200000; 500000; 1000000; 2000000].

Definition envelopeMaxLevel : Z := 65535.

Inductive EnvelopeStage := Idle | Attack | Decay | Sustain | Release.

Inductive EnvelopeCommand := CmdNone | StartAttack | StartRelease | Reset.

Record EnvelopeParams := mkEnvelopeParams {
  attackTicks : Z;
  decayTicks : Z;
  releaseTicks : Z;
  attackIncrement : Z;
  decayIncrement : Z;
  sustainLevel : Z
}.

(** The four envelope settings read by [updateEnvelopeParamsFromSettings]. *)
Record EnvelopeSettings := mkEnvelopeSettings {
  envelopeAttackIndex : Z;
  envelopeDecayIndex : Z;
  envelopeSustainLevel : Z;
  envelopeReleaseIndex : Z
}.

Definition ticksFromMicros (micros : Z) : Z :=
  if micros =? 0 then 0
  else u32 (micros + POLL_INTERVAL_IN_MICROSECONDS - 1) / POLL_INTERVAL_IN_MICROSECONDS.

Definition clampIndex (index : Z) : Z :=
  if Z.of_nat (length envelopeTimeMicrosOptions) <=? index
  then u8 (Z.of_nat (length envelopeTimeMicrosOptions) - 1)
  else index.

Definition envelopeTimeMicros (index : Z) : Z :=
  nth (Z.to_nat index) envelopeTimeMicrosOptions 0.

Definition updateEnvelopeParamsFromSettings (e : EnvelopeSettings)
  : EnvelopeSettings * EnvelopeParams :=
  let a := clampIndex (envelopeAttackIndex e) in
  let d := clampIndex (envelopeDecayIndex e) in
  let r := clampIndex (envelopeReleaseIndex e) in
  let attackMicros := envelopeTimeMicros a in
  let aTicks := ticksFromMicros attackMicros in
  let aInc := if aTicks =? 0 then envelopeMaxLevel
              else Z.max 1 (u32 (envelopeMaxLevel + aTicks - 1) / aTicks) in
  let sustainByte := Z.min 127 (envelopeSustainLevel e) in
  let sLevel := u16 (u32 (sustainByte * envelopeMaxLevel) / 127) in
  let decayMicros := envelopeTimeMicros d in
  let dTicks := ticksFromMicros decayMicros in
  let dInc := if (dTicks =? 0) || (envelopeMaxLevel <=? sLevel) then envelopeMaxLevel
              else let difference := envelopeMaxLevel - sLevel in
                   Z.max 1 (u32 (difference + dTicks - 1) / dTicks) in
  let releaseMicros := envelopeTimeMicros r in
  (mkEnvelopeSettings a d (envelopeSustainLevel e) r,
   mkEnvelopeParams aTicks dTicks (ticksFromMicros releaseMicros) aInc dInc sLevel).

(** ** Voices *)

(** Everything the sketch keeps at voice index [i]. Of the oscillator only
    [increment] and [counter] are kept: the waveform shape fields feed the
    sample sent to the PWM peripheral and nothing else. *)
Record Voice := mkVoice {
  env_level : Z;                       (* envelopeStates[i].level *)
  env_releaseIncrement : Z;            (* envelopeStates[i].releaseIncrement *)
  env_stage : EnvelopeStage;           (* envelopeStates[i].stage *)
  envelopeCommand : EnvelopeCommand;   (* envelopeCommands[i] *)
  channelInUse : bool;
  envelopeNeedsFree : bool;
  voiceGeneration : Z;                 (* voiceGenerations[i] *)
  synthChannelOwner : Z;               (* synthChannelOwners[i] *)
  osc_increment : Z;                   (* synth[i].increment *)
  osc_counter : Z;                     (* synth[i].counter *)
  releaseRetries : Z;
  releaseRetryCountdown : Z
}.

Definition set_level (x : Z) (v : Voice) : Voice :=
  mkVoice x (env_releaseIncrement v) (env_stage v) (envelopeCommand v) (channelInUse v)
    (envelopeNeedsFree v) (voiceGeneration v) (synthChannelOwner v) (osc_increment v)
    (osc_counter v) (releaseRetries v) (releaseRetryCountdown v).
Definition set_releaseIncrement (x : Z) (v : Voice) : Voice :=
  mkVoice (env_level v) x (env_stage v) (envelopeCommand v) (channelInUse v)
    (envelopeNeedsFree v) (voiceGeneration v) (synthChannelOwner v) (osc_increment v)
    (osc_counter v) (releaseRetries v) (releaseRetryCountdown v).
Definition set_stage (x : EnvelopeStage) (v : Voice) : Voice :=
  mkVoice (env_level v) (env_releaseIncrement v) x (envelopeCommand v) (channelInUse v)
    (envelopeNeedsFree v) (voiceGeneration v) (synthChannelOwner v) (osc_increment v)
    (osc_counter v) (releaseRetries v) (releaseRetryCountdown v).
Definition set_command (x : EnvelopeCommand) (v : Voice) : Voice :=
  mkVoice (env_level v) (env_releaseIncrement v) (env_stage v) x (channelInUse v)
    (envelopeNeedsFree v) (voiceGeneration v) (synthChannelOwner v) (osc_increment v)
    (osc_counter v) (releaseRetries v) (releaseRetryCountdown v).
Definition set_inUse (x : bool) (v : Voice) : Voice :=
  mkVoice (env_level v) (env_releaseIncrement v) (env_stage v) (envelopeCommand v) x
    (envelopeNeedsFree v) (voiceGeneration v) (synthChannelOwner v) (osc_increment v)
    (osc_counter v) (releaseRetries v) (releaseRetryCountdown v).
Definition set_needsFree (x : bool) (v : Voice) : Voice :=
  mkVoice (env_level v) (env_releaseIncrement v) (env_stage v) (envelopeCommand v)
    (channelInUse v) x (voiceGeneration v) (synthChannelOwner v) (osc_increment v)
    (osc_counter v) (releaseRetries v) (releaseRetryCountdown v).
Definition set_generation (x : Z) (v : Voice) : Voice :=
  mkVoice (env_level v) (env_releaseIncrement v) (env_stage v) (envelopeCommand v)
    (channelInUse v) (envelopeNeedsFree v) x (synthChannelOwner v) (osc_increment v)
    (osc_counter v) (releaseRetries v) (releaseRetryCountdown v).
Definition set_owner (x : Z) (v : Voice) : Voice :=
  mkVoice (env_level v) (env_releaseIncrement v) (env_stage v) (envelopeCommand v)
    (channelInUse v) (envelopeNeedsFree v) (voiceGeneration v) x (osc_increment v)
    (osc_counter v) (releaseRetries v) (releaseRetryCountdown v).
Definition set_increment (x : Z) (v : Voice) : Voice :=
  mkVoice (env_level v) (env_releaseIncrement v) (env_stage v) (envelopeCommand v)
    (channelInUse v) (envelopeNeedsFree v) (voiceGeneration v) (synthChannelOwner v) x
    (osc_counter v) (releaseRetries v) (releaseRetryCountdown v).
Definition set_counter (x : Z) (v : Voice) : Voice :=
  mkVoice (env_level v) (env_releaseIncrement v) (env_stage v) (envelopeCommand v)
    (channelInUse v) (envelopeNeedsFree v) (voiceGeneration v) (synthChannelOwner v)
    (osc_increment v) x (releaseRetries v) (releaseRetryCountdown v).
Definition set_retries (x : Z) (v : Voice) : Voice :=
  mkVoice (env_level v) (env_releaseIncrement v) (env_stage v) (envelopeCommand v)
    (channelInUse v) (envelopeNeedsFree v) (voiceGeneration v) (synthChannelOwner v)
    (osc_increment v) (osc_counter v) x (releaseRetryCountdown v).
Definition set_retryCountdown (x : Z) (v : Voice) : Voice :=
  mkVoice (env_level v) (env_releaseIncrement v) (env_stage v) (envelopeCommand v)
    (channelInUse v) (envelopeNeedsFree v) (voiceGeneration v) (synthChannelOwner v)
    (osc_increment v) (osc_counter v) (releaseRetries v) x.

(** A voice as [resetSynthFreqs] followed by the audio core's [Reset] leaves it. *)
Definition freshVoice : Voice :=
  mkVoice 0 0 Idle CmdNone false false 0 NO_SYNTH_OWNER 0 0 0 0.

(** ** The audio tick, [poll], for one voice index

    [ng] is [nextVoiceGeneration]; the function returns the voice after the
    tick and the counter. The sample mixed into the PWM level is an output of
    the tick and leaves the state alone, so only the phase accumulator is
    advanced here. *)

(** The pending command, taken with [exchange(None)] and applied. *)
Definition pollCommand (p : EnvelopeParams) (v : Voice) (ng : Z) : Voice * Z :=
  let pendingCommand := envelopeCommand v in
  let v := set_command CmdNone v in
  match pendingCommand with
  | StartAttack =>
      let v := set_needsFree false (set_releaseIncrement 0 v) in
      let v :=
        if attackTicks p =? 0 then
          let v := set_level envelopeMaxLevel v in
          if (decayTicks p =? 0) || (envelopeMaxLevel <=? sustainLevel p)
          then set_level (sustainLevel p) (set_stage Sustain v)
          else set_stage Decay v
        else set_level 0 (set_stage Attack v) in
      let v :=
        match env_stage v with
        | Decay => if decayTicks p =? 0
                   then set_level (sustainLevel p) (set_stage Sustain v) else v
        | _ => v
        end in
      let v :=
        match env_stage v with
        | Sustain => set_level (sustainLevel p) v
        | _ => v
        end in
      if voiceGeneration v =? 0
      then (set_generation ng v, u32 (ng + 1))
      else (v, ng)
  | StartRelease =>
      if (releaseTicks p =? 0) || (env_level v =? 0) then
        (set_needsFree true
           (set_counter 0 (set_increment 0 (set_stage Idle (set_level 0 v)))), ng)
      else
        (set_releaseIncrement
           (Z.max 1 (u32 (env_level v + releaseTicks p - 1) / releaseTicks p))
           (set_stage Release v), ng)
  | Reset =>
      (set_generation 0
         (set_needsFree false
            (set_inUse false
               (set_counter 0
                  (set_increment 0
                     (set_stage Idle (set_releaseIncrement 0 (set_level 0 v))))))), ng)
  | CmdNone => (v, ng)
  end.

(** What follows the stage [switch] for a voice that did not [continue]. *)
Definition pollOscillator (v : Voice) : Voice :=
  match env_stage v with
  | Idle => set_needsFree true v
  | _ =>
      if (env_level v =? 0) || (osc_increment v =? 0) then v
      else set_counter (u16 (osc_counter v + osc_increment v)) v
  end.

(** The stage [switch]: one envelope step. *)
Definition pollStage (p : EnvelopeParams) (v : Voice) : Voice :=
  match env_stage v with
  | Attack =>
      let nextLevel := u32 (env_level v + attackIncrement p) in
      pollOscillator
        (if (envelopeMaxLevel <=? env_level v) || (envelopeMaxLevel <=? nextLevel) then
           let v := set_level envelopeMaxLevel v in
           if (decayTicks p =? 0) || (envelopeMaxLevel <=? sustainLevel p)
           then set_level (sustainLevel p) (set_stage Sustain v)
           else set_stage Decay v
         else set_level nextLevel v)
  | Decay =>
      pollOscillator
        (if (decayTicks p =? 0) || (envelopeMaxLevel <=? sustainLevel p) then
           set_level (sustainLevel p) (set_stage Sustain v)
         else if sustainLevel p <? env_level v then
           let nextLevel := if decayIncrement p <? env_level v
                            then env_level v - decayIncrement p else 0 in
           if nextLevel <=? sustainLevel p
           then set_stage Sustain (set_level (sustainLevel p) v)
           else set_level nextLevel v
         else set_stage Sustain (set_level (sustainLevel p) v))
  | Sustain => pollOscillator (set_level (sustainLevel p) v)
  | Release =>
      pollOscillator
        (if (releaseTicks p =? 0) || (env_releaseIncrement v =? 0)
            || (env_level v <=? env_releaseIncrement v)
         then set_needsFree true
                (set_counter 0 (set_increment 0 (set_stage Idle (set_level 0 v))))
         else set_level (env_level v - env_releaseIncrement v) v)
  | Idle => set_counter 0 (set_increment 0 (set_level 0 v))
  end.

Definition pollVoice (p : EnvelopeParams) (v : Voice) (ng : Z) : Voice * Z :=
  let '(v, ng) := pollCommand p v ng in
  match osc_increment v =? 0, env_stage v with
  | true, Idle => (v, ng)
  | _, _ => (pollStage p v, ng)
  end.

(** The loop of [poll] over the voice indices, in order. *)
Fixpoint pollVoices (p : EnvelopeParams) (vs : list Voice) (ng : Z) : list Voice * Z :=
  match vs with
  | [] => ([], ng)
  | v :: rest =>
      let '(v', ng') := pollVoice p v ng in
      let '(rest', ng'') := pollVoices p rest ng' in
      (v' :: rest', ng'')
  end.

(** ** Keys, MIDI traffic and the state of the control core *)

(** The fields of [buttonDef] that the note paths use ([frequency] and
    [jiFrequencyMultiplier] are floats and are not stored). *)
Record Key := mkKey {
  stepsFromC : Z;
  isCmd : bool;
  note : Z;
  bend : Z;
  MIDIch : Z;
  synthCh : Z;
  jiRetune : Z;
  mappedMidiChannel : Z
}.

Definition set_MIDIch (x : Z) (k : Key) : Key :=
  mkKey (stepsFromC k) (isCmd k) (note k) (bend k) x (synthCh k) (jiRetune k)
    (mappedMidiChannel k).
Definition set_synthCh (x : Z) (k : Key) : Key :=
  mkKey (stepsFromC k) (isCmd k) (note k) (bend k) (MIDIch k) x (jiRetune k)
    (mappedMidiChannel k).
Definition set_jiRetune (x : Z) (k : Key) : Key :=
  mkKey (stepsFromC k) (isCmd k) (note k) (bend k) (MIDIch k) (synthCh k) x
    (mappedMidiChannel k).

(** A default-constructed [buttonDef]. *)
Definition unsetKey : Key := mkKey 0 false UNUSED_NOTE 0 0 0 0 0.

Inductive Transport := UMIDI | SMIDI.

(** Calls made on a MIDI transport. *)
Inductive MidiMsg :=
| PitchBend (value ch : Z)
| AfterTouch (pressure ch : Z)
| ControlChange (number value ch : Z)
| NoteOn (pitch velocity ch : Z)
| NoteOff (pitch velocity ch : Z)
| BeginRpn (number ch : Z)
| RpnValue (value ch : Z)
| EndRpn (ch : Z).

(** Options that the modelled functions read and never write. *)
Record Settings := mkSettings {
  mpeUserMode : Z;
  extraMPE : bool;
  mpeLowPriorityMode : bool;
  defaultMidiChannel : Z;
  CC74value : Z;
  midiD : Z;
  MPEpitchBendSemis : Z;
  useDynamicJustIntonation : bool;
  useJustIntonationBPM : bool;
  velWheel_curValue : Z;
  playbackMode : Z;
  tuningIsStandardSemitone : bool;     (* current.tuning().stepSize == 100.0 *)
  debugMessages : bool
}.

Record State := mkState {
  cfg : Settings;
  h : list Key;
  pressedKeyIDs : list Z;
  standardMidiMicrotonalActive : bool;
  mpeLowestChannel : Z;
  mpeHighestChannel : Z;
  MPEpitchBendsNeeded : Z;
  mpeChannelQueueActive : bool;
  mpeAvailableChannels : list Z;
  envelopeParams : EnvelopeParams;
  voices : list Voice;
  synthChQueue : list Z;
  nextVoiceGeneration : Z;
  arpeggiatingNow : Z;
  midiOut : list (Transport * MidiMsg);
  logOut : list string
}.

Definition set_h (x : list Key) (s : State) : State :=
  mkState (cfg s) x (pressedKeyIDs s) (standardMidiMicrotonalActive s) (mpeLowestChannel s)
    (mpeHighestChannel s) (MPEpitchBendsNeeded s) (mpeChannelQueueActive s)
    (mpeAvailableChannels s) (envelopeParams s) (voices s) (synthChQueue s)
    (nextVoiceGeneration s) (arpeggiatingNow s) (midiOut s) (logOut s).
Definition set_pressedKeyIDs (x : list Z) (s : State) : State :=
  mkState (cfg s) (h s) x (standardMidiMicrotonalActive s) (mpeLowestChannel s)
    (mpeHighestChannel s) (MPEpitchBendsNeeded s) (mpeChannelQueueActive s)
    (mpeAvailableChannels s) (envelopeParams s) (voices s) (synthChQueue s)
    (nextVoiceGeneration s) (arpeggiatingNow s) (midiOut s) (logOut s).
Definition set_standardMidiMicrotonalActive (x : bool) (s : State) : State :=
  mkState (cfg s) (h s) (pressedKeyIDs s) x (mpeLowestChannel s)
    (mpeHighestChannel s) (MPEpitchBendsNeeded s) (mpeChannelQueueActive s)
    (mpeAvailableChannels s) (envelopeParams s) (voices s) (synthChQueue s)
    (nextVoiceGeneration s) (arpeggiatingNow s) (midiOut s) (logOut s).
Definition set_mpeLowestChannel (x : Z) (s : State) : State :=
  mkState (cfg s) (h s) (pressedKeyIDs s) (standardMidiMicrotonalActive s) x
    (mpeHighestChannel s) (MPEpitchBendsNeeded s) (mpeChannelQueueActive s)
    (mpeAvailableChannels s) (envelopeParams s) (voices s) (synthChQueue s)
    (nextVoiceGeneration s) (arpeggiatingNow s) (midiOut s) (logOut s).
Definition set_mpeHighestChannel (x : Z) (s : State) : State :=
  mkState (cfg s) (h s) (pressedKeyIDs s) (standardMidiMicrotonalActive s) (mpeLowestChannel s)
    x (MPEpitchBendsNeeded s) (mpeChannelQueueActive s)
    (mpeAvailableChannels s) (envelopeParams s) (voices s) (synthChQueue s)
    (nextVoiceGeneration s) (arpeggiatingNow s) (midiOut s) (logOut s).
Definition set_MPEpitchBendsNeeded (x : Z) (s : State) : State :=
  mkState (cfg s) (h s) (pressedKeyIDs s) (standardMidiMicrotonalActive s) (mpeLowestChannel s)
    (mpeHighestChannel s) x (mpeChannelQueueActive s)
    (mpeAvailableChannels s) (envelopeParams s) (voices s) (synthChQueue s)
    (nextVoiceGeneration s) (arpeggiatingNow s) (midiOut s) (logOut s).
Definition set_mpeChannelQueueActive (x : bool) (s : State) : State :=
  mkState (cfg s) (h s) (pressedKeyIDs s) (standardMidiMicrotonalActive s) (mpeLowestChannel s)
    (mpeHighestChannel s) (MPEpitchBendsNeeded s) x
    (mpeAvailableChannels s) (envelopeParams s) (voices s) (synthChQueue s)
    (nextVoiceGeneration s) (arpeggiatingNow s) (midiOut s) (logOut s).
Definition set_mpeAvailableChannels (x : list Z) (s : State) : State :=
  mkState (cfg s) (h s) (pressedKeyIDs s) (standardMidiMicrotonalActive s) (mpeLowestChannel s)
    (mpeHighestChannel s) (MPEpitchBendsNeeded s) (mpeChannelQueueActive s)
    x (envelopeParams s) (voices s) (synthChQueue s)
    (nextVoiceGeneration s) (arpeggiatingNow s) (midiOut s) (logOut s).
Definition set_envelopeParams (x : EnvelopeParams) (s : State) : State :=
  mkState (cfg s) (h s) (pressedKeyIDs s) (standardMidiMicrotonalActive s) (mpeLowestChannel s)
    (mpeHighestChannel s) (MPEpitchBendsNeeded s) (mpeChannelQueueActive s)
    (mpeAvailableChannels s) x (voices s) (synthChQueue s)
    (nextVoiceGeneration s) (arpeggiatingNow s) (midiOut s) (logOut s).
Definition set_voices (x : list Voice) (s : State) : State :=
  mkState (cfg s) (h s) (pressedKeyIDs s) (standardMidiMicrotonalActive s) (mpeLowestChannel s)
    (mpeHighestChannel s) (MPEpitchBendsNeeded s) (mpeChannelQueueActive s)
    (mpeAvailableChannels s) (envelopeParams s) x (synthChQueue s)
    (nextVoiceGeneration s) (arpeggiatingNow s) (midiOut s) (logOut s).
Definition set_synthChQueue (x : list Z) (s : State) : State :=
  mkState (cfg s) (h s) (pressedKeyIDs s) (standardMidiMicrotonalActive s) (mpeLowestChannel s)
    (mpeHighestChannel s) (MPEpitchBendsNeeded s) (mpeChannelQueueActive s)
    (mpeAvailableChannels s) (envelopeParams s) (voices s) x
    (nextVoiceGeneration s) (arpeggiatingNow s) (midiOut s) (logOut s).
Definition set_nextVoiceGeneration (x : Z) (s : State) : State :=
  mkState (cfg s) (h s) (pressedKeyIDs s) (standardMidiMicrotonalActive s) (mpeLowestChannel s)
    (mpeHighestChannel s) (MPEpitchBendsNeeded s) (mpeChannelQueueActive s)
    (mpeAvailableChannels s) (envelopeParams s) (voices s) (synthChQueue s)
    x (arpeggiatingNow s) (midiOut s) (logOut s).
Definition set_arpeggiatingNow (x : Z) (s : State) : State :=
  mkState (cfg s) (h s) (pressedKeyIDs s) (standardMidiMicrotonalActive s) (mpeLowestChannel s)
    (mpeHighestChannel s) (MPEpitchBendsNeeded s) (mpeChannelQueueActive s)
    (mpeAvailableChannels s) (envelopeParams s) (voices s) (synthChQueue s)
    (nextVoiceGeneration s) x (midiOut s) (logOut s).
Definition set_midiOut (x : list (Transport * MidiMsg)) (s : State) : State :=
  mkState (cfg s) (h s) (pressedKeyIDs s) (standardMidiMicrotonalActive s) (mpeLowestChannel s)
    (mpeHighestChannel s) (MPEpitchBendsNeeded s) (mpeChannelQueueActive s)
    (mpeAvailableChannels s) (envelopeParams s) (voices s) (synthChQueue s)
    (nextVoiceGeneration s) (arpeggiatingNow s) x (logOut s).
Definition set_logOut (x : list string) (s : State) : State :=
  mkState (cfg s) (h s) (pressedKeyIDs s) (standardMidiMicrotonalActive s) (mpeLowestChannel s)
    (mpeHighestChannel s) (MPEpitchBendsNeeded s) (mpeChannelQueueActive s)
    (mpeAvailableChannels s) (envelopeParams s) (voices s) (synthChQueue s)
    (nextVoiceGeneration s) (arpeggiatingNow s) (midiOut s) x.

(** [h[x]] and [h[x].field = ...]; the sketch never indexes [h] past its end,
    where the model reads a default key and writes nothing. *)
Definition hkey (s : State) (x : Z) : Key := default unsetKey (h s !! Z.to_nat x).
Definition updKey (x : Z) (f : Key -> Key) (s : State) : State :=
  if x <? 0 then s else set_h (alter f (Z.to_nat x) (h s)) s.

(** The per-voice arrays at index [i], read and written. *)
Definition voice (s : State) (i : Z) : Voice := default freshVoice (voices s !! Z.to_nat i).
Definition updVoice (i : Z) (f : Voice -> Voice) (s : State) : State :=
  if i <? 0 then s else set_voices (alter f (Z.to_nat i) (voices s)) s.

(** [sendToLog] prints the line on the serial port only under its
    [if (debugMessages)] guard; with debug messages off the log stays as it
    is. *)
Definition sendToLog (msg : string) (s : State) : State :=
  set_logOut (if debugMessages (cfg s) then logOut s ++ [msg] else logOut s) s.

(** [withMIDI]: the same calls on each enabled transport, USB first. *)
Definition onTransports (d : Z) (calls : list MidiMsg) : list (Transport * MidiMsg) :=
  (if Z.land d MIDID_USB =? 0 then [] else map (pair UMIDI) calls)
  ++ (if Z.land d MIDID_SER =? 0 then [] else map (pair SMIDI) calls).

Definition withMIDI (calls : list MidiMsg) (s : State) : State :=
  set_midiOut (midiOut s ++ onTransports (midiD (cfg s)) calls) s.

(** The zone sizes that a stretch of MIDI traffic advertises: the data sent
    after each [beginRpn(6, ...)] is [sizeOfZone << 7]. *)
Fixpoint zoneSizesAdvertised (l : list (Transport * MidiMsg)) : list Z :=
  match l with
  | [] => []
  | (_, m) :: tl =>
      match m, tl with
      | BeginRpn n _, (_, RpnValue v _) :: _ =>
          if n =? 6 then Z.shiftr v 7 :: zoneSizesAdvertised tl
          else zoneSizesAdvertised tl
      | _, _ => zoneSizesAdvertised tl
      end
  end.

(** The audio tick on the whole state. *)
Definition poll (s : State) : State :=
  let '(vs, ng) := pollVoices (envelopeParams s) (voices s) (nextVoiceGeneration s) in
  set_nextVoiceGeneration ng (set_voices vs s).

Definition i16 (z : Z) : Z := (z + 32768) mod 65536 - 32768.

(** ** The ratio search of dynamic just intonation

    The search works on [float] values; they are rendered as real numbers, and
    [INFINITY] as [None].  [ratioToCents] is the source's
    [1200.0 * (std::log(ratio) / std::log(2.0))]. *)

Definition ratioToCents (ratio : R) : R := (1200 * (ln ratio / ln 2))%R.

(** The table of ratios, in the order of the source. *)
Definition ratios : list (Z * Z) := [
  (1, 1); (1, 2); (2, 1); (3, 1); (1, 3); (1, 4); (2, 3); (1, 4);
  (4, 1); (3, 2); (1, 5); (5, 1); (5, 2); (1, 6); (3, 4); (5, 2);
  (4, 3); (6, 1); (2, 5); (5, 3); (1, 7); (7, 1); (3, 5); (2, 7);
  (8, 1); (5, 4); (1, 8); (4, 5); (7, 2); (9, 1); (7, 3); (1, 9);
  (3, 7); (1, 9); (1, 10); (10, 1); (7, 4); (3, 8); (8, 3); (6, 5);
  (1, 10); (8, 3); (4, 7); (2, 9); (9, 2); (5, 6); (11, 1); (7, 5);
  (1, 11); (5, 7); (5, 8); (3, 10); (4, 9); (3, 10); (2, 11); (11, 2);
  (12, 1); (1, 12); (9, 4); (5, 8); (1, 12); (8, 5); (10, 3); (6, 7);
  (7, 6); (12, 1); (9, 5); (1, 13); (3, 11); (11, 3); (9, 5); (5, 9);
  (13, 1); (14, 1); (13, 2); (11, 4); (1, 14); (2, 13); (8, 7); (7, 8);
  (4, 11); (9, 7); (11, 5); (7, 9); (5, 11); (13, 3); (3, 13); (15, 1);
  (1, 15); (4, 13); (2, 15); (10, 7); (2, 15); (11, 6); (8, 9); (16, 1);
  (12, 5); (3, 14); (7, 10); (5, 12); (14, 3); (9, 8); (15, 2); (13, 4);
  (1, 16); (6, 11); (17, 1); (1, 17); (5, 13); (13, 5); (4, 15); (17, 2);
  (9, 10); (2, 17); (9, 10); (12, 7); (10, 9); (11, 8); (16, 3); (3, 16);
  (13, 6); (14, 5); (15, 4); (18, 1); (8, 11); (1, 18); (4, 15); (5, 14);
  (6, 13); (7, 12); (19, 1); (11, 9); (17, 3); (3, 17); (9, 11); (1, 19);
  (5, 16); (20, 1); (8, 13); (10, 11); (20, 1); (19, 2); (1, 20); (11, 10);
  (2, 19); (13, 8); (17, 4); (4, 17); (16, 5); (1, 20); (13, 9); (21, 1);
  (7, 15); (9, 13); (19, 3); (17, 5); (3, 19); (5, 17); (15, 7); (1, 21);
  (13, 10); (3, 20); (12, 11); (21, 2); (18, 5); (6, 17); (15, 8); (3, 20);
  (20, 3); (19, 4); (5, 18); (14, 9); (9, 14); (8, 15); (2, 21); (1, 22);
  (17, 6); (22, 1); (10, 13); (11, 12); (4, 19); (5, 19); (1, 23); (19, 5);
  (23, 1); (18, 7); (8, 17); (21, 4); (22, 3); (3, 22); (7, 18); (6, 19);
  (12, 13); (19, 6); (2, 23); (9, 16); (17, 8); (24, 1); (13, 12); (1, 24);
  (23, 2); (4, 21); (16, 9); (9, 17); (1, 25); (5, 21); (25, 1); (15, 11);
  (17, 9); (3, 23); (23, 3); (11, 15); (21, 5); (17, 10); (10, 17); (19, 8);
  (5, 22); (20, 7); (22, 5); (23, 4); (7, 20); (1, 26); (8, 19); (25, 2);
  (26, 1); (2, 25); (4, 23); (5, 23); (9, 19); (1, 27); (13, 15); (3, 25);
  (15, 13); (23, 5); (19, 9); (27, 1); (25, 3); (25, 4); (14, 15); (27, 2);
  (9, 20); (2, 27); (26, 3); (20, 9); (17, 12); (1, 28); (24, 5); (10, 19);
  (12, 17); (23, 6); (21, 8); (11, 18); (19, 10); (5, 24); (4, 25); (5, 24);
  (3, 26); (18, 11); (28, 1); (8, 21); (6, 23); (15, 14); (1, 29); (29, 1);
  (23, 8); (24, 7); (7, 24); (6, 25); (10, 21); (30, 1); (5, 26); (25, 6);
  (11, 20); (30, 1); (1, 30); (16, 15); (8, 23); (4, 27); (2, 29); (26, 5);
  (9, 22); (29, 2); (27, 4); (28, 3); (15, 16); (20, 11); (18, 13); (22, 9);
  (21, 10); (13, 18); (12, 19); (19, 12); (3, 28); (17, 15); (15, 17); (29, 3);
  (31, 1); (27, 5); (3, 29); (9, 23); (23, 9); (1, 31); (5, 27); (13, 20);
  (2, 31); (28, 5); (1, 32); (29, 4); (25, 8); (20, 13); (4, 29); (8, 25);
  (23, 10); (10, 23); (5, 28); (31, 2); (32, 1); (33, 1); (3, 31); (1, 33);
  (5, 29); (15, 19); (9, 25); (31, 3); (19, 15); (25, 9); (29, 5); (33, 2);
  (6, 29); (17, 18); (34, 1); (2, 33); (32, 3); (26, 9); (31, 4); (27, 8);
  (1, 34); (4, 31); (18, 17); (29, 6); (8, 27); (12, 23); (11, 24); (3, 32);
  (9, 26); (23, 12); (24, 11); (5, 31); (31, 5); (35, 1); (1, 35); (1, 36);
  (30, 7); (24, 13); (18, 19); (36, 1); (6, 31); (28, 9); (34, 3); (36, 1);
  (15, 22); (7, 30); (8, 29); (1, 36); (17, 20); (29, 8); (4, 33); (12, 25);
  (10, 27); (32, 5); (20, 17); (3, 34); (25, 12); (5, 32); (2, 35); (33, 4);
  (22, 15); (9, 28); (13, 24); (27, 10); (35, 2); (19, 18); (31, 6); (9, 29);
  (35, 3); (29, 9); (5, 33); (23, 15); (33, 5); (15, 23); (37, 1); (3, 35);
  (1, 37); (10, 29); (31, 8); (5, 34); (4, 35); (1, 38); (35, 4); (29, 10);
  (34, 5); (37, 2); (2, 37); (19, 20); (8, 31); (20, 19); (38, 1); (31, 9);
  (39, 1); (37, 3); (3, 37); (9, 31); (1, 39); (38, 3); (11, 30); (9, 32);
  (26, 15); (31, 10); (29, 12); (32, 9); (20, 21); (2, 39); (35, 6); (33, 8);
  (5, 36); (37, 4); (21, 20); (15, 26); (40, 1); (8, 33); (10, 31); (30, 11);
  (12, 29); (23, 18); (17, 24); (36, 5); (40, 1); (1, 40); (4, 37); (24, 17);
  (39, 2); (6, 35); (18, 23); (3, 38); (41, 1); (37, 5); (5, 37); (1, 41);
  (33, 10); (3, 40); (4, 39); (1, 42); (37, 6); (13, 30); (12, 31); (42, 1);
  (10, 33); (7, 36); (36, 7); (9, 34); (41, 2); (35, 8); (40, 3); (8, 35);
  (5, 38); (2, 41); (39, 4); (38, 5)
].

(** [std::abs(deviation) > y], with [deviation] possibly [INFINITY]. *)
Definition fartherThan (deviation : option R) (y : R) : bool :=
  match deviation with
  | None => true
  | Some d => if Rlt_dec y (Rabs d) then true else false
  end.

(** The loop over the table from some position on, on the pair
    [(deviation, selectedRatio)]; [preferSmallRatios] is the constant [true]. *)
Fixpoint ratioScan (errorThreshold EDOCents : R) (table : list (Z * Z))
    (deviation : option R) (selectedRatio : Z * Z) : option R * (Z * Z) :=
  match table with
  | [] => (deviation, selectedRatio)
  | (ratio0, ratio1) :: rest =>
      let ratioCents := ratioToCents (IZR ratio0 / IZR ratio1) in
      if fartherThan deviation (Rabs (ratioCents - EDOCents)) then
        let deviation' := (EDOCents - ratioCents)%R in
        if Rlt_dec (Rabs deviation') errorThreshold
        then (Some deviation', (ratio0, ratio1))
        else ratioScan errorThreshold EDOCents rest (Some deviation') (ratio0, ratio1)
      else ratioScan errorThreshold EDOCents rest deviation selectedRatio
  end.

(** The search of [justIntonationRetune] for a key of frequency [frequency]
    against the first pressed key, of frequency [firstFrequency]: the final
    [deviation] and [selectedRatio]. *)
Definition justIntonationSearch (stepSize firstFrequency frequency : R)
    : option R * (Z * Z) :=
  let errorThreshold := (stepSize / 4)%R in
  let EDOCents := ratioToCents (firstFrequency / frequency) in
  ratioScan errorThreshold EDOCents ratios None (0, 0).

Section Firmware.

(** The two results that the sketch computes in floating point and stores in
    integers: the [pitchAdjustment] of [justIntonationRetune] for key [x] when a
    just-intonation mode is on, and the value [round(f * 24 * 0.065536)] that
    [setSynthFreq] writes to an oscillator increment for key [x] on a channel. *)
Variable jiPitchAdjustment : State -> Z -> Z.
Variable synthIncrementFor : State -> Z -> Z -> Z.

(** ** MIDI/MPE channel pool *)

Definition clampMPEChannelRange (s : State) : State :=
  let s := if mpeLowestChannel s <? 2 then set_mpeLowestChannel 2 s else s in
  let s := if 16 <? mpeLowestChannel s then set_mpeLowestChannel 16 s else s in
  let s := if mpeHighestChannel s <? 2 then set_mpeHighestChannel 2 s else s in
  let s := if 16 <? mpeHighestChannel s then set_mpeHighestChannel 16 s else s in
  if mpeHighestChannel s <? mpeLowestChannel s
  then set_mpeHighestChannel (mpeLowestChannel s) s else s.

Definition mpePlayableChannelCount (s : State) : Z :=
  if mpeHighestChannel s <? mpeLowestChannel s then 0
  else u8 (mpeHighestChannel s - mpeLowestChannel s + 1).

(** [insert(lower_bound(ch), ch)] on a pool kept in increasing order. *)
Fixpoint insertLowerBound (ch : Z) (l : list Z) : list Z :=
  match l with
  | [] => [ch]
  | y :: rest => if y <? ch then y :: insertLowerBound ch rest else ch :: y :: rest
  end.

(** [std::sort] on channel numbers. *)
Definition sortChannels (l : list Z) : list Z := fold_right insertLowerBound [] l.

Definition resetMPEChannelPool (s : State) : State :=
  let s := set_mpeAvailableChannels [] s in
  let s :=
    fold_left
      (fun s ch =>
         sendToLog ("added ch " ++ to_string ch ++ " to the MPE pool")
           (set_mpeAvailableChannels (mpeAvailableChannels s ++ [ch]) s))
      (seqZ (mpeLowestChannel s) (mpeHighestChannel s - mpeLowestChannel s + 1)) s in
  if mpeLowPriorityMode (cfg s)
  then set_mpeAvailableChannels (sortChannels (mpeAvailableChannels s)) s
  else s.

Definition takeMPEChannel (s : State) : Z * State :=
  match mpeAvailableChannels s with
  | [] => (0, s)
  | ch :: rest => (ch, set_mpeAvailableChannels rest s)
  end.

Definition releaseMPEChannel (ch : Z) (s : State) : State :=
  if (ch <? mpeLowestChannel s) || (mpeHighestChannel s <? ch) then s
  else
    let s :=
      if mpeLowPriorityMode (cfg s)
      then set_mpeAvailableChannels (insertLowerBound ch (mpeAvailableChannels s)) s
      else set_mpeAvailableChannels (mpeAvailableChannels s ++ [ch]) s in
    sendToLog ("returned ch " ++ to_string ch ++ " to the MPE pool") s.

Definition setPitchBendRange (Ch semitones : Z) (s : State) : State :=
  let s := withMIDI [BeginRpn 0 Ch; RpnValue (Z.shiftl semitones 7) Ch; EndRpn Ch] s in
  sendToLog ("set pitch bend range on ch " ++ to_string Ch ++ " to be "
             ++ to_string semitones ++ " semitones") s.

Definition setMPEzone (masterCh sizeOfZone : Z) (s : State) : State :=
  let s := withMIDI [BeginRpn 6 masterCh; RpnValue (Z.shiftl sizeOfZone 7) masterCh;
                     EndRpn masterCh] s in
  sendToLog ("tried sending MIDI msg to set MPE zone, master ch " ++ to_string masterCh
             ++ ", zone of this size: " ++ to_string sizeOfZone) s.

(** [resetTuningMIDI], in the order of its statements: decide whether
    per-note pitch bends are needed ... *)
Definition decideMPEpitchBends (s : State) : State :=
  let s := set_standardMidiMicrotonalActive false s in
  let forceMPE := mpeUserMode (cfg s) =? MPE_MODE_FORCE in
  let disableMPE := mpeUserMode (cfg s) =? MPE_MODE_DISABLE in
  let mpeOptional := negb forceMPE && negb (useDynamicJustIntonation (cfg s))
                     && negb (useJustIntonationBPM (cfg s)) in
  if forceMPE then set_MPEpitchBendsNeeded 255 s
  else if disableMPE then
    set_MPEpitchBendsNeeded 1
      (set_standardMidiMicrotonalActive (negb (tuningIsStandardSemitone (cfg s))) s)
  else if mpeOptional && tuningIsStandardSemitone (cfg s) then set_MPEpitchBendsNeeded 1 s
  else set_MPEpitchBendsNeeded 255 s.

(** ... clamp the channel range, falling back to [2, 2] when it is empty ... *)
Definition normaliseMPEChannelRange (s : State) : State :=
  let s := clampMPEChannelRange s in
  if mpePlayableChannelCount s =? 0
  then set_mpeHighestChannel 2 (set_mpeLowestChannel 2 s) else s.

(** ... advertise the zone on master channel 1 ([mpeEnabled] is
    [MPEpitchBendsNeeded > 1]) ... *)
Definition advertiseMPEzone (s : State) : State :=
  if 1 <? MPEpitchBendsNeeded s then
    let zoneSize := if 1 <? mpeHighestChannel s then u8 (mpeHighestChannel s - 1) else 0 in
    setMPEzone 1 zoneSize s
  else setMPEzone 1 0 s.

(** ... empty the pool and refill it when the queue is needed ... *)
Definition rebuildMPEChannelPool (s : State) : State :=
  let playableChannels := mpePlayableChannelCount s in
  let s := set_mpeAvailableChannels [] (set_mpeChannelQueueActive false s) in
  if 1 <? MPEpitchBendsNeeded s then
    let needsQueue := (playableChannels <? MPEpitchBendsNeeded s)
                      || mpeLowPriorityMode (cfg s) in
    let s := set_mpeChannelQueueActive needsQueue s in
    if needsQueue then resetMPEChannelPool s else s
  else s.

(** ... and reset the controllers and the pitch-bend range of channels 1 to 16. *)
Definition resetChannelControllers (s : State) : State :=
  fold_left
    (fun s i =>
       let s := withMIDI [ControlChange 123 0 i] s in
       let range :=
         if (1 <? MPEpitchBendsNeeded s) && (mpeLowestChannel s <=? i)
            && (i <=? mpeHighestChannel s)
         then MPEpitchBendSemis (cfg s) else 2 in
       setPitchBendRange i range s)
    (seqZ 1 16) s.

Definition resetTuningMIDI (s : State) : State :=
  resetChannelControllers
    (rebuildMPEChannelPool
       (advertiseMPEzone (normaliseMPEChannelRange (decideMPEpitchBends s)))).

(** ** Note-on and note-off on the MIDI side *)

Definition combinedPitchBend (index : Z) (s : State) : Z :=
  let combined := bend (hkey s index) + jiRetune (hkey s index) in
  if 8191 <? combined then 8191
  else if combined <? -8192 then -8192
  else combined.

Definition justIntonationRetune (x : Z) (s : State) : State :=
  if negb (useDynamicJustIntonation (cfg s)) && negb (useJustIntonationBPM (cfg s))
  then updKey x (set_jiRetune 0) s
  else updKey x (set_jiRetune (i16 (jiPitchAdjustment s x))) s.

(** The channel choice at the head of [tryMIDInoteOn], for a key without a
    channel. *)
Definition assignMIDIchannel (x : Z) (s : State) : State :=
  if MPEpitchBendsNeeded s =? 1 then
    if standardMidiMicrotonalActive s then
      updKey x (set_MIDIch (if mappedMidiChannel (hkey s x) =? 0
                            then defaultMidiChannel (cfg s)
                            else mappedMidiChannel (hkey s x))) s
    else updKey x (set_MIDIch (defaultMidiChannel (cfg s))) s
  else
    let availableChannels := mpePlayableChannelCount s in
    if availableChannels =? 0 then
      sendToLog "No MPE channels configured; skipped MIDI note" s
    else if mpeChannelQueueActive s then
      let '(channel, s) := takeMPEChannel s in
      if channel =? 0 then
        sendToLog "MPE pool was empty so did not play a MIDI note" s
      else
        let s := updKey x (set_MIDIch channel) s in
        sendToLog ("Assigned MPE ch " ++ to_string (MIDIch (hkey s x)) ++ " from pool") s
    else
      updKey x (set_MIDIch (u8 (mpeLowestChannel s
                                + positiveMod (stepsFromC (hkey s x)) availableChannels))) s.

(** The block of [tryMIDInoteOn] run once the key has a channel: track the
    key, retune, send the pitch bend (and the extra MPE messages), then the
    note-on. *)
Definition sendMIDInoteOn (x : Z) (s : State) : State :=
  let s := set_pressedKeyIDs (pressedKeyIDs s ++ [x]) s in
  let s := justIntonationRetune x s in
  let pitchBendValue := if MPEpitchBendsNeeded s =? 1 then 0 else combinedPitchBend x s in
  let s :=
    if MPEpitchBendsNeeded s =? 1 then s
    else
      let s := withMIDI [PitchBend pitchBendValue (MIDIch (hkey s x))] s in
      if extraMPE (cfg s)
      then withMIDI [AfterTouch (velWheel_curValue (cfg s)) (MIDIch (hkey s x));
                     ControlChange 74 (CC74value (cfg s)) (MIDIch (hkey s x))] s
      else s in
  let s := withMIDI [NoteOn (note (hkey s x)) (velWheel_curValue (cfg s))
                       (MIDIch (hkey s x))] s in
  let s := sendToLog ("Sent MIDI pitch bend: " ++ to_string pitchBendValue ++ " to ch "
                      ++ to_string (MIDIch (hkey s x))) s in
  sendToLog ("Sent MIDI noteOn: " ++ to_string (note (hkey s x)) ++ " vel "
             ++ to_string (velWheel_curValue (cfg s)) ++ " ch "
             ++ to_string (MIDIch (hkey s x))) s.

Definition tryMIDInoteOn (x : Z) (s : State) : State :=
  if 128 <=? note (hkey s x) then s
  else if negb (MIDIch (hkey s x) =? 0) then s
  else
    let s := assignMIDIchannel x s in
    if MIDIch (hkey s x) =? 0 then s else sendMIDInoteOn x s.

(** [pressedKeyIDs.pop_back()] is only reached with a key on the stack; on an
    empty stack the model leaves it empty. *)
Definition tryMIDInoteOff (x : Z) (s : State) : State :=
  if MIDIch (hkey s x) =? 0 then s
  else
    let s := withMIDI [NoteOff (note (hkey s x)) (velWheel_curValue (cfg s))
                         (MIDIch (hkey s x))] s in
    let s := set_pressedKeyIDs (removelast (pressedKeyIDs s)) s in
    let s := updKey x (set_jiRetune 0) s in
    let s := sendToLog ("sent note off: " ++ to_string (note (hkey s x)) ++ " vel "
                        ++ to_string (velWheel_curValue (cfg s)) ++ " ch "
                        ++ to_string (MIDIch (hkey s x))) s in
    let s :=
      if mpeChannelQueueActive s && (mpeLowestChannel s <=? MIDIch (hkey s x))
         && (MIDIch (hkey s x) <=? mpeHighestChannel s)
      then
        let s :=
          if extraMPE (cfg s)
          then withMIDI [AfterTouch 0 (MIDIch (hkey s x));
                         ControlChange 74 (CC74value (cfg s)) (MIDIch (hkey s x))] s
          else s in
        releaseMPEChannel (MIDIch (hkey s x)) s
      else s in
    updKey x (set_MIDIch 0) s.

(** ** Synth voice allocator (control core) *)

Definition releaseRetryLimit : Z := 2.
Definition releaseRetryDelayLoops : Z := 2.

Definition setSynthFreq (x channel : Z) (s : State) : State :=
  if channel =? 0 then s
  else
    let c := u8 (channel - 1) in
    updVoice c (fun v => set_increment (u16 (synthIncrementFor s x channel))
                           (set_counter 0 v)) s.

Definition beginEnvelopeAttack (channel : Z) (s : State) : State :=
  updVoice channel
    (fun v => set_command StartAttack
                (set_retryCountdown 0 (set_retries 0 (set_needsFree false (set_inUse true v)))))
    s.

Definition beginEnvelopeRelease (channel : Z) (s : State) : State :=
  if POLYPHONY_LIMIT <=? channel then s
  else
    updVoice channel
      (fun v => set_command StartRelease
                  (set_retryCountdown 0 (set_retries releaseRetryLimit v)))
      s.

(** The search loop of [findNextHeldNote] over [i = 1 .. BTN_COUNT]. *)
Fixpoint findNextHeldNoteFrom (s : State) (candidates : list Z) : Z :=
  match candidates with
  | [] => UNUSED_NOTE
  | i :: rest =>
      let j := u8 (positiveMod (arpeggiatingNow s + i) BTN_COUNT) in
      if negb (MIDIch (hkey s j) =? 0) && negb (isCmd (hkey s j)) then j
      else findNextHeldNoteFrom s rest
  end.

Definition findNextHeldNote (s : State) : Z :=
  findNextHeldNoteFrom s (seqZ 1 BTN_COUNT).

(** [nextVoiceGeneration.fetch_add(1)] stored in [voiceGenerations[i]]. *)
Definition stampGeneration (i : Z) (s : State) : State :=
  set_nextVoiceGeneration (u32 (nextVoiceGeneration s + 1))
    (updVoice i (set_generation (nextVoiceGeneration s)) s).

Definition replaceMonoSynthWith (x : Z) (s : State) : State :=
  if arpeggiatingNow s =? x then s
  else
    let s := if arpeggiatingNow s =? UNUSED_NOTE then s
             else updKey (arpeggiatingNow s) (set_synthCh 0) s in
    let s := set_arpeggiatingNow x s in
    if arpeggiatingNow s =? UNUSED_NOTE then
      beginEnvelopeRelease 0 (updVoice 0 (set_owner NO_SYNTH_OWNER) s)
    else
      let s := updKey (arpeggiatingNow s) (set_synthCh 1) s in
      let s := updVoice 0 (set_owner (arpeggiatingNow s)) s in
      let s := stampGeneration 0 s in
      let s := beginEnvelopeAttack 0 s in
      setSynthFreq (arpeggiatingNow s) 1 s.

Definition resetSynthFreqs (s : State) : State :=
  let s := set_synthChQueue [] s in
  let s := set_nextVoiceGeneration 1 s in
  let s :=
    fold_left
      (fun s i =>
         updVoice i
           (fun v => set_retryCountdown 0
                       (set_retries 0
                          (set_owner NO_SYNTH_OWNER
                             (set_generation 0
                                (set_needsFree false
                                   (set_inUse false
                                      (set_command Reset
                                         (set_counter 0 (set_increment 0 v)))))))))
           s)
      (seqZ 0 POLYPHONY_LIMIT) s in
  let s := fold_left (fun s i => updKey i (set_synthCh 0) s) (seqZ 0 BTN_COUNT) s in
  if playbackMode (cfg s) =? SYNTH_POLY
  then fold_left (fun s i => set_synthChQueue (synthChQueue s ++ [u8 (i + 1)]) s)
         (seqZ 0 POLYPHONY_LIMIT) s
  else s.

(** One iteration of the loop of [processEnvelopeReleases]. *)
Definition processEnvelopeRelease1 (s : State) (i : Z) : State :=
  if envelopeNeedsFree (voice s i) then
    let s := updVoice i (set_needsFree false) s in
    let s := updVoice i (set_inUse false) s in
    let s := updVoice i (set_generation 0) s in
    let owner := synthChannelOwner (voice s i) in
    let s := updVoice i (set_owner NO_SYNTH_OWNER) s in
    let s :=
      if (0 <=? owner) && (owner <? BTN_COUNT) then
        if synthCh (hkey s owner) =? u8 (i + 1)
        then updKey owner (set_synthCh 0) s else s
      else s in
    let s :=
      if playbackMode (cfg s) =? SYNTH_POLY
      then set_synthChQueue (synthChQueue s ++ [u8 (i + 1)]) s else s in
    updVoice i (fun v => set_retryCountdown 0 (set_retries 0 v)) s
  else s.

Definition processEnvelopeReleases (s : State) : State :=
  fold_left processEnvelopeRelease1 (seqZ 0 POLYPHONY_LIMIT) s.

(** One iteration of the loop of [retryPendingReleases]. *)
Definition retryPendingRelease1 (s : State) (i : Z) : State :=
  let retries := releaseRetries (voice s i) in
  if retries =? 0 then s
  else if negb (channelInUse (voice s i)) then
    updVoice i (fun v => set_retryCountdown 0 (set_retries 0 v)) s
  else if 0 <? releaseRetryCountdown (voice s i) then
    updVoice i (fun v => set_retryCountdown (u8 (releaseRetryCountdown v - 1)) v) s
  else
    updVoice i
      (fun v => set_retries (u8 (retries - 1))
                  (set_retryCountdown releaseRetryDelayLoops
                     (set_command StartRelease v)))
      s.

Definition retryPendingReleases (s : State) : State :=
  fold_left retryPendingRelease1 (seqZ 0 POLYPHONY_LIMIT) s.

(** One iteration of the search loop of [stealOldestSynthVoice], on the pair
    [(oldestGeneration, oldestIndex)]. *)
Definition stealScan (s : State) (acc : Z * Z) (i : Z) : Z * Z :=
  let '(oldestGeneration, oldestIndex) := acc in
  if negb (channelInUse (voice s i)) then acc
  else if synthChannelOwner (voice s i) =? NO_SYNTH_OWNER then acc
  else
    let generation := voiceGeneration (voice s i) in
    if generation =? 0 then acc
    else if generation <? oldestGeneration then (generation, i)
    else acc.

(** [stealOldestSynthVoice]: [Some (channelOut, previousOwner)] for [true]. *)
Definition stealOldestSynthVoice (s : State) : option (Z * Z) :=
  let '(_, oldestIndex) :=
    fold_left (stealScan s) (seqZ 0 POLYPHONY_LIMIT) (4294967295, -1) in
  if oldestIndex <? 0 then None
  else Some (u8 (oldestIndex + 1), synthChannelOwner (voice s oldestIndex)).

(** The five statements that both branches of [trySynthNoteOn] run on the
    channel they obtained: record it in the key, set the owner, stamp the
    generation, start the attack and set the frequency. *)
Definition claimSynthVoice (x channel : Z) (s : State) : State :=
  let s := updKey x (set_synthCh channel) s in
  let s := updVoice (channel - 1) (set_owner x) s in
  let s := stampGeneration (channel - 1) s in
  let s := beginEnvelopeAttack (u8 (channel - 1)) s in
  setSynthFreq x channel s.

(** The previous owner of a stolen channel forgets it. *)
Definition dropPreviousOwner (previousOwner stolenChannel : Z) (s : State) : State :=
  if (0 <=? previousOwner) && (previousOwner <? BTN_COUNT) then
    if synthCh (hkey s previousOwner) =? stolenChannel
    then updKey previousOwner (set_synthCh 0) s else s
  else s.

Definition trySynthNoteOn (x : Z) (s : State) : State :=
  if playbackMode (cfg s) =? SYNTH_OFF then s
  else if playbackMode (cfg s) =? SYNTH_POLY then
    let s := processEnvelopeReleases s in
    match synthChQueue s with
    | [] =>
        match stealOldestSynthVoice s with
        | None => sendToLog "synth channels all firing, so did not add one" s
        | Some (stolenChannel, previousOwner) =>
            let s := dropPreviousOwner previousOwner stolenChannel s in
            let s := claimSynthVoice x stolenChannel s in
            sendToLog ("stole synth channel " ++ to_string stolenChannel) s
        end
    | channel :: rest =>
        let s := set_synthChQueue rest s in
        let s := claimSynthVoice x channel s in
        sendToLog ("popped " ++ to_string channel ++ " off the synth queue") s
    end
  else if negb (MIDIch (hkey s x) =? 0) then replaceMonoSynthWith x s
  else s.

(** The owner lookup at the end of [trySynthNoteOff]. *)
Fixpoint releaseByOwner (x : Z) (s : State) (candidates : list Z) : State :=
  match candidates with
  | [] => s
  | i :: rest =>
      if negb (channelInUse (voice s i)) then releaseByOwner x s rest
      else if synthChannelOwner (voice s i) =? x then
        beginEnvelopeRelease i (updVoice i (set_owner NO_SYNTH_OWNER) s)
      else releaseByOwner x s rest
  end.

Definition trySynthNoteOff (x : Z) (s : State) : State :=
  if negb (playbackMode (cfg s) =? 0) && negb (playbackMode (cfg s) =? SYNTH_POLY) then
    if arpeggiatingNow s =? x then replaceMonoSynthWith (findNextHeldNote s) s else s
  else if negb (playbackMode (cfg s) =? SYNTH_POLY) then s
  else if negb (synthCh (hkey s x) =? 0) then
    let channel := synthCh (hkey s x) in
    let s := updKey x (set_synthCh 0) s in
    beginEnvelopeRelease (u8 (channel - 1)) s
  else releaseByOwner x s (seqZ 0 POLYPHONY_LIMIT).

(** [n] audio ticks with the control core idle. *)
Definition pollN (n : nat) (s : State) : State := Nat.iter n poll s.

(** [readHexes] on a note key that is in scale (or with the scale lock off):
    a new press and a release. *)
Definition pressKey (x : Z) (s : State) : State := trySynthNoteOn x (tryMIDInoteOn x s).
Definition releaseKey (x : Z) (s : State) : State := trySynthNoteOff x (tryMIDInoteOff x s).

(** * Properties *)

(** ** The audio tick, voice by voice *)

Lemma pollVoices_lookup (p : EnvelopeParams) (vs : list Voice) (ng : Z) (i : nat) (v : Voice) :
  vs !! i = Some v ->
  exists ng0, (pollVoices p vs ng).1 !! i = Some (pollVoice p v ng0).1.
Proof.
  revert ng i. induction vs as [|w rest IH]; intros ng i Hi; [discriminate|].
  simpl. destruct (pollVoice p w ng) as [w' ng'] eqn:Ew.
  destruct (pollVoices p rest ng') as [rest' ng''] eqn:Er.
  destruct i as [|i]; simpl in *.
  - inversion Hi; subst. exists ng. now rewrite Ew.
  - destruct (IH ng' i Hi) as [ng0 H0]. exists ng0. now rewrite Er in H0.
Qed.

Lemma poll_voices_lookup (s : State) (i : nat) (v : Voice) :
  voices s !! i = Some v ->
  exists ng0, voices (poll s) !! i = Some (pollVoice (envelopeParams s) v ng0).1.
Proof.
  intros Hi. unfold poll.
  destruct (pollVoices_lookup (envelopeParams s) (voices s) (nextVoiceGeneration s) i v Hi)
    as [ng0 H0].
  destruct (pollVoices _ _ _) as [vs ng]. exists ng0. exact H0.
Qed.

Lemma poll_envelopeParams (s : State) : envelopeParams (poll s) = envelopeParams s.
Proof. unfold poll. now destruct (pollVoices _ _ _). Qed.

Lemma pollN_envelopeParams (n : nat) (s : State) :
  envelopeParams (pollN n s) = envelopeParams s.
Proof.
  induction n as [|n IH]; [reflexivity|].
  unfold pollN in *. simpl. now rewrite poll_envelopeParams.
Qed.

(** A family of per-voice predicates that one tick carries from [k] to [S k]
    holds at [n] after [n] ticks. *)
Lemma pollN_family (Q : nat -> Voice -> Prop) (p : EnvelopeParams) :
  (forall k v ng, Q k v -> Q (S k) (pollVoice p v ng).1) ->
  forall (n : nat) (s : State) (i : nat) (v : Voice),
    envelopeParams s = p -> voices s !! i = Some v -> Q 0%nat v ->
    exists v', voices (pollN n s) !! i = Some v' /\ Q n v'.
Proof.
  intros Hstep n s i v Hp Hi H0. induction n as [|n IH].
  - exists v. now split.
  - destruct IH as [w [Hw HQ]].
    destruct (poll_voices_lookup (pollN n s) i w Hw) as [ng Hng].
    rewrite pollN_envelopeParams, Hp in Hng.
    exists (pollVoice p w ng).1. split; [exact Hng | now apply Hstep].
Qed.

Lemma voice_lookup (s : State) (i : Z) (v : Voice) :
  voices s !! Z.to_nat i = Some v -> voice s i = v.
Proof. intros H. unfold voice. now rewrite H. Qed.

Lemma updVoice_lookup (s : State) (i : Z) (f : Voice -> Voice) (v : Voice) :
  0 <= i -> voices s !! Z.to_nat i = Some v ->
  voices (updVoice i f s) !! Z.to_nat i = Some (f v).
Proof.
  intros Hi Hv. unfold updVoice. destruct (i <? 0) eqn:E; [lia|].
  simpl. rewrite list_lookup_alter, decide_True by reflexivity. now rewrite Hv.
Qed.

Lemma updVoice_lookup_ne (s : State) (i : Z) (f : Voice -> Voice) (j : nat) :
  j <> Z.to_nat i -> voices (updVoice i f s) !! j = voices s !! j.
Proof.
  intros Hne. unfold updVoice. destruct (i <? 0); [reflexivity|].
  simpl. rewrite list_lookup_alter, decide_False; [reflexivity|]. congruence.
Qed.

(** ** Envelope parameters derived from the settings *)

Lemma envelopeTimeMicros_clamped (index : Z) :
  In (envelopeTimeMicros (clampIndex index)) envelopeTimeMicrosOptions.
Proof.
  unfold envelopeTimeMicros, clampIndex.
  change (Z.of_nat (length envelopeTimeMicrosOptions)) with 10.
  destruct (Z.leb_spec 10 index) as [H|H].
  - vm_compute. repeat ((left; reflexivity) || right).
  - destruct (Z.to_nat index) as [|[|[|[|[|[|[|[|[|[|k]]]]]]]]]] eqn:E;
      try (vm_compute; repeat ((left; reflexivity) || right)).
    lia.
Qed.

Lemma releaseTicks_range (e : EnvelopeSettings) :
  0 <= releaseTicks (updateEnvelopeParamsFromSettings e).2 <= 83334.
Proof.
  unfold updateEnvelopeParamsFromSettings. cbn [snd releaseTicks].
  pose proof (envelopeTimeMicros_clamped (envelopeReleaseIndex e)) as H.
  simpl in H.
  repeat (destruct H as [H|H]; [rewrite <- H; vm_compute; split; discriminate|]).
  contradiction.
Qed.

(** ** Release: from the command to the freed slot *)

(** The voice has been released and flagged for the control core. *)
Definition releaseDone (v : Voice) : Prop :=
  envelopeCommand v = CmdNone /\ env_stage v = Idle /\ env_level v = 0
  /\ osc_increment v = 0 /\ envelopeNeedsFree v = true.

(** The voice is [k] ticks into a release that started from level [L]. *)
Definition releasing (p : EnvelopeParams) (L : Z) (k : nat) (v : Voice) : Prop :=
  envelopeCommand v = CmdNone /\ env_stage v = Release
  /\ env_releaseIncrement v = Z.max 1 ((L + releaseTicks p - 1) / releaseTicks p)
  /\ env_level v = L - Z.of_nat k * env_releaseIncrement v
  /\ 0 < env_level v /\ 0 < releaseTicks p.

Definition releaseProgress (p : EnvelopeParams) (L : Z) (k : nat) (v : Voice) : Prop :=
  match k with
  | O => envelopeCommand v = StartRelease /\ env_level v = L
  | S _ => releaseDone v \/ releasing p L k v
  end.

Ltac zbool :=
  repeat match goal with
  | H : (_ || _)%bool = true |- _ => apply orb_true_iff in H
  | H : (_ || _)%bool = false |- _ => apply orb_false_iff in H; destruct H
  | H : (_ && _)%bool = true |- _ => apply andb_true_iff in H; destruct H
  | H : (_ && _)%bool = false |- _ => apply andb_false_iff in H
  | H : negb _ = true |- _ => apply negb_true_iff in H
  | H : negb _ = false |- _ => apply negb_false_iff in H
  | H : (_ =? _) = true |- _ => apply Z.eqb_eq in H
  | H : (_ =? _) = false |- _ => apply Z.eqb_neq in H
  | H : (_ <=? _) = true |- _ => apply Z.leb_le in H
  | H : (_ <=? _) = false |- _ => apply Z.leb_gt in H
  | H : (_ <? _) = true |- _ => apply Z.ltb_lt in H
  | H : (_ <? _) = false |- _ => apply Z.ltb_ge in H
  end.

Ltac poll_simpl := cbn -[Z.div Z.max Z.mul Z.of_nat Z.add Z.sub u32 u16].

(** Case analysis along the branches of the tick. *)
Ltac poll_cases :=
  poll_simpl;
  repeat (match goal with
          | |- context [if ?c then _ else _] => destruct c eqn:?
          end; poll_simpl).

Lemma releaseDone_stable (p : EnvelopeParams) (v : Voice) (ng : Z) :
  releaseDone v -> releaseDone (pollVoice p v ng).1.
Proof.
  destruct v as [lv ri st cmd iu nf g ow inc cnt rr rc].
  unfold releaseDone. simpl. intros (-> & -> & -> & -> & ->).
  unfold pollVoice, pollCommand. simpl. repeat split.
Qed.

Lemma releaseProgress_step (p : EnvelopeParams) (L : Z) :
  0 <= L <= envelopeMaxLevel -> 0 <= releaseTicks p <= 83334 ->
  forall (k : nat) (v : Voice) (ng : Z),
    releaseProgress p L k v -> releaseProgress p L (S k) (pollVoice p v ng).1.
Proof.
  intros HL HT k v ng H. unfold envelopeMaxLevel in HL.
  destruct k as [|k]; cbn [releaseProgress] in *.
  - (* the tick that consumes the command *)
    destruct v as [lv ri st cmd iu nf g ow inc cnt rr rc]. simpl in H.
    destruct H as [-> ->].
    assert (Hu : u32 (L + releaseTicks p - 1) = L + releaseTicks p - 1 \/ L = 0).
    { destruct (Z.eq_dec L 0); [now right|left]. unfold u32. apply Z.mod_small. lia. }
    unfold pollVoice, pollCommand, pollStage, pollOscillator, releaseDone, releasing.
    destruct Hu as [Hu|Hu].
    + poll_simpl. rewrite Hu.
      set (r := Z.max 1 ((L + releaseTicks p - 1) / releaseTicks p)).
      assert (Hr : 1 <= r) by (unfold r; lia). clearbody r.
      poll_cases; zbool;
        first [ left; repeat split; lia
              | right; repeat split; lia
              | exfalso; repeat match goal with H : _ \/ _ |- _ => destruct H end; lia ].
    + subst L. poll_cases; zbool;
        first [ left; repeat split; lia
              | exfalso; repeat match goal with H : _ \/ _ |- _ => destruct H end; lia ].
  - destruct H as [H|H]; [left; now apply releaseDone_stable|].
    destruct v as [lv ri st cmd iu nf g ow inc cnt rr rc].
    unfold releasing in H. simpl in H. destruct H as (-> & -> & Hri & Hlv & Hpos & HTpos).
    assert (Hr : 1 <= ri) by (rewrite Hri; lia).
    unfold pollVoice, pollCommand, pollStage, pollOscillator, releaseDone, releasing.
    poll_simpl. rewrite <- Hri.
    poll_cases; zbool;
      first [ left; repeat split; lia
            | right; repeat split; lia
            | exfalso; repeat match goal with H : _ \/ _ |- _ => destruct H end; lia ].
Qed.

Lemma release_increment_covers (L T : Z) :
  0 <= L -> 0 < T -> L <= T * Z.max 1 ((L + T - 1) / T).
Proof.
  intros HL HT.
  pose proof (Z.div_mod (L + T - 1) T ltac:(lia)) as Hdm.
  pose proof (Z.mod_pos_bound (L + T - 1) T HT) as Hm.
  nia.
Qed.

(** After at least [releaseTicks] ticks, and at least the one that consumes
    the command, the release is over. *)
Lemma releaseProgress_done (p : EnvelopeParams) (L : Z) (n : nat) (v : Voice) :
  0 <= L -> 0 <= releaseTicks p ->
  (1 <= n)%nat -> releaseTicks p <= Z.of_nat n ->
  releaseProgress p L n v -> releaseDone v.
Proof.
  intros HL HT Hn HTn H. destruct n as [|n]; [lia|].
  cbn [releaseProgress] in H. destruct H as [H|H]; [exact H|].
  exfalso. destruct H as (_ & _ & Hri & Hlv & Hpos & HTpos).
  assert (Hr : 1 <= env_releaseIncrement v) by (rewrite Hri; apply Z.le_max_l).
  pose proof (release_increment_covers L (releaseTicks p) HL HTpos) as Hc.
  rewrite <- Hri in Hc. nia.
Qed.

(** ** Frames: what the basic updates leave alone *)

Lemma fold_left_preserves {A B C : Type} (f : A -> B -> A) (proj : A -> C) :
  (forall a b, proj (f a b) = proj a) ->
  forall (l : list B) (a : A), proj (fold_left f l a) = proj a.
Proof.
  intros Hf l. induction l as [|b l IH]; intros a; simpl; [reflexivity|].
  now rewrite IH, Hf.
Qed.

Lemma fold_left_invariant {A B : Type} (f : A -> B -> A) (P : A -> Prop) :
  (forall a b, P a -> P (f a b)) ->
  forall (l : list B) (a : A), P a -> P (fold_left f l a).
Proof.
  intros Hf l. induction l as [|b l IH]; intros a Ha; simpl; [exact Ha|].
  apply IH, Hf, Ha.
Qed.

(** The slot as [processEnvelopeReleases] leaves it when it was flagged. *)
Definition freedVoice (v : Voice) : Voice :=
  set_retryCountdown 0
    (set_retries 0
       (set_owner NO_SYNTH_OWNER
          (set_generation 0 (set_inUse false (set_needsFree false v))))).

Lemma updVoice_voices (i : Z) (f : Voice -> Voice) (s : State) :
  0 <= i -> voices (updVoice i f s) = alter f (Z.to_nat i) (voices s).
Proof. intros Hi. unfold updVoice. destruct (i <? 0) eqn:E; [lia|reflexivity]. Qed.

Lemma updKey_voices (x : Z) (f : Key -> Key) (s : State) :
  voices (updKey x f s) = voices s.
Proof. unfold updKey. now destruct (x <? 0). Qed.

Lemma voice_updVoice_same (i : Z) (f : Voice -> Voice) (s : State) :
  0 <= i -> (Z.to_nat i < length (voices s))%nat ->
  voice (updVoice i f s) i = f (voice s i).
Proof.
  intros Hi Hlen. unfold voice. rewrite updVoice_voices by exact Hi.
  rewrite list_lookup_alter, decide_True by reflexivity.
  destruct (lookup_lt_is_Some_2 (voices s) (Z.to_nat i) Hlen) as [w Hw].
  now rewrite Hw.
Qed.

Lemma voice_updVoice_other (i j : Z) (f : Voice -> Voice) (s : State) :
  0 <= j -> i <> j -> voice (updVoice i f s) j = voice s j.
Proof.
  intros Hj Hne. unfold voice, updVoice. destruct (i <? 0) eqn:E; [reflexivity|].
  simpl. rewrite list_lookup_alter, decide_False; [reflexivity|]. lia.
Qed.

Lemma voice_updKey (x : Z) (f : Key -> Key) (s : State) (j : Z) :
  voice (updKey x f s) j = voice s j.
Proof. unfold voice. now rewrite updKey_voices. Qed.

Lemma processEnvelopeRelease1_voices (s : State) (i : Z) :
  0 <= i ->
  voices (processEnvelopeRelease1 s i)
  = if envelopeNeedsFree (voice s i) then alter freedVoice (Z.to_nat i) (voices s)
    else voices s.
Proof.
  intros Hi. unfold processEnvelopeRelease1.
  destruct (envelopeNeedsFree (voice s i)); [|reflexivity].
  rewrite updVoice_voices by exact Hi.
  assert (Hmid : forall s0 : State,
    voices (if playbackMode (cfg s0) =? SYNTH_POLY
            then set_synthChQueue (synthChQueue s0 ++ [u8 (i + 1)]) s0 else s0) = voices s0)
    by (intros s0; now destruct (_ =? _)).
  rewrite Hmid.
  match goal with
  | |- context [voices (if ?c then ?a else ?b)] =>
      assert (Hk : voices (if c then a else b) = voices b)
  end.
  { destruct (_ && _)%bool; [|reflexivity].
    destruct (_ =? _); [apply updKey_voices|reflexivity]. }
  rewrite Hk. rewrite !updVoice_voices by exact Hi.
  rewrite !list_alter_alter_eq. reflexivity.
Qed.

Lemma processEnvelopeReleases_voices_lookup (s : State) (i : Z) (v : Voice) :
  0 <= i < POLYPHONY_LIMIT -> voices s !! Z.to_nat i = Some v ->
  voices (processEnvelopeReleases s) !! Z.to_nat i
  = Some (if envelopeNeedsFree v then freedVoice v else v).
Proof.
  intros Hi Hv. unfold processEnvelopeReleases.
  assert (Hgen : forall (l : list Z) (s0 : State) (w : Voice),
    (forall j, In j l -> 0 <= j) -> NoDup l ->
    voices s0 !! Z.to_nat i = Some w ->
    voices (fold_left processEnvelopeRelease1 l s0) !! Z.to_nat i
    = Some (if bool_decide (i ∈ l) && envelopeNeedsFree w then freedVoice w else w)).
  { induction l as [|j l IH]; intros s0 w Hl Hnd Hw; simpl.
    - rewrite Hw. reflexivity.
    - assert (Hj : 0 <= j) by (apply Hl; now left).
      apply NoDup_cons in Hnd. destruct Hnd as [Hjl Hnd].
      destruct (Z.eq_dec j i) as [->|Hne].
      + assert (Hstep : voices (processEnvelopeRelease1 s0 i) !! Z.to_nat i
                        = Some (if envelopeNeedsFree w then freedVoice w else w)).
        { rewrite processEnvelopeRelease1_voices by exact Hj.
          rewrite (voice_lookup s0 i w Hw). destruct (envelopeNeedsFree w); [|exact Hw].
          rewrite list_lookup_alter, decide_True by reflexivity. now rewrite Hw. }
        rewrite (IH _ _ (fun k Hk => Hl k (or_intror Hk)) Hnd Hstep).
        rewrite (bool_decide_eq_false_2 (i ∈ l)) by exact Hjl.
        rewrite (bool_decide_eq_true_2 (i ∈ i :: l)) by (left).
        reflexivity.
      + assert (Hstep : voices (processEnvelopeRelease1 s0 j) !! Z.to_nat i = Some w).
        { rewrite processEnvelopeRelease1_voices by exact Hj.
          destruct (envelopeNeedsFree (voice s0 j)); [|exact Hw].
          rewrite list_lookup_alter, decide_False; [now rewrite Hw|].
          destruct Hi. lia. }
        rewrite (IH _ _ (fun k Hk => Hl k (or_intror Hk)) Hnd Hstep).
        destruct (decide (i ∈ l)) as [Hin|Hin].
        * rewrite (bool_decide_eq_true_2 (i ∈ l)) by exact Hin.
          rewrite (bool_decide_eq_true_2 (i ∈ j :: l)) by (now right).
          reflexivity.
        * rewrite (bool_decide_eq_false_2 (i ∈ l)) by exact Hin.
          rewrite (bool_decide_eq_false_2 (i ∈ j :: l)); [reflexivity|].
          intros Hc. apply elem_of_cons in Hc. destruct Hc; [congruence|contradiction]. }
  rewrite (Hgen (seqZ 0 POLYPHONY_LIMIT) s v); [| |apply NoDup_seqZ|exact Hv].
  - rewrite bool_decide_eq_true_2; [reflexivity|].
    apply elem_of_seqZ. lia.
  - intros j Hj. apply list_elem_of_In, elem_of_seqZ in Hj. lia.
Qed.

Lemma beginEnvelopeRelease_lookup (s : State) (i : Z) (v : Voice) :
  0 <= i < POLYPHONY_LIMIT -> voices s !! Z.to_nat i = Some v ->
  voices (beginEnvelopeRelease i s) !! Z.to_nat i
  = Some (set_command StartRelease (set_retryCountdown 0 (set_retries releaseRetryLimit v))).
Proof.
  intros Hi Hv. unfold beginEnvelopeRelease.
  destruct (Z.leb_spec POLYPHONY_LIMIT i) as [H|H]; [lia|].
  exact (updVoice_lookup s i _ v (proj1 Hi) Hv).
Qed.

Lemma beginEnvelopeRelease_envelopeParams (s : State) (i : Z) :
  envelopeParams (beginEnvelopeRelease i s) = envelopeParams s.
Proof.
  unfold beginEnvelopeRelease, updVoice.
  destruct (POLYPHONY_LIMIT <=? i); [reflexivity|]. now destruct (i <? 0).
Qed.

(** Release driven to the end, for one voice of the state: the shared core of
    the release properties. *)
Lemma release_runs_out (s : State) (i : Z) (v : Voice) (n : nat) :
  0 <= i < POLYPHONY_LIMIT ->
  voices s !! Z.to_nat i = Some v ->
  0 <= env_level v <= envelopeMaxLevel ->
  0 <= releaseTicks (envelopeParams s) <= 83334 ->
  (1 <= n)%nat -> releaseTicks (envelopeParams s) <= Z.of_nat n ->
  exists v', voices (pollN n (beginEnvelopeRelease i s)) !! Z.to_nat i = Some v'
             /\ releaseDone v'.
Proof.
  intros Hi Hv HL HT Hn HTn.
  pose proof (beginEnvelopeRelease_lookup s i v Hi Hv) as Hb.
  destruct (pollN_family (releaseProgress (envelopeParams s) (env_level v)) (envelopeParams s)
              (releaseProgress_step (envelopeParams s) (env_level v) HL HT)
              n (beginEnvelopeRelease i s) (Z.to_nat i) _
              (beginEnvelopeRelease_envelopeParams s i) Hb) as [v' [Hv' HQ]].
  { split; reflexivity. }
  exists v'. split; [exact Hv'|].
  apply (releaseProgress_done (envelopeParams s) (env_level v) n v'); try assumption; lia.
Qed.

Lemma zero_attack_params (e : EnvelopeSettings) :
  envelopeAttackIndex e = 0 -> envelopeDecayIndex e = 0 -> envelopeSustainLevel e = 127 ->
  attackTicks (updateEnvelopeParamsFromSettings e).2 = 0
  /\ decayTicks (updateEnvelopeParamsFromSettings e).2 = 0
  /\ sustainLevel (updateEnvelopeParamsFromSettings e).2 = envelopeMaxLevel.
Proof.
  destruct e as [a d su r]. simpl. intros -> -> ->.
  unfold updateEnvelopeParamsFromSettings.
  cbn [snd attackTicks decayTicks sustainLevel envelopeAttackIndex envelopeDecayIndex
       envelopeSustainLevel].
  repeat split; vm_compute; reflexivity.
Qed.

(** C5. With attack time 0, decay time 0 and sustain at 100% (127), a
    StartAttack issued to a fresh voice (Idle, level 0) leaves the envelope in
    Sustain at the maximum level after the one audio tick that consumes it. *)
Theorem zero_attack_reaches_full_sustain
    (s : State) (i : Z) (v : Voice) (e : EnvelopeSettings) :
  0 <= i ->
  voices s !! Z.to_nat i = Some v ->
  env_stage v = Idle -> env_level v = 0 ->
  envelopeAttackIndex e = 0 -> envelopeDecayIndex e = 0 -> envelopeSustainLevel e = 127 ->
  envelopeParams s = (updateEnvelopeParamsFromSettings e).2 ->
  let s' := poll (beginEnvelopeAttack i s) in
  env_stage (voice s' i) = Sustain /\ env_level (voice s' i) = envelopeMaxLevel.
Proof.
  intros Hi Hv Hst Hlv Ha Hd Hs Hp s'.
  assert (Hb : voices (beginEnvelopeAttack i s) !! Z.to_nat i
               = Some (set_command StartAttack
                         (set_retryCountdown 0
                            (set_retries 0 (set_needsFree false (set_inUse true v)))))).
  { unfold beginEnvelopeAttack. exact (updVoice_lookup s i _ v Hi Hv). }
  destruct (poll_voices_lookup _ _ _ Hb) as [ng Hng].
  assert (Hpar : envelopeParams (beginEnvelopeAttack i s) = envelopeParams s).
  { unfold beginEnvelopeAttack, updVoice. now destruct (i <? 0). }
  subst s'. rewrite (voice_lookup _ _ _ Hng), Hpar, Hp.
  destruct (zero_attack_params e Ha Hd Hs) as (Hat & Hdt & Hsl).
  destruct (updateEnvelopeParamsFromSettings e).2 as [at_ dt rt ai di sl].
  simpl in Hat, Hdt, Hsl. subst at_ dt sl.
  destruct v as [lv ri st cmd iu nf g ow inc cnt rr rc]. simpl in Hst, Hlv. subst.
  unfold pollVoice, pollCommand, pollStage, pollOscillator.
  poll_cases; split; reflexivity.
Qed.

(** C2 (as amended). For a voice in any non-Idle stage at any level of the
    envelope range, with the parameters derived from the settings and held
    fixed: after StartRelease is issued, at least ceil(release time / tick
    interval) audio ticks, and at least the one tick that consumes the command,
    leave the level at exactly zero, the stage Idle, the oscillator increment
    zero and the needs-free flag set; the next drain by the control core then
    frees the slot. *)
Theorem release_convergence
    (s : State) (i : Z) (v : Voice) (e : EnvelopeSettings) (n : nat) :
  0 <= i < POLYPHONY_LIMIT ->
  voices s !! Z.to_nat i = Some v ->
  env_stage v <> Idle ->
  0 <= env_level v <= envelopeMaxLevel ->
  envelopeParams s = (updateEnvelopeParamsFromSettings e).2 ->
  (1 <= n)%nat ->
  ticksFromMicros (envelopeTimeMicros (clampIndex (envelopeReleaseIndex e))) <= Z.of_nat n ->
  let s' := pollN n (beginEnvelopeRelease i s) in
  env_level (voice s' i) = 0 /\ env_stage (voice s' i) = Idle
  /\ osc_increment (voice s' i) = 0 /\ envelopeNeedsFree (voice s' i) = true
  /\ channelInUse (voice (processEnvelopeReleases s') i) = false.
Proof.
  intros Hi Hv _ HL Hp Hn HTn s'.
  assert (HT : 0 <= releaseTicks (envelopeParams s) <= 83334)
    by (rewrite Hp; apply releaseTicks_range).
  assert (HTn' : releaseTicks (envelopeParams s) <= Z.of_nat n) by (rewrite Hp; exact HTn).
  destruct (release_runs_out s i v n Hi Hv HL HT Hn HTn') as [v' [Hv' Hdone]].
  fold s' in Hv'. rewrite (voice_lookup _ _ _ Hv').
  destruct Hdone as (_ & Hst & Hlv & Hinc & Hnf).
  repeat split; try assumption.
  rewrite (voice_lookup _ _ _ (processEnvelopeReleases_voices_lookup s' i v' Hi Hv')).
  rewrite Hnf. reflexivity.
Qed.

(** ** Voice stealing *)

(** The voices that the search loop of [stealOldestSynthVoice] does not skip. *)
Definition stealCandidate (s : State) (i : Z) : bool :=
  channelInUse (voice s i)
  && negb (synthChannelOwner (voice s i) =? NO_SYNTH_OWNER)
  && negb (voiceGeneration (voice s i) =? 0).

Lemma stealScan_cases (s : State) (g0 i0 j : Z) :
  (stealScan s (g0, i0) j = (g0, i0)
   /\ (stealCandidate s j = true -> g0 <= voiceGeneration (voice s j)))
  \/ (stealScan s (g0, i0) j = (voiceGeneration (voice s j), j)
      /\ stealCandidate s j = true /\ voiceGeneration (voice s j) < g0).
Proof.
  unfold stealScan, stealCandidate.
  destruct (channelInUse (voice s j)); simpl; [|left; split; [reflexivity|discriminate]].
  destruct (synthChannelOwner (voice s j) =? NO_SYNTH_OWNER); simpl;
    [left; split; [reflexivity|discriminate]|].
  destruct (voiceGeneration (voice s j) =? 0); simpl;
    [left; split; [reflexivity|discriminate]|].
  destruct (Z.ltb_spec (voiceGeneration (voice s j)) g0) as [H|H].
  - right. repeat split. exact H.
  - left. split; [reflexivity|]. intros _. exact H.
Qed.

Lemma stealScan_fold (s : State) (l : list Z) (g0 i0 : Z) :
  exists g i,
    fold_left (stealScan s) l (g0, i0) = (g, i)
    /\ g <= g0
    /\ (forall j, In j l -> stealCandidate s j = true -> g <= voiceGeneration (voice s j))
    /\ ((g = g0 /\ i = i0)
        \/ (In i l /\ stealCandidate s i = true /\ voiceGeneration (voice s i) = g /\ g < g0)).
Proof.
  revert g0 i0. induction l as [|j l IH]; intros g0 i0; cbn [fold_left].
  - exists g0, i0. repeat split; [lia|intros j []|now left].
  - destruct (stealScan_cases s g0 i0 j) as [[E Hj]|[E [Hc Hlt]]]; rewrite E.
    + destruct (IH g0 i0) as (g & i & Hf & Hle & Hmin & Hsel).
      exists g, i. repeat split; try assumption.
      * intros k [<-|Hk] Hck; [specialize (Hj Hck); lia|now apply Hmin].
      * destruct Hsel as [Hsame|(Hin & Hci & Hgi & Hlt)]; [now left|right].
        repeat split; try assumption. now right.
    + destruct (IH (voiceGeneration (voice s j)) j) as (g & i & Hf & Hle & Hmin & Hsel).
      exists g, i. repeat split; try assumption; [lia| |].
      * intros k [<-|Hk] Hck; [exact Hle|now apply Hmin].
      * right. destruct Hsel as [[-> ->]|(Hin & Hci & Hgi & Hlt')].
        -- repeat split; try assumption; try reflexivity. now left.
        -- repeat split; try assumption; [now right|lia].
Qed.

(** What [stealOldestSynthVoice] returns when some voice can be stolen. *)
Lemma stealOldestSynthVoice_oldest (s : State) (j : Z) :
  0 <= j < POLYPHONY_LIMIT -> stealCandidate s j = true ->
  voiceGeneration (voice s j) < 4294967295 ->
  exists v,
    0 <= v < POLYPHONY_LIMIT
    /\ stealOldestSynthVoice s = Some (v + 1, synthChannelOwner (voice s v))
    /\ stealCandidate s v = true
    /\ forall k, 0 <= k < POLYPHONY_LIMIT -> stealCandidate s k = true ->
                 voiceGeneration (voice s v) <= voiceGeneration (voice s k).
Proof.
  intros Hj Hcj Hgj. unfold stealOldestSynthVoice.
  destruct (stealScan_fold s (seqZ 0 POLYPHONY_LIMIT) 4294967295 (-1))
    as (g & i & Hf & Hle & Hmin & Hsel).
  rewrite Hf.
  assert (Hin : forall k, In k (seqZ 0 POLYPHONY_LIMIT) <-> 0 <= k < POLYPHONY_LIMIT).
  { intros k. rewrite <- list_elem_of_In, elem_of_seqZ. unfold POLYPHONY_LIMIT. lia. }
  destruct Hsel as [[-> ->]|(Hi & Hci & Hgi & Hlt)].
  - exfalso. specialize (Hmin j (proj2 (Hin j) Hj) Hcj). lia.
  - apply Hin in Hi. exists i. split; [exact Hi|].
    destruct (Z.ltb_spec i 0) as [?|_]; [lia|].
    repeat split.
    + f_equal. f_equal. unfold u8. apply Z.mod_small. unfold POLYPHONY_LIMIT in Hi. lia.
    + exact Hci.
    + intros k Hk Hck. rewrite Hgi. apply Hmin; [now apply Hin|exact Hck].
Qed.

Ltac split_ifs :=
  repeat match goal with
         | |- context [if ?c then _ else _] => destruct c
         end.

Lemma updKey_h_length (x : Z) (f : Key -> Key) (s : State) :
  length (h (updKey x f s)) = length (h s).
Proof. unfold updKey. destruct (x <? 0); simpl; [reflexivity|apply length_alter]. Qed.

Lemma updVoice_h (i : Z) (f : Voice -> Voice) (s : State) : h (updVoice i f s) = h s.
Proof. unfold updVoice. now destruct (i <? 0). Qed.

Lemma hkey_updVoice (i : Z) (f : Voice -> Voice) (s : State) (x : Z) :
  hkey (updVoice i f s) x = hkey s x.
Proof. unfold hkey. now rewrite updVoice_h. Qed.

Lemma hkey_updKey_same (x : Z) (f : Key -> Key) (s : State) :
  0 <= x -> (Z.to_nat x < length (h s))%nat -> hkey (updKey x f s) x = f (hkey s x).
Proof.
  intros Hx Hlen. unfold hkey, updKey. destruct (x <? 0) eqn:E; [lia|]. simpl.
  rewrite list_lookup_alter, decide_True by reflexivity.
  destruct (lookup_lt_is_Some_2 (h s) (Z.to_nat x) Hlen) as [k Hk]. now rewrite Hk.
Qed.

Lemma hkey_updKey_other (x y : Z) (f : Key -> Key) (s : State) :
  0 <= y -> x <> y -> hkey (updKey x f s) y = hkey s y.
Proof.
  intros Hy Hne. unfold hkey, updKey. destruct (x <? 0) eqn:E; [reflexivity|]. simpl.
  rewrite list_lookup_alter, decide_False; [reflexivity|]. lia.
Qed.

Lemma processEnvelopeRelease1_frame (s : State) (i : Z) :
  cfg (processEnvelopeRelease1 s i) = cfg s
  /\ nextVoiceGeneration (processEnvelopeRelease1 s i) = nextVoiceGeneration s
  /\ mpeAvailableChannels (processEnvelopeRelease1 s i) = mpeAvailableChannels s
  /\ envelopeParams (processEnvelopeRelease1 s i) = envelopeParams s
  /\ length (h (processEnvelopeRelease1 s i)) = length (h s)
  /\ length (voices (processEnvelopeRelease1 s i)) = length (voices s).
Proof.
  unfold processEnvelopeRelease1, updVoice, updKey.
  split_ifs; simpl; rewrite ?length_alter; repeat split; reflexivity.
Qed.

Lemma processEnvelopeReleases_frame (s : State) :
  cfg (processEnvelopeReleases s) = cfg s
  /\ nextVoiceGeneration (processEnvelopeReleases s) = nextVoiceGeneration s
  /\ mpeAvailableChannels (processEnvelopeReleases s) = mpeAvailableChannels s
  /\ envelopeParams (processEnvelopeReleases s) = envelopeParams s
  /\ length (h (processEnvelopeReleases s)) = length (h s)
  /\ length (voices (processEnvelopeReleases s)) = length (voices s).
Proof.
  unfold processEnvelopeReleases.
  repeat split;
    match goal with
    | |- ?proj (fold_left _ _ _) = _ =>
        apply (fold_left_preserves processEnvelopeRelease1 proj); intros a b;
        apply (processEnvelopeRelease1_frame a b)
    | |- length (?proj (fold_left _ _ _)) = _ =>
        apply (fold_left_preserves processEnvelopeRelease1 (fun s => length (proj s)));
        intros a b; apply (processEnvelopeRelease1_frame a b)
    end.
Qed.

Lemma stealCandidate_lookup (s : State) (i : Z) :
  stealCandidate s i = true -> voices s !! Z.to_nat i = Some (voice s i).
Proof.
  unfold stealCandidate, voice. destruct (voices s !! Z.to_nat i); [reflexivity|].
  simpl. discriminate.
Qed.

(** The voice as [claimSynthVoice] leaves it. *)
Definition claimedVoice (x ng inc : Z) (v : Voice) : Voice :=
  set_increment inc
    (set_counter 0
       (set_command StartAttack
          (set_retryCountdown 0
             (set_retries 0
                (set_needsFree false
                   (set_inUse true (set_generation ng (set_owner x v)))))))).

Lemma claimSynthVoice_effect (x v : Z) (s : State) :
  0 <= v < 255 ->
  exists inc,
    voices (claimSynthVoice x (v + 1) s)
    = alter (claimedVoice x (nextVoiceGeneration s) inc) (Z.to_nat v) (voices s)
    /\ h (claimSynthVoice x (v + 1) s) = h (updKey x (set_synthCh (v + 1)) s)
    /\ nextVoiceGeneration (claimSynthVoice x (v + 1) s) = u32 (nextVoiceGeneration s + 1)
    /\ cfg (claimSynthVoice x (v + 1) s) = cfg s
    /\ synthChQueue (claimSynthVoice x (v + 1) s) = synthChQueue s
    /\ mpeAvailableChannels (claimSynthVoice x (v + 1) s) = mpeAvailableChannels s
    /\ envelopeParams (claimSynthVoice x (v + 1) s) = envelopeParams s.
Proof.
  intros Hv. unfold claimSynthVoice.
  replace (v + 1 - 1) with v by lia.
  assert (Hu8 : u8 v = v) by (unfold u8; apply Z.mod_small; lia). rewrite Hu8.
  unfold setSynthFreq. destruct (Z.eqb_spec (v + 1) 0) as [?|_]; [lia|].
  replace (v + 1 - 1) with v by lia. rewrite Hu8.
  unfold beginEnvelopeAttack, stampGeneration, updVoice, updKey.
  destruct (Z.ltb_spec v 0) as [?|_]; [lia|].
  destruct (x <? 0); eexists; cbn -[alter];
    rewrite !list_alter_alter_eq; repeat split; reflexivity.
Qed.

Lemma dropPreviousOwner_frame (po ch : Z) (s : State) :
  voices (dropPreviousOwner po ch s) = voices s
  /\ nextVoiceGeneration (dropPreviousOwner po ch s) = nextVoiceGeneration s
  /\ length (h (dropPreviousOwner po ch s)) = length (h s)
  /\ synthChQueue (dropPreviousOwner po ch s) = synthChQueue s
  /\ mpeAvailableChannels (dropPreviousOwner po ch s) = mpeAvailableChannels s.
Proof.
  unfold dropPreviousOwner, updKey.
  split_ifs; simpl; rewrite ?length_alter; repeat split; reflexivity.
Qed.

Lemma trySynthNoteOn_steal (x : Z) (s : State) (ch po : Z) :
  playbackMode (cfg s) = SYNTH_POLY ->
  synthChQueue (processEnvelopeReleases s) = [] ->
  stealOldestSynthVoice (processEnvelopeReleases s) = Some (ch, po) ->
  trySynthNoteOn x s
  = sendToLog ("stole synth channel " ++ to_string ch)
      (claimSynthVoice x ch (dropPreviousOwner po ch (processEnvelopeReleases s))).
Proof.
  intros Hpoly Hq Hsteal. unfold trySynthNoteOn. rewrite Hpoly.
  change (SYNTH_POLY =? SYNTH_OFF) with false. change (SYNTH_POLY =? SYNTH_POLY) with true.
  cbv iota. rewrite Hq, Hsteal. reflexivity.
Qed.

(** C1 (as amended). Poly mode: when a note-on for key [x] finds the free-list
    empty (after its own drain of the needs-free flags) and some voice is in use
    with a live owner and a nonzero generation tag, the voice taken over is one
    of those voices and its tag, before reassignment, is the minimum of the
    tags of the in-use voices that have a live owner and a nonzero tag; its
    owner becomes [x], the key records the voice, the global generation counter
    is stamped on the voice and incremented, and StartAttack is issued to it. *)
Theorem steal_takes_oldest_owned_voice (s : State) (x j : Z) :
  playbackMode (cfg s) = SYNTH_POLY ->
  0 <= x -> (Z.to_nat x < length (h s))%nat ->
  synthChQueue (processEnvelopeReleases s) = [] ->
  0 <= j < POLYPHONY_LIMIT -> stealCandidate (processEnvelopeReleases s) j = true ->
  voiceGeneration (voice (processEnvelopeReleases s) j) < 4294967295 ->
  exists v,
    0 <= v < POLYPHONY_LIMIT
    /\ stealCandidate (processEnvelopeReleases s) v = true
    /\ (forall k, 0 <= k < POLYPHONY_LIMIT ->
                  stealCandidate (processEnvelopeReleases s) k = true ->
                  voiceGeneration (voice (processEnvelopeReleases s) v)
                  <= voiceGeneration (voice (processEnvelopeReleases s) k))
    /\ synthChannelOwner (voice (trySynthNoteOn x s) v) = x
    /\ synthCh (hkey (trySynthNoteOn x s) x) = v + 1
    /\ voiceGeneration (voice (trySynthNoteOn x s) v) = nextVoiceGeneration s
    /\ nextVoiceGeneration (trySynthNoteOn x s) = u32 (nextVoiceGeneration s + 1)
    /\ envelopeCommand (voice (trySynthNoteOn x s) v) = StartAttack
    /\ channelInUse (voice (trySynthNoteOn x s) v) = true.
Proof.
  intros Hpoly Hx Hxlen Hq Hj Hcj Hgj.
  set (s1 := processEnvelopeReleases s) in *.
  destruct (stealOldestSynthVoice_oldest s1 j Hj Hcj Hgj) as (v & Hv & Hsteal & Hcv & Hmin).
  exists v. split; [exact Hv|]. split; [exact Hcv|]. split; [exact Hmin|].
  destruct (processEnvelopeReleases_frame s) as (Hcfg & Hng & _ & _ & Hhlen & _).
  fold s1 in Hcfg, Hng, Hhlen.
  rewrite (trySynthNoteOn_steal x s _ _ Hpoly Hq Hsteal). fold s1.
  set (po := synthChannelOwner (voice s1 v)).
  destruct (dropPreviousOwner_frame po (v + 1) s1) as (HAv & HAg & HAh & _ & _).
  set (sA := dropPreviousOwner po (v + 1) s1) in *.
  assert (Hv255 : 0 <= v < 255) by (unfold POLYPHONY_LIMIT in Hv; lia).
  destruct (claimSynthVoice_effect x v sA Hv255) as (inc & HCv & HCh & HCg & _).
  pose proof (stealCandidate_lookup s1 v Hcv) as Hlook.
  assert (Hvoice : voice (sendToLog ("stole synth channel " ++ to_string (v + 1))
                            (claimSynthVoice x (v + 1) sA)) v
                   = claimedVoice x (nextVoiceGeneration s) inc (voice s1 v)).
  { apply voice_lookup. cbn [sendToLog voices set_logOut]. rewrite HCv.
    rewrite list_lookup_alter, decide_True by reflexivity.
    rewrite HAv, Hlook, HAg, Hng. reflexivity. }
  rewrite Hvoice. repeat split.
  - unfold hkey. cbn [sendToLog h set_logOut]. rewrite HCh.
    fold (hkey (updKey x (set_synthCh (v + 1)) sA) x).
    rewrite hkey_updKey_same; [reflexivity|exact Hx|]. rewrite HAh, Hhlen. exact Hxlen.
  - cbn [sendToLog nextVoiceGeneration set_logOut]. rewrite HCg, HAg, Hng. reflexivity.
Qed.

(** ** The MIDI side: frames of the basic updates *)

(** The channel numbers held by the keys, in key order. *)
Definition heldChannels (s : State) : list Z := map MIDIch (h s).

Lemma map_alter_same {A B : Type} (g : A -> B) (f : A -> A) (n : nat) (l : list A) :
  (forall a, g (f a) = g a) -> map g (alter f n l) = map g l.
Proof.
  intros Hgf. revert n. induction l as [|a l IH]; intros [|n]; simpl; try reflexivity.
  - now rewrite Hgf.
  - f_equal. apply IH.
Qed.

Lemma map_alter_insert {A B : Type} (g : A -> B) (f : A -> A) (b : B) (n : nat) (l : list A) :
  (forall a, g (f a) = b) -> map g (alter f n l) = <[n:=b]> (map g l).
Proof.
  intros Hgf. revert n. induction l as [|a l IH]; intros [|n]; simpl; try reflexivity.
  - now rewrite Hgf.
  - f_equal. apply IH.
Qed.

Lemma heldChannels_lookup (s : State) (x : Z) :
  (Z.to_nat x < length (h s))%nat ->
  heldChannels s !! Z.to_nat x = Some (MIDIch (hkey s x)).
Proof.
  intros Hlen. unfold heldChannels, hkey.
  destruct (lookup_lt_is_Some_2 (h s) (Z.to_nat x) Hlen) as [k Hk].
  rewrite Hk. simpl.
  change (map MIDIch (h s)) with (MIDIch <$> h s). rewrite list_lookup_fmap, Hk. reflexivity.
Qed.

Lemma count_occ_insert (l : list Z) (n : nat) (old new d : Z) :
  l !! n = Some old ->
  (count_occ Z.eq_dec (<[n:=new]> l) d + (if Z.eq_dec old d then 1 else 0)
   = count_occ Z.eq_dec l d + (if Z.eq_dec new d then 1 else 0))%nat.
Proof.
  revert n. induction l as [|a l IH]; intros [|n] Hn; simpl in *; try discriminate.
  - inversion Hn; subst. destruct (Z.eq_dec old d), (Z.eq_dec new d); lia.
  - specialize (IH n Hn). destruct (Z.eq_dec a d); lia.
Qed.

Lemma count_occ_insertLowerBound (ch d : Z) (l : list Z) :
  count_occ Z.eq_dec (insertLowerBound ch l) d = count_occ Z.eq_dec (ch :: l) d.
Proof.
  induction l as [|y l IH]; [reflexivity|].
  simpl insertLowerBound. destruct (y <? ch); [|reflexivity].
  simpl in *. rewrite IH. destruct (Z.eq_dec y d), (Z.eq_dec ch d); reflexivity.
Qed.

Lemma insertLowerBound_Permutation (ch : Z) (l : list Z) :
  Permutation (insertLowerBound ch l) (ch :: l).
Proof.
  induction l as [|y l IH]; [reflexivity|].
  simpl. destruct (y <? ch); [|reflexivity].
  rewrite IH. apply perm_swap.
Qed.

Lemma sortChannels_Permutation (l : list Z) : Permutation (sortChannels l) l.
Proof.
  induction l as [|y l IH]; [reflexivity|].
  simpl. rewrite insertLowerBound_Permutation. now constructor.
Qed.

Lemma count_occ_seqZ (m n c : Z) :
  m <= c < m + n -> count_occ Z.eq_dec (seqZ m n) c = 1%nat.
Proof.
  intros Hc. apply NoDup_count_occ'; [apply NoDup_ListNoDup, NoDup_seqZ|].
  apply list_elem_of_In, elem_of_seqZ. lia.
Qed.

(** ** C6: the pitch bend sent with a note-on *)

(** C6. For every key index and every state, the pitch bend computed for
    sending with a note-on, the stored bend plus the just-intonation retune,
    lies in -8192 .. 8191. *)
Theorem combinedPitchBend_in_range (index : Z) (s : State) :
  -8192 <= combinedPitchBend index s <= 8191.
Proof.
  unfold combinedPitchBend.
  destruct (Z.ltb_spec 8191 (bend (hkey s index) + jiRetune (hkey s index))); [lia|].
  destruct (Z.ltb_spec (bend (hkey s index) + jiRetune (hkey s index)) (-8192)); lia.
Qed.

(** ** Views of the state and the operations that keep them *)

(** What the channel allocator reads and writes, apart from the key stack and
    the output. *)
Definition poolView (s : State) :=
  (mpeAvailableChannels s, heldChannels s, mpeLowestChannel s, mpeHighestChannel s,
   mpeChannelQueueActive s, MPEpitchBendsNeeded s, cfg s, length (h s)).

(** What the voice allocator and the audio tick read and write. *)
Definition synthView (s : State) :=
  (voices s, synthChQueue s, nextVoiceGeneration s, envelopeParams s, arpeggiatingNow s,
   cfg s, map synthCh (h s)).

(** Everything on the MIDI side, which the voice allocator and the audio tick
    leave alone: the keys but for their synth channel, the key stack, the
    traffic sent, the pool and its configuration. *)
Definition midiView (s : State) :=
  (map (set_synthCh 0) (h s), pressedKeyIDs s, midiOut s, standardMidiMicrotonalActive s,
   mpeLowestChannel s, mpeHighestChannel s, MPEpitchBendsNeeded s, mpeChannelQueueActive s,
   mpeAvailableChannels s, cfg s).

(** One step of a frame proof [view (...) = rhs]: name the state bound by a
    [let], split a conditional, or strip the outermost operation with a lemma
    of the rewrite base. *)
Ltac keep_let :=
  lazymatch goal with
  | |- ?v (let x := ?e in @?b x) = ?rhs =>
      let H := fresh "Hkeep" in
      let s1 := fresh "s" in
      assert (H : v e = rhs);
      [ | revert H; generalize e; intros s1 H; change (v (b s1) = rhs); cbv beta ]
  end.

Ltac keep_split :=
  lazymatch goal with
  | |- ?v (if ?c then _ else _) = _ => destruct c
  | |- ?v (match ?l with [] => _ | _ :: _ => _ end) = _ => destruct l
  | |- ?v (match ?o with Some _ => _ | None => _ end) = _ => destruct o
  | |- ?v (let '(_, _) := ?e in _) = _ => destruct e
  end.

Lemma updKey_keeps_pool (x : Z) (f : Key -> Key) (s : State) :
  (forall k, MIDIch (f k) = MIDIch k) -> poolView (updKey x f s) = poolView s.
Proof.
  intros Hf. unfold updKey, poolView, heldChannels. destruct (x <? 0); [reflexivity|].
  simpl. rewrite map_alter_same by exact Hf. rewrite length_alter. reflexivity.
Qed.

Lemma updKey_keeps_synth (x : Z) (f : Key -> Key) (s : State) :
  (forall k, synthCh (f k) = synthCh k) -> synthView (updKey x f s) = synthView s.
Proof.
  intros Hf. unfold updKey, synthView. destruct (x <? 0); [reflexivity|].
  simpl. rewrite map_alter_same by exact Hf. reflexivity.
Qed.

Lemma updKey_keeps_midi (x : Z) (f : Key -> Key) (s : State) :
  (forall k, set_synthCh 0 (f k) = set_synthCh 0 k) -> midiView (updKey x f s) = midiView s.
Proof.
  intros Hf. unfold updKey, midiView. destruct (x <? 0); [reflexivity|].
  simpl. rewrite map_alter_same by exact Hf. reflexivity.
Qed.

Lemma updKey_keeps_stack (x : Z) (f : Key -> Key) (s : State) :
  pressedKeyIDs (updKey x f s) = pressedKeyIDs s.
Proof. unfold updKey. now destruct (x <? 0). Qed.

Lemma updVoice_keeps_midi (i : Z) (f : Voice -> Voice) (s : State) :
  midiView (updVoice i f s) = midiView s.
Proof. unfold updVoice. now destruct (i <? 0). Qed.

(** With debug messages off [sendToLog] does nothing at all. *)
Lemma sendToLog_quiet (m : string) (s : State) :
  debugMessages (cfg s) = false -> sendToLog m s = s.
Proof. intros H. unfold sendToLog. rewrite H. now destruct s. Qed.

Lemma sendToLog_logOut (m : string) (s : State) :
  logOut (sendToLog m s)
  = if debugMessages (cfg s) then logOut s ++ [m] else logOut s.
Proof. reflexivity. Qed.

Lemma sendToLog_keeps_midi (m : string) (s : State) : midiView (sendToLog m s) = midiView s.
Proof. reflexivity. Qed.
Lemma sendToLog_keeps_stack (m : string) (s : State) :
  pressedKeyIDs (sendToLog m s) = pressedKeyIDs s.
Proof. reflexivity. Qed.
Lemma withMIDI_keeps_stack (c : list MidiMsg) (s : State) :
  pressedKeyIDs (withMIDI c s) = pressedKeyIDs s.
Proof. reflexivity. Qed.

Lemma sendToLog_keeps_pool (m : string) (s : State) : poolView (sendToLog m s) = poolView s.
Proof. reflexivity. Qed.
Lemma sendToLog_keeps_synth (m : string) (s : State) : synthView (sendToLog m s) = synthView s.
Proof. reflexivity. Qed.
Lemma withMIDI_keeps_pool (c : list MidiMsg) (s : State) : poolView (withMIDI c s) = poolView s.
Proof. reflexivity. Qed.
Lemma withMIDI_keeps_synth (c : list MidiMsg) (s : State) :
  synthView (withMIDI c s) = synthView s.
Proof. reflexivity. Qed.
Lemma set_pressedKeyIDs_keeps_pool (l : list Z) (s : State) :
  poolView (set_pressedKeyIDs l s) = poolView s.
Proof. reflexivity. Qed.
Lemma set_pressedKeyIDs_keeps_synth (l : list Z) (s : State) :
  synthView (set_pressedKeyIDs l s) = synthView s.
Proof. reflexivity. Qed.
Lemma set_mpeAvailableChannels_keeps_synth (l : list Z) (s : State) :
  synthView (set_mpeAvailableChannels l s) = synthView s.
Proof. reflexivity. Qed.
Lemma set_synthChQueue_keeps_midi (l : list Z) (s : State) :
  midiView (set_synthChQueue l s) = midiView s.
Proof. reflexivity. Qed.
Lemma set_nextVoiceGeneration_keeps_midi (g : Z) (s : State) :
  midiView (set_nextVoiceGeneration g s) = midiView s.
Proof. reflexivity. Qed.
Lemma set_arpeggiatingNow_keeps_midi (a : Z) (s : State) :
  midiView (set_arpeggiatingNow a s) = midiView s.
Proof. reflexivity. Qed.
Lemma set_voices_keeps_midi (vs : list Voice) (s : State) :
  midiView (set_voices vs s) = midiView s.
Proof. reflexivity. Qed.

Lemma updKey_jiRetune_keeps_pool (x r : Z) (s : State) :
  poolView (updKey x (set_jiRetune r) s) = poolView s.
Proof. now apply updKey_keeps_pool. Qed.
Lemma updKey_jiRetune_keeps_synth (x r : Z) (s : State) :
  synthView (updKey x (set_jiRetune r) s) = synthView s.
Proof. now apply updKey_keeps_synth. Qed.
Lemma updKey_MIDIch_keeps_synth (x c : Z) (s : State) :
  synthView (updKey x (set_MIDIch c) s) = synthView s.
Proof. now apply updKey_keeps_synth. Qed.
Lemma updKey_synthCh_keeps_midi (x c : Z) (s : State) :
  midiView (updKey x (set_synthCh c) s) = midiView s.
Proof. now apply updKey_keeps_midi. Qed.

Create Rewrite HintDb keeps.
#[local] Hint Rewrite updVoice_keeps_midi sendToLog_keeps_pool sendToLog_keeps_synth
  sendToLog_keeps_midi sendToLog_keeps_stack withMIDI_keeps_stack updKey_keeps_stack
  withMIDI_keeps_pool withMIDI_keeps_synth set_pressedKeyIDs_keeps_pool
  set_pressedKeyIDs_keeps_synth set_mpeAvailableChannels_keeps_synth
  set_synthChQueue_keeps_midi set_nextVoiceGeneration_keeps_midi
  set_arpeggiatingNow_keeps_midi set_voices_keeps_midi updKey_jiRetune_keeps_pool
  updKey_jiRetune_keeps_synth updKey_MIDIch_keeps_synth updKey_synthCh_keeps_midi : keeps.

Ltac keep :=
  repeat first
    [ reflexivity
    | assumption
    | keep_let
    | keep_split
    | progress autorewrite with keeps ].

Lemma justIntonationRetune_keeps_pool (x : Z) (s : State) :
  poolView (justIntonationRetune x s) = poolView s.
Proof. unfold justIntonationRetune. keep. Qed.
Lemma justIntonationRetune_keeps_synth (x : Z) (s : State) :
  synthView (justIntonationRetune x s) = synthView s.
Proof. unfold justIntonationRetune. keep. Qed.
Lemma justIntonationRetune_keeps_stack (x : Z) (s : State) :
  pressedKeyIDs (justIntonationRetune x s) = pressedKeyIDs s.
Proof. unfold justIntonationRetune. keep. Qed.
#[local] Hint Rewrite justIntonationRetune_keeps_pool justIntonationRetune_keeps_synth
  justIntonationRetune_keeps_stack : keeps.

Lemma sendMIDInoteOn_keeps_pool (x : Z) (s : State) :
  poolView (sendMIDInoteOn x s) = poolView s.
Proof. unfold sendMIDInoteOn. keep. Qed.
Lemma sendMIDInoteOn_keeps_synth (x : Z) (s : State) :
  synthView (sendMIDInoteOn x s) = synthView s.
Proof. unfold sendMIDInoteOn. keep. Qed.
Lemma sendMIDInoteOn_stack (x : Z) (s : State) :
  pressedKeyIDs (sendMIDInoteOn x s) = pressedKeyIDs s ++ [x].
Proof.
  unfold sendMIDInoteOn.
  change (pressedKeyIDs s ++ [x])
    with (pressedKeyIDs (set_pressedKeyIDs (pressedKeyIDs s ++ [x]) s)).
  generalize (set_pressedKeyIDs (pressedKeyIDs s ++ [x]) s). intros s0. cbv zeta.
  split_ifs; autorewrite with keeps; reflexivity.
Qed.
#[local] Hint Rewrite sendMIDInoteOn_keeps_pool sendMIDInoteOn_keeps_synth : keeps.

Lemma midiView_inv (s s' : State) :
  midiView s' = midiView s ->
  poolView s' = poolView s
  /\ pressedKeyIDs s' = pressedKeyIDs s
  /\ midiOut s' = midiOut s
  /\ (forall x, set_synthCh 0 (hkey s' x) = set_synthCh 0 (hkey s x)).
Proof.
  unfold midiView, poolView, heldChannels. intros H.
  injection H as H1 H2 H3 H4 H5 H6 H7 H8 H9 H10.
  assert (Hk : forall x, set_synthCh 0 (hkey s' x) = set_synthCh 0 (hkey s x)).
  { intros x. unfold hkey.
    assert (Hl : (set_synthCh 0 <$> h s') !! Z.to_nat x = (set_synthCh 0 <$> h s) !! Z.to_nat x)
      by (change (map (set_synthCh 0) (h s') !! Z.to_nat x
                  = map (set_synthCh 0) (h s) !! Z.to_nat x); now rewrite H1).
    rewrite !list_lookup_fmap in Hl.
    destruct (h s' !! Z.to_nat x), (h s !! Z.to_nat x); simpl in *; congruence. }
  repeat split; try assumption.
  assert (Hm : map MIDIch (h s') = map MIDIch (h s)).
  { assert (Hm : map MIDIch (map (set_synthCh 0) (h s'))
                 = map MIDIch (map (set_synthCh 0) (h s))) by now rewrite H1.
    rewrite !map_map in Hm. exact Hm. }
  assert (Hlen : length (h s') = length (h s)).
  { rewrite <- (length_map (set_synthCh 0) (h s')), H1. apply length_map. }
  rewrite H5, H6, H7, H8, H9, H10, Hm, Hlen. reflexivity.
Qed.

Lemma poolView_inv (s s' : State) :
  poolView s' = poolView s ->
  mpeAvailableChannels s' = mpeAvailableChannels s
  /\ heldChannels s' = heldChannels s
  /\ mpeLowestChannel s' = mpeLowestChannel s
  /\ mpeHighestChannel s' = mpeHighestChannel s
  /\ mpeChannelQueueActive s' = mpeChannelQueueActive s
  /\ MPEpitchBendsNeeded s' = MPEpitchBendsNeeded s
  /\ cfg s' = cfg s
  /\ length (h s') = length (h s).
Proof. unfold poolView. intros H. injection H as H1 H2 H3 H4 H5 H6 H7 H8. tauto. Qed.

Lemma synthView_inv (s s' : State) :
  synthView s' = synthView s ->
  voices s' = voices s
  /\ synthChQueue s' = synthChQueue s
  /\ nextVoiceGeneration s' = nextVoiceGeneration s
  /\ envelopeParams s' = envelopeParams s
  /\ arpeggiatingNow s' = arpeggiatingNow s
  /\ cfg s' = cfg s
  /\ map synthCh (h s') = map synthCh (h s).
Proof. unfold synthView. intros H. injection H as H1 H2 H3 H4 H5 H6 H7. tauto. Qed.

(** The channel of key [x] is the entry of [heldChannels] at [x]; past the end
    of the key table it reads as unassigned. *)
Lemma MIDIch_heldChannels (s : State) (x : Z) :
  MIDIch (hkey s x) = default 0 (heldChannels s !! Z.to_nat x).
Proof.
  unfold hkey, heldChannels. change (map MIDIch (h s)) with (MIDIch <$> h s).
  rewrite list_lookup_fmap. now destruct (h s !! Z.to_nat x).
Qed.

Lemma synthCh_view (s : State) (x : Z) :
  synthCh (hkey s x) = default 0 (map synthCh (h s) !! Z.to_nat x).
Proof.
  unfold hkey. change (map synthCh (h s)) with (synthCh <$> h s).
  rewrite list_lookup_fmap. now destruct (h s !! Z.to_nat x).
Qed.

Lemma poolView_MIDIch (s s' : State) (x : Z) :
  poolView s' = poolView s -> MIDIch (hkey s' x) = MIDIch (hkey s x).
Proof.
  intros H. apply poolView_inv in H. destruct H as (_ & H & _).
  now rewrite !MIDIch_heldChannels, H.
Qed.

Lemma synthView_synthCh (s s' : State) (x : Z) :
  synthView s' = synthView s -> synthCh (hkey s' x) = synthCh (hkey s x).
Proof.
  intros H. apply synthView_inv in H. destruct H as (_ & _ & _ & _ & _ & _ & H).
  now rewrite !synthCh_view, H.
Qed.

Lemma updKey_MIDIch_poolView (x c : Z) (s : State) :
  0 <= x ->
  poolView (updKey x (set_MIDIch c) s)
  = (mpeAvailableChannels s, <[Z.to_nat x:=c]> (heldChannels s), mpeLowestChannel s,
     mpeHighestChannel s, mpeChannelQueueActive s, MPEpitchBendsNeeded s, cfg s,
     length (h s)).
Proof.
  intros Hx. unfold updKey, poolView, heldChannels. destruct (x <? 0) eqn:E; [lia|].
  simpl. rewrite length_alter. rewrite (map_alter_insert MIDIch (set_MIDIch c) c) by reflexivity.
  reflexivity.
Qed.

(** The key has no channel and the note is playable: the branch of
    [tryMIDInoteOn] that looks for a channel. *)
Lemma tryMIDInoteOn_unheld (x : Z) (s : State) :
  note (hkey s x) < 128 -> MIDIch (hkey s x) = 0 ->
  tryMIDInoteOn x s
  = if MIDIch (hkey (assignMIDIchannel x s) x) =? 0 then assignMIDIchannel x s
    else sendMIDInoteOn x (assignMIDIchannel x s).
Proof.
  intros Hn Hc. unfold tryMIDInoteOn.
  destruct (Z.leb_spec 128 (note (hkey s x))); [lia|]. rewrite Hc. reflexivity.
Qed.

(** The pool branch of the channel choice is the one taken. *)
Definition poolBranch (s : State) : Prop :=
  MPEpitchBendsNeeded s <> 1 /\ mpePlayableChannelCount s <> 0
  /\ mpeChannelQueueActive s = true.

Lemma assignMIDIchannel_pool_empty (x : Z) (s : State) :
  poolBranch s -> mpeAvailableChannels s = [] ->
  assignMIDIchannel x s = sendToLog "MPE pool was empty so did not play a MIDI note" s.
Proof.
  intros (Hn & Hp & Hq) He. unfold assignMIDIchannel, takeMPEChannel.
  destruct (Z.eqb_spec (MPEpitchBendsNeeded s) 1); [contradiction|].
  destruct (Z.eqb_spec (mpePlayableChannelCount s) 0); [contradiction|].
  rewrite Hq, He. reflexivity.
Qed.

Lemma assignMIDIchannel_pool_take (x : Z) (s : State) (c : Z) (rest : list Z) :
  poolBranch s -> mpeAvailableChannels s = c :: rest -> c <> 0 ->
  assignMIDIchannel x s
  = sendToLog ("Assigned MPE ch "
               ++ to_string (MIDIch (hkey (updKey x (set_MIDIch c)
                                             (set_mpeAvailableChannels rest s)) x))
               ++ " from pool")
      (updKey x (set_MIDIch c) (set_mpeAvailableChannels rest s)).
Proof.
  intros (Hn & Hp & Hq) He Hc. unfold assignMIDIchannel, takeMPEChannel.
  destruct (Z.eqb_spec (MPEpitchBendsNeeded s) 1); [contradiction|].
  destruct (Z.eqb_spec (mpePlayableChannelCount s) 0); [contradiction|].
  rewrite Hq, He. destruct (Z.eqb_spec c 0); [contradiction|]. reflexivity.
Qed.

Lemma assignMIDIchannel_pool_zero (x : Z) (s : State) (rest : list Z) :
  poolBranch s -> mpeAvailableChannels s = 0 :: rest ->
  assignMIDIchannel x s
  = sendToLog "MPE pool was empty so did not play a MIDI note"
      (set_mpeAvailableChannels rest s).
Proof.
  intros (Hn & Hp & Hq) He. unfold assignMIDIchannel, takeMPEChannel.
  destruct (Z.eqb_spec (MPEpitchBendsNeeded s) 1); [contradiction|].
  destruct (Z.eqb_spec (mpePlayableChannelCount s) 0); [contradiction|].
  rewrite Hq, He. reflexivity.
Qed.

(** C4, first part: with the pool branch active and the pool empty, a note-on
    for a playable key without a channel only writes the log line. *)
Lemma tryMIDInoteOn_pool_empty (x : Z) (s : State) :
  poolBranch s -> mpeAvailableChannels s = [] ->
  note (hkey s x) < 128 -> MIDIch (hkey s x) = 0 ->
  tryMIDInoteOn x s = sendToLog "MPE pool was empty so did not play a MIDI note" s.
Proof.
  intros Hb He Hn Hc. rewrite tryMIDInoteOn_unheld by assumption.
  rewrite assignMIDIchannel_pool_empty by assumption.
  change (hkey (sendToLog "MPE pool was empty so did not play a MIDI note" s) x)
    with (hkey s x).
  rewrite Hc. reflexivity.
Qed.

(** A channel is taken from the front of the pool and given to the key. *)
Lemma tryMIDInoteOn_pool_take (x : Z) (s : State) (c : Z) (rest : list Z) :
  0 <= x -> (Z.to_nat x < length (h s))%nat ->
  poolBranch s -> mpeAvailableChannels s = c :: rest -> c <> 0 ->
  note (hkey s x) < 128 -> MIDIch (hkey s x) = 0 ->
  poolView (tryMIDInoteOn x s)
  = (rest, <[Z.to_nat x:=c]> (heldChannels s), mpeLowestChannel s, mpeHighestChannel s,
     mpeChannelQueueActive s, MPEpitchBendsNeeded s, cfg s, length (h s))
  /\ pressedKeyIDs (tryMIDInoteOn x s) = pressedKeyIDs s ++ [x].
Proof.
  intros Hx Hlen Hb He Hc Hn Hch. rewrite tryMIDInoteOn_unheld by assumption.
  rewrite (assignMIDIchannel_pool_take x s c rest Hb He Hc).
  set (s1 := updKey x (set_MIDIch c) (set_mpeAvailableChannels rest s)).
  assert (H1 : MIDIch (hkey s1 x) = c).
  { subst s1. rewrite hkey_updKey_same; [reflexivity|exact Hx|exact Hlen]. }
  change (hkey (sendToLog ("Assigned MPE ch " ++ to_string (MIDIch (hkey s1 x))
                           ++ " from pool") s1) x) with (hkey s1 x).
  rewrite H1. destruct (Z.eqb_spec c 0); [contradiction|].
  split.
  - autorewrite with keeps. subst s1. rewrite updKey_MIDIch_poolView by exact Hx. reflexivity.
  - rewrite sendMIDInoteOn_stack. autorewrite with keeps. subst s1.
    rewrite updKey_keeps_stack. reflexivity.
Qed.

(** What a note-off does to the pool and the key. *)
Lemma tryMIDInoteOff_held (x : Z) (s : State) :
  0 <= x -> MIDIch (hkey s x) <> 0 ->
  poolView (tryMIDInoteOff x s)
  = ((if mpeChannelQueueActive s && (mpeLowestChannel s <=? MIDIch (hkey s x))
         && (MIDIch (hkey s x) <=? mpeHighestChannel s)
      then if mpeLowPriorityMode (cfg s)
           then insertLowerBound (MIDIch (hkey s x)) (mpeAvailableChannels s)
           else mpeAvailableChannels s ++ [MIDIch (hkey s x)]
      else mpeAvailableChannels s),
     <[Z.to_nat x:=0]> (heldChannels s), mpeLowestChannel s, mpeHighestChannel s,
     mpeChannelQueueActive s, MPEpitchBendsNeeded s, cfg s, length (h s))
  /\ pressedKeyIDs (tryMIDInoteOff x s) = removelast (pressedKeyIDs s)
  /\ synthView (tryMIDInoteOff x s) = synthView s.
Proof.
  intros Hx Hch. unfold tryMIDInoteOff.
  destruct (Z.eqb_spec (MIDIch (hkey s x)) 0) as [?|_]; [contradiction|].
  set (s1 := withMIDI _ s).
  assert (H1 : poolView s1 = poolView s /\ pressedKeyIDs s1 = pressedKeyIDs s
               /\ synthView s1 = synthView s) by (repeat split).
  clearbody s1. cbv zeta.
  set (s2 := updKey x (set_jiRetune 0) (set_pressedKeyIDs (removelast (pressedKeyIDs s1)) s1)).
  assert (H2 : poolView s2 = poolView s /\ pressedKeyIDs s2 = removelast (pressedKeyIDs s)
               /\ synthView s2 = synthView s).
  { destruct H1 as (Ha & Hb & Hc). subst s2. autorewrite with keeps.
    cbn [pressedKeyIDs set_pressedKeyIDs]. rewrite Hb. repeat split; assumption. }
  clearbody s2. clear H1 s1.
  set (s3 := sendToLog _ s2).
  assert (H3 : poolView s3 = poolView s /\ pressedKeyIDs s3 = removelast (pressedKeyIDs s)
               /\ synthView s3 = synthView s) by exact H2.
  clearbody s3. clear H2 s2.
  destruct H3 as (Hp & Hst & Hsy).
  pose proof (poolView_MIDIch s s3 x Hp) as Hm. rewrite Hm.
  destruct (poolView_inv s s3 Hp) as (Hpool & Hheld & Hlo & Hhi & Hq & Hnd & Hcfg & Hlen).
  rewrite Hq, Hlo, Hhi, Hcfg.
  set (ch := MIDIch (hkey s x)) in *.
  assert (Hrel : forall s4, poolView s4 = poolView s ->
            (mpeLowestChannel s <=? ch) && (ch <=? mpeHighestChannel s) = true ->
            poolView (releaseMPEChannel ch s4)
            = ((if mpeLowPriorityMode (cfg s) then insertLowerBound ch (mpeAvailableChannels s)
                else mpeAvailableChannels s ++ [ch]),
               heldChannels s, mpeLowestChannel s, mpeHighestChannel s,
               mpeChannelQueueActive s, MPEpitchBendsNeeded s, cfg s, length (h s))).
  { intros s4 H4 Hin.
    destruct (poolView_inv s s4 H4) as (Hpool4 & Hheld4 & Hlo4 & Hhi4 & Hq4 & Hnd4 & Hcfg4 & Hlen4).
    unfold releaseMPEChannel. rewrite Hlo4, Hhi4, Hcfg4.
    apply andb_true_iff in Hin. destruct Hin as [Hin1 Hin2].
    apply Z.leb_le in Hin1, Hin2.
    destruct (Z.ltb_spec ch (mpeLowestChannel s)); [lia|].
    destruct (Z.ltb_spec (mpeHighestChannel s) ch); [lia|].
    cbn [orb]. autorewrite with keeps.
    destruct (mpeLowPriorityMode (cfg s)); unfold poolView, heldChannels in *;
      cbn [mpeAvailableChannels set_mpeAvailableChannels h mpeLowestChannel mpeHighestChannel
           mpeChannelQueueActive MPEpitchBendsNeeded cfg];
      rewrite Hpool4, Hheld4, Hlo4, Hhi4, Hq4, Hnd4, Hcfg4, Hlen4; reflexivity. }
  destruct (mpeChannelQueueActive s); cbn [andb].
  - destruct ((mpeLowestChannel s <=? ch) && (ch <=? mpeHighestChannel s)) eqn:Hin.
    + assert (Hext : poolView (if extraMPE (cfg s)
                               then withMIDI [AfterTouch 0 ch;
                                              ControlChange 74 (CC74value (cfg s)) ch] s3
                               else s3) = poolView s) by (destruct (extraMPE (cfg s)); exact Hp).
      assert (Hext2 : pressedKeyIDs (if extraMPE (cfg s)
                               then withMIDI [AfterTouch 0 ch;
                                              ControlChange 74 (CC74value (cfg s)) ch] s3
                               else s3) = removelast (pressedKeyIDs s)
                      /\ synthView (if extraMPE (cfg s)
                               then withMIDI [AfterTouch 0 ch;
                                              ControlChange 74 (CC74value (cfg s)) ch] s3
                               else s3) = synthView s)
        by (destruct (extraMPE (cfg s)); split; assumption).
      set (s4 := if extraMPE (cfg s) then _ else s3) in *. clearbody s4.
      rewrite (poolView_MIDIch s s4 x Hext). fold ch.
      pose proof (Hrel s4 Hext eq_refl) as Hr.
      set (s5 := releaseMPEChannel ch s4) in *.
      assert (H5 : pressedKeyIDs s5 = removelast (pressedKeyIDs s)
                   /\ synthView s5 = synthView s).
      { subst s5. unfold releaseMPEChannel. split_ifs; autorewrite with keeps;
          cbn [pressedKeyIDs set_mpeAvailableChannels]; exact Hext2. }
      clearbody s5. rewrite updKey_MIDIch_poolView by exact Hx.
      autorewrite with keeps. destruct H5 as [H5a H5b].
      split; [|split; assumption].
      unfold poolView in Hr. injection Hr as E1 E2 E3 E4 E5 E6 E7 E8. congruence.
    + rewrite updKey_MIDIch_poolView by exact Hx.
      autorewrite with keeps. split; [|split; assumption].
      unfold poolView in Hp. injection Hp as E1 E2 E3 E4 E5 E6 E7 E8. congruence.
  - rewrite updKey_MIDIch_poolView by exact Hx.
    autorewrite with keeps. split; [|split; assumption].
    unfold poolView in Hp. injection Hp as E1 E2 E3 E4 E5 E6 E7 E8. congruence.
Qed.

(** ** The voice allocator and the audio tick keep the MIDI side *)

Lemma fold_left_keeps {V : Type} (view : State -> V) (f : State -> Z -> State) :
  (forall s i, view (f s i) = view s) ->
  forall (l : list Z) (s : State), view (fold_left f l s) = view s.
Proof. intros Hf. exact (fold_left_preserves f view Hf). Qed.

Lemma setSynthFreq_keeps_midi (x ch : Z) (s : State) :
  midiView (setSynthFreq x ch s) = midiView s.
Proof. unfold setSynthFreq. keep. Qed.
Lemma beginEnvelopeAttack_keeps_midi (ch : Z) (s : State) :
  midiView (beginEnvelopeAttack ch s) = midiView s.
Proof. unfold beginEnvelopeAttack. keep. Qed.
Lemma beginEnvelopeRelease_keeps_midi (ch : Z) (s : State) :
  midiView (beginEnvelopeRelease ch s) = midiView s.
Proof. unfold beginEnvelopeRelease. keep. Qed.
Lemma stampGeneration_keeps_midi (i : Z) (s : State) :
  midiView (stampGeneration i s) = midiView s.
Proof. unfold stampGeneration. keep. Qed.
#[local] Hint Rewrite setSynthFreq_keeps_midi beginEnvelopeAttack_keeps_midi
  beginEnvelopeRelease_keeps_midi stampGeneration_keeps_midi : keeps.

Lemma claimSynthVoice_keeps_midi (x ch : Z) (s : State) :
  midiView (claimSynthVoice x ch s) = midiView s.
Proof. unfold claimSynthVoice. keep. Qed.
Lemma dropPreviousOwner_keeps_midi (po ch : Z) (s : State) :
  midiView (dropPreviousOwner po ch s) = midiView s.
Proof. unfold dropPreviousOwner. keep. Qed.
Lemma processEnvelopeRelease1_keeps_midi (s : State) (i : Z) :
  midiView (processEnvelopeRelease1 s i) = midiView s.
Proof. unfold processEnvelopeRelease1. keep. Qed.
Lemma processEnvelopeReleases_keeps_midi (s : State) :
  midiView (processEnvelopeReleases s) = midiView s.
Proof. apply fold_left_keeps, processEnvelopeRelease1_keeps_midi. Qed.
Lemma retryPendingRelease1_keeps_midi (s : State) (i : Z) :
  midiView (retryPendingRelease1 s i) = midiView s.
Proof. unfold retryPendingRelease1. keep. Qed.
Lemma retryPendingReleases_keeps_midi (s : State) :
  midiView (retryPendingReleases s) = midiView s.
Proof. apply fold_left_keeps, retryPendingRelease1_keeps_midi. Qed.
Lemma replaceMonoSynthWith_keeps_midi (x : Z) (s : State) :
  midiView (replaceMonoSynthWith x s) = midiView s.
Proof. unfold replaceMonoSynthWith. keep. Qed.
#[local] Hint Rewrite claimSynthVoice_keeps_midi dropPreviousOwner_keeps_midi
  processEnvelopeReleases_keeps_midi retryPendingReleases_keeps_midi
  replaceMonoSynthWith_keeps_midi : keeps.

Lemma trySynthNoteOn_keeps_midi (x : Z) (s : State) :
  midiView (trySynthNoteOn x s) = midiView s.
Proof.
  unfold trySynthNoteOn.
  destruct (playbackMode (cfg s) =? SYNTH_OFF); [reflexivity|].
  destruct (playbackMode (cfg s) =? SYNTH_POLY); [|keep].
  assert (H : midiView (processEnvelopeReleases s) = midiView s)
    by apply processEnvelopeReleases_keeps_midi.
  revert H. generalize (processEnvelopeReleases s). intros s1 H. cbv zeta.
  destruct (synthChQueue s1).
  - destruct (stealOldestSynthVoice s1) as [[ch po]|]; autorewrite with keeps; exact H.
  - autorewrite with keeps. exact H.
Qed.

Lemma releaseByOwner_keeps_midi (x : Z) (l : list Z) (s : State) :
  midiView (releaseByOwner x s l) = midiView s.
Proof.
  induction l as [|i l IH]; [reflexivity|]. simpl.
  destruct (negb (channelInUse (voice s i))); [exact IH|].
  destruct (synthChannelOwner (voice s i) =? x); [|exact IH].
  autorewrite with keeps. reflexivity.
Qed.

Lemma trySynthNoteOff_keeps_midi (x : Z) (s : State) :
  midiView (trySynthNoteOff x s) = midiView s.
Proof.
  unfold trySynthNoteOff.
  destruct (negb (playbackMode (cfg s) =? 0) && negb (playbackMode (cfg s) =? SYNTH_POLY)).
  { keep. }
  destruct (negb (playbackMode (cfg s) =? SYNTH_POLY)); [reflexivity|].
  destruct (negb (synthCh (hkey s x) =? 0)); [keep|].
  apply releaseByOwner_keeps_midi.
Qed.

Lemma poll_keeps_midi (s : State) : midiView (poll s) = midiView s.
Proof. unfold poll. now destruct (pollVoices _ _ _). Qed.

Lemma pollN_keeps_midi (n : nat) (s : State) : midiView (pollN n s) = midiView s.
Proof.
  induction n as [|n IH]; [reflexivity|].
  unfold pollN in *. simpl. now rewrite poll_keeps_midi.
Qed.

(** ** The channel allocator keeps the synth side *)

Lemma releaseMPEChannel_keeps_synth (ch : Z) (s : State) :
  synthView (releaseMPEChannel ch s) = synthView s.
Proof. unfold releaseMPEChannel. keep. Qed.

Lemma assignMIDIchannel_keeps_synth (x : Z) (s : State) :
  synthView (assignMIDIchannel x s) = synthView s.
Proof.
  unfold assignMIDIchannel, takeMPEChannel.
  destruct (MPEpitchBendsNeeded s =? 1); [keep|]. cbv zeta.
  destruct (mpePlayableChannelCount s =? 0); [keep|].
  destruct (mpeChannelQueueActive s); [|keep].
  destruct (mpeAvailableChannels s) as [|c rest]; [keep|].
  destruct (c =? 0); keep.
Qed.
#[local] Hint Rewrite releaseMPEChannel_keeps_synth assignMIDIchannel_keeps_synth : keeps.

Lemma tryMIDInoteOn_keeps_synth (x : Z) (s : State) :
  synthView (tryMIDInoteOn x s) = synthView s.
Proof. unfold tryMIDInoteOn. keep. Qed.

Lemma tryMIDInoteOff_keeps_synth (x : Z) (s : State) :
  synthView (tryMIDInoteOff x s) = synthView s.
Proof. unfold tryMIDInoteOff. keep. Qed.

(** ** The key stack *)

Lemma assignMIDIchannel_other (x y : Z) (s : State) :
  x <> y -> 0 <= y ->
  MIDIch (hkey (assignMIDIchannel x s) y) = MIDIch (hkey s y).
Proof.
  intros Hne Hy. unfold assignMIDIchannel, takeMPEChannel.
  destruct (MPEpitchBendsNeeded s =? 1).
  { destruct (standardMidiMicrotonalActive s); now rewrite hkey_updKey_other. }
  cbv zeta. destruct (mpePlayableChannelCount s =? 0); [reflexivity|].
  destruct (mpeChannelQueueActive s); [|now rewrite hkey_updKey_other].
  destruct (mpeAvailableChannels s) as [|c rest]; [reflexivity|].
  destruct (c =? 0); [reflexivity|].
  change (MIDIch (hkey (updKey x (set_MIDIch c) (set_mpeAvailableChannels rest s)) y)
          = MIDIch (hkey s y)).
  now rewrite hkey_updKey_other.
Qed.

Lemma assignMIDIchannel_stack (x : Z) (s : State) :
  pressedKeyIDs (assignMIDIchannel x s) = pressedKeyIDs s.
Proof.
  unfold assignMIDIchannel, takeMPEChannel.
  destruct (MPEpitchBendsNeeded s =? 1); [keep|]. cbv zeta.
  destruct (mpePlayableChannelCount s =? 0); [keep|].
  destruct (mpeChannelQueueActive s); [|keep].
  destruct (mpeAvailableChannels s) as [|c rest]; [keep|].
  destruct (c =? 0); keep.
Qed.

Lemma tryMIDInoteOn_other (x y : Z) (s : State) :
  x <> y -> 0 <= y ->
  MIDIch (hkey (tryMIDInoteOn x s) y) = MIDIch (hkey s y).
Proof.
  intros Hne Hy. unfold tryMIDInoteOn.
  destruct (128 <=? note (hkey s x)); [reflexivity|].
  destruct (negb (MIDIch (hkey s x) =? 0)); [reflexivity|]. cbv zeta.
  destruct (MIDIch (hkey (assignMIDIchannel x s) x) =? 0).
  - now apply assignMIDIchannel_other.
  - rewrite (poolView_MIDIch _ _ y (sendMIDInoteOn_keeps_pool x (assignMIDIchannel x s))).
    now apply assignMIDIchannel_other.
Qed.

Lemma tryMIDInoteOn_stack (x : Z) (s : State) :
  MIDIch (hkey s x) = 0 -> MIDIch (hkey (tryMIDInoteOn x s) x) <> 0 ->
  pressedKeyIDs (tryMIDInoteOn x s) = pressedKeyIDs s ++ [x].
Proof.
  intros Hc. unfold tryMIDInoteOn.
  destruct (128 <=? note (hkey s x)); [intros Hn; contradiction|].
  rewrite Hc. cbn [Z.eqb negb]. cbv zeta.
  destruct (MIDIch (hkey (assignMIDIchannel x s) x) =? 0) eqn:E.
  - apply Z.eqb_eq in E. intros Hn. contradiction.
  - intros _. now rewrite sendMIDInoteOn_stack, assignMIDIchannel_stack.
Qed.

Lemma pressKey_midi (x : Z) (s : State) : midiView (pressKey x s) = midiView (tryMIDInoteOn x s).
Proof. apply trySynthNoteOn_keeps_midi. Qed.

Lemma releaseKey_midi (x : Z) (s : State) :
  midiView (releaseKey x s) = midiView (tryMIDInoteOff x s).
Proof. apply trySynthNoteOff_keeps_midi. Qed.

Lemma midiView_MIDIch (s s' : State) (x : Z) :
  midiView s' = midiView s -> MIDIch (hkey s' x) = MIDIch (hkey s x).
Proof. intros H. apply poolView_MIDIch. now apply midiView_inv in H. Qed.

Lemma midiView_stack (s s' : State) :
  midiView s' = midiView s -> pressedKeyIDs s' = pressedKeyIDs s.
Proof. intros H. now apply midiView_inv in H. Qed.

Lemma midiView_note (s s' : State) (x : Z) :
  midiView s' = midiView s -> note (hkey s' x) = note (hkey s x).
Proof.
  intros H. apply midiView_inv in H. destruct H as (_ & _ & _ & H).
  specialize (H x). now apply (f_equal note) in H.
Qed.

Lemma tryMIDInoteOff_heldChannels (x : Z) (s : State) :
  0 <= x -> MIDIch (hkey s x) <> 0 ->
  heldChannels (tryMIDInoteOff x s) = <[Z.to_nat x:=0]> (heldChannels s).
Proof.
  intros Hx Hc. destruct (tryMIDInoteOff_held x s Hx Hc) as (Hp & _).
  unfold poolView in Hp. injection Hp. intros. assumption.
Qed.

(** C10. A release pops the last entry of [pressedKeyIDs], whichever key is
    released: for keys A then B pressed in that order (both receiving a
    channel), releasing A leaves the stack with A's entry and without B's,
    although A is no longer held and B is. *)
Theorem release_pops_last_pressed (s : State) (a b : Z) :
  0 <= a -> 0 <= b -> a <> b ->
  MIDIch (hkey s a) = 0 -> MIDIch (hkey s b) = 0 ->
  MIDIch (hkey (pressKey a s) a) <> 0 ->
  MIDIch (hkey (pressKey b (pressKey a s)) b) <> 0 ->
  pressedKeyIDs (pressKey b (pressKey a s)) = pressedKeyIDs s ++ [a; b]
  /\ pressedKeyIDs (releaseKey a (pressKey b (pressKey a s))) = pressedKeyIDs s ++ [a]
  /\ MIDIch (hkey (releaseKey a (pressKey b (pressKey a s))) a) = 0
  /\ MIDIch (hkey (releaseKey a (pressKey b (pressKey a s))) b) <> 0.
Proof.
  intros Ha Hb Hne Hca Hcb Hpa Hpb.
  set (s1 := pressKey a s) in *.
  set (s2 := pressKey b s1) in *.
  assert (H1 : pressedKeyIDs s1 = pressedKeyIDs s ++ [a]).
  { subst s1. rewrite (midiView_stack _ _ (pressKey_midi a s)).
    apply tryMIDInoteOn_stack; [exact Hca|].
    now rewrite <- (midiView_MIDIch _ _ a (pressKey_midi a s)). }
  assert (Hb1 : MIDIch (hkey s1 b) = 0).
  { subst s1. rewrite (midiView_MIDIch _ _ b (pressKey_midi a s)).
    now rewrite tryMIDInoteOn_other. }
  assert (H2 : pressedKeyIDs s2 = pressedKeyIDs s ++ [a; b]).
  { subst s2. rewrite (midiView_stack _ _ (pressKey_midi b s1)).
    rewrite tryMIDInoteOn_stack; [rewrite H1, <- app_assoc; reflexivity|exact Hb1|].
    now rewrite <- (midiView_MIDIch _ _ b (pressKey_midi b s1)). }
  assert (Ha2 : MIDIch (hkey s2 a) <> 0).
  { subst s2. rewrite (midiView_MIDIch _ _ a (pressKey_midi b s1)).
    rewrite tryMIDInoteOn_other; [exact Hpa|congruence|exact Ha]. }
  destruct (tryMIDInoteOff_held a s2 Ha Ha2) as (_ & Hst & _).
  pose proof (tryMIDInoteOff_heldChannels a s2 Ha Ha2) as Hheld.
  split; [exact H2|]. split; [|split].
  - rewrite (midiView_stack _ _ (releaseKey_midi a s2)), Hst, H2.
    change [a; b] with ([a] ++ [b]). rewrite app_assoc. apply removelast_last.
  - rewrite (midiView_MIDIch _ _ a (releaseKey_midi a s2)).
    rewrite MIDIch_heldChannels, Hheld.
    cbn [fst snd]. rewrite list_lookup_insert.
    destruct (decide _) as [[_ Hlt]|Hge]; [reflexivity|].
    rewrite MIDIch_heldChannels in Ha2.
    destruct (heldChannels s2 !! Z.to_nat a) eqn:E; [|contradiction].
    apply lookup_lt_Some in E. exfalso. apply Hge. split; [reflexivity|exact E].
  - rewrite (midiView_MIDIch _ _ b (releaseKey_midi a s2)).
    rewrite MIDIch_heldChannels, Hheld. cbn [fst snd].
    rewrite list_lookup_insert_ne by lia.
    rewrite <- MIDIch_heldChannels. exact Hpb.
Qed.

(** ** Channel exclusivity *)

(** Every channel of the configured range is once in the pool or held by one
    key, never both, never twice. *)
Definition channelExclusive (s : State) : Prop :=
  forall c, mpeLowestChannel s <= c <= mpeHighestChannel s ->
    (count_occ Z.eq_dec (mpeAvailableChannels s) c
     + count_occ Z.eq_dec (heldChannels s) c = 1)%nat.

(** The pool is active, over a range as [resetTuningMIDI] leaves it, and the
    pool and the keys hold channels of that range only. *)
Definition poolInv (s : State) : Prop :=
  mpeChannelQueueActive s = true
  /\ MPEpitchBendsNeeded s <> 1
  /\ 2 <= mpeLowestChannel s <= mpeHighestChannel s /\ mpeHighestChannel s <= 16
  /\ channelExclusive s
  /\ Forall (fun c => mpeLowestChannel s <= c <= mpeHighestChannel s) (mpeAvailableChannels s)
  /\ Forall (fun c => c = 0 \/ mpeLowestChannel s <= c <= mpeHighestChannel s)
       (heldChannels s).

Lemma poolInv_view (s s' : State) : poolView s' = poolView s -> poolInv s -> poolInv s'.
Proof.
  intros H. apply poolView_inv in H.
  destruct H as (Hp & Hh & Hlo & Hhi & Hq & Hn & _).
  unfold poolInv, channelExclusive. rewrite Hp, Hh, Hlo, Hhi, Hq, Hn. tauto.
Qed.

Lemma poolInv_poolBranch (s : State) : poolInv s -> poolBranch s.
Proof.
  intros (Hq & Hn & Hlo & Hhi & _). repeat split; try assumption.
  unfold mpePlayableChannelCount.
  destruct (Z.ltb_spec (mpeHighestChannel s) (mpeLowestChannel s)); [lia|].
  unfold u8. rewrite Z.mod_small by lia. lia.
Qed.

Lemma Forall_insert_Z (P : Z -> Prop) (l : list Z) (n : nat) (c : Z) :
  Forall P l -> P c -> Forall P (<[n:=c]> l).
Proof.
  intros Hl Hc. revert n. induction Hl as [|a l Ha Hl IH]; intros [|n]; simpl;
    constructor; auto.
Qed.

Lemma Forall_insertLowerBound (P : Z -> Prop) (l : list Z) (c : Z) :
  Forall P l -> P c -> Forall P (insertLowerBound c l).
Proof.
  intros Hl Hc. induction Hl as [|a l Ha Hl IH]; simpl.
  - constructor; [exact Hc|constructor].
  - destruct (a <? c); constructor; auto.
Qed.

Lemma poolInv_noteOn (x : Z) (s : State) :
  0 <= x -> (Z.to_nat x < length (h s))%nat -> poolInv s -> poolInv (tryMIDInoteOn x s).
Proof.
  intros Hx Hlen Hinv.
  destruct (Z.leb_spec 128 (note (hkey s x))) as [Hn|Hn].
  { unfold tryMIDInoteOn. destruct (Z.leb_spec 128 (note (hkey s x))); [exact Hinv|lia]. }
  destruct (Z.eq_dec (MIDIch (hkey s x)) 0) as [Hc|Hc].
  2:{ unfold tryMIDInoteOn. destruct (128 <=? note (hkey s x)); [exact Hinv|].
      destruct (Z.eqb_spec (MIDIch (hkey s x)) 0); [contradiction|exact Hinv]. }
  pose proof (poolInv_poolBranch s Hinv) as Hb.
  destruct (mpeAvailableChannels s) as [|c rest] eqn:Hpool.
  { rewrite (tryMIDInoteOn_pool_empty x s Hb Hpool Hn Hc). exact Hinv. }
  destruct Hinv as (Hq & Hnd & Hlo & Hhi & Hex & Hpin & Hhin).
  rewrite Hpool in Hpin. apply Forall_cons in Hpin. destruct Hpin as [Hcin Hrest].
  assert (Hc0 : c <> 0) by lia.
  destruct (tryMIDInoteOn_pool_take x s c rest Hx Hlen Hb Hpool Hc0 Hn Hc) as [Hv _].
  unfold poolView in Hv. injection Hv as E1 E2 E3 E4 E5 E6 E7 E8.
  unfold poolInv, channelExclusive. rewrite E1, E2, E3, E4, E5, E6.
  repeat split; try assumption; try lia.
  - intros d Hd. specialize (Hex d Hd). rewrite Hpool in Hex.
    pose proof (heldChannels_lookup s x Hlen) as Hl. rewrite Hc in Hl.
    pose proof (count_occ_insert (heldChannels s) (Z.to_nat x) 0 c d Hl) as Hins.
    simpl in Hex. destruct (Z.eq_dec c d), (Z.eq_dec 0 d); lia.
  - apply Forall_insert_Z; [exact Hhin|right; exact Hcin].
Qed.

Lemma poolInv_noteOff (x : Z) (s : State) :
  0 <= x -> poolInv s -> poolInv (tryMIDInoteOff x s).
Proof.
  intros Hx Hinv.
  destruct (Z.eq_dec (MIDIch (hkey s x)) 0) as [Hc|Hc].
  { unfold tryMIDInoteOff. destruct (Z.eqb_spec (MIDIch (hkey s x)) 0); [exact Hinv|lia]. }
  destruct (tryMIDInoteOff_held x s Hx Hc) as (Hv & _).
  destruct Hinv as (Hq & Hnd & Hlo & Hhi & Hex & Hpin & Hhin).
  assert (Hl : heldChannels s !! Z.to_nat x = Some (MIDIch (hkey s x))).
  { rewrite MIDIch_heldChannels in Hc |- *.
    destruct (heldChannels s !! Z.to_nat x); [reflexivity|contradiction]. }
  assert (Hin : mpeLowestChannel s <= MIDIch (hkey s x) <= mpeHighestChannel s).
  { rewrite Forall_forall in Hhin.
    destruct (Hhin (MIDIch (hkey s x))) as [?|?]; [|contradiction|assumption].
    eapply list_elem_of_lookup_2. exact Hl. }
  rewrite Hq in Hv. cbn [andb] in Hv.
  destruct (Z.leb_spec (mpeLowestChannel s) (MIDIch (hkey s x))); [|lia].
  destruct (Z.leb_spec (MIDIch (hkey s x)) (mpeHighestChannel s)); [|lia].
  cbn [andb] in Hv.
  unfold poolView in Hv. injection Hv as E1 E2 E3 E4 E5 E6 E7 E8.
  unfold poolInv, channelExclusive. rewrite E1, E2, E3, E4, E5, E6.
  repeat split; try assumption; try lia.
  - intros d Hd. specialize (Hex d Hd).
    pose proof (count_occ_insert (heldChannels s) (Z.to_nat x) (MIDIch (hkey s x)) 0 d Hl)
      as Hins.
    assert (Hp : count_occ Z.eq_dec
                   (if mpeLowPriorityMode (cfg s)
                    then insertLowerBound (MIDIch (hkey s x)) (mpeAvailableChannels s)
                    else mpeAvailableChannels s ++ [MIDIch (hkey s x)]) d
                 = ((if Z.eq_dec (MIDIch (hkey s x)) d then 1 else 0)
                    + count_occ Z.eq_dec (mpeAvailableChannels s) d)%nat).
    { destruct (mpeLowPriorityMode (cfg s)).
      - rewrite count_occ_insertLowerBound. simpl.
        destruct (Z.eq_dec (MIDIch (hkey s x)) d); reflexivity.
      - rewrite count_occ_app. simpl. destruct (Z.eq_dec (MIDIch (hkey s x)) d); lia. }
    rewrite Hp. destruct (Z.eq_dec (MIDIch (hkey s x)) d), (Z.eq_dec 0 d); lia.
  - destruct (mpeLowPriorityMode (cfg s)).
    + apply Forall_insertLowerBound; assumption.
    + apply Forall_app. split; [assumption|]. constructor; [assumption|constructor].
  - apply Forall_insert_Z; [exact Hhin|now left].
Qed.

(** *** The pool as [resetTuningMIDI] builds it *)

Lemma setPitchBendRange_keeps_pool (ch semis : Z) (s : State) :
  poolView (setPitchBendRange ch semis s) = poolView s.
Proof. reflexivity. Qed.
Lemma setMPEzone_keeps_pool (ch size : Z) (s : State) :
  poolView (setMPEzone ch size s) = poolView s.
Proof. reflexivity. Qed.
#[local] Hint Rewrite setPitchBendRange_keeps_pool setMPEzone_keeps_pool : keeps.

Lemma resetChannelControllers_keeps_pool (s : State) :
  poolView (resetChannelControllers s) = poolView s.
Proof.
  unfold resetChannelControllers. apply fold_left_keeps. intros s0 i. keep.
Qed.

Lemma advertiseMPEzone_keeps_pool (s : State) : poolView (advertiseMPEzone s) = poolView s.
Proof. unfold advertiseMPEzone. keep. Qed.

Lemma decideMPEpitchBends_effect (s : State) :
  (MPEpitchBendsNeeded (decideMPEpitchBends s) = 1
   \/ MPEpitchBendsNeeded (decideMPEpitchBends s) = 255)
  /\ mpeAvailableChannels (decideMPEpitchBends s) = mpeAvailableChannels s
  /\ heldChannels (decideMPEpitchBends s) = heldChannels s
  /\ mpeLowestChannel (decideMPEpitchBends s) = mpeLowestChannel s
  /\ mpeHighestChannel (decideMPEpitchBends s) = mpeHighestChannel s
  /\ cfg (decideMPEpitchBends s) = cfg s
  /\ midiOut (decideMPEpitchBends s) = midiOut s.
Proof.
  unfold decideMPEpitchBends. cbv zeta.
  cbn [cfg set_standardMidiMicrotonalActive].
  split_ifs; cbn; repeat split; auto.
Qed.

Lemma clampMPEChannelRange_effect (s : State) :
  2 <= mpeLowestChannel (clampMPEChannelRange s) <= mpeHighestChannel (clampMPEChannelRange s)
  /\ mpeHighestChannel (clampMPEChannelRange s) <= 16
  /\ MPEpitchBendsNeeded (clampMPEChannelRange s) = MPEpitchBendsNeeded s
  /\ heldChannels (clampMPEChannelRange s) = heldChannels s
  /\ cfg (clampMPEChannelRange s) = cfg s
  /\ midiOut (clampMPEChannelRange s) = midiOut s.
Proof.
  unfold clampMPEChannelRange. cbn.
  repeat (match goal with
          | |- context [?a <? ?b] => destruct (Z.ltb_spec a b)
          end; cbn in *);
    repeat split; try reflexivity; lia.
Qed.

Lemma normaliseMPEChannelRange_effect (s : State) :
  2 <= mpeLowestChannel (normaliseMPEChannelRange s)
       <= mpeHighestChannel (normaliseMPEChannelRange s)
  /\ mpeHighestChannel (normaliseMPEChannelRange s) <= 16
  /\ MPEpitchBendsNeeded (normaliseMPEChannelRange s) = MPEpitchBendsNeeded s
  /\ heldChannels (normaliseMPEChannelRange s) = heldChannels s
  /\ cfg (normaliseMPEChannelRange s) = cfg s
  /\ midiOut (normaliseMPEChannelRange s) = midiOut s.
Proof.
  unfold normaliseMPEChannelRange. cbv zeta.
  pose proof (clampMPEChannelRange_effect s) as H.
  destruct (mpePlayableChannelCount (clampMPEChannelRange s) =? 0); [|exact H].
  cbn. destruct H as (_ & _ & H3 & H4 & H5 & H6). repeat split; try assumption; lia.
Qed.

Lemma resetMPEChannelPool_fill (l : list Z) (s : State) :
  let s' := fold_left
              (fun s ch =>
                 sendToLog ("added ch " ++ to_string ch ++ " to the MPE pool")
                   (set_mpeAvailableChannels (mpeAvailableChannels s ++ [ch]) s)) l s in
  mpeAvailableChannels s' = mpeAvailableChannels s ++ l
  /\ heldChannels s' = heldChannels s /\ mpeLowestChannel s' = mpeLowestChannel s
  /\ mpeHighestChannel s' = mpeHighestChannel s
  /\ mpeChannelQueueActive s' = mpeChannelQueueActive s
  /\ MPEpitchBendsNeeded s' = MPEpitchBendsNeeded s /\ cfg s' = cfg s
  /\ midiOut s' = midiOut s.
Proof.
  revert s. induction l as [|c l IH]; intros s; cbn [fold_left].
  - rewrite app_nil_r. repeat split.
  - destruct (IH (sendToLog ("added ch " ++ to_string c ++ " to the MPE pool")
                    (set_mpeAvailableChannels (mpeAvailableChannels s ++ [c]) s)))
      as (H1 & H2 & H3 & H4 & H5 & H6 & H7 & H8).
    cbv zeta. rewrite H1, H2, H3, H4, H5, H6, H7, H8. cbn. rewrite <- app_assoc.
    repeat split.
Qed.

Lemma resetMPEChannelPool_effect (s : State) :
  Permutation (mpeAvailableChannels (resetMPEChannelPool s))
    (seqZ (mpeLowestChannel s) (mpeHighestChannel s - mpeLowestChannel s + 1))
  /\ heldChannels (resetMPEChannelPool s) = heldChannels s
  /\ mpeLowestChannel (resetMPEChannelPool s) = mpeLowestChannel s
  /\ mpeHighestChannel (resetMPEChannelPool s) = mpeHighestChannel s
  /\ mpeChannelQueueActive (resetMPEChannelPool s) = mpeChannelQueueActive s
  /\ MPEpitchBendsNeeded (resetMPEChannelPool s) = MPEpitchBendsNeeded s
  /\ cfg (resetMPEChannelPool s) = cfg s
  /\ midiOut (resetMPEChannelPool s) = midiOut s.
Proof.
  unfold resetMPEChannelPool. cbv zeta.
  pose proof (resetMPEChannelPool_fill
                (seqZ (mpeLowestChannel s) (mpeHighestChannel s - mpeLowestChannel s + 1))
                (set_mpeAvailableChannels [] s)) as H.
  cbv zeta in H.
  change (mpeLowestChannel (set_mpeAvailableChannels [] s)) with (mpeLowestChannel s) in *.
  change (mpeHighestChannel (set_mpeAvailableChannels [] s)) with (mpeHighestChannel s) in *.
  change (mpeAvailableChannels (set_mpeAvailableChannels [] s)) with (@nil Z) in H.
  change (heldChannels (set_mpeAvailableChannels [] s)) with (heldChannels s) in H.
  change (mpeChannelQueueActive (set_mpeAvailableChannels [] s))
    with (mpeChannelQueueActive s) in H.
  change (MPEpitchBendsNeeded (set_mpeAvailableChannels [] s)) with (MPEpitchBendsNeeded s) in H.
  change (cfg (set_mpeAvailableChannels [] s)) with (cfg s) in H.
  change (midiOut (set_mpeAvailableChannels [] s)) with (midiOut s) in H.
  revert H. generalize (fold_left
       (fun (s0 : State) (ch : Z) =>
          sendToLog ("added ch " ++ to_string ch ++ " to the MPE pool")
            (set_mpeAvailableChannels (mpeAvailableChannels s0 ++ [ch]) s0))
       (seqZ (mpeLowestChannel s) (mpeHighestChannel s - mpeLowestChannel s + 1))
       (set_mpeAvailableChannels [] s)).
  intros s1 (H1 & H2 & H3 & H4 & H5 & H6 & H7 & H8). rewrite H7.
  destruct (mpeLowPriorityMode (cfg s));
    cbn [mpeAvailableChannels set_mpeAvailableChannels heldChannels h mpeLowestChannel
         mpeHighestChannel mpeChannelQueueActive MPEpitchBendsNeeded cfg midiOut];
    fold (heldChannels s1); rewrite H1; cbn [app];
    repeat split; try assumption; try reflexivity.
  apply sortChannels_Permutation.
Qed.

Lemma rebuildMPEChannelPool_effect (s : State) :
  MPEpitchBendsNeeded s = 255 ->
  2 <= mpeLowestChannel s <= mpeHighestChannel s -> mpeHighestChannel s <= 16 ->
  Permutation (mpeAvailableChannels (rebuildMPEChannelPool s))
    (seqZ (mpeLowestChannel s) (mpeHighestChannel s - mpeLowestChannel s + 1))
  /\ heldChannels (rebuildMPEChannelPool s) = heldChannels s
  /\ mpeLowestChannel (rebuildMPEChannelPool s) = mpeLowestChannel s
  /\ mpeHighestChannel (rebuildMPEChannelPool s) = mpeHighestChannel s
  /\ mpeChannelQueueActive (rebuildMPEChannelPool s) = true
  /\ MPEpitchBendsNeeded (rebuildMPEChannelPool s) = 255
  /\ cfg (rebuildMPEChannelPool s) = cfg s
  /\ midiOut (rebuildMPEChannelPool s) = midiOut s.
Proof.
  intros Hn Hlo Hhi. unfold rebuildMPEChannelPool. cbv zeta.
  cbn [MPEpitchBendsNeeded set_mpeAvailableChannels set_mpeChannelQueueActive cfg].
  rewrite Hn. change (1 <? 255) with true. cbv iota.
  assert (Hp : (mpePlayableChannelCount s <? 255) = true).
  { unfold mpePlayableChannelCount.
    destruct (Z.ltb_spec (mpeHighestChannel s) (mpeLowestChannel s)); [reflexivity|].
    unfold u8. rewrite Z.mod_small by lia. apply Z.ltb_lt. lia. }
  rewrite Hp. cbn [orb].
  destruct (resetMPEChannelPool_effect
              (set_mpeChannelQueueActive true
                 (set_mpeAvailableChannels [] (set_mpeChannelQueueActive false s))))
    as (H1 & H2 & H3 & H4 & H5 & H6 & H7 & H8).
  cbn in H1, H2, H3, H4, H5, H6, H7, H8.
  repeat split; try assumption. congruence.
Qed.

(** The pool as [resetTuningMIDI] leaves it when per-note pitch bends are
    needed. *)
Lemma resetTuningMIDI_effect (s : State) :
  1 < MPEpitchBendsNeeded (resetTuningMIDI s) ->
  Permutation (mpeAvailableChannels (resetTuningMIDI s))
    (seqZ (mpeLowestChannel (resetTuningMIDI s))
       (mpeHighestChannel (resetTuningMIDI s) - mpeLowestChannel (resetTuningMIDI s) + 1))
  /\ heldChannels (resetTuningMIDI s) = heldChannels s
  /\ 2 <= mpeLowestChannel (resetTuningMIDI s) <= mpeHighestChannel (resetTuningMIDI s)
  /\ mpeHighestChannel (resetTuningMIDI s) <= 16
  /\ mpeChannelQueueActive (resetTuningMIDI s) = true
  /\ MPEpitchBendsNeeded (resetTuningMIDI s) = 255
  /\ cfg (resetTuningMIDI s) = cfg s.
Proof.
  unfold resetTuningMIDI.
  set (s1 := decideMPEpitchBends s).
  set (s2 := normaliseMPEChannelRange s1).
  set (s3 := advertiseMPEzone s2).
  set (s4 := rebuildMPEChannelPool s3).
  destruct (poolView_inv _ _ (resetChannelControllers_keeps_pool s4))
    as (E1 & E2 & E3 & E4 & E5 & E6 & E7 & _).
  rewrite E1, E2, E3, E4, E5, E6, E7. clear E1 E2 E3 E4 E5 E6 E7.
  destruct (decideMPEpitchBends_effect s) as (D1 & _ & D3 & _ & _ & D6 & _). fold s1 in D1, D3, D6.
  destruct (normaliseMPEChannelRange_effect s1) as (N1 & N2 & N3 & N4 & N5 & _).
  fold s2 in N1, N2, N3, N4, N5.
  destruct (poolView_inv _ _ (advertiseMPEzone_keeps_pool s2))
    as (_ & A2 & A3 & A4 & _ & A6 & A7 & _).
  fold s3 in A2, A3, A4, A6, A7.
  intros Hen.
  assert (Hn3 : MPEpitchBendsNeeded s3 = 255).
  { assert (Hs4 : MPEpitchBendsNeeded s4 = MPEpitchBendsNeeded s3).
    { subst s4. unfold rebuildMPEChannelPool. cbv zeta.
      cbn [MPEpitchBendsNeeded set_mpeAvailableChannels set_mpeChannelQueueActive cfg].
      destruct (1 <? MPEpitchBendsNeeded s3); [|reflexivity].
      destruct (_ || _)%bool; [|reflexivity].
      now destruct (resetMPEChannelPool_effect
                      (set_mpeChannelQueueActive true
                         (set_mpeAvailableChannels [] (set_mpeChannelQueueActive false s3))))
        as (_ & _ & _ & _ & _ & H & _). }
    rewrite Hs4, A6, N3 in Hen. rewrite A6, N3. destruct D1 as [D1|D1]; [lia|exact D1]. }
  destruct (rebuildMPEChannelPool_effect s3 Hn3) as (R1 & R2 & R3 & R4 & R5 & R6 & R7 & _);
    [lia|lia|].
  fold s4 in R1, R2, R3, R4, R5, R6, R7.
  rewrite R2, R3, R4, R5, R6, R7, A2, A3, A4, A7, N4, N5, D3, D6.
  rewrite A3, A4 in R1.
  repeat split; try assumption; try reflexivity; lia.
Qed.

Lemma count_occ_Permutation (l l' : list Z) (c : Z) :
  Permutation l l' -> count_occ Z.eq_dec l c = count_occ Z.eq_dec l' c.
Proof.
  induction 1 as [|a l l' _ IH|a b l|l l' l'' _ IH1 _ IH2]; simpl.
  - reflexivity.
  - now rewrite IH.
  - destruct (Z.eq_dec a c), (Z.eq_dec b c); reflexivity.
  - now rewrite IH1.
Qed.

Lemma count_occ_all_zero (l : list Z) (c : Z) :
  Forall (fun d => d = 0) l -> c <> 0 -> count_occ Z.eq_dec l c = 0%nat.
Proof.
  intros Hl Hc. induction Hl as [|d l Hd _ IH]; [reflexivity|].
  simpl. destruct (Z.eq_dec d c); [lia|exact IH].
Qed.

Lemma poolInv_reset (s : State) :
  Forall (fun c => c = 0) (heldChannels s) ->
  1 < MPEpitchBendsNeeded (resetTuningMIDI s) ->
  poolInv (resetTuningMIDI s).
Proof.
  intros Hheld Hen.
  destruct (resetTuningMIDI_effect s Hen) as (Hp & Hh & Hlo & Hhi & Hq & Hn & _).
  unfold poolInv, channelExclusive. rewrite Hh, Hq, Hn.
  repeat split; try lia.
  - intros c Hc. rewrite (count_occ_Permutation _ _ c Hp).
    rewrite count_occ_seqZ by lia. rewrite count_occ_all_zero; [reflexivity|exact Hheld|lia].
  - rewrite Forall_forall. intros c Hc. rewrite Hp in Hc. apply elem_of_seqZ in Hc. lia.
  - eapply Forall_impl; [exact Hheld|]. intros c Hc. now left.
Qed.

(** The states the firmware passes through between two pool rebuilds: a
    rebuild with per-note pitch bends needed and no key holding a channel, then
    note-ons and note-offs of valid keys, interleaved with the voice
    allocator's work and audio ticks. *)
Inductive poolTrace : State -> Prop :=
| trace_rebuild (s : State) :
    Forall (fun c => c = 0) (heldChannels s) ->
    1 < MPEpitchBendsNeeded (resetTuningMIDI s) ->
    poolTrace (resetTuningMIDI s)
| trace_noteOn (x : Z) (s : State) :
    poolTrace s -> 0 <= x -> (Z.to_nat x < length (h s))%nat -> poolTrace (tryMIDInoteOn x s)
| trace_noteOff (x : Z) (s : State) :
    poolTrace s -> 0 <= x -> (Z.to_nat x < length (h s))%nat -> poolTrace (tryMIDInoteOff x s)
| trace_synthOn (x : Z) (s : State) : poolTrace s -> poolTrace (trySynthNoteOn x s)
| trace_synthOff (x : Z) (s : State) : poolTrace s -> poolTrace (trySynthNoteOff x s)
| trace_poll (s : State) : poolTrace s -> poolTrace (poll s)
| trace_drain (s : State) : poolTrace s -> poolTrace (processEnvelopeReleases s)
| trace_retry (s : State) : poolTrace s -> poolTrace (retryPendingReleases s).

Lemma poolTrace_poolInv (s : State) : poolTrace s -> poolInv s.
Proof.
  induction 1 as [s Hh Hn|x s _ IH Hx Hlen|x s _ IH Hx Hlen|x s _ IH|x s _ IH|s _ IH|s _ IH
                 |s _ IH].
  - now apply poolInv_reset.
  - now apply poolInv_noteOn.
  - now apply poolInv_noteOff.
  - refine (poolInv_view _ _ _ IH).
    exact (proj1 (midiView_inv _ _ (trySynthNoteOn_keeps_midi x s))).
  - refine (poolInv_view _ _ _ IH).
    exact (proj1 (midiView_inv _ _ (trySynthNoteOff_keeps_midi x s))).
  - refine (poolInv_view _ _ _ IH). exact (proj1 (midiView_inv _ _ (poll_keeps_midi s))).
  - refine (poolInv_view _ _ _ IH).
    exact (proj1 (midiView_inv _ _ (processEnvelopeReleases_keeps_midi s))).
  - refine (poolInv_view _ _ _ IH).
    exact (proj1 (midiView_inv _ _ (retryPendingReleases_keeps_midi s))).
Qed.

Lemma count_occ_lookup (l : list Z) (n : nat) (c : Z) :
  l !! n = Some c -> (1 <= count_occ Z.eq_dec l c)%nat.
Proof.
  intros H. apply count_occ_In. apply list_elem_of_In. eapply list_elem_of_lookup_2. exact H.
Qed.

(** C3. While the pool is active (from a rebuild made while no key holds a
    channel, through any note-ons and note-offs of valid keys, voice
    allocation and audio ticks, up to the next rebuild), every channel of the
    configured range is exactly once in the
    free pool or the channel of exactly one key, never both; a note-on that
    gives a key a channel takes it out of the pool, where it was once, and a
    note-off puts the key's channel back exactly once and clears the key. *)
Theorem channel_exclusivity (s : State) :
  poolTrace s ->
  mpeChannelQueueActive s = true
  /\ channelExclusive s
  /\ (forall x c,
        0 <= x -> (Z.to_nat x < length (h s))%nat ->
        MIDIch (hkey s x) = 0 -> MIDIch (hkey (tryMIDInoteOn x s) x) = c -> c <> 0 ->
        count_occ Z.eq_dec (mpeAvailableChannels s) c = 1%nat
        /\ count_occ Z.eq_dec (mpeAvailableChannels (tryMIDInoteOn x s)) c = 0%nat)
  /\ (forall x c,
        0 <= x -> MIDIch (hkey s x) = c -> c <> 0 ->
        count_occ Z.eq_dec (mpeAvailableChannels s) c = 0%nat
        /\ count_occ Z.eq_dec (mpeAvailableChannels (tryMIDInoteOff x s)) c = 1%nat
        /\ MIDIch (hkey (tryMIDInoteOff x s) x) = 0).
Proof.
  intros Htr. pose proof (poolTrace_poolInv s Htr) as Hinv.
  pose proof (poolInv_poolBranch s Hinv) as Hb.
  destruct Hinv as (Hq & Hnd & Hlo & Hhi & Hex & Hpin & Hhin).
  split; [exact Hq|]. split; [exact Hex|]. split.
  - intros x c Hx Hlen Hc0 Hc Hne.
    destruct (Z.leb_spec 128 (note (hkey s x))) as [Hn|Hn].
    { exfalso. apply Hne. rewrite <- Hc. unfold tryMIDInoteOn.
      destruct (Z.leb_spec 128 (note (hkey s x))); [exact Hc0|lia]. }
    destruct (mpeAvailableChannels s) as [|c0 rest] eqn:Hpool.
    { exfalso. apply Hne. rewrite <- Hc.
      rewrite (tryMIDInoteOn_pool_empty x s Hb Hpool Hn Hc0). exact Hc0. }
    apply Forall_cons in Hpin. destruct Hpin as [Hcin Hrest].
    assert (Hc00 : c0 <> 0) by lia.
    destruct (tryMIDInoteOn_pool_take x s c0 rest Hx Hlen Hb Hpool Hc00 Hn Hc0) as [Hv _].
    unfold poolView in Hv. injection Hv as E1 E2 E3 E4 E5 E6 E7 E8.
    assert (Hcc : c = c0).
    { rewrite <- Hc, MIDIch_heldChannels, E2.
      rewrite list_lookup_insert_eq; [reflexivity|].
      unfold heldChannels. rewrite length_map. exact Hlen. }
    subst c0. rewrite E1.
    specialize (Hex c Hcin). rewrite Hpool in Hex. simpl in Hex |- *.
    destruct (Z.eq_dec c c); [|contradiction]. lia.
  - intros x c Hx Hc Hne. rewrite <- Hc in Hne.
    destruct (tryMIDInoteOff_held x s Hx Hne) as (Hv & _).
    pose proof (tryMIDInoteOff_heldChannels x s Hx Hne) as Hheld.
    assert (Hl : heldChannels s !! Z.to_nat x = Some c).
    { rewrite MIDIch_heldChannels in Hc, Hne.
      destruct (heldChannels s !! Z.to_nat x); simpl in *; [congruence|contradiction]. }
    assert (Hin : mpeLowestChannel s <= c <= mpeHighestChannel s).
    { rewrite Forall_forall in Hhin.
      destruct (Hhin c) as [?|?]; [|congruence|assumption].
      eapply list_elem_of_lookup_2. exact Hl. }
    pose proof (count_occ_lookup _ _ _ Hl) as Hone.
    specialize (Hex c Hin).
    rewrite Hc, Hq in Hv. cbn [andb] in Hv.
    destruct (Z.leb_spec (mpeLowestChannel s) c); [|lia].
    destruct (Z.leb_spec c (mpeHighestChannel s)); [|lia].
    cbn [andb] in Hv. unfold poolView in Hv. injection Hv as E1 E2 E3 E4 E5 E6 E7 E8.
    split; [lia|]. split.
    + rewrite E1. destruct (mpeLowPriorityMode (cfg s)).
      * rewrite count_occ_insertLowerBound. simpl. destruct (Z.eq_dec c c); [lia|contradiction].
      * rewrite count_occ_app. simpl. destruct (Z.eq_dec c c); [lia|contradiction].
    + rewrite MIDIch_heldChannels, Hheld.
      rewrite list_lookup_insert_eq; [reflexivity|]. eapply lookup_lt_Some. exact Hl.
Qed.

(** ** Pool exhaustion *)

(** The notes of the keys, which neither side changes. *)
Definition notesView (s : State) := (map note (h s), length (h s)).

Lemma updKey_keeps_notes (x : Z) (f : Key -> Key) (s : State) :
  (forall k, note (f k) = note k) -> notesView (updKey x f s) = notesView s.
Proof.
  intros Hf. unfold updKey, notesView. destruct (x <? 0); [reflexivity|].
  simpl. rewrite map_alter_same by exact Hf. rewrite length_alter. reflexivity.
Qed.
Lemma updKey_MIDIch_keeps_notes (x c : Z) (s : State) :
  notesView (updKey x (set_MIDIch c) s) = notesView s.
Proof. now apply updKey_keeps_notes. Qed.
Lemma updKey_jiRetune_keeps_notes (x c : Z) (s : State) :
  notesView (updKey x (set_jiRetune c) s) = notesView s.
Proof. now apply updKey_keeps_notes. Qed.
Lemma sendToLog_keeps_notes (m : string) (s : State) : notesView (sendToLog m s) = notesView s.
Proof. reflexivity. Qed.
Lemma withMIDI_keeps_notes (c : list MidiMsg) (s : State) :
  notesView (withMIDI c s) = notesView s.
Proof. reflexivity. Qed.
Lemma set_pressedKeyIDs_keeps_notes (l : list Z) (s : State) :
  notesView (set_pressedKeyIDs l s) = notesView s.
Proof. reflexivity. Qed.
Lemma set_mpeAvailableChannels_keeps_notes (l : list Z) (s : State) :
  notesView (set_mpeAvailableChannels l s) = notesView s.
Proof. reflexivity. Qed.
#[local] Hint Rewrite updKey_MIDIch_keeps_notes updKey_jiRetune_keeps_notes
  sendToLog_keeps_notes withMIDI_keeps_notes set_pressedKeyIDs_keeps_notes
  set_mpeAvailableChannels_keeps_notes : keeps.

Lemma justIntonationRetune_keeps_notes (x : Z) (s : State) :
  notesView (justIntonationRetune x s) = notesView s.
Proof. unfold justIntonationRetune. keep. Qed.
#[local] Hint Rewrite justIntonationRetune_keeps_notes : keeps.

Lemma sendMIDInoteOn_keeps_notes (x : Z) (s : State) :
  notesView (sendMIDInoteOn x s) = notesView s.
Proof. unfold sendMIDInoteOn. keep. Qed.

Lemma assignMIDIchannel_keeps_notes (x : Z) (s : State) :
  notesView (assignMIDIchannel x s) = notesView s.
Proof.
  unfold assignMIDIchannel, takeMPEChannel.
  destruct (MPEpitchBendsNeeded s =? 1); [keep|]. cbv zeta.
  destruct (mpePlayableChannelCount s =? 0); [keep|].
  destruct (mpeChannelQueueActive s); [|keep].
  destruct (mpeAvailableChannels s) as [|c rest]; [keep|].
  destruct (c =? 0); keep.
Qed.
#[local] Hint Rewrite sendMIDInoteOn_keeps_notes assignMIDIchannel_keeps_notes : keeps.

Lemma tryMIDInoteOn_keeps_notes (x : Z) (s : State) :
  notesView (tryMIDInoteOn x s) = notesView s.
Proof. unfold tryMIDInoteOn. keep. Qed.

Lemma notesView_note (s s' : State) (x : Z) :
  notesView s' = notesView s -> note (hkey s' x) = note (hkey s x).
Proof.
  unfold notesView. intros H. injection H as H1 H2. unfold hkey.
  assert (Hl : (note <$> h s') !! Z.to_nat x = (note <$> h s) !! Z.to_nat x)
    by (change (map note (h s') !! Z.to_nat x = map note (h s) !! Z.to_nat x); now rewrite H1).
  rewrite !list_lookup_fmap in Hl.
  destruct (h s' !! Z.to_nat x), (h s !! Z.to_nat x); simpl in *; congruence.
Qed.

Lemma pressKey_note (x y : Z) (s : State) : note (hkey (pressKey x s) y) = note (hkey s y).
Proof.
  unfold pressKey. rewrite (midiView_note _ _ y (trySynthNoteOn_keeps_midi x _)).
  apply notesView_note, tryMIDInoteOn_keeps_notes.
Qed.

Lemma pressKey_h_length (x : Z) (s : State) : length (h (pressKey x s)) = length (h s).
Proof.
  unfold pressKey.
  destruct (poolView_inv _ _ (proj1 (midiView_inv _ _ (trySynthNoteOn_keeps_midi x
                                                        (tryMIDInoteOn x s)))))
    as (_ & _ & _ & _ & _ & _ & _ & H).
  rewrite H. pose proof (tryMIDInoteOn_keeps_notes x s) as Hn.
  unfold notesView in Hn. now injection Hn.
Qed.

Lemma pressKey_other (x y : Z) (s : State) :
  x <> y -> 0 <= y -> MIDIch (hkey (pressKey x s) y) = MIDIch (hkey s y).
Proof.
  intros Hne Hy. unfold pressKey.
  rewrite (midiView_MIDIch _ _ y (trySynthNoteOn_keeps_midi x _)).
  now apply tryMIDInoteOn_other.
Qed.

(** A playable key without a channel. *)
Definition pressable (s : State) (k : Z) : Prop :=
  0 <= k /\ (Z.to_nat k < length (h s))%nat /\ note (hkey s k) < 128 /\ MIDIch (hkey s k) = 0.

(** Pressing distinct pressable keys, no more than the pool holds, takes the
    channels off the front of the pool one by one. *)
Lemma press_many_takes_front (ks : list Z) (s : State) :
  poolInv s -> NoDup ks -> Forall (pressable s) ks ->
  (length ks <= length (mpeAvailableChannels s))%nat ->
  poolInv (fold_left (fun s k => pressKey k s) ks s)
  /\ mpeAvailableChannels (fold_left (fun s k => pressKey k s) ks s)
     = drop (length ks) (mpeAvailableChannels s)
  /\ (forall y, 0 <= y -> y ∉ ks ->
        MIDIch (hkey (fold_left (fun s k => pressKey k s) ks s) y) = MIDIch (hkey s y))
  /\ (forall y, note (hkey (fold_left (fun s k => pressKey k s) ks s) y) = note (hkey s y))
  /\ length (h (fold_left (fun s k => pressKey k s) ks s)) = length (h s).
Proof.
  revert s. induction ks as [|k ks IH]; intros s Hinv Hnd Hks Hlen; cbn [fold_left].
  - rewrite drop_0. split; [exact Hinv|]. repeat split; auto.
  - apply NoDup_cons in Hnd. destruct Hnd as [Hk Hnd].
    apply Forall_cons in Hks. destruct Hks as [(Hk0 & Hklen & Hkn & Hkc) Hks].
    destruct (mpeAvailableChannels s) as [|c rest] eqn:Hpool; [simpl in Hlen; lia|].
    pose proof (poolInv_poolBranch s Hinv) as Hb.
    assert (Hc0 : c <> 0).
    { destruct Hinv as (_ & _ & Hlo & _ & _ & Hpin & _). rewrite Hpool in Hpin.
      apply Forall_cons in Hpin. lia. }
    destruct (tryMIDInoteOn_pool_take k s c rest Hk0 Hklen Hb Hpool Hc0 Hkn Hkc) as [Hv _].
    pose proof (proj1 (midiView_inv _ _ (trySynthNoteOn_keeps_midi k (tryMIDInoteOn k s))))
      as Hsv.
    fold (pressKey k s) in Hsv.
    assert (Hinv1 : poolInv (pressKey k s)).
    { refine (poolInv_view _ _ Hsv _). now apply poolInv_noteOn. }
    assert (Hpool1 : mpeAvailableChannels (pressKey k s) = rest).
    { destruct (poolView_inv _ _ Hsv) as (E & _). rewrite E.
      unfold poolView in Hv. injection Hv. intros. assumption. }
    assert (Hks1 : Forall (pressable (pressKey k s)) ks).
    { rewrite Forall_forall in Hks |- *. intros y Hy.
      destruct (Hks y Hy) as (Hy0 & Hylen & Hyn & Hyc).
      unfold pressable. rewrite pressKey_h_length, pressKey_note.
      rewrite pressKey_other; [tauto| |exact Hy0]. intros ->. contradiction. }
    destruct (IH (pressKey k s) Hinv1 Hnd Hks1) as (I1 & I2 & I3 & I4 & I5).
    { rewrite Hpool1. simpl in Hlen. lia. }
    split; [exact I1|]. split; [rewrite I2, Hpool1; reflexivity|]. split; [|split].
    + intros y Hy Hnin. apply not_elem_of_cons in Hnin. destruct Hnin as [Hyk Hnin].
      rewrite (I3 y Hy Hnin). apply pressKey_other; [congruence|exact Hy].
    + intros y. rewrite I4. apply pressKey_note.
    + rewrite I5. apply pressKey_h_length.
Qed.

Lemma resetTuningMIDI_h (s : State) : h (resetTuningMIDI s) = h s.
Proof.
  unfold resetTuningMIDI, resetChannelControllers.
  rewrite (fold_left_keeps h) by reflexivity.
  assert (H4 : forall s0, h (rebuildMPEChannelPool s0) = h s0).
  { intros s0. unfold rebuildMPEChannelPool, resetMPEChannelPool. cbv zeta.
    destruct (1 <? _); [|reflexivity]. destruct (_ || _)%bool; [|reflexivity].
    match goal with |- context [if ?c then _ else _] => destruct c end;
      cbn [h set_mpeAvailableChannels]; now rewrite (fold_left_keeps h) by reflexivity. }
  rewrite H4.
  assert (H3 : forall s0, h (advertiseMPEzone s0) = h s0).
  { intros s0. unfold advertiseMPEzone. now destruct (1 <? _). }
  rewrite H3.
  assert (H2 : forall s0, h (normaliseMPEChannelRange s0) = h s0).
  { intros s0. unfold normaliseMPEChannelRange, clampMPEChannelRange. cbv zeta.
    split_ifs; reflexivity. }
  rewrite H2. unfold decideMPEpitchBends. cbv zeta. split_ifs; reflexivity.
Qed.

Lemma normaliseMPEChannelRange_default (s : State) :
  mpeLowestChannel s = 2 -> mpeHighestChannel s = 16 ->
  mpeLowestChannel (normaliseMPEChannelRange s) = 2
  /\ mpeHighestChannel (normaliseMPEChannelRange s) = 16
  /\ MPEpitchBendsNeeded (normaliseMPEChannelRange s) = MPEpitchBendsNeeded s.
Proof.
  destruct s. cbn. intros -> ->. repeat split.
Qed.

Lemma resetTuningMIDI_default_range (s : State) :
  mpeLowestChannel s = 2 -> mpeHighestChannel s = 16 ->
  1 < MPEpitchBendsNeeded (resetTuningMIDI s) ->
  mpeLowestChannel (resetTuningMIDI s) = 2 /\ mpeHighestChannel (resetTuningMIDI s) = 16.
Proof.
  intros Hlo Hhi Hen.
  pose proof (resetTuningMIDI_effect s Hen) as He.
  revert Hen He. unfold resetTuningMIDI.
  set (s1 := decideMPEpitchBends s).
  set (s2 := normaliseMPEChannelRange s1).
  set (s3 := advertiseMPEzone s2).
  set (s4 := rebuildMPEChannelPool s3).
  destruct (poolView_inv _ _ (resetChannelControllers_keeps_pool s4))
    as (_ & _ & E3 & E4 & _ & E6 & _).
  rewrite E3, E4, E6. intros Hen _.
  destruct (decideMPEpitchBends_effect s) as (D1 & _ & _ & D4 & D5 & _). fold s1 in D1, D4, D5.
  assert (N : mpeLowestChannel s2 = 2 /\ mpeHighestChannel s2 = 16
              /\ MPEpitchBendsNeeded s2 = MPEpitchBendsNeeded s1).
  { subst s2. apply normaliseMPEChannelRange_default; congruence. }
  destruct N as (N1 & N2 & N3).
  destruct (poolView_inv _ _ (advertiseMPEzone_keeps_pool s2)) as (_ & _ & A3 & A4 & _ & A6 & _).
  fold s3 in A3, A4, A6.
  assert (Hs4 : MPEpitchBendsNeeded s4 = MPEpitchBendsNeeded s3).
  { subst s4. unfold rebuildMPEChannelPool. cbv zeta.
    cbn [MPEpitchBendsNeeded set_mpeAvailableChannels set_mpeChannelQueueActive cfg].
    destruct (1 <? MPEpitchBendsNeeded s3); [|reflexivity].
    destruct (_ || _)%bool; [|reflexivity].
    now destruct (resetMPEChannelPool_effect
                    (set_mpeChannelQueueActive true
                       (set_mpeAvailableChannels [] (set_mpeChannelQueueActive false s3))))
      as (_ & _ & _ & _ & _ & H & _). }
  assert (Hn3 : MPEpitchBendsNeeded s3 = 255).
  { rewrite Hs4, A6, N3 in Hen. rewrite A6, N3. destruct D1 as [D1|D1]; [lia|exact D1]. }
  destruct (rebuildMPEChannelPool_effect s3 Hn3) as (_ & _ & R3 & R4 & _); [lia|lia|].
  fold s4 in R3, R4. rewrite R3, R4, A3, A4. split; assumption.
Qed.

(** C4. When a note-on needs an MPE channel and the pool is empty, the note is
    dropped, not stolen: the note-on does nothing but call [sendToLog], so no
    key's channel changes, the new key stays without a channel and nothing is
    sent.  The event is logged only when debug messages are on: the log then
    grows by exactly the line "MPE pool was empty so did not play a MIDI
    note", and with debug messages off the note-on leaves the state as it
    was.  In particular, with MPE enabled and the range [2, 16], after 15
    distinct playable keys have been pressed the pool is empty and the press
    of a 16th leaves that key without a channel and sends nothing. *)
Theorem mpe_pool_exhaustion_drops_note (s : State) (ks : list Z) (k16 : Z) :
  mpeLowestChannel s = 2 -> mpeHighestChannel s = 16 ->
  1 < MPEpitchBendsNeeded (resetTuningMIDI s) ->
  Forall (fun c => c = 0) (heldChannels s) ->
  NoDup (ks ++ [k16]) -> length ks = 15%nat -> Forall (pressable s) (ks ++ [k16]) ->
  (forall s' x,
      poolBranch s' -> mpeAvailableChannels s' = [] ->
      note (hkey s' x) < 128 -> MIDIch (hkey s' x) = 0 ->
      tryMIDInoteOn x s' = sendToLog "MPE pool was empty so did not play a MIDI note" s'
      /\ logOut (tryMIDInoteOn x s')
         = (if debugMessages (cfg s')
            then logOut s' ++ ["MPE pool was empty so did not play a MIDI note"%string]
            else logOut s')
      /\ (debugMessages (cfg s') = false -> tryMIDInoteOn x s' = s'))
  /\ mpeAvailableChannels (fold_left (fun s k => pressKey k s) ks (resetTuningMIDI s)) = []
  /\ tryMIDInoteOn k16 (fold_left (fun s k => pressKey k s) ks (resetTuningMIDI s))
     = sendToLog "MPE pool was empty so did not play a MIDI note"
         (fold_left (fun s k => pressKey k s) ks (resetTuningMIDI s))
  /\ logOut (tryMIDInoteOn k16 (fold_left (fun s k => pressKey k s) ks (resetTuningMIDI s)))
     = (if debugMessages
             (cfg (fold_left (fun s k => pressKey k s) ks (resetTuningMIDI s)))
        then logOut (fold_left (fun s k => pressKey k s) ks (resetTuningMIDI s))
             ++ ["MPE pool was empty so did not play a MIDI note"%string]
        else logOut (fold_left (fun s k => pressKey k s) ks (resetTuningMIDI s)))
  /\ MIDIch (hkey (pressKey k16 (fold_left (fun s k => pressKey k s) ks (resetTuningMIDI s)))
               k16) = 0
  /\ midiOut (pressKey k16 (fold_left (fun s k => pressKey k s) ks (resetTuningMIDI s)))
     = midiOut (fold_left (fun s k => pressKey k s) ks (resetTuningMIDI s))
  /\ (forall y,
        MIDIch (hkey (pressKey k16 (fold_left (fun s k => pressKey k s) ks (resetTuningMIDI s)))
                  y)
        = MIDIch (hkey (fold_left (fun s k => pressKey k s) ks (resetTuningMIDI s)) y)).
Proof.
  intros Hlo Hhi Hen Hheld Hnd Hlen Hks.
  split.
  { intros s' x Hb He Hn Hc.
    pose proof (tryMIDInoteOn_pool_empty x s' Hb He Hn Hc) as Hd.
    split; [exact Hd|]. split; [rewrite Hd; apply sendToLog_logOut|].
    intros Hoff. rewrite Hd. apply sendToLog_quiet, Hoff. }
  set (s0 := resetTuningMIDI s).
  pose proof (poolInv_reset s Hheld Hen) as Hinv0. fold s0 in Hinv0.
  destruct (resetTuningMIDI_effect s Hen) as (Hp & Hh & _). fold s0 in Hp, Hh.
  destruct (resetTuningMIDI_default_range s Hlo Hhi Hen) as (Hlo0 & Hhi0).
  fold s0 in Hlo0, Hhi0. rewrite Hlo0, Hhi0 in Hp.
  assert (Hplen : length (mpeAvailableChannels s0) = 15%nat).
  { rewrite (Permutation_length Hp). reflexivity. }
  apply NoDup_app in Hnd. destruct Hnd as (Hnd & Hdisj & _).
  apply Forall_app in Hks. destruct Hks as (Hks & Hk16).
  apply Forall_cons in Hk16. destruct Hk16 as ((Hk0 & Hklen & Hkn & Hkc) & _).
  assert (Hpress0 : forall k, pressable s k -> pressable s0 k).
  { intros k (H1 & H2 & H3 & H4). unfold pressable, hkey, s0 in *.
    rewrite resetTuningMIDI_h. tauto. }
  assert (Hks0 : Forall (pressable s0) ks).
  { eapply Forall_impl; [exact Hks|exact Hpress0]. }
  destruct (press_many_takes_front ks s0 Hinv0 Hnd Hks0) as (I1 & I2 & I3 & I4 & I5).
  { rewrite Hplen, Hlen. lia. }
  set (s15 := fold_left (fun s k => pressKey k s) ks s0) in *.
  assert (Hempty : mpeAvailableChannels s15 = []).
  { rewrite I2. apply drop_ge. rewrite Hplen, Hlen. lia. }
  assert (Hnin : k16 ∉ ks).
  { intros Hin. apply (Hdisj k16 Hin). now left. }
  destruct (Hpress0 k16 (conj Hk0 (conj Hklen (conj Hkn Hkc)))) as (_ & _ & Hn0 & Hc0).
  assert (Hdrop : tryMIDInoteOn k16 s15
                  = sendToLog "MPE pool was empty so did not play a MIDI note" s15).
  { apply tryMIDInoteOn_pool_empty.
    - now apply poolInv_poolBranch.
    - exact Hempty.
    - rewrite I4. exact Hn0.
    - rewrite (I3 k16 Hk0 Hnin). exact Hc0. }
  split; [exact Hempty|]. split; [exact Hdrop|].
  split; [rewrite Hdrop; apply sendToLog_logOut|].
  pose proof (trySynthNoteOn_keeps_midi k16 (tryMIDInoteOn k16 s15)) as Hm.
  fold (pressKey k16 s15) in Hm. rewrite Hdrop in Hm.
  assert (Hall : forall y, MIDIch (hkey (pressKey k16 s15) y) = MIDIch (hkey s15 y)).
  { intros y. now rewrite (midiView_MIDIch _ _ y Hm). }
  split; [|split].
  - rewrite Hall, (I3 k16 Hk0 Hnin). exact Hc0.
  - destruct (midiView_inv _ _ Hm) as (_ & _ & Ho & _). exact Ho.
  - exact Hall.
Qed.

(** ** The MPE zone advertised by [resetTuningMIDI] *)

(** Traffic that starts no RPN 6 sequence. *)
Definition noZoneAdvert (l : list (Transport * MidiMsg)) : Prop :=
  Forall (fun tm => forall n ch, tm.2 = BeginRpn n ch -> n = 0) l.

Lemma noZoneAdvert_none (l : list (Transport * MidiMsg)) :
  noZoneAdvert l -> zoneSizesAdvertised l = [].
Proof.
  induction 1 as [|[t m] l Hm _ IH]; [reflexivity|].
  cbn [zoneSizesAdvertised]. destruct m; try exact IH.
  destruct l as [|[t' m'] l']; [exact IH|]. destruct m'; try exact IH.
  rewrite (Hm number ch eq_refl). exact IH.
Qed.

Lemma noZoneAdvert_onTransports (d : Z) (calls : list MidiMsg) :
  Forall (fun m => forall n ch, m = BeginRpn n ch -> n = 0) calls ->
  noZoneAdvert (onTransports d calls).
Proof.
  intros H. unfold noZoneAdvert, onTransports.
  apply Forall_app. split; (destruct (_ =? 0); [constructor|]);
    apply Forall_fmap; (eapply Forall_impl; [exact H|]); intros m Hm; exact Hm.
Qed.

Lemma zoneSizesAdvertised_zone (d v : Z) (rest : list (Transport * MidiMsg)) :
  zoneSizesAdvertised
    (onTransports d [BeginRpn 6 1; RpnValue (Z.shiftl v 7) 1; EndRpn 1] ++ rest)
  = replicate (length (onTransports d [EndRpn 1])) v ++ zoneSizesAdvertised rest.
Proof.
  assert (Hv : Z.shiftr (Z.shiftl v 7) 7 = v).
  { rewrite Z.shiftr_shiftl_l by lia. apply Z.shiftl_0_r. }
  unfold onTransports.
  destruct (Z.land d MIDID_USB =? 0), (Z.land d MIDID_SER =? 0);
    cbn [map app zoneSizesAdvertised length replicate Z.eqb Pos.eqb];
    rewrite ?Hv; destruct rest as [|[t m] rest']; reflexivity.
Qed.

Lemma resetChannelControllers_traffic (s : State) :
  exists R, midiOut (resetChannelControllers s) = midiOut s ++ R /\ noZoneAdvert R.
Proof.
  unfold resetChannelControllers.
  apply (fold_left_invariant _
           (fun s' => exists R, midiOut s' = midiOut s ++ R /\ noZoneAdvert R)).
  - intros a i (R & HR & HnR).
    eexists. split.
    + unfold setPitchBendRange, withMIDI, sendToLog. cbv zeta.
      cbn [midiOut set_midiOut set_logOut cfg]. rewrite HR, <- !app_assoc. reflexivity.
    + unfold noZoneAdvert in *. apply Forall_app. split; [exact HnR|].
      apply Forall_app. split; apply noZoneAdvert_onTransports;
        repeat constructor; intros n ch Heq; congruence.
  - exists []. split; [now rewrite app_nil_r|constructor].
Qed.

(** C8 (as amended). When per-note pitch bend is required, [resetTuningMIDI]
    advertises one MPE zone on master channel 1 per enabled transport, and the
    advertised zone size is the highest channel of the clamped range minus
    one: the zone runs from channel 2 to the highest channel, whatever the
    lowest configured channel is. *)
Theorem mpe_zone_size_is_highest_minus_one (s : State) :
  1 < MPEpitchBendsNeeded (resetTuningMIDI s) ->
  exists new,
    midiOut (resetTuningMIDI s) = midiOut s ++ new
    /\ zoneSizesAdvertised new
       = replicate (length (onTransports (midiD (cfg s)) [EndRpn 1]))
           (mpeHighestChannel (resetTuningMIDI s) - 1)
    /\ 2 <= mpeLowestChannel (resetTuningMIDI s) <= mpeHighestChannel (resetTuningMIDI s)
    /\ mpeHighestChannel (resetTuningMIDI s) <= 16.
Proof.
  intros Hen.
  destruct (resetTuningMIDI_effect s Hen) as (_ & _ & Hlo & Hhi & _ & Hn & _).
  revert Hen Hlo Hhi Hn. unfold resetTuningMIDI.
  set (s1 := decideMPEpitchBends s).
  set (s2 := normaliseMPEChannelRange s1).
  set (s3 := advertiseMPEzone s2).
  set (s4 := rebuildMPEChannelPool s3).
  destruct (poolView_inv _ _ (resetChannelControllers_keeps_pool s4))
    as (_ & _ & E3 & E4 & _ & E6 & _).
  rewrite E3, E4, E6. intros Hen Hlo Hhi Hn.
  destruct (resetChannelControllers_traffic s4) as (R & HR & HnR).
  destruct (decideMPEpitchBends_effect s) as (D1 & _ & _ & _ & _ & D6 & D7).
  fold s1 in D1, D6, D7.
  destruct (normaliseMPEChannelRange_effect s1) as (N1 & N2 & N3 & _ & N5 & N6).
  fold s2 in N1, N2, N3, N5, N6.
  destruct (poolView_inv _ _ (advertiseMPEzone_keeps_pool s2)) as (_ & _ & A3 & A4 & _ & A6 & _).
  fold s3 in A3, A4, A6.
  assert (Hs4 : MPEpitchBendsNeeded s4 = MPEpitchBendsNeeded s3).
  { subst s4. unfold rebuildMPEChannelPool. cbv zeta.
    cbn [MPEpitchBendsNeeded set_mpeAvailableChannels set_mpeChannelQueueActive cfg].
    destruct (1 <? MPEpitchBendsNeeded s3); [|reflexivity].
    destruct (_ || _)%bool; [|reflexivity].
    now destruct (resetMPEChannelPool_effect
                    (set_mpeChannelQueueActive true
                       (set_mpeAvailableChannels [] (set_mpeChannelQueueActive false s3))))
      as (_ & _ & _ & _ & _ & H & _). }
  assert (Hn2 : MPEpitchBendsNeeded s2 = 255) by congruence.
  assert (Hn3 : MPEpitchBendsNeeded s3 = 255) by congruence.
  destruct (rebuildMPEChannelPool_effect s3 Hn3) as (_ & _ & R3 & R4 & _ & _ & _ & R8);
    [lia|lia|].
  fold s4 in R3, R4, R8.
  assert (H3 : midiOut s3
               = midiOut s2
                 ++ onTransports (midiD (cfg s))
                      [BeginRpn 6 1; RpnValue (Z.shiftl (mpeHighestChannel s2 - 1) 7) 1;
                       EndRpn 1]).
  { subst s3. unfold advertiseMPEzone. rewrite Hn2. change (1 <? 255) with true. cbv iota zeta.
    destruct (Z.ltb_spec 1 (mpeHighestChannel s2)); [|lia].
    unfold u8. rewrite Z.mod_small by lia.
    unfold setMPEzone, withMIDI, sendToLog. cbv zeta. cbn [midiOut set_midiOut set_logOut cfg].
    rewrite N5, D6. reflexivity. }
  exists (onTransports (midiD (cfg s))
            [BeginRpn 6 1; RpnValue (Z.shiftl (mpeHighestChannel s2 - 1) 7) 1; EndRpn 1] ++ R).
  split; [|split].
  - rewrite HR, R8, H3, N6, D7, <- app_assoc. reflexivity.
  - rewrite zoneSizesAdvertised_zone, (noZoneAdvert_none R HnR), app_nil_r.
    rewrite R4, A4. reflexivity.
  - split; assumption.
Qed.

(** ** Press and release: the round trip *)

(** No release is pending or running on the voice, it is not flagged for the
    control core, and its level is in the envelope range. *)
Definition quietVoice (v : Voice) : Prop :=
  envelopeNeedsFree v = false /\ envelopeCommand v <> StartRelease
  /\ env_stage v <> Release /\ 0 <= env_level v <= envelopeMaxLevel.

Lemma settings_params_range (e : EnvelopeSettings) :
  0 <= sustainLevel (updateEnvelopeParamsFromSettings e).2 <= envelopeMaxLevel
  /\ 0 <= decayIncrement (updateEnvelopeParamsFromSettings e).2.
Proof.
  unfold updateEnvelopeParamsFromSettings. cbn [snd sustainLevel decayIncrement].
  split.
  - unfold u16, envelopeMaxLevel.
    pose proof (Z.mod_pos_bound (u32 (Z.min 127 (envelopeSustainLevel e) * 65535) / 127) 65536
                  ltac:(lia)). lia.
  - destruct (_ || _)%bool; [unfold envelopeMaxLevel; lia|]. cbv zeta. lia.
Qed.

Lemma pollCommand_quiet (p : EnvelopeParams) (v : Voice) (ng : Z) :
  0 <= sustainLevel p <= envelopeMaxLevel ->
  quietVoice v -> quietVoice (pollCommand p v ng).1.
Proof.
  intros Hs. destruct v as [lv ri st cmd iu nf g ow inc cnt rr rc].
  unfold quietVoice. cbn [envelopeNeedsFree envelopeCommand env_stage env_level].
  intros (-> & Hcmd & Hst & Hlv).
  unfold envelopeMaxLevel in *. unfold pollCommand.
  destruct cmd; try congruence.
  - cbn. repeat split; try discriminate; try assumption; lia.
  - cbn [envelopeCommand].
    destruct (attackTicks p =? 0); destruct (decayTicks p =? 0);
      destruct (envelopeMaxLevel <=? sustainLevel p) eqn:E;
      destruct (g =? 0) eqn:G; cbn; rewrite ?G; cbn;
      repeat split; try discriminate; try assumption; try lia.
  - cbn. repeat split; try discriminate; lia.
Qed.

Lemma pollStage_quiet (p : EnvelopeParams) (v : Voice) :
  0 <= sustainLevel p <= envelopeMaxLevel -> 0 <= decayIncrement p ->
  quietVoice v -> quietVoice (pollStage p v).
Proof.
  intros Hs Hd. destruct v as [lv ri st cmd iu nf g ow inc cnt rr rc].
  unfold quietVoice. cbn [envelopeNeedsFree envelopeCommand env_stage env_level].
  intros (-> & Hcmd & Hst & Hlv).
  unfold envelopeMaxLevel in *.
  assert (Hu : 0 <= u32 (lv + attackIncrement p)) by (unfold u32; apply Z.mod_pos_bound; lia).
  unfold pollStage, pollOscillator.
  destruct st; try congruence;
    poll_cases; zbool; unfold envelopeMaxLevel in *;
    repeat split; try discriminate; try assumption; try lia.
Qed.

Lemma quietVoice_poll (p : EnvelopeParams) (v : Voice) (ng : Z) :
  0 <= sustainLevel p <= envelopeMaxLevel -> 0 <= decayIncrement p ->
  quietVoice v -> quietVoice (pollVoice p v ng).1.
Proof.
  intros Hs Hd Hq. unfold pollVoice.
  pose proof (pollCommand_quiet p v ng Hs Hq) as Hc.
  destruct (pollCommand p v ng) as [w ng']. cbn [fst] in Hc.
  destruct (osc_increment w =? 0); destruct (env_stage w) eqn:E; cbn [fst];
    try exact Hc; now apply pollStage_quiet.
Qed.

Lemma pollVoices_Forall (P : Voice -> Prop) (p : EnvelopeParams) :
  (forall v ng, P v -> P (pollVoice p v ng).1) ->
  forall vs ng, Forall P vs -> Forall P (pollVoices p vs ng).1.
Proof.
  intros Hstep vs. induction vs as [|v vs IH]; intros ng Hvs; [constructor|].
  apply Forall_cons in Hvs. destruct Hvs as [Hv Hvs]. simpl.
  pose proof (Hstep v ng Hv) as Hv'. destruct (pollVoice p v ng) as [v' ng'].
  specialize (IH ng' Hvs). destruct (pollVoices p vs ng') as [vs' ng''].
  constructor; assumption.
Qed.

Lemma poll_Forall (P : Voice -> Prop) (s : State) :
  (forall v ng, P v -> P (pollVoice (envelopeParams s) v ng).1) ->
  Forall P (voices s) -> Forall P (voices (poll s)).
Proof.
  intros Hstep Hvs. unfold poll.
  pose proof (pollVoices_Forall P (envelopeParams s) Hstep (voices s) (nextVoiceGeneration s) Hvs)
    as H.
  now destruct (pollVoices _ _ _).
Qed.

Lemma pollN_Forall (P : Voice -> Prop) (n : nat) (s : State) :
  (forall v ng, P v -> P (pollVoice (envelopeParams s) v ng).1) ->
  Forall P (voices s) -> Forall P (voices (pollN n s)).
Proof.
  intros Hstep Hvs. induction n as [|n IH]; [exact Hvs|].
  unfold pollN in *. simpl. apply poll_Forall; [|exact IH].
  fold (pollN n s). now rewrite pollN_envelopeParams.
Qed.

(** The audio tick touches the voices and the generation counter only. *)
Definition tickFrame (s : State) :=
  (cfg s, h s, synthChQueue s, envelopeParams s, arpeggiatingNow s, length (voices s)).

Lemma pollVoices_length (p : EnvelopeParams) (vs : list Voice) (ng : Z) :
  length (pollVoices p vs ng).1 = length vs.
Proof.
  revert ng. induction vs as [|v vs IH]; intros ng; [reflexivity|]. simpl.
  destruct (pollVoice p v ng) as [v' ng']. specialize (IH ng').
  destruct (pollVoices p vs ng') as [vs' ng'']. simpl in *. now rewrite IH.
Qed.

Lemma poll_tickFrame (s : State) : tickFrame (poll s) = tickFrame s.
Proof.
  unfold poll, tickFrame.
  pose proof (pollVoices_length (envelopeParams s) (voices s) (nextVoiceGeneration s)) as H.
  destruct (pollVoices _ _ _) as [vs ng]. simpl in *. now rewrite H.
Qed.

Lemma pollN_tickFrame (n : nat) (s : State) : tickFrame (pollN n s) = tickFrame s.
Proof.
  induction n as [|n IH]; [reflexivity|].
  unfold pollN in *. simpl. now rewrite poll_tickFrame.
Qed.

(** The drain of the needs-free flags when none is set, and when one is. *)
Lemma processEnvelopeReleases_none (s : State) :
  Forall (fun v => envelopeNeedsFree v = false) (voices s) ->
  processEnvelopeReleases s = s.
Proof.
  intros Hall. unfold processEnvelopeReleases.
  assert (Hstep : forall i, processEnvelopeRelease1 s i = s).
  { intros i. unfold processEnvelopeRelease1, voice.
    destruct (voices s !! Z.to_nat i) as [v|] eqn:E; [|reflexivity].
    rewrite Forall_forall in Hall. simpl.
    rewrite (Hall v (list_elem_of_lookup_2 _ _ _ E)). reflexivity. }
  induction (seqZ 0 POLYPHONY_LIMIT) as [|i l IH]; [reflexivity|].
  simpl. now rewrite Hstep.
Qed.

Lemma processEnvelopeRelease1_queue (s : State) (i : Z) :
  synthChQueue (processEnvelopeRelease1 s i)
  = if envelopeNeedsFree (voice s i) && (playbackMode (cfg s) =? SYNTH_POLY)
    then synthChQueue s ++ [u8 (i + 1)] else synthChQueue s.
Proof.
  unfold processEnvelopeRelease1. destruct (envelopeNeedsFree (voice s i)); [|reflexivity].
  cbn [andb]. cbv zeta.
  set (s4 := updVoice i (set_owner NO_SYNTH_OWNER) _).
  assert (H4 : synthChQueue s4 = synthChQueue s /\ cfg s4 = cfg s).
  { subst s4. unfold updVoice. destruct (i <? 0); cbn; split; reflexivity. }
  clearbody s4. destruct H4 as [Hq Hc].
  set (s5 := if (0 <=? _) && _ then _ else s4).
  assert (H5 : synthChQueue s5 = synthChQueue s /\ cfg s5 = cfg s).
  { subst s5. unfold updKey. split_ifs; cbn; split; assumption. }
  clearbody s5. destruct H5 as [Hq5 Hc5]. rewrite Hc5.
  unfold updVoice. destruct (i <? 0); destruct (playbackMode (cfg s) =? SYNTH_POLY); cbn;
    now rewrite Hq5.
Qed.

Lemma processEnvelopeReleases_single (s : State) (i0 : Z) :
  0 <= i0 < POLYPHONY_LIMIT ->
  playbackMode (cfg s) = SYNTH_POLY ->
  envelopeNeedsFree (voice s i0) = true ->
  (forall j, 0 <= j -> j <> i0 -> envelopeNeedsFree (voice s j) = false) ->
  synthChQueue (processEnvelopeReleases s) = synthChQueue s ++ [i0 + 1].
Proof.
  intros Hi0 Hpoly Hflag Hothers. unfold processEnvelopeReleases.
  assert (Hgen : forall (l : list Z) (s0 : State),
    NoDup l -> (forall j, j ∈ l -> 0 <= j) ->
    playbackMode (cfg s0) = SYNTH_POLY ->
    (forall j, 0 <= j -> j <> i0 -> envelopeNeedsFree (voice s0 j) = false) ->
    synthChQueue (fold_left processEnvelopeRelease1 l s0)
    = synthChQueue s0
      ++ (if bool_decide (i0 ∈ l) && envelopeNeedsFree (voice s0 i0) then [u8 (i0 + 1)] else [])).
  { induction l as [|j l IH]; intros s0 Hnd Hpos Hp Hoth; cbn [fold_left].
    - cbn. now rewrite app_nil_r.
    - apply NoDup_cons in Hnd. destruct Hnd as [Hj Hnd].
      assert (Hj0 : 0 <= j) by (apply Hpos; left).
      assert (Hpos' : forall k, k ∈ l -> 0 <= k) by (intros k Hk; apply Hpos; now right).
      destruct (processEnvelopeRelease1_frame s0 j) as (Hcfg & _).
      destruct (Z.eq_dec j i0) as [->|Hne].
      + rewrite IH; [|exact Hnd|exact Hpos'|congruence|].
        * rewrite (bool_decide_eq_false_2 (i0 ∈ l)) by exact Hj. cbn [andb].
          rewrite app_nil_r, processEnvelopeRelease1_queue, Hp.
          change (SYNTH_POLY =? SYNTH_POLY) with true.
          rewrite (bool_decide_eq_true_2 (i0 ∈ i0 :: l)) by left.
          rewrite andb_true_r. cbn [andb].
          destruct (envelopeNeedsFree (voice s0 i0)); [reflexivity|now rewrite app_nil_r].
        * intros k Hk Hki. unfold voice.
          rewrite processEnvelopeRelease1_voices by exact Hj0.
          destruct (envelopeNeedsFree (voice s0 i0)); [|apply (Hoth k Hk Hki)].
          rewrite list_lookup_alter, decide_False by lia. apply (Hoth k Hk Hki).
      + assert (Hsame : processEnvelopeRelease1 s0 j = s0).
        { unfold processEnvelopeRelease1. now rewrite (Hoth j Hj0 Hne). }
        rewrite Hsame, IH; [|exact Hnd|exact Hpos'|exact Hp|exact Hoth].
        destruct (decide (i0 ∈ l)) as [Hin|Hin].
        * rewrite (bool_decide_eq_true_2 (i0 ∈ l)) by exact Hin.
          rewrite (bool_decide_eq_true_2 (i0 ∈ j :: l)) by (now right). reflexivity.
        * rewrite (bool_decide_eq_false_2 (i0 ∈ l)) by exact Hin.
          rewrite (bool_decide_eq_false_2 (i0 ∈ j :: l)); [reflexivity|].
          intros Hc. apply elem_of_cons in Hc. destruct Hc; [congruence|contradiction]. }
  rewrite Hgen; [|apply NoDup_seqZ| |exact Hpoly|exact Hothers].
  - rewrite bool_decide_eq_true_2 by (apply elem_of_seqZ; lia).
    rewrite Hflag. cbn [andb]. unfold u8. rewrite Z.mod_small; [reflexivity|].
    unfold POLYPHONY_LIMIT in Hi0. lia.
  - intros j Hj. apply elem_of_seqZ in Hj. lia.
Qed.

(** *** The channel pool over a press and a release *)

Lemma assignMIDIchannel_inactive (x : Z) (s : State) :
  mpeChannelQueueActive s = false ->
  mpeAvailableChannels (assignMIDIchannel x s) = mpeAvailableChannels s.
Proof.
  intros Hq. unfold assignMIDIchannel, updKey. rewrite Hq. cbv zeta.
  split_ifs; reflexivity.
Qed.

Lemma tryMIDInoteOn_inactive (x : Z) (s : State) :
  mpeChannelQueueActive s = false ->
  mpeAvailableChannels (tryMIDInoteOn x s) = mpeAvailableChannels s.
Proof.
  intros Hq. unfold tryMIDInoteOn.
  destruct (128 <=? note (hkey s x)); [reflexivity|].
  destruct (negb (MIDIch (hkey s x) =? 0)); [reflexivity|]. cbv zeta.
  destruct (MIDIch (hkey (assignMIDIchannel x s) x) =? 0).
  - now apply assignMIDIchannel_inactive.
  - destruct (poolView_inv _ _ (sendMIDInoteOn_keeps_pool x (assignMIDIchannel x s)))
      as (H & _).
    rewrite H. now apply assignMIDIchannel_inactive.
Qed.

Lemma tryMIDInoteOff_pool (x : Z) (s : State) :
  0 <= x ->
  mpeAvailableChannels (tryMIDInoteOff x s)
  = if MIDIch (hkey s x) =? 0 then mpeAvailableChannels s
    else if mpeChannelQueueActive s && (mpeLowestChannel s <=? MIDIch (hkey s x))
            && (MIDIch (hkey s x) <=? mpeHighestChannel s)
         then if mpeLowPriorityMode (cfg s)
              then insertLowerBound (MIDIch (hkey s x)) (mpeAvailableChannels s)
              else mpeAvailableChannels s ++ [MIDIch (hkey s x)]
         else mpeAvailableChannels s.
Proof.
  intros Hx. destruct (Z.eqb_spec (MIDIch (hkey s x)) 0) as [E|E].
  - unfold tryMIDInoteOff. rewrite E. reflexivity.
  - destruct (tryMIDInoteOff_held x s Hx E) as (Hp & _).
    unfold poolView in Hp. injection Hp. intros. assumption.
Qed.

(** A note-on and, any time later on the MIDI side, the note-off of the same
    key: the pool has its contents back. *)
Lemma midi_round_trip (s sB : State) (K : Z) :
  0 <= K -> (Z.to_nat K < length (h s))%nat -> MIDIch (hkey s K) = 0 ->
  (mpeChannelQueueActive s = true -> poolInv s) ->
  midiView sB = midiView (tryMIDInoteOn K s) ->
  Permutation (mpeAvailableChannels (tryMIDInoteOff K sB)) (mpeAvailableChannels s).
Proof.
  intros HK Hlen Hc Hinv Hview.
  apply midiView_inv in Hview. destruct Hview as (Hpv & _).
  rewrite (tryMIDInoteOff_pool K sB HK).
  destruct (mpeChannelQueueActive s) eqn:Hq.
  - specialize (Hinv eq_refl).
    assert (Hsame : poolView sB = poolView s ->
              Permutation
                (if MIDIch (hkey sB K) =? 0 then mpeAvailableChannels sB
                 else if mpeChannelQueueActive sB && (mpeLowestChannel sB <=? MIDIch (hkey sB K))
                         && (MIDIch (hkey sB K) <=? mpeHighestChannel sB)
                      then if mpeLowPriorityMode (cfg sB)
                           then insertLowerBound (MIDIch (hkey sB K)) (mpeAvailableChannels sB)
                           else mpeAvailableChannels sB ++ [MIDIch (hkey sB K)]
                      else mpeAvailableChannels sB)
                (mpeAvailableChannels s)).
    { intros Hv. rewrite (poolView_MIDIch _ _ K Hv), Hc.
      change (0 =? 0) with true. cbv iota.
      apply poolView_inv in Hv. destruct Hv as (-> & _). reflexivity. }
    destruct (Z.leb_spec 128 (note (hkey s K))) as [Hn|Hn].
    { apply Hsame. rewrite Hpv. unfold tryMIDInoteOn.
      destruct (Z.leb_spec 128 (note (hkey s K))); [reflexivity|lia]. }
    pose proof (poolInv_poolBranch s Hinv) as Hb.
    destruct (mpeAvailableChannels s) as [|c rest] eqn:Hpool.
    { apply Hsame. rewrite Hpv.
      now rewrite (tryMIDInoteOn_pool_empty K s Hb Hpool Hn Hc). }
    destruct Hinv as (_ & _ & Hlo & Hhi & _ & Hpin & _).
    rewrite Hpool in Hpin. apply Forall_cons in Hpin. destruct Hpin as [Hcin _].
    assert (Hc0 : c <> 0) by lia.
    destruct (tryMIDInoteOn_pool_take K s c rest HK Hlen Hb Hpool Hc0 Hn Hc) as (Hv & _).
    rewrite Hv in Hpv. unfold poolView in Hpv.
    assert (P1 : mpeAvailableChannels sB = rest) by congruence.
    assert (P2 : heldChannels sB = <[Z.to_nat K:=c]> (heldChannels s)) by congruence.
    assert (P3 : mpeLowestChannel sB = mpeLowestChannel s) by congruence.
    assert (P4 : mpeHighestChannel sB = mpeHighestChannel s) by congruence.
    assert (P5 : mpeChannelQueueActive sB = true) by congruence.
    assert (P6 : MIDIch (hkey sB K) = c).
    { rewrite MIDIch_heldChannels, P2, list_lookup_insert_eq; [reflexivity|].
      unfold heldChannels. now rewrite length_map. }
    rewrite P6, P1, P3, P4, P5.
    destruct (Z.eqb_spec c 0) as [?|_]; [contradiction|].
    destruct (Z.leb_spec (mpeLowestChannel s) c); [|lia].
    destruct (Z.leb_spec c (mpeHighestChannel s)); [|lia].
    cbn [andb]. destruct (mpeLowPriorityMode (cfg sB)).
    + apply insertLowerBound_Permutation.
    + symmetry. apply Permutation_cons_append.
  - pose proof (tryMIDInoteOn_inactive K s Hq) as Hp.
    apply poolView_inv in Hpv. destruct Hpv as (P1 & _ & _ & _ & P5 & _).
    assert (Hq' : mpeChannelQueueActive (tryMIDInoteOn K s) = false).
    { unfold tryMIDInoteOn.
      destruct (128 <=? note (hkey s K)); [exact Hq|].
      destruct (negb (MIDIch (hkey s K) =? 0)); [exact Hq|]. cbv zeta.
      assert (Ha : mpeChannelQueueActive (assignMIDIchannel K s) = false).
      { unfold assignMIDIchannel, updKey. rewrite Hq. cbv zeta. split_ifs; exact Hq. }
      destruct (MIDIch (hkey (assignMIDIchannel K s) K) =? 0); [exact Ha|].
      destruct (poolView_inv _ _ (sendMIDInoteOn_keeps_pool K (assignMIDIchannel K s)))
        as (_ & _ & _ & _ & H & _).
      now rewrite H. }
    rewrite P5, Hq', P1, Hp. cbn [andb].
    destruct (MIDIch (hkey sB K) =? 0); reflexivity.
Qed.

(** *** The free-list over a press and a release *)

Definition queueView (s : State) :=
  (synthChQueue s, cfg s, envelopeParams s, length (voices s)).

Lemma queueView_inv (s s' : State) :
  queueView s' = queueView s ->
  synthChQueue s' = synthChQueue s /\ cfg s' = cfg s
  /\ envelopeParams s' = envelopeParams s /\ length (voices s') = length (voices s).
Proof. unfold queueView. intros H. injection H as H1 H2 H3 H4. tauto. Qed.

Lemma updVoice_keeps_queue (i : Z) (f : Voice -> Voice) (s : State) :
  queueView (updVoice i f s) = queueView s.
Proof.
  unfold updVoice, queueView. destruct (i <? 0); [reflexivity|].
  simpl. now rewrite length_alter.
Qed.
Lemma updKey_keeps_queue (x : Z) (f : Key -> Key) (s : State) :
  queueView (updKey x f s) = queueView s.
Proof. unfold updKey. now destruct (x <? 0). Qed.
Lemma set_arpeggiatingNow_keeps_queue (a : Z) (s : State) :
  queueView (set_arpeggiatingNow a s) = queueView s.
Proof. reflexivity. Qed.
Lemma set_nextVoiceGeneration_keeps_queue (g : Z) (s : State) :
  queueView (set_nextVoiceGeneration g s) = queueView s.
Proof. reflexivity. Qed.
Lemma sendToLog_keeps_queue (m : string) (s : State) : queueView (sendToLog m s) = queueView s.
Proof. reflexivity. Qed.
#[local] Hint Rewrite updVoice_keeps_queue updKey_keeps_queue set_arpeggiatingNow_keeps_queue
  set_nextVoiceGeneration_keeps_queue sendToLog_keeps_queue : keeps.

Lemma setSynthFreq_keeps_queue (x ch : Z) (s : State) :
  queueView (setSynthFreq x ch s) = queueView s.
Proof. unfold setSynthFreq. keep. Qed.
Lemma beginEnvelopeAttack_keeps_queue (ch : Z) (s : State) :
  queueView (beginEnvelopeAttack ch s) = queueView s.
Proof. unfold beginEnvelopeAttack. keep. Qed.
Lemma beginEnvelopeRelease_keeps_queue (ch : Z) (s : State) :
  queueView (beginEnvelopeRelease ch s) = queueView s.
Proof. unfold beginEnvelopeRelease. keep. Qed.
Lemma stampGeneration_keeps_queue (i : Z) (s : State) :
  queueView (stampGeneration i s) = queueView s.
Proof. unfold stampGeneration. keep. Qed.
#[local] Hint Rewrite setSynthFreq_keeps_queue beginEnvelopeAttack_keeps_queue
  beginEnvelopeRelease_keeps_queue stampGeneration_keeps_queue : keeps.

Lemma replaceMonoSynthWith_keeps_queue (x : Z) (s : State) :
  queueView (replaceMonoSynthWith x s) = queueView s.
Proof. unfold replaceMonoSynthWith. keep. Qed.

Lemma synthView_queueView (s s' : State) :
  synthView s' = synthView s -> queueView s' = queueView s.
Proof.
  intros H. apply synthView_inv in H. destruct H as (Hv & Hq & _ & Hp & _ & Hc & _).
  unfold queueView. now rewrite Hv, Hq, Hp, Hc.
Qed.

Lemma poll_keeps_queue (s : State) : queueView (poll s) = queueView s.
Proof.
  pose proof (poll_tickFrame s) as H. unfold tickFrame in H. unfold queueView. congruence.
Qed.

Lemma pollN_keeps_queue (n : nat) (s : State) : queueView (pollN n s) = queueView s.
Proof.
  induction n as [|n IH]; [reflexivity|].
  unfold pollN in *. simpl. now rewrite poll_keeps_queue.
Qed.

Lemma processEnvelopeReleases_not_poly (s : State) :
  playbackMode (cfg s) <> SYNTH_POLY ->
  queueView (processEnvelopeReleases s) = queueView s.
Proof.
  intros Hp. unfold processEnvelopeReleases.
  apply (fold_left_invariant processEnvelopeRelease1 (fun a => queueView a = queueView s));
    [|reflexivity].
  intros a i Ha. rewrite <- Ha.
  destruct (queueView_inv _ _ Ha) as (_ & Hc & _).
  destruct (processEnvelopeRelease1_frame a i) as (F1 & _ & _ & F4 & _ & F6).
  unfold queueView. rewrite F1, F4, F6, processEnvelopeRelease1_queue, Hc.
  destruct (Z.eqb_spec (playbackMode (cfg s)) SYNTH_POLY); [contradiction|].
  now rewrite andb_false_r.
Qed.

Lemma trySynthNoteOn_not_poly (x : Z) (s : State) :
  playbackMode (cfg s) <> SYNTH_POLY -> queueView (trySynthNoteOn x s) = queueView s.
Proof.
  intros Hp. unfold trySynthNoteOn.
  destruct (playbackMode (cfg s) =? SYNTH_OFF); [reflexivity|].
  destruct (Z.eqb_spec (playbackMode (cfg s)) SYNTH_POLY); [contradiction|].
  destruct (negb (MIDIch (hkey s x) =? 0)); [|reflexivity].
  apply replaceMonoSynthWith_keeps_queue.
Qed.

Lemma trySynthNoteOff_not_poly (x : Z) (s : State) :
  playbackMode (cfg s) <> SYNTH_POLY -> queueView (trySynthNoteOff x s) = queueView s.
Proof.
  intros Hp. unfold trySynthNoteOff.
  destruct (Z.eqb_spec (playbackMode (cfg s)) SYNTH_POLY); [contradiction|].
  cbn [negb]. rewrite andb_true_r.
  destruct (negb (playbackMode (cfg s) =? 0)); [|reflexivity].
  destruct (arpeggiatingNow s =? x); [|reflexivity].
  apply replaceMonoSynthWith_keeps_queue.
Qed.

Lemma quietVoice_claimed (x ng inc : Z) (v : Voice) :
  quietVoice v -> quietVoice (claimedVoice x ng inc v).
Proof.
  destruct v. unfold quietVoice, claimedVoice. cbn. intros (_ & _ & H & H').
  split; [reflexivity|]. split; [discriminate|]. split; assumption.
Qed.

Lemma quietVoice_not_flagged (vs : list Voice) :
  Forall quietVoice vs -> Forall (fun v => envelopeNeedsFree v = false) vs.
Proof.
  intros H. apply Forall_forall. intros v Hv.
  rewrite Forall_forall in H. exact (proj1 (H v Hv)).
Qed.

(** Poly mode, free-list not empty and no flag pending: the note-on pops the
    head of the free-list. *)
Lemma trySynthNoteOn_pop (x : Z) (s : State) (c : Z) (rest : list Z) :
  playbackMode (cfg s) = SYNTH_POLY ->
  Forall (fun v => envelopeNeedsFree v = false) (voices s) ->
  synthChQueue s = c :: rest ->
  trySynthNoteOn x s
  = sendToLog ("popped " ++ to_string c ++ " off the synth queue")
      (claimSynthVoice x c (set_synthChQueue rest s)).
Proof.
  intros Hpoly Hnf Hq. unfold trySynthNoteOn. rewrite Hpoly.
  change (SYNTH_POLY =? SYNTH_OFF) with false. change (SYNTH_POLY =? SYNTH_POLY) with true.
  cbv iota. rewrite (processEnvelopeReleases_none s Hnf). cbv zeta. rewrite Hq. reflexivity.
Qed.

Lemma trySynthNoteOff_poly (x : Z) (s : State) :
  playbackMode (cfg s) = SYNTH_POLY -> synthCh (hkey s x) <> 0 ->
  trySynthNoteOff x s
  = beginEnvelopeRelease (u8 (synthCh (hkey s x) - 1)) (updKey x (set_synthCh 0) s).
Proof.
  intros Hpoly Hc. unfold trySynthNoteOff. rewrite Hpoly.
  change (SYNTH_POLY =? 0) with false. change (SYNTH_POLY =? SYNTH_POLY) with true.
  cbn [negb andb]. destruct (Z.eqb_spec (synthCh (hkey s x)) 0); [contradiction|]. reflexivity.
Qed.

(** The press, in poly mode with the free-list [c :: rest]. *)
Lemma pressKey_pop (s : State) (K c : Z) (rest : list Z) :
  playbackMode (cfg s) = SYNTH_POLY ->
  0 <= K -> (Z.to_nat K < length (h s))%nat ->
  synthChQueue s = c :: rest -> 1 <= c <= POLYPHONY_LIMIT ->
  Forall quietVoice (voices s) ->
  Forall quietVoice (voices (pressKey K s))
  /\ synthCh (hkey (pressKey K s) K) = c
  /\ queueView (pressKey K s) = (rest, cfg s, envelopeParams s, length (voices s)).
Proof.
  intros Hpoly HK Hlen Hq Hc Hquiet. unfold POLYPHONY_LIMIT in Hc.
  destruct (synthView_inv _ _ (tryMIDInoteOn_keeps_synth K s))
    as (Av & Aq & _ & Ap & _ & Ac & _).
  assert (Alen : length (h (tryMIDInoteOn K s)) = length (h s)).
  { pose proof (tryMIDInoteOn_keeps_notes K s) as Hn. unfold notesView in Hn. now injection Hn. }
  assert (H1 : pressKey K s
               = sendToLog ("popped " ++ to_string c ++ " off the synth queue")
                   (claimSynthVoice K c (set_synthChQueue rest (tryMIDInoteOn K s)))).
  { unfold pressKey. apply trySynthNoteOn_pop; [congruence| |congruence].
    rewrite Av. now apply quietVoice_not_flagged. }
  rewrite H1. revert Av Aq Ap Ac Alen. generalize (tryMIDInoteOn K s). intros sA Av Aq Ap Ac Alen.
  destruct (claimSynthVoice_effect K (c - 1) (set_synthChQueue rest sA))
    as (inc & Cv & Ch & _ & Ccfg & Cq & _ & Cp); [lia|].
  replace (c - 1 + 1) with c in * by lia.
  change (Forall quietVoice (voices (claimSynthVoice K c (set_synthChQueue rest sA)))
          /\ synthCh (hkey (claimSynthVoice K c (set_synthChQueue rest sA)) K) = c
          /\ queueView (claimSynthVoice K c (set_synthChQueue rest sA))
             = (rest, cfg s, envelopeParams s, length (voices s))).
  split; [|split].
  - rewrite Cv. change (voices (set_synthChQueue rest sA)) with (voices sA). rewrite Av.
    apply Forall_alter; [exact Hquiet|]. intros v _. apply quietVoice_claimed.
  - unfold hkey at 1. rewrite Ch. fold (hkey (updKey K (set_synthCh c) (set_synthChQueue rest sA)) K).
    rewrite hkey_updKey_same; [reflexivity|exact HK|].
    change (h (set_synthChQueue rest sA)) with (h sA). now rewrite Alen.
  - unfold queueView. rewrite Cv, Ccfg, Cq, Cp, length_alter.
    change (voices (set_synthChQueue rest sA)) with (voices sA).
    change (cfg (set_synthChQueue rest sA)) with (cfg sA).
    change (envelopeParams (set_synthChQueue rest sA)) with (envelopeParams sA).
    change (synthChQueue (set_synthChQueue rest sA)) with rest.
    now rewrite Av, Ac, Ap.
Qed.

(** The release, the ticks and the drain, in poly mode: the voice of the key
    goes to the back of the free-list. *)
Lemma releaseKey_pushes_back (s : State) (K c : Z) (e : EnvelopeSettings) (n : nat) :
  playbackMode (cfg s) = SYNTH_POLY ->
  synthCh (hkey s K) = c -> 1 <= c <= POLYPHONY_LIMIT ->
  length (voices s) = Z.to_nat POLYPHONY_LIMIT ->
  Forall quietVoice (voices s) ->
  envelopeParams s = (updateEnvelopeParamsFromSettings e).2 ->
  (1 <= n)%nat -> releaseTicks (envelopeParams s) <= Z.of_nat n ->
  synthChQueue (processEnvelopeReleases (pollN n (releaseKey K s))) = synthChQueue s ++ [c].
Proof.
  intros Hpoly HcK Hc Hvl Hquiet Hpar Hn Hrel. unfold POLYPHONY_LIMIT in Hc, Hvl.
  pose proof (tryMIDInoteOff_keeps_synth K s) as Hsv.
  pose proof (synthView_synthCh _ _ K Hsv) as BK.
  apply synthView_inv in Hsv. destruct Hsv as (Bv & Bq & _ & Bp & _ & Bc & _).
  unfold releaseKey. revert BK Bv Bq Bp Bc. generalize (tryMIDInoteOff K s).
  intros sB BK Bv Bq Bp Bc.
  rewrite trySynthNoteOff_poly by first [congruence | rewrite BK, HcK; lia].
  rewrite BK, HcK.
  assert (Hu8 : u8 (c - 1) = c - 1) by (unfold u8; apply Z.mod_small; lia). rewrite Hu8.
  set (sB' := updKey K (set_synthCh 0) sB).
  assert (Dv : voices sB' = voices s) by (subst sB'; now rewrite updKey_voices).
  destruct (queueView_inv _ _ (updKey_keeps_queue K (set_synthCh 0) sB)) as (Dq & Dc & Dp & _).
  fold sB' in Dq, Dc, Dp. clearbody sB'.
  set (s3 := beginEnvelopeRelease (c - 1) sB').
  destruct (queueView_inv _ _ (pollN_keeps_queue n s3)) as (Eq & Ec & _ & El).
  destruct (queueView_inv _ _ (beginEnvelopeRelease_keeps_queue (c - 1) sB'))
    as (Fq & Fc & Fp & Fl).
  fold s3 in Fq, Fc, Fp, Fl.
  destruct (lookup_lt_is_Some_2 (voices s) (Z.to_nat (c - 1)) ltac:(lia)) as [v0 Hv0].
  assert (Hq0 : quietVoice v0) by (eapply Forall_lookup_1; eassumption).
  destruct (release_runs_out sB' (c - 1) v0 n) as (v' & Hv' & Hdone);
    [unfold POLYPHONY_LIMIT; lia|now rewrite Dv|apply Hq0| |exact Hn|congruence|].
  { rewrite Dp, Bp, Hpar. apply releaseTicks_range. }
  fold s3 in Hv'.
  rewrite processEnvelopeReleases_single with (i0 := c - 1).
  - rewrite Eq, Fq, Dq, Bq. now replace (c - 1 + 1) with c by lia.
  - unfold POLYPHONY_LIMIT. lia.
  - congruence.
  - unfold voice. rewrite Hv'. apply Hdone.
  - intros j Hj Hne. unfold voice.
    destruct (voices s !! Z.to_nat j) as [w|] eqn:Hw.
    + assert (Hw3 : voices s3 !! Z.to_nat j = Some w).
      { subst s3. unfold beginEnvelopeRelease.
        destruct (POLYPHONY_LIMIT <=? c - 1); [now rewrite Dv|].
        rewrite updVoice_lookup_ne by lia. now rewrite Dv. }
      destruct (settings_params_range e) as [Hs Hd].
      destruct (pollN_family (fun _ => quietVoice) (envelopeParams s3)
                  (fun _ v ng => quietVoice_poll (envelopeParams s3) v ng
                                   ltac:(rewrite Fp, Dp, Bp, Hpar; exact Hs)
                                   ltac:(rewrite Fp, Dp, Bp, Hpar; exact Hd))
                  n s3 (Z.to_nat j) w eq_refl Hw3) as (w' & Hw' & Hqw).
      { eapply Forall_lookup_1; eassumption. }
      rewrite Hw'. apply Hqw.
    + apply lookup_ge_None_1 in Hw.
      rewrite (lookup_ge_None_2 (voices (pollN n s3)) (Z.to_nat j)); [reflexivity|].
      rewrite El, Fl, Dv. exact Hw.
Qed.

Lemma queueView_not_poly (s s' : State) :
  queueView s' = queueView s -> playbackMode (cfg s) <> SYNTH_POLY ->
  playbackMode (cfg s') <> SYNTH_POLY.
Proof. intros H. apply queueView_inv in H. destruct H as (_ & -> & _). auto. Qed.

Lemma round_trip_not_poly (s : State) (K : Z) (m n : nat) :
  playbackMode (cfg s) <> SYNTH_POLY ->
  synthChQueue (processEnvelopeReleases (pollN n (releaseKey K (pollN m (pressKey K s)))))
  = synthChQueue s.
Proof.
  intros Hp. unfold pressKey, releaseKey.
  assert (Q0 : queueView (tryMIDInoteOn K s) = queueView s)
    by apply synthView_queueView, tryMIDInoteOn_keeps_synth.
  revert Q0. generalize (tryMIDInoteOn K s). intros s0 Q0.
  assert (Q1 : queueView (trySynthNoteOn K s0) = queueView s).
  { rewrite trySynthNoteOn_not_poly; [exact Q0|]. exact (queueView_not_poly _ _ Q0 Hp). }
  revert Q1. generalize (trySynthNoteOn K s0). intros s1 Q1.
  assert (Q2 : queueView (pollN m s1) = queueView s) by now rewrite pollN_keeps_queue.
  revert Q2. generalize (pollN m s1). intros s2 Q2.
  assert (Q3 : queueView (tryMIDInoteOff K s2) = queueView s).
  { rewrite (synthView_queueView _ _ (tryMIDInoteOff_keeps_synth K s2)). exact Q2. }
  revert Q3. generalize (tryMIDInoteOff K s2). intros s3 Q3.
  assert (Q4 : queueView (trySynthNoteOff K s3) = queueView s).
  { rewrite trySynthNoteOff_not_poly; [exact Q3|]. exact (queueView_not_poly _ _ Q3 Hp). }
  revert Q4. generalize (trySynthNoteOff K s3). intros s4 Q4.
  assert (Q5 : queueView (pollN n s4) = queueView s) by now rewrite pollN_keeps_queue.
  revert Q5. generalize (pollN n s4). intros s5 Q5.
  assert (Q6 : queueView (processEnvelopeReleases s5) = queueView s).
  { rewrite processEnvelopeReleases_not_poly; [exact Q5|].
    exact (queueView_not_poly _ _ Q5 Hp). }
  destruct (queueView_inv _ _ Q6) as (H & _). exact H.
Qed.

(** C9 (as amended). Key [K], not held, is pressed (note-on through both
    allocators) and, any number [m] of audio ticks later, released; [n] audio
    ticks follow, at least one and at least the release time in ticks, and then
    one drain of the needs-free flags.  Provided the press did not have to
    steal a voice (in poly mode the free-list is not empty), no voice was
    flagged, in release or about to be released at the press, the free-list
    holds voice numbers 1 to 8, and the channel pool, when active, is as the
    rebuild and the note operations leave it, the channel pool and the voice
    free-list are permutations of their contents before the press. *)
Theorem press_release_round_trip (s : State) (K : Z) (e : EnvelopeSettings) (m n : nat) :
  0 <= K -> (Z.to_nat K < length (h s))%nat -> MIDIch (hkey s K) = 0 ->
  (mpeChannelQueueActive s = true -> poolInv s) ->
  (playbackMode (cfg s) = SYNTH_POLY -> synthChQueue s <> []) ->
  length (voices s) = Z.to_nat POLYPHONY_LIMIT ->
  Forall (fun c => 1 <= c <= POLYPHONY_LIMIT) (synthChQueue s) ->
  Forall quietVoice (voices s) ->
  envelopeParams s = (updateEnvelopeParamsFromSettings e).2 ->
  (1 <= n)%nat -> releaseTicks (envelopeParams s) <= Z.of_nat n ->
  Permutation
    (mpeAvailableChannels
       (processEnvelopeReleases (pollN n (releaseKey K (pollN m (pressKey K s))))))
    (mpeAvailableChannels s)
  /\ Permutation
       (synthChQueue
          (processEnvelopeReleases (pollN n (releaseKey K (pollN m (pressKey K s))))))
       (synthChQueue s).
Proof.
  intros HK Hlen Hc Hinv Hsteal Hvl Hqr Hquiet Hpar Hn Hrel. split.
  - assert (M2 : midiView (pollN m (pressKey K s)) = midiView (tryMIDInoteOn K s))
      by now rewrite pollN_keeps_midi, pressKey_midi.
    assert (M5 : midiView (processEnvelopeReleases
                             (pollN n (releaseKey K (pollN m (pressKey K s)))))
                 = midiView (tryMIDInoteOff K (pollN m (pressKey K s))))
      by now rewrite processEnvelopeReleases_keeps_midi, pollN_keeps_midi, releaseKey_midi.
    apply midiView_inv in M5. destruct M5 as (M5 & _).
    apply poolView_inv in M5. destruct M5 as (-> & _).
    now apply midi_round_trip.
  - destruct (Z.eq_dec (playbackMode (cfg s)) SYNTH_POLY) as [Hpoly|Hpoly];
      [|now rewrite round_trip_not_poly].
    specialize (Hsteal Hpoly).
    destruct (synthChQueue s) as [|c rest] eqn:Hq; [contradiction|].
    apply Forall_cons in Hqr. destruct Hqr as [Hcr _].
    destruct (pressKey_pop s K c rest Hpoly HK Hlen Hq Hcr Hquiet) as (Q1 & Ck & V1).
    unfold queueView in V1. injection V1 as V1q V1c V1p V1l.
    revert Q1 Ck V1q V1c V1p V1l. generalize (pressKey K s).
    intros s1 Q1 Ck V1q V1c V1p V1l.
    destruct (settings_params_range e) as [Hs Hd].
    assert (Q2 : Forall quietVoice (voices (pollN m s1))).
    { apply pollN_Forall; [|exact Q1]. intros v ng.
      apply quietVoice_poll; rewrite V1p, Hpar; assumption. }
    pose proof (pollN_tickFrame m s1) as T2. unfold tickFrame in T2.
    injection T2 as T2c T2h T2q T2p _ T2l.
    rewrite (releaseKey_pushes_back (pollN m s1) K c e n).
    + rewrite T2q, V1q. symmetry. apply Permutation_cons_append.
    + congruence.
    + unfold hkey. rewrite T2h. exact Ck.
    + exact Hcr.
    + congruence.
    + exact Q2.
    + congruence.
    + exact Hn.
    + now rewrite T2p, V1p.
Qed.

End Firmware.

(** ** The ratio search *)

Lemma ln2_pos : (0 < ln 2)%R.
Proof. rewrite <- ln_1. apply ln_increasing; lra. Qed.

Lemma ratioToCents_div (p q : R) :
  (0 < p)%R -> (0 < q)%R -> ratioToCents (p / q) = (ratioToCents p - ratioToCents q)%R.
Proof.
  intros Hp Hq. unfold ratioToCents. change (p / q)%R with (p * / q)%R.
  rewrite ln_mult by (try apply Rinv_0_lt_compat; assumption).
  rewrite ln_Rinv by assumption. pose proof ln2_pos. field. lra.
Qed.

Lemma ratioToCents_1 : ratioToCents 1 = 0%R.
Proof. unfold ratioToCents. rewrite ln_1. pose proof ln2_pos. field. lra. Qed.

Lemma ratioToCents_2 : ratioToCents 2 = 1200%R.
Proof. unfold ratioToCents. pose proof ln2_pos. field. lra. Qed.

Lemma ratioToCents_4 : ratioToCents 4 = 2400%R.
Proof.
  unfold ratioToCents. replace 4%R with (2 * 2)%R by lra.
  rewrite ln_mult by lra. pose proof ln2_pos. field. lra.
Qed.

(** A fifth and an octave: [3^2 > 2^3] and [3^5 < 2^8]. *)
Lemma ratioToCents_3_bounds : (1800 < ratioToCents 3 < 1920)%R.
Proof.
  pose proof ln2_pos as H2.
  assert (Hlo : (3 * ln 2 < 2 * ln 3)%R).
  { replace (3 * ln 2)%R with (ln (2 ^ 3)) by (rewrite ln_pow by lra; simpl; lra).
    replace (2 * ln 3)%R with (ln (3 ^ 2)) by (rewrite ln_pow by lra; simpl; lra).
    apply ln_increasing; lra. }
  assert (Hhi : (5 * ln 3 < 8 * ln 2)%R).
  { replace (5 * ln 3)%R with (ln (3 ^ 5)) by (rewrite ln_pow by lra; simpl; lra).
    replace (8 * ln 2)%R with (ln (2 ^ 8)) by (rewrite ln_pow by lra; simpl; lra).
    apply ln_increasing; lra. }
  unfold ratioToCents. split.
  - apply Rmult_lt_reg_r with (r := ln 2); [exact H2|].
    replace (1200 * (ln 3 / ln 2) * ln 2)%R with (1200 * ln 3)%R by (field; lra). lra.
  - apply Rmult_lt_reg_r with (r := ln 2); [exact H2|].
    replace (1200 * (ln 3 / ln 2) * ln 2)%R with (1200 * ln 3)%R by (field; lra). lra.
Qed.

Lemma ratioScan_first (thr edo : R) (r0 r1 : Z) (rest : list (Z * Z)) (sel : Z * Z) :
  ~ (Rabs (edo - ratioToCents (IZR r0 / IZR r1)) < thr)%R ->
  ratioScan thr edo ((r0, r1) :: rest) None sel
  = ratioScan thr edo rest (Some (edo - ratioToCents (IZR r0 / IZR r1))%R) (r0, r1).
Proof. intros H. cbn [ratioScan fartherThan]. now destruct (Rlt_dec _ thr). Qed.

Lemma ratioScan_skip (thr edo : R) (r0 r1 : Z) (rest : list (Z * Z)) (d : R) (sel : Z * Z) :
  ~ (Rabs (ratioToCents (IZR r0 / IZR r1) - edo) < Rabs d)%R ->
  ratioScan thr edo ((r0, r1) :: rest) (Some d) sel = ratioScan thr edo rest (Some d) sel.
Proof. intros H. cbn [ratioScan fartherThan]. now destruct (Rlt_dec _ (Rabs d)). Qed.

Lemma ratioScan_take (thr edo : R) (r0 r1 : Z) (rest : list (Z * Z)) (d : R) (sel : Z * Z) :
  (Rabs (ratioToCents (IZR r0 / IZR r1) - edo) < Rabs d)%R ->
  ~ (Rabs (edo - ratioToCents (IZR r0 / IZR r1)) < thr)%R ->
  ratioScan thr edo ((r0, r1) :: rest) (Some d) sel
  = ratioScan thr edo rest (Some (edo - ratioToCents (IZR r0 / IZR r1))%R) (r0, r1).
Proof.
  intros H H'. cbn [ratioScan fartherThan].
  destruct (Rlt_dec _ (Rabs d)); [|contradiction]. now destruct (Rlt_dec _ thr).
Qed.

(** Once the deviation is zero no later entry replaces the selection. *)
Lemma ratioScan_exact (thr edo : R) (table : list (Z * Z)) (sel : Z * Z) :
  ratioScan thr edo table (Some 0%R) sel = (Some 0%R, sel).
Proof.
  induction table as [|[r0 r1] rest IH]; [reflexivity|].
  rewrite ratioScan_skip; [exact IH|].
  rewrite Rabs_R0. pose proof (Rabs_pos (ratioToCents (IZR r0 / IZR r1) - edo)). lra.
Qed.

Lemma ratioScan_hit (thr edo : R) (r0 r1 : Z) (rest : list (Z * Z)) (d : R) (sel : Z * Z) :
  (edo - ratioToCents (IZR r0 / IZR r1) = 0)%R -> d <> 0%R ->
  ratioScan thr edo ((r0, r1) :: rest) (Some d) sel = (Some 0%R, (r0, r1)).
Proof.
  intros H Hd. cbn [ratioScan fartherThan].
  replace (ratioToCents (IZR r0 / IZR r1) - edo)%R with 0%R by lra.
  rewrite H, Rabs_R0.
  destruct (Rlt_dec 0 (Rabs d)) as [_|Hn]; [|exfalso; apply Hn, Rabs_pos_lt, Hd].
  destruct (Rlt_dec 0 thr); [reflexivity|apply ratioScan_exact].
Qed.

Ltac cents_values :=
  rewrite ?ratioToCents_div by lra;
  rewrite ?ratioToCents_1, ?ratioToCents_2, ?ratioToCents_4.

Ltac cents_compare :=
  cents_values; unfold Rabs; repeat destruct Rcase_abs; lra.

(** The scan for a fifth, in either orientation of the two keys. *)
Lemma justIntonationSearch_fifth (stepSize f : R) :
  (0 < f)%R -> (stepSize / 4 <= ratioToCents (4 / 3))%R ->
  justIntonationSearch stepSize f (3 / 2 * f) = (Some 0%R, (2, 3))
  /\ justIntonationSearch stepSize (3 / 2 * f) f = (Some 0%R, (3, 2)).
Proof.
  intros Hf Hthr. pose proof ratioToCents_3_bounds as HT.
  rewrite ratioToCents_div in Hthr by lra. rewrite ratioToCents_4 in Hthr.
  unfold justIntonationSearch. cbv zeta.
  replace (f / (3 / 2 * f))%R with (2 / 3)%R by (field; lra).
  replace (3 / 2 * f / f)%R with (3 / 2)%R by (field; lra).
  generalize dependent (stepSize / 4)%R. intros thr Hthr.
  unfold ratios. split.
  - rewrite ratioScan_first by cents_compare.
    rewrite ratioScan_take by cents_compare.
    do 4 (rewrite ratioScan_skip by cents_compare).
    apply ratioScan_hit; cents_values; lra.
  - rewrite ratioScan_first by cents_compare.
    rewrite ratioScan_skip by cents_compare.
    rewrite ratioScan_take by cents_compare.
    do 6 (rewrite ratioScan_skip by cents_compare).
    apply ratioScan_hit; cents_values; lra.
Qed.

(** C7 (as amended). Dynamic just intonation with two keys held, a quarter of
    the tuning step being at most the 498 cents of a fourth: when the frequency
    of the second key is exactly 3/2 of that of the first, the scan of the
    ratio table ends on the entry {2,3} with deviation zero (the interval is
    taken from the new key to the first one), and it ends on the entry {3,2}
    when the frequency of the first key is 3/2 of that of the second. *)
Theorem fifth_resolves_to_inverted_ratio (stepSize f : R) :
  (0 < f)%R -> (stepSize / 4 <= ratioToCents (4 / 3))%R ->
  justIntonationSearch stepSize f (3 / 2 * f) = (Some 0%R, (2, 3))
  /\ justIntonationSearch stepSize (3 / 2 * f) f = (Some 0%R, (3, 2)).
Proof. exact (justIntonationSearch_fifth stepSize f). Qed.

Lemma quarter_step_below_fourth : (100 / 4 <= ratioToCents (4 / 3))%R.
Proof.
  rewrite ratioToCents_div by lra. rewrite ratioToCents_4.
  pose proof ratioToCents_3_bounds. lra.
Qed.

(** * Worked examples

    A board with the factory envelope, every key idle and all eight voices
    free; the retune and the oscillator increment, which the firmware computes
    in floating point, are fixed. *)

Definition noRetune (s : State) (x : Z) : Z := 0.
Definition fixedIncrement (s : State) (x channel : Z) : Z := 1000.

Definition exampleSettings : Settings :=
  mkSettings MPE_MODE_FORCE false false 1 0 3 48 false false 100 SYNTH_POLY true false.

Definition exampleKeys : list Key :=
  map (fun i => mkKey i false (36 + i mod 64) 0 0 0 0 0) (seqZ 0 BTN_COUNT).

Definition exampleEnvelope : EnvelopeSettings := mkEnvelopeSettings 0 0 127 1.

Definition idleBoard : State :=
  mkState exampleSettings exampleKeys [] false 2 16 255 false []
    (updateEnvelopeParamsFromSettings exampleEnvelope).2
    (replicate 8 freshVoice) [1; 2; 3; 4; 5; 6; 7; 8] 1 UNUSED_NOTE [] [].

(** The board after [resetTuningMIDI]: the zone is advertised and the pool
    holds channels 2 to 16. *)
Definition readyBoard : State := resetTuningMIDI idleBoard.

(** Keys 0 to 7 held: every voice is taken. *)
Definition fullBoard : State :=
  fold_left (fun s k => pressKey noRetune fixedIncrement k s) (seqZ 0 8) readyBoard.

(** Key 0 is pressed, released, and its release is seen a second time while
    its voice is still sounding: the voice keeps running without an owner.
    Keys 1 to 7 then take the other voices. *)
Definition orphanBoard : State :=
  fold_left (fun s k => trySynthNoteOn fixedIncrement k s) (seqZ 1 7)
    (trySynthNoteOff fixedIncrement 0
       (trySynthNoteOff fixedIncrement 0 (trySynthNoteOn fixedIncrement 0 readyBoard))).

(** A voice held at full level. *)
Definition sustainedVoice : Voice :=
  mkVoice envelopeMaxLevel 0 Sustain CmdNone true false 1 0 1000 0 0 0.

Definition soundingBoard : State := set_voices (sustainedVoice :: replicate 7 freshVoice) idleBoard.

Ltac concrete :=
  vm_compute; repeat first [ reflexivity | discriminate | lia | constructor ].

Lemma readyBoard_trace : poolTrace noRetune fixedIncrement readyBoard.
Proof. apply trace_rebuild; concrete. Qed.

Lemma steal_takes_oldest_owned_voice_example :
  exists v,
    0 <= v < POLYPHONY_LIMIT
    /\ stealCandidate (processEnvelopeReleases fullBoard) v = true
    /\ (forall k, 0 <= k < POLYPHONY_LIMIT ->
                  stealCandidate (processEnvelopeReleases fullBoard) k = true ->
                  voiceGeneration (voice (processEnvelopeReleases fullBoard) v)
                  <= voiceGeneration (voice (processEnvelopeReleases fullBoard) k))
    /\ synthChannelOwner (voice (trySynthNoteOn fixedIncrement 20 fullBoard) v) = 20
    /\ synthCh (hkey (trySynthNoteOn fixedIncrement 20 fullBoard) 20) = v + 1
    /\ voiceGeneration (voice (trySynthNoteOn fixedIncrement 20 fullBoard) v)
       = nextVoiceGeneration fullBoard
    /\ nextVoiceGeneration (trySynthNoteOn fixedIncrement 20 fullBoard)
       = u32 (nextVoiceGeneration fullBoard + 1)
    /\ envelopeCommand (voice (trySynthNoteOn fixedIncrement 20 fullBoard) v) = StartAttack
    /\ channelInUse (voice (trySynthNoteOn fixedIncrement 20 fullBoard) v) = true.
Proof.
  apply (steal_takes_oldest_owned_voice fixedIncrement fullBoard 20 0); concrete.
Defined.

(** Voice 0 is in use with the lowest generation tag of all, and has no owner;
    the note-on of key 30 takes voice 1 and leaves voice 0 alone. *)
Lemma steal_skips_ownerless_voice :
  synthChQueue (processEnvelopeReleases orphanBoard) = []
  /\ channelInUse (voice (processEnvelopeReleases orphanBoard) 0) = true
  /\ synthChannelOwner (voice (processEnvelopeReleases orphanBoard) 0) = NO_SYNTH_OWNER
  /\ voiceGeneration (voice (processEnvelopeReleases orphanBoard) 0) = 1
  /\ map (fun i => (channelInUse (voice (processEnvelopeReleases orphanBoard) i),
                    voiceGeneration (voice (processEnvelopeReleases orphanBoard) i)))
       (seqZ 1 7)
     = [(true, 2); (true, 3); (true, 4); (true, 5); (true, 6); (true, 7); (true, 8)]
  /\ synthChannelOwner (voice (trySynthNoteOn fixedIncrement 30 orphanBoard) 1) = 30
  /\ synthCh (hkey (trySynthNoteOn fixedIncrement 30 orphanBoard) 30) = 2
  /\ synthChannelOwner (voice (trySynthNoteOn fixedIncrement 30 orphanBoard) 0)
     = NO_SYNTH_OWNER.
Proof. vm_compute. repeat split. Qed.

Lemma release_convergence_example :
  env_level (voice (pollN 300 (beginEnvelopeRelease 0 soundingBoard)) 0) = 0
  /\ env_stage (voice (pollN 300 (beginEnvelopeRelease 0 soundingBoard)) 0) = Idle
  /\ osc_increment (voice (pollN 300 (beginEnvelopeRelease 0 soundingBoard)) 0) = 0
  /\ envelopeNeedsFree (voice (pollN 300 (beginEnvelopeRelease 0 soundingBoard)) 0) = true
  /\ channelInUse
       (voice (processEnvelopeReleases (pollN 300 (beginEnvelopeRelease 0 soundingBoard))) 0)
     = false.
Proof.
  apply (release_convergence soundingBoard 0 sustainedVoice exampleEnvelope 300); concrete.
Defined.

(** With the release time set to zero the bound on the number of ticks is zero,
    and with no tick run the release command has not been taken up. *)
Definition snapReleaseBoard : State :=
  set_envelopeParams (updateEnvelopeParamsFromSettings (mkEnvelopeSettings 0 0 127 0)).2
    soundingBoard.

Lemma release_needs_one_tick :
  ticksFromMicros (envelopeTimeMicros (clampIndex 0)) = 0
  /\ envelopeParams snapReleaseBoard
     = (updateEnvelopeParamsFromSettings (mkEnvelopeSettings 0 0 127 0)).2
  /\ env_stage (voice snapReleaseBoard 0) = Sustain
  /\ env_level (voice (pollN 0 (beginEnvelopeRelease 0 snapReleaseBoard)) 0) = envelopeMaxLevel
  /\ env_stage (voice (pollN 0 (beginEnvelopeRelease 0 snapReleaseBoard)) 0) = Sustain
  /\ envelopeNeedsFree (voice (pollN 0 (beginEnvelopeRelease 0 snapReleaseBoard)) 0) = false.
Proof. vm_compute. repeat split. Qed.

(** Keys 0, 1 and 2 held on the channels 2, 3 and 4. *)
Definition heldBoard : State :=
  tryMIDInoteOn noRetune 2 (tryMIDInoteOn noRetune 1 (tryMIDInoteOn noRetune 0 readyBoard)).

Lemma heldBoard_trace : poolTrace noRetune fixedIncrement heldBoard.
Proof.
  unfold heldBoard.
  apply trace_noteOn; [|concrete|concrete].
  apply trace_noteOn; [|concrete|concrete].
  apply trace_noteOn; [|concrete|concrete].
  exact readyBoard_trace.
Qed.

(** On that board the note-on of key 7 takes channel 5 out of the pool and
    the note-off of key 1 puts channel 3 back. *)
Lemma channel_exclusivity_example :
  mpeChannelQueueActive heldBoard = true
  /\ channelExclusive heldBoard
  /\ MIDIch (hkey (tryMIDInoteOn noRetune 7 heldBoard) 7) = 5
  /\ (count_occ Z.eq_dec (mpeAvailableChannels heldBoard) 5 = 1%nat
      /\ count_occ Z.eq_dec (mpeAvailableChannels (tryMIDInoteOn noRetune 7 heldBoard)) 5
         = 0%nat)
  /\ MIDIch (hkey heldBoard 1) = 3
  /\ (count_occ Z.eq_dec (mpeAvailableChannels heldBoard) 3 = 0%nat
      /\ count_occ Z.eq_dec (mpeAvailableChannels (tryMIDInoteOff 1 heldBoard)) 3 = 1%nat
      /\ MIDIch (hkey (tryMIDInoteOff 1 heldBoard) 1) = 0).
Proof.
  destruct (channel_exclusivity noRetune fixedIncrement heldBoard heldBoard_trace)
    as (Hq & Hex & Hon & Hoff).
  split; [exact Hq|]. split; [exact Hex|].
  split; [vm_compute; reflexivity|]. split.
  { apply (Hon 7 5); clear Hq Hex Hon Hoff;
      first [lia | vm_compute; lia | vm_compute; reflexivity]. }
  split; [vm_compute; reflexivity|].
  apply (Hoff 1 3); clear Hq Hex Hon Hoff; first [lia | vm_compute; reflexivity].
Defined.

(** Key 0 is held on channel 2 when the pool is rebuilt, as the menu items of
    the MPE channel range do through [resetTuningMIDI]: channel 2 is then in
    the pool and on key 0, and the next key pressed gets channel 2 as well. *)
Definition rebuiltWhileHeld : State := resetTuningMIDI (tryMIDInoteOn noRetune 0 readyBoard).

Lemma rebuild_with_held_key_shares_channel :
  mpeChannelQueueActive rebuiltWhileHeld = true
  /\ mpeLowestChannel rebuiltWhileHeld = 2 /\ mpeHighestChannel rebuiltWhileHeld = 16
  /\ MIDIch (hkey rebuiltWhileHeld 0) = 2
  /\ count_occ Z.eq_dec (mpeAvailableChannels rebuiltWhileHeld) 2 = 1%nat
  /\ count_occ Z.eq_dec (heldChannels rebuiltWhileHeld) 2 = 1%nat
  /\ MIDIch (hkey (tryMIDInoteOn noRetune 1 rebuiltWhileHeld) 0) = 2
  /\ MIDIch (hkey (tryMIDInoteOn noRetune 1 rebuiltWhileHeld) 1) = 2
  /\ count_occ Z.eq_dec (heldChannels (tryMIDInoteOn noRetune 1 rebuiltWhileHeld)) 2 = 2%nat.
Proof. vm_compute. repeat split. Qed.

(** The same board with debug messages on. *)
Definition debugIdleBoard : State :=
  mkState
    (mkSettings MPE_MODE_FORCE false false 1 0 3 48 false false 100 SYNTH_POLY true true)
    exampleKeys [] false 2 16 255 false []
    (updateEnvelopeParamsFromSettings exampleEnvelope).2
    (replicate 8 freshVoice) [1; 2; 3; 4; 5; 6; 7; 8] 1 UNUSED_NOTE [] [].

(** Keys 0 to 14 held on the channels 2 to 16, with debug messages on and
    with debug messages off. *)
Definition debugFifteenHeld : State :=
  fold_left (fun s k => pressKey noRetune fixedIncrement k s) (seqZ 0 15)
    (resetTuningMIDI debugIdleBoard).
Definition fifteenHeld : State :=
  fold_left (fun s k => pressKey noRetune fixedIncrement k s) (seqZ 0 15) readyBoard.

Lemma mpe_pool_exhaustion_example :
  mpeAvailableChannels debugFifteenHeld = []
  /\ logOut (tryMIDInoteOn noRetune 15 debugFifteenHeld)
     = logOut debugFifteenHeld ++ ["MPE pool was empty so did not play a MIDI note"%string]
  /\ MIDIch (hkey (pressKey noRetune fixedIncrement 15 debugFifteenHeld) 15) = 0
  /\ midiOut (pressKey noRetune fixedIncrement 15 debugFifteenHeld)
     = midiOut debugFifteenHeld
  /\ (forall y,
        MIDIch (hkey (pressKey noRetune fixedIncrement 15 debugFifteenHeld) y)
        = MIDIch (hkey debugFifteenHeld y)).
Proof.
  destruct (mpe_pool_exhaustion_drops_note noRetune fixedIncrement debugIdleBoard
              (seqZ 0 15) 15)
    as (_ & H1 & _ & H2 & H3 & H4 & H5).
  - reflexivity.
  - reflexivity.
  - concrete.
  - concrete.
  - change (NoDup (seqZ 0 16)). apply NoDup_seqZ.
  - reflexivity.
  - concrete.
  - split; [exact H1|]. split; [|split; [exact H3|split; [exact H4|exact H5]]].
    unfold debugFifteenHeld. rewrite H2. vm_compute. reflexivity.
Defined.

(** With debug messages off, as in the factory settings, the dropped note
    leaves no line in the log: the note-on changes nothing at all. *)
Lemma dropped_note_is_not_logged :
  debugMessages (cfg fifteenHeld) = false
  /\ mpeAvailableChannels fifteenHeld = []
  /\ MIDIch (hkey (tryMIDInoteOn noRetune 15 fifteenHeld) 15) = 0
  /\ midiOut (tryMIDInoteOn noRetune 15 fifteenHeld) = midiOut fifteenHeld
  /\ logOut (tryMIDInoteOn noRetune 15 fifteenHeld) = logOut fifteenHeld
  /\ logOut fifteenHeld = [].
Proof. vm_compute. repeat split. Qed.

Lemma zero_attack_example :
  env_stage (voice (poll (beginEnvelopeAttack 0 idleBoard)) 0) = Sustain
  /\ env_level (voice (poll (beginEnvelopeAttack 0 idleBoard)) 0) = envelopeMaxLevel.
Proof.
  apply (zero_attack_reaches_full_sustain idleBoard 0 freshVoice exampleEnvelope); concrete.
Defined.

Lemma mpe_zone_size_example :
  exists new,
    midiOut (resetTuningMIDI idleBoard) = midiOut idleBoard ++ new
    /\ zoneSizesAdvertised new
       = replicate (length (onTransports (midiD (cfg idleBoard)) [EndRpn 1]))
           (mpeHighestChannel (resetTuningMIDI idleBoard) - 1)
    /\ 2 <= mpeLowestChannel (resetTuningMIDI idleBoard)
         <= mpeHighestChannel (resetTuningMIDI idleBoard)
    /\ mpeHighestChannel (resetTuningMIDI idleBoard) <= 16.
Proof.
  apply (mpe_zone_size_is_highest_minus_one noRetune fixedIncrement idleBoard); concrete.
Defined.

(** The factory range [2, 16]: the zone is advertised on both transports with
    size 15, and [high - low] is 14. *)
Lemma zone_size_of_default_range :
  mpeLowestChannel idleBoard = 2 /\ mpeHighestChannel idleBoard = 16
  /\ MPEpitchBendsNeeded (resetTuningMIDI idleBoard) = 255
  /\ mpeLowestChannel (resetTuningMIDI idleBoard) = 2
  /\ mpeHighestChannel (resetTuningMIDI idleBoard) = 16
  /\ zoneSizesAdvertised (midiOut (resetTuningMIDI idleBoard)) = [15; 15]
  /\ mpeHighestChannel (resetTuningMIDI idleBoard) - mpeLowestChannel (resetTuningMIDI idleBoard)
     = 14.
Proof. vm_compute. repeat split. Qed.

Lemma press_release_round_trip_example :
  Permutation
    (mpeAvailableChannels
       (processEnvelopeReleases
          (pollN 300 (releaseKey fixedIncrement 20
                        (pollN 5 (pressKey noRetune fixedIncrement 20 readyBoard))))))
    (mpeAvailableChannels readyBoard)
  /\ Permutation
       (synthChQueue
          (processEnvelopeReleases
             (pollN 300 (releaseKey fixedIncrement 20
                           (pollN 5 (pressKey noRetune fixedIncrement 20 readyBoard))))))
       (synthChQueue readyBoard).
Proof.
  apply (press_release_round_trip noRetune fixedIncrement readyBoard 20 exampleEnvelope 5 300).
  - concrete.
  - concrete.
  - concrete.
  - intros _. apply (poolTrace_poolInv noRetune fixedIncrement), readyBoard_trace.
  - intros _. concrete.
  - concrete.
  - concrete.
  - concrete.
  - concrete.
  - concrete.
  - concrete.
Defined.

(** All eight voices held: the press of key 20 steals voice 1, and after its
    release the free-list holds that voice although it was empty before. *)
Lemma round_trip_after_steal :
  MIDIch (hkey fullBoard 20) = 0
  /\ synthChQueue fullBoard = []
  /\ map envelopeNeedsFree (voices fullBoard) = replicate 8 false
  /\ synthChQueue
       (processEnvelopeReleases
          (pollN 300 (releaseKey fixedIncrement 20
                        (pollN 5 (pressKey noRetune fixedIncrement 20 fullBoard)))))
     = [1]
  /\ mpeAvailableChannels
       (processEnvelopeReleases
          (pollN 300 (releaseKey fixedIncrement 20
                        (pollN 5 (pressKey noRetune fixedIncrement 20 fullBoard)))))
     = [11; 12; 13; 14; 15; 16; 10]
  /\ mpeAvailableChannels fullBoard = [10; 11; 12; 13; 14; 15; 16].
Proof. vm_compute. repeat split. Qed.

Lemma release_pops_last_pressed_example :
  pressedKeyIDs (pressKey noRetune fixedIncrement 5 (pressKey noRetune fixedIncrement 3 readyBoard))
  = pressedKeyIDs readyBoard ++ [3; 5]
  /\ pressedKeyIDs
       (releaseKey fixedIncrement 3
          (pressKey noRetune fixedIncrement 5 (pressKey noRetune fixedIncrement 3 readyBoard)))
     = pressedKeyIDs readyBoard ++ [3]
  /\ MIDIch
       (hkey (releaseKey fixedIncrement 3
                (pressKey noRetune fixedIncrement 5
                   (pressKey noRetune fixedIncrement 3 readyBoard))) 3) = 0
  /\ MIDIch
       (hkey (releaseKey fixedIncrement 3
                (pressKey noRetune fixedIncrement 5
                   (pressKey noRetune fixedIncrement 3 readyBoard))) 5) <> 0.
Proof.
  apply (release_pops_last_pressed noRetune fixedIncrement readyBoard 3 5); concrete.
Defined.

Lemma fifth_resolves_example :
  justIntonationSearch 100 440 (3 / 2 * 440) = (Some 0%R, (2, 3))
  /\ justIntonationSearch 100 (3 / 2 * 440) 440 = (Some 0%R, (3, 2)).
Proof.
  apply (fifth_resolves_to_inverted_ratio 100 440); [lra|exact quarter_step_below_fourth].
Defined.

(** In 12-EDO with 440 Hz held first and 660 Hz pressed second, the scan ends
    on the entry {2,3}. *)
Lemma fifth_above_selects_two_thirds :
  snd (justIntonationSearch 100 440 660) = (2, 3).
Proof.
  replace 660%R with (3 / 2 * 440)%R by lra.
  destruct (justIntonationSearch_fifth 100 440) as [H _];
    [lra|exact quarter_step_below_fourth|].
  now rewrite H.
Qed.

(** * Further functions of the sketch

    ** Integer helpers

    C++ [/] and [%] on [int] truncate toward zero ([Z.quot], [Z.rem]); the
    [int32_t] values stay within range in every statement below, so their
    arithmetic is written without wrap-around. *)

Definition wrapMidiChannel (baseChannel offset : Z) : Z :=
  let baseChannel := if (baseChannel <? 1) || (16 <? baseChannel) then 1 else baseChannel in
  let index := (baseChannel - 1) + offset in
  let index := Z.rem index 16 in
  let index := if index <? 0 then index + 16 else index in
  u8 (index + 1).

(** [midiChannelOffset], and the pair [(noteOut, channelOut)] of
    [mapExtendedMidiNote]. *)
Definition midiChannelOffset (midiIndex : Z) : Z :=
  let offset := Z.quot midiIndex 128 in
  let remainder := Z.rem midiIndex 128 in
  if remainder <? 0 then offset - 1 else offset.

Definition mapExtendedMidiNote (midiIndex baseChannel : Z) : Z * Z :=
  let offset := Z.quot midiIndex 128 in
  let remainder := Z.rem midiIndex 128 in
  let '(remainder, offset) :=
    if remainder <? 0 then (remainder + 128, offset - 1) else (remainder, offset) in
  (u8 remainder, wrapMidiChannel baseChannel offset).

(** [standardMidiBaseChannel] as [assignPitches] sets it in standard-MIDI
    microtonal mode, from the lowest [midiNoteIndex] of the note keys. *)
Definition standardMidiBaseChannelFor (defaultMidiChannel lowestMidiIndex : Z) : Z :=
  let offset := midiChannelOffset lowestMidiIndex in
  let baseIndex := positiveMod (defaultMidiChannel - 1 - offset) 16 in
  u8 (baseIndex + 1).

Definition applyLEDLevel (value level : Z) : Z :=
  let scaled := u16 (value * level) in
  u8 ((scaled + 127) / 255).

(** The loop [while (value > 1) { value >>= 1; ++exponent; }]; an [int] is
    exhausted after 31 rounds. *)
Fixpoint halvings (fuel : nat) (value exponent : Z) : Z :=
  match fuel with
  | O => exponent
  | S fuel =>
      if 1 <? value then halvings fuel (Z.shiftr value 1) (u8 (exponent + 1)) else exponent
  end.

Definition encodePbWheelSpeed (value : Z) : Z :=
  if value <=? 0 then 10
  else
    let exponent := halvings 32 value 0 in
    if exponent <? 7 then 7 else exponent.

(** [pbWheelSpeed] as [syncSettingsToRuntime] restores it from the stored byte. *)
Definition pbWheelSpeedFromSetting (exponent : Z) : Z :=
  let exponent := if exponent <? 7 then 7 else exponent in
  let exponent := if 14 <? exponent then 14 else exponent in
  Z.shiftl 1 exponent.

(** [buttonDef::interpBtnPress] on [btnState]. *)
Definition BTN_STATE_OFF : Z := 0.
Definition BTN_STATE_NEWPRESS : Z := 1.
Definition BTN_STATE_RELEASED : Z := 2.
Definition BTN_STATE_HELD : Z := 3.

Definition interpBtnPress (isPress : bool) (btnState : Z) : Z :=
  u8 (Z.land (Z.shiftl btnState 1 + (if isPress then 1 else 0)) 3).

(** ** Properties of the integer helpers *)

Lemma rem_floor (a b : Z) :
  0 < b ->
  (if Z.rem a b <? 0 then Z.rem a b + b else Z.rem a b) = a mod b
  /\ (if Z.rem a b <? 0 then Z.quot a b - 1 else Z.quot a b) = a / b.
Proof.
  intros Hb.
  pose proof (Z.quot_rem' a b) as E.
  pose proof (Z.rem_bound_abs a b ltac:(lia)) as Habs.
  assert (Hr : 0 <= (if Z.rem a b <? 0 then Z.rem a b + b else Z.rem a b) < b).
  { destruct (Z.ltb_spec (Z.rem a b) 0); lia. }
  assert (Hq : a = b * (if Z.rem a b <? 0 then Z.quot a b - 1 else Z.quot a b)
                   + (if Z.rem a b <? 0 then Z.rem a b + b else Z.rem a b)).
  { destruct (Z.ltb_spec (Z.rem a b) 0); lia. }
  split.
  - eapply Z.mod_unique_pos; eassumption.
  - eapply Z.div_unique_pos; eassumption.
Qed.

Lemma i32_small (z : Z) : -2147483648 <= z <= 2147483647 -> i32 z = z.
Proof. intros H. unfold i32. rewrite Z.mod_small by lia. lia. Qed.

Lemma positiveMod_floor (n d : Z) :
  0 < d <= 1073741824 -> positiveMod n d = n mod d /\ 0 <= positiveMod n d < d.
Proof.
  intros [Hd Hmax]. assert (E : positiveMod n d = n mod d).
  { unfold positiveMod.
    pose proof (Z.rem_bound_abs n d ltac:(lia)) as Habs.
    rewrite i32_small by lia.
    destruct (rem_floor n d Hd) as [Hm _]. rewrite <- Hm.
    rewrite Z.rem_mod_nonneg by lia.
    destruct (Z.ltb_spec (Z.rem n d) 0).
    - apply Z.mod_small. lia.
    - symmetry. apply Z.mod_unique_pos with (q := 1); lia. }
  split; [exact E|]. rewrite E. apply Z.mod_pos_bound, Hd.
Qed.

(** X1. For a divisor from 1 to 2^30 [positiveMod] is the mathematical
    modulo, whatever the sign of [n]: the result is in [0, d) and congruent
    to [n].  The bound is the largest one: at the divisor 2^30 + 1 the sum
    [(n % d) + d] passes the largest [int] for [n = 2^30] and the result is
    negative. *)
Theorem positiveMod_is_floor_mod (n d : Z) :
  0 < d <= 1073741824 ->
  positiveMod n d = n mod d /\ 0 <= positiveMod n d < d
  /\ positiveMod 1073741824 1073741825 = -1073741822.
Proof.
  intros Hd. destruct (positiveMod_floor n d Hd) as (E & Hr).
  split; [exact E|]. split; [exact Hr|]. reflexivity.
Qed.

Lemma u8_small (z : Z) : 0 <= z < 256 -> u8 z = z.
Proof. intros H. unfold u8. now apply Z.mod_small. Qed.

Lemma wrapMidiChannel_valid (b o : Z) :
  1 <= b <= 16 -> wrapMidiChannel b o = (b - 1 + o) mod 16 + 1.
Proof.
  intros Hb. unfold wrapMidiChannel.
  destruct (Z.ltb_spec b 1); [lia|]. destruct (Z.ltb_spec 16 b); [lia|]. cbn [orb]. cbv zeta.
  destruct (rem_floor (b - 1 + o) 16 ltac:(lia)) as [Hm _]. rewrite Hm.
  pose proof (Z.mod_pos_bound (b - 1 + o) 16 ltac:(lia)). apply u8_small. lia.
Qed.

Lemma wrapMidiChannel_invalid (b o : Z) :
  b < 1 \/ 16 < b -> wrapMidiChannel b o = wrapMidiChannel 1 o.
Proof.
  intros H. unfold wrapMidiChannel.
  destruct (Z.ltb_spec b 1), (Z.ltb_spec 16 b); try lia; reflexivity.
Qed.

Lemma wrapMidiChannel_range (b o : Z) : 1 <= wrapMidiChannel b o <= 16.
Proof.
  destruct (Z_lt_dec b 1) as [H|H];
    [rewrite wrapMidiChannel_invalid by lia; rewrite wrapMidiChannel_valid by lia|].
  { pose proof (Z.mod_pos_bound (1 - 1 + o) 16 ltac:(lia)). lia. }
  destruct (Z_lt_dec 16 b) as [H'|H'];
    [rewrite wrapMidiChannel_invalid by lia; rewrite wrapMidiChannel_valid by lia|].
  { pose proof (Z.mod_pos_bound (1 - 1 + o) 16 ltac:(lia)). lia. }
  rewrite wrapMidiChannel_valid by lia.
  pose proof (Z.mod_pos_bound (b - 1 + o) 16 ltac:(lia)). lia.
Qed.

(** X2. [wrapMidiChannel] always returns a channel from 1 to 16: for a base
    channel in that range it is the channel [offset] steps further round the
    sixteen channels, in either direction, and a base channel out of range
    counts as channel 1. *)
Theorem wrapMidiChannel_wraps (baseChannel offset : Z) :
  1 <= wrapMidiChannel baseChannel offset <= 16
  /\ (1 <= baseChannel <= 16 ->
      wrapMidiChannel baseChannel offset = (baseChannel - 1 + offset) mod 16 + 1)
  /\ (baseChannel < 1 \/ 16 < baseChannel ->
      wrapMidiChannel baseChannel offset = wrapMidiChannel 1 offset).
Proof.
  split; [apply wrapMidiChannel_range|].
  split; [apply wrapMidiChannel_valid|apply wrapMidiChannel_invalid].
Qed.

Lemma mapExtendedMidiNote_eq (midiIndex baseChannel : Z) :
  mapExtendedMidiNote midiIndex baseChannel
  = (midiIndex mod 128, wrapMidiChannel baseChannel (midiIndex / 128)).
Proof.
  unfold mapExtendedMidiNote.
  destruct (rem_floor midiIndex 128 ltac:(lia)) as [Hm Hd].
  pose proof (Z.mod_pos_bound midiIndex 128 ltac:(lia)) as Hb.
  destruct (Z.rem midiIndex 128 <? 0); rewrite <- Hm in Hb |- *; rewrite <- Hd;
    rewrite u8_small by lia; reflexivity.
Qed.

Lemma midiChannelOffset_eq (midiIndex : Z) : midiChannelOffset midiIndex = midiIndex / 128.
Proof.
  unfold midiChannelOffset. destruct (rem_floor midiIndex 128 ltac:(lia)) as [_ Hd].
  exact Hd.
Qed.

(** X3. [mapExtendedMidiNote] splits an extended note index, negative ones
    included, into a MIDI note from 0 to 127 and a channel: the index is 128
    times [midiChannelOffset] plus the note, and the channel is the base
    channel moved by that offset. *)
Theorem mapExtendedMidiNote_splits (midiIndex baseChannel : Z) :
  0 <= (mapExtendedMidiNote midiIndex baseChannel).1 <= 127
  /\ midiIndex = 128 * midiChannelOffset midiIndex + (mapExtendedMidiNote midiIndex baseChannel).1
  /\ (mapExtendedMidiNote midiIndex baseChannel).2
     = wrapMidiChannel baseChannel (midiChannelOffset midiIndex)
  /\ 1 <= (mapExtendedMidiNote midiIndex baseChannel).2 <= 16.
Proof.
  rewrite mapExtendedMidiNote_eq, midiChannelOffset_eq. cbn [fst snd].
  pose proof (Z.mod_pos_bound midiIndex 128 ltac:(lia)).
  pose proof (Z.div_mod midiIndex 128 ltac:(lia)).
  repeat split; try lia; apply wrapMidiChannel_range.
Qed.

(** X4. Standard-MIDI microtonal mode: with the base channel that
    [assignPitches] derives from the lowest note index, the lowest key is sent
    on the default channel, and a key is sent one channel further (wrapping
    from 16 to 1) for every 128 note indices above it. *)
Theorem lowest_key_on_default_channel (defaultMidiChannel lowestMidiIndex midiIndex : Z) :
  1 <= defaultMidiChannel <= 16 ->
  (mapExtendedMidiNote lowestMidiIndex
     (standardMidiBaseChannelFor defaultMidiChannel lowestMidiIndex)).2 = defaultMidiChannel
  /\ (mapExtendedMidiNote midiIndex
        (standardMidiBaseChannelFor defaultMidiChannel lowestMidiIndex)).2
     = (defaultMidiChannel - 1 + (midiIndex / 128 - lowestMidiIndex / 128)) mod 16 + 1.
Proof.
  intros Hd.
  assert (Hbase : standardMidiBaseChannelFor defaultMidiChannel lowestMidiIndex
                  = (defaultMidiChannel - 1 - lowestMidiIndex / 128) mod 16 + 1).
  { unfold standardMidiBaseChannelFor. cbv zeta. rewrite midiChannelOffset_eq.
    destruct (positiveMod_floor (defaultMidiChannel - 1 - lowestMidiIndex / 128) 16
                ltac:(lia)) as [E Hr].
    rewrite E in *. apply u8_small. lia. }
  assert (Hgen : forall i,
    (mapExtendedMidiNote i (standardMidiBaseChannelFor defaultMidiChannel lowestMidiIndex)).2
    = (defaultMidiChannel - 1 + (i / 128 - lowestMidiIndex / 128)) mod 16 + 1).
  { intros i. rewrite mapExtendedMidiNote_eq. cbn [snd]. rewrite Hbase.
    pose proof (Z.mod_pos_bound (defaultMidiChannel - 1 - lowestMidiIndex / 128) 16
                  ltac:(lia)) as Hb.
    rewrite wrapMidiChannel_valid by lia. f_equal.
    replace ((defaultMidiChannel - 1 - lowestMidiIndex / 128) mod 16 + 1 - 1 + i / 128)
      with ((defaultMidiChannel - 1 - lowestMidiIndex / 128) mod 16 + i / 128) by lia.
    rewrite Zplus_mod_idemp_l. f_equal. lia. }
  split; [|apply Hgen].
  rewrite Hgen. replace (lowestMidiIndex / 128 - lowestMidiIndex / 128) with 0 by lia.
  rewrite Z.add_0_r, Z.mod_small by lia. lia.
Qed.

(** X5. [applyLEDLevel] scales a colour byte by a brightness byte without
    overflow: the result never exceeds the value, full brightness (255) keeps
    the value, brightness 0 gives 0, and more brightness never gives less. *)
Theorem applyLEDLevel_scales (value level level' : Z) :
  0 <= value <= 255 -> 0 <= level <= level' -> level' <= 255 ->
  0 <= applyLEDLevel value level <= value
  /\ applyLEDLevel value level <= applyLEDLevel value level'
  /\ applyLEDLevel value 255 = value
  /\ applyLEDLevel value 0 = 0.
Proof.
  intros Hv Hl Hl'.
  assert (Heq : forall l, 0 <= l <= 255 -> applyLEDLevel value l = (value * l + 127) / 255).
  { intros l Hl0. unfold applyLEDLevel. cbv zeta.
    assert (Hs : u16 (value * l) = value * l) by (unfold u16; apply Z.mod_small; nia).
    rewrite Hs. apply u8_small.
    split; [apply Z.div_pos; nia|].
    apply Z.div_lt_upper_bound; nia. }
  rewrite !Heq by lia.
  assert (Hle : (value * level + 127) / 255 <= value).
  { assert ((value * level + 127) / 255 < value + 1); [|lia].
    apply Z.div_lt_upper_bound; nia. }
  repeat split.
  - apply Z.div_pos; nia.
  - exact Hle.
  - apply Z.div_le_mono; nia.
  - symmetry. apply Z.div_unique with (r := 127); lia.
  - rewrite Z.mul_0_r. reflexivity.
Qed.

Lemma halvings_log2 (fuel : nat) :
  forall value exponent,
    0 < value < 2 ^ Z.of_nat fuel -> 0 <= exponent -> exponent + Z.of_nat fuel <= 255 ->
    halvings fuel value exponent = exponent + Z.log2 value.
Proof.
  induction fuel as [|fuel IH]; intros value exponent Hv He Hf.
  - simpl in Hv. lia.
  - cbn [halvings]. destruct (Z.ltb_spec 1 value) as [H1|H1].
    + rewrite u8_small by lia.
      assert (Hs : Z.log2 (Z.shiftr value 1) = Z.log2 value - 1).
      { rewrite Z.log2_shiftr by lia.
        assert (1 <= Z.log2 value) by (apply Z.log2_le_pow2; simpl; lia). lia. }
      rewrite IH; [lia| |lia|lia].
      rewrite Z.shiftr_div_pow2 by lia. change (2 ^ 1) with 2.
      rewrite Nat2Z.inj_succ, Z.pow_succ_r in Hv by lia.
      split; [apply Z.div_str_pos; lia|apply Z.div_lt_upper_bound; lia].
    + replace value with 1 by lia. simpl. lia.
Qed.

(** X6. The pitch-bend wheel speed is stored as an exponent: for a positive
    [int] the encoder gives the base-2 logarithm rounded down, at least 7 (10
    for a value that is negative or zero); the decoder gives a power of two from
    128 to 16384; and each of the selectable speeds 2^7 .. 2^14 comes back
    unchanged from the stored byte. *)
Theorem pbWheelSpeed_round_trip (value stored k : Z) :
  0 < value < 2 ^ 31 -> 7 <= k <= 14 ->
  encodePbWheelSpeed value = Z.max 7 (Z.log2 value)
  /\ encodePbWheelSpeed (- value) = 10
  /\ 128 <= pbWheelSpeedFromSetting stored <= 16384
  /\ encodePbWheelSpeed (2 ^ k) = k
  /\ pbWheelSpeedFromSetting (encodePbWheelSpeed (2 ^ k)) = 2 ^ k
  /\ encodePbWheelSpeed 0 = 10.
Proof.
  intros Hv Hk.
  assert (Henc : forall v, 0 < v < 2 ^ 31 -> encodePbWheelSpeed v = Z.max 7 (Z.log2 v)).
  { intros v Hv'. unfold encodePbWheelSpeed.
    destruct (Z.leb_spec v 0); [lia|]. cbv zeta.
    rewrite halvings_log2; [|change (Z.of_nat 32) with 32; split; [lia|]| |].
    - rewrite Z.add_0_l. destruct (Z.ltb_spec (Z.log2 v) 7); lia.
    - assert (2 ^ 31 < 2 ^ 32) by (apply Z.pow_lt_mono_r; lia). lia.
    - lia.
    - change (Z.of_nat 32) with 32. lia. }
  assert (Hk' : encodePbWheelSpeed (2 ^ k) = k).
  { rewrite Henc.
    - rewrite Z.log2_pow2 by lia. lia.
    - split; [apply Z.pow_pos_nonneg; lia|apply Z.pow_lt_mono_r; lia]. }
  split; [now apply Henc|].
  split; [unfold encodePbWheelSpeed; destruct (Z.leb_spec (- value) 0); [reflexivity|lia]|].
  split.
  - unfold pbWheelSpeedFromSetting. cbv zeta.
    assert (He : exists e, 7 <= e <= 14
                /\ (if 14 <? (if stored <? 7 then 7 else stored) then 14
                    else if stored <? 7 then 7 else stored) = e).
    { destruct (Z.ltb_spec stored 7); [exists 7; split; [lia|reflexivity]|].
      destruct (Z.ltb_spec 14 stored); [exists 14|exists stored]; split; (lia || reflexivity). }
    destruct He as (e & He & ->). rewrite Z.shiftl_1_l.
    change 128 with (2 ^ 7). change 16384 with (2 ^ 14).
    split; apply Z.pow_le_mono_r; lia.
  - split; [exact Hk'|]. split; [|reflexivity].
    rewrite Hk'. unfold pbWheelSpeedFromSetting. cbv zeta.
    destruct (Z.ltb_spec k 7); [lia|]. destruct (Z.ltb_spec 14 k); [lia|].
    apply Z.shiftl_1_l.
Qed.

Lemma interpBtnPress_mod (isPress : bool) (btnState : Z) :
  0 <= btnState ->
  interpBtnPress isPress btnState = (2 * btnState + (if isPress then 1 else 0)) mod 4.
Proof.
  intros Hs. unfold interpBtnPress.
  rewrite Z.shiftl_mul_pow2 by lia. change (2 ^ 1) with 2.
  change 3 with (Z.ones 2). rewrite Z.land_ones by lia. change (2 ^ 2) with 4.
  rewrite (Z.mul_comm btnState 2).
  pose proof (Z.mod_pos_bound (2 * btnState + (if isPress then 1 else 0)) 4 ltac:(lia)).
  apply u8_small. lia.
Qed.

(** X7. [interpBtnPress] keeps the last two samples of a button: whatever the
    state before, after the samples [previous] and then [current] the state is
    NEWPRESS exactly for released-then-pressed, RELEASED exactly for
    pressed-then-released, HELD for pressed twice and OFF for released
    twice. *)
Theorem interpBtnPress_two_samples (btnState : Z) (previous current : bool) :
  0 <= btnState <= 255 ->
  interpBtnPress current (interpBtnPress previous btnState)
  = match previous, current with
    | false, false => BTN_STATE_OFF
    | false, true => BTN_STATE_NEWPRESS
    | true, false => BTN_STATE_RELEASED
    | true, true => BTN_STATE_HELD
    end.
Proof.
  intros Hs. rewrite (interpBtnPress_mod previous) by lia.
  pose proof (Z.mod_pos_bound (2 * btnState + (if previous then 1 else 0)) 4 ltac:(lia)) as Hb.
  rewrite interpBtnPress_mod by lia.
  unfold BTN_STATE_OFF, BTN_STATE_NEWPRESS, BTN_STATE_RELEASED, BTN_STATE_HELD.
  destruct previous, current; Z.to_euclidean_division_equations; lia.
Qed.

(** ** The MPE channel range and pool *)

(** X8. [clampMPEChannelRange] always leaves a range with
    [2 <= low <= high <= 16]; a range that already satisfies this is left
    untouched, so clamping twice is clamping once; and when the clamped lowest
    channel is above the highest, the highest is raised to it. *)
Theorem clampMPEChannelRange_normalises (s : State) :
  2 <= mpeLowestChannel (clampMPEChannelRange s) <= mpeHighestChannel (clampMPEChannelRange s)
  /\ mpeHighestChannel (clampMPEChannelRange s) <= 16
  /\ (2 <= mpeLowestChannel s <= mpeHighestChannel s /\ mpeHighestChannel s <= 16 ->
      clampMPEChannelRange s = s)
  /\ clampMPEChannelRange (clampMPEChannelRange s) = clampMPEChannelRange s
  /\ (2 <= mpeHighestChannel s < mpeLowestChannel s /\ mpeLowestChannel s <= 16 ->
      mpeLowestChannel (clampMPEChannelRange s) = mpeLowestChannel s
      /\ mpeHighestChannel (clampMPEChannelRange s) = mpeLowestChannel s).
Proof.
  assert (Hid : forall t, 2 <= mpeLowestChannel t <= mpeHighestChannel t /\ mpeHighestChannel t <= 16 ->
                          clampMPEChannelRange t = t).
  { intros t Ht. unfold clampMPEChannelRange.
    destruct (Z.ltb_spec (mpeLowestChannel t) 2); [lia|]. cbv zeta.
    destruct (Z.ltb_spec 16 (mpeLowestChannel t)); [lia|].
    destruct (Z.ltb_spec (mpeHighestChannel t) 2); [lia|].
    destruct (Z.ltb_spec 16 (mpeHighestChannel t)); [lia|].
    destruct (Z.ltb_spec (mpeHighestChannel t) (mpeLowestChannel t)); [lia|reflexivity]. }
  destruct (clampMPEChannelRange_effect s) as (H1 & H2 & _).
  split; [exact H1|]. split; [exact H2|]. split; [apply Hid|].
  split; [apply Hid; split; assumption|].
  intros Hs. unfold clampMPEChannelRange.
  destruct (Z.ltb_spec (mpeLowestChannel s) 2); [lia|]. cbv zeta.
  destruct (Z.ltb_spec 16 (mpeLowestChannel s)); [lia|].
  destruct (Z.ltb_spec (mpeHighestChannel s) 2); [lia|].
  destruct (Z.ltb_spec 16 (mpeHighestChannel s)); [lia|].
  destruct (Z.ltb_spec (mpeHighestChannel s) (mpeLowestChannel s)); [|lia].
  split; reflexivity.
Qed.

(** A pool in increasing order. *)
Fixpoint ascending (l : list Z) : bool :=
  match l with
  | [] => true
  | x :: rest => forallb (Z.leb x) rest && ascending rest
  end.

Lemma forallb_insertLowerBound (P : Z -> bool) (c : Z) (l : list Z) :
  forallb P (insertLowerBound c l) = P c && forallb P l.
Proof.
  induction l as [|y l IH]; simpl; [reflexivity|].
  destruct (y <? c); simpl; [|reflexivity].
  rewrite IH. destruct (P y), (P c); reflexivity.
Qed.

Lemma forallb_leb_trans (c y : Z) (l : list Z) :
  c <= y -> forallb (Z.leb y) l = true -> forallb (Z.leb c) l = true.
Proof.
  intros Hcy H. rewrite forallb_forall in *. intros z Hz.
  specialize (H z Hz). apply Z.leb_le in H. apply Z.leb_le. lia.
Qed.

Lemma ascending_insertLowerBound (c : Z) (l : list Z) :
  ascending l = true -> ascending (insertLowerBound c l) = true.
Proof.
  induction l as [|y l IH]; intros Hl; [reflexivity|].
  simpl in Hl. apply andb_true_iff in Hl. destruct Hl as [Hy Hl].
  simpl. destruct (Z.ltb_spec y c) as [H|H]; simpl.
  - rewrite forallb_insertLowerBound, Hy, (IH Hl).
    assert (Hc : (y <=? c) = true) by (apply Z.leb_le; lia). now rewrite Hc.
  - rewrite Hy, Hl.
    assert (Hc : (c <=? y) = true) by (apply Z.leb_le; lia). rewrite Hc.
    now rewrite (forallb_leb_trans c y l H Hy).
Qed.

Lemma ascending_sortChannels (l : list Z) : ascending (sortChannels l) = true.
Proof.
  induction l as [|x l IH]; [reflexivity|]. simpl. now apply ascending_insertLowerBound.
Qed.

Lemma insertLowerBound_front (c : Z) (l : list Z) :
  forallb (Z.leb c) l = true -> insertLowerBound c l = c :: l.
Proof.
  destruct l as [|y l]; [reflexivity|]. simpl. intros H.
  apply andb_true_iff in H. destruct H as [H _]. apply Z.leb_le in H.
  destruct (Z.ltb_spec y c); [lia|reflexivity].
Qed.

Lemma sortChannels_ascending (l : list Z) : ascending l = true -> sortChannels l = l.
Proof.
  induction l as [|x l IH]; intros Hl; [reflexivity|].
  simpl in Hl. apply andb_true_iff in Hl. destruct Hl as [Hx Hl].
  simpl. rewrite (IH Hl). now apply insertLowerBound_front.
Qed.

Lemma ascending_seqZ (n : nat) : forall a, ascending (seqZ a (Z.of_nat n)) = true.
Proof.
  induction n as [|n IH]; intros a; [reflexivity|].
  rewrite seqZ_cons by lia. cbn [ascending].
  replace (Z.pred (Z.of_nat (S n))) with (Z.of_nat n) by lia.
  rewrite IH, andb_true_r. apply forallb_forall. intros z Hz.
  apply list_elem_of_In, elem_of_seqZ in Hz. apply Z.leb_le. lia.
Qed.

Lemma ascending_seqZ_any (a n : Z) : ascending (seqZ a n) = true.
Proof.
  destruct (Z_le_dec 0 n) as [H|H].
  - rewrite <- (Z2Nat.id n H). apply ascending_seqZ.
  - unfold seqZ. replace (Z.to_nat n) with 0%nat by lia. reflexivity.
Qed.

Lemma resetMPEChannelPool_pool (s : State) :
  mpeAvailableChannels (resetMPEChannelPool s)
  = seqZ (mpeLowestChannel s) (mpeHighestChannel s - mpeLowestChannel s + 1).
Proof.
  unfold resetMPEChannelPool. cbv zeta.
  change (mpeLowestChannel (set_mpeAvailableChannels [] s)) with (mpeLowestChannel s).
  change (mpeHighestChannel (set_mpeAvailableChannels [] s)) with (mpeHighestChannel s).
  pose proof (resetMPEChannelPool_fill
                (seqZ (mpeLowestChannel s) (mpeHighestChannel s - mpeLowestChannel s + 1))
                (set_mpeAvailableChannels [] s)) as Hfill.
  cbv zeta in Hfill. destruct Hfill as (F1 & _ & _ & _ & _ & _ & F7 & _).
  revert F1 F7. generalize (fold_left
    (fun (s0 : State) (ch : Z) =>
       sendToLog ("added ch " ++ to_string ch ++ " to the MPE pool")
         (set_mpeAvailableChannels (mpeAvailableChannels s0 ++ [ch]) s0))
    (seqZ (mpeLowestChannel s) (mpeHighestChannel s - mpeLowestChannel s + 1))
    (set_mpeAvailableChannels [] s)).
  intros s' F1 F7. cbn in F1.
  destruct (mpeLowPriorityMode (cfg s')); [|exact F1].
  cbn. rewrite F1. apply sortChannels_ascending, ascending_seqZ_any.
Qed.

(** X9. [resetMPEChannelPool] refills the pool with exactly the channels
    [low .. high] in increasing order, once each, in low-priority mode as in
    round-robin mode (nothing when [high < low]), and leaves the channels of
    the keys, the range and the MIDI traffic as they were.  The loop counter
    is a byte, so the highest channel is below 255. *)
Theorem resetMPEChannelPool_refills (s : State) :
  mpeHighestChannel s < 255 ->
  mpeAvailableChannels (resetMPEChannelPool s)
  = seqZ (mpeLowestChannel s) (mpeHighestChannel s - mpeLowestChannel s + 1)
  /\ length (mpeAvailableChannels (resetMPEChannelPool s))
     = Z.to_nat (mpeHighestChannel s - mpeLowestChannel s + 1)
  /\ NoDup (mpeAvailableChannels (resetMPEChannelPool s))
  /\ heldChannels (resetMPEChannelPool s) = heldChannels s
  /\ midiOut (resetMPEChannelPool s) = midiOut s.
Proof.
  intros _.
  pose proof (resetMPEChannelPool_pool s) as E.
  destruct (resetMPEChannelPool_effect s) as (_ & H2 & _ & _ & _ & _ & _ & H8).
  rewrite E. repeat split; try assumption.
  - apply length_seqZ.
  - apply NoDup_seqZ.
Qed.

(** ** Low-priority mode: the lowest free channel first *)

Lemma rebuildMPEChannelPool_ascending (s : State) :
  ascending (mpeAvailableChannels (rebuildMPEChannelPool s)) = true.
Proof.
  unfold rebuildMPEChannelPool. cbv zeta.
  destruct (1 <? MPEpitchBendsNeeded _); [|reflexivity].
  destruct (_ || _)%bool; [|reflexivity].
  rewrite resetMPEChannelPool_pool. apply ascending_seqZ_any.
Qed.

Section Allocators.
Variable jiPitchAdjustment : State -> Z -> Z.
Variable synthIncrementFor : State -> Z -> Z -> Z.

Lemma poolTrace_ascending (s : State) :
  poolTrace jiPitchAdjustment synthIncrementFor s ->
  mpeLowPriorityMode (cfg s) = true ->
  ascending (mpeAvailableChannels s) = true.
Proof.
  intros Htr. pose proof Htr as Htr0.
  induction Htr as [s Hh Hn|x s Htr IH Hx Hlen|x s Htr IH Hx Hlen|x s Htr IH|x s Htr IH
                   |s Htr IH|s Htr IH|s Htr IH]; intros Hlow.
  - unfold resetTuningMIDI.
    destruct (poolView_inv noRetune fixedIncrement _ _ (resetChannelControllers_keeps_pool
                (rebuildMPEChannelPool
                   (advertiseMPEzone (normaliseMPEChannelRange (decideMPEpitchBends s))))))
      as (-> & _).
    apply rebuildMPEChannelPool_ascending.
  - destruct (synthView_inv noRetune fixedIncrement _ _ (tryMIDInoteOn_keeps_synth jiPitchAdjustment x s))
      as (_ & _ & _ & _ & _ & Hc & _).
    rewrite Hc in Hlow. specialize (IH Htr Hlow).
    pose proof (poolTrace_poolInv _ _ _ Htr) as Hinv.
    destruct (Z.leb_spec 128 (note (hkey s x))) as [Hn|Hn].
    { unfold tryMIDInoteOn. destruct (Z.leb_spec 128 (note (hkey s x))); [exact IH|lia]. }
    destruct (Z.eq_dec (MIDIch (hkey s x)) 0) as [Hch|Hch].
    2:{ unfold tryMIDInoteOn. destruct (128 <=? note (hkey s x)); [exact IH|].
        destruct (Z.eqb_spec (MIDIch (hkey s x)) 0); [contradiction|exact IH]. }
    pose proof (poolInv_poolBranch s Hinv) as Hb.
    destruct (mpeAvailableChannels s) as [|c rest] eqn:Hpool.
    { rewrite (tryMIDInoteOn_pool_empty jiPitchAdjustment x s Hb Hpool Hn Hch).
      cbn. now rewrite Hpool. }
    destruct Hinv as (_ & _ & Hlo & _ & _ & Hpin & _).
    rewrite Hpool in Hpin. apply Forall_cons in Hpin. destruct Hpin as [Hcin _].
    destruct (tryMIDInoteOn_pool_take jiPitchAdjustment x s c rest Hx Hlen Hb Hpool
                ltac:(lia) Hn Hch) as (Hv & _).
    unfold poolView in Hv. injection Hv as -> _ _ _ _ _ _ _.
    cbn [ascending] in IH. apply andb_true_iff in IH. apply IH.
  - destruct (synthView_inv noRetune fixedIncrement _ _ (tryMIDInoteOff_keeps_synth x s))
      as (_ & _ & _ & _ & _ & Hc & _).
    rewrite Hc in Hlow. specialize (IH Htr Hlow).
    rewrite (tryMIDInoteOff_pool noRetune fixedIncrement x s Hx), Hlow.
    destruct (MIDIch (hkey s x) =? 0); [exact IH|].
    destruct (_ && _ && _)%bool; [|exact IH].
    now apply ascending_insertLowerBound.
  - destruct (poolView_inv noRetune fixedIncrement _ _ (proj1 (midiView_inv _ _
                (trySynthNoteOn_keeps_midi synthIncrementFor x s))))
      as (-> & _ & _ & _ & _ & _ & Hc & _).
    rewrite Hc in Hlow. now apply IH.
  - destruct (poolView_inv noRetune fixedIncrement _ _ (proj1 (midiView_inv _ _
                (trySynthNoteOff_keeps_midi synthIncrementFor x s))))
      as (-> & _ & _ & _ & _ & _ & Hc & _).
    rewrite Hc in Hlow. now apply IH.
  - destruct (poolView_inv noRetune fixedIncrement _ _ (proj1 (midiView_inv _ _ (poll_keeps_midi s))))
      as (-> & _ & _ & _ & _ & _ & Hc & _).
    rewrite Hc in Hlow. now apply IH.
  - destruct (poolView_inv noRetune fixedIncrement _ _ (proj1 (midiView_inv _ _
                (processEnvelopeReleases_keeps_midi s))))
      as (-> & _ & _ & _ & _ & _ & Hc & _).
    rewrite Hc in Hlow. now apply IH.
  - destruct (poolView_inv noRetune fixedIncrement _ _ (proj1 (midiView_inv _ _
                (retryPendingReleases_keeps_midi s))))
      as (-> & _ & _ & _ & _ & _ & Hc & _).
    rewrite Hc in Hlow. now apply IH.
Qed.

(** X10. Low-priority mode: in every state reached from a rebuild of the pool
    by note-ons, note-offs, synth operations and ticks the pool is in
    increasing order, so the channel a note-on assigns is the lowest free
    channel. *)
Theorem low_priority_takes_lowest_channel (s : State) (x c : Z) :
  poolTrace jiPitchAdjustment synthIncrementFor s ->
  mpeLowPriorityMode (cfg s) = true ->
  0 <= x -> (Z.to_nat x < length (h s))%nat ->
  MIDIch (hkey s x) = 0 ->
  MIDIch (hkey (tryMIDInoteOn jiPitchAdjustment x s) x) = c -> c <> 0 ->
  ascending (mpeAvailableChannels s) = true
  /\ In c (mpeAvailableChannels s)
  /\ Forall (fun c' => c <= c') (mpeAvailableChannels s).
Proof.
  intros Htr Hlow Hx Hlen Hch Hc Hc0.
  pose proof (poolTrace_ascending s Htr Hlow) as Hasc.
  pose proof (poolTrace_poolInv _ _ _ Htr) as Hinv.
  split; [exact Hasc|].
  destruct (Z.leb_spec 128 (note (hkey s x))) as [Hn|Hn].
  { exfalso. apply Hc0. rewrite <- Hc. unfold tryMIDInoteOn.
    destruct (Z.leb_spec 128 (note (hkey s x))); [exact Hch|lia]. }
  pose proof (poolInv_poolBranch s Hinv) as Hb.
  destruct (mpeAvailableChannels s) as [|c0 rest] eqn:Hpool.
  { exfalso. apply Hc0. rewrite <- Hc.
    rewrite (tryMIDInoteOn_pool_empty jiPitchAdjustment x s Hb Hpool Hn Hch). exact Hch. }
  destruct Hinv as (_ & _ & Hlo & _ & _ & Hpin & _).
  rewrite Hpool in Hpin. apply Forall_cons in Hpin. destruct Hpin as [Hcin _].
  destruct (tryMIDInoteOn_pool_take jiPitchAdjustment x s c0 rest Hx Hlen Hb Hpool
              ltac:(lia) Hn Hch) as (Hv & _).
  assert (Hc' : c = c0).
  { rewrite <- Hc, MIDIch_heldChannels.
    unfold poolView in Hv. injection Hv as _ -> _ _ _ _ _ _.
    rewrite list_lookup_insert_eq; [reflexivity|].
    unfold heldChannels. now rewrite length_map. }
  subst c0. split; [now left|].
  cbn [ascending] in Hasc. apply andb_true_iff in Hasc. destruct Hasc as [Hhd _].
  constructor; [lia|]. apply Forall_forall. intros c' Hc'.
  rewrite forallb_forall in Hhd. apply Z.leb_le, Hhd, list_elem_of_In, Hc'.
Qed.


(** ** What a note-on and a note-off send *)

Lemma justIntonationRetune_midiOut (x : Z) (s : State) :
  midiOut (justIntonationRetune jiPitchAdjustment x s) = midiOut s
  /\ note (hkey (justIntonationRetune jiPitchAdjustment x s) x) = note (hkey s x)
  /\ MIDIch (hkey (justIntonationRetune jiPitchAdjustment x s) x) = MIDIch (hkey s x)
  /\ cfg (justIntonationRetune jiPitchAdjustment x s) = cfg s
  /\ MPEpitchBendsNeeded (justIntonationRetune jiPitchAdjustment x s) = MPEpitchBendsNeeded s.
Proof.
  unfold justIntonationRetune.
  assert (H : forall r,
    midiOut (updKey x (set_jiRetune r) s) = midiOut s
    /\ note (hkey (updKey x (set_jiRetune r) s) x) = note (hkey s x)
    /\ MIDIch (hkey (updKey x (set_jiRetune r) s) x) = MIDIch (hkey s x)
    /\ cfg (updKey x (set_jiRetune r) s) = cfg s
    /\ MPEpitchBendsNeeded (updKey x (set_jiRetune r) s) = MPEpitchBendsNeeded s).
  { intros r. unfold updKey, hkey. destruct (x <? 0); [repeat split|].
    cbn [midiOut h cfg MPEpitchBendsNeeded set_h].
    rewrite list_lookup_alter_eq.
    destruct (h s !! Z.to_nat x); repeat split. }
  destruct (_ && _)%bool; apply H.
Qed.

(** The messages of the block of [tryMIDInoteOn] that runs once the key has a
    channel. *)
Definition noteOnMessages (s : State) (x pitchBendValue : Z) : list (Transport * MidiMsg) :=
  (if MPEpitchBendsNeeded s =? 1 then []
   else onTransports (midiD (cfg s)) [PitchBend pitchBendValue (MIDIch (hkey s x))]
        ++ (if extraMPE (cfg s)
            then onTransports (midiD (cfg s))
                   [AfterTouch (velWheel_curValue (cfg s)) (MIDIch (hkey s x));
                    ControlChange 74 (CC74value (cfg s)) (MIDIch (hkey s x))]
            else []))
  ++ onTransports (midiD (cfg s))
       [NoteOn (note (hkey s x)) (velWheel_curValue (cfg s)) (MIDIch (hkey s x))].

Lemma sendMIDInoteOn_midiOut (x : Z) (s : State) :
  exists pitchBendValue,
    -8192 <= pitchBendValue <= 8191
    /\ midiOut (sendMIDInoteOn jiPitchAdjustment x s)
       = midiOut s ++ noteOnMessages s x pitchBendValue.
Proof.
  unfold sendMIDInoteOn.
  set (s1 := set_pressedKeyIDs (pressedKeyIDs s ++ [x]) s).
  destruct (justIntonationRetune_midiOut x s1) as (J1 & J2 & J3 & J4 & J5).
  revert J1 J2 J3 J4 J5. generalize (justIntonationRetune jiPitchAdjustment x s1).
  intros s2 J1 J2 J3 J4 J5.
  change (midiOut s1) with (midiOut s) in J1. change (hkey s1 x) with (hkey s x) in J2, J3.
  change (cfg s1) with (cfg s) in J4.
  change (MPEpitchBendsNeeded s1) with (MPEpitchBendsNeeded s) in J5.
  exists (combinedPitchBend x s2). split.
  { unfold combinedPitchBend.
    destruct (Z.ltb_spec 8191 (bend (hkey s2 x) + jiRetune (hkey s2 x))); [lia|].
    destruct (Z.ltb_spec (bend (hkey s2 x) + jiRetune (hkey s2 x)) (-8192)); lia. }
  unfold noteOnMessages. cbv zeta. rewrite J5.
  assert (Hk : forall m t, hkey (set_midiOut m t) x = hkey t x) by reflexivity.
  destruct (MPEpitchBendsNeeded s =? 1).
  - unfold withMIDI, sendToLog. cbn [midiOut set_midiOut set_logOut cfg].
    now rewrite J1, J2, J3, J4.
  - unfold withMIDI, sendToLog. cbn [midiOut set_midiOut set_logOut cfg]. rewrite J4.
    destruct (extraMPE (cfg s)); cbn [midiOut set_midiOut set_logOut cfg];
      rewrite ?Hk, ?J1, ?J2, ?J3, ?J4, <- ?app_assoc; reflexivity.
Qed.

Lemma updKey_facts (x : Z) (f : Key -> Key) (s : State) :
  midiOut (updKey x f s) = midiOut s
  /\ cfg (updKey x f s) = cfg s
  /\ MPEpitchBendsNeeded (updKey x f s) = MPEpitchBendsNeeded s
  /\ mpeChannelQueueActive (updKey x f s) = mpeChannelQueueActive s
  /\ mpeLowestChannel (updKey x f s) = mpeLowestChannel s
  /\ mpeHighestChannel (updKey x f s) = mpeHighestChannel s
  /\ mpeAvailableChannels (updKey x f s) = mpeAvailableChannels s
  /\ length (h (updKey x f s)) = length (h s).
Proof.
  unfold updKey. destruct (x <? 0); [repeat split|].
  cbn. rewrite length_alter. repeat split.
Qed.

Lemma hkey_updKey_fields (x : Z) (f : Key -> Key) (s : State) (A : Type) (proj : Key -> A) :
  (forall k, proj (f k) = proj k) -> proj (hkey (updKey x f s) x) = proj (hkey s x).
Proof.
  intros Hf. unfold updKey, hkey. destruct (x <? 0); [reflexivity|].
  cbn [h set_h]. rewrite list_lookup_alter_eq.
  destruct (h s !! Z.to_nat x); [apply Hf|reflexivity].
Qed.

(** X11. Outside MPE mode ([MPEpitchBendsNeeded = 1]) a note-on for a
    playable key without a channel gives the key the default channel (in
    standard-MIDI microtonal mode the key's mapped channel when it has one),
    sends one Note On per enabled transport on that channel and no pitch bend,
    leaves the channel pool alone and pushes the key on the key stack. *)
Theorem plain_midi_note_on (s : State) (x : Z) :
  MPEpitchBendsNeeded s = 1 ->
  0 <= x -> (Z.to_nat x < length (h s))%nat ->
  note (hkey s x) < 128 -> MIDIch (hkey s x) = 0 ->
  (if standardMidiMicrotonalActive s && negb (mappedMidiChannel (hkey s x) =? 0)
   then mappedMidiChannel (hkey s x) else defaultMidiChannel (cfg s)) <> 0 ->
  let channel :=
    if standardMidiMicrotonalActive s && negb (mappedMidiChannel (hkey s x) =? 0)
    then mappedMidiChannel (hkey s x) else defaultMidiChannel (cfg s) in
  MIDIch (hkey (tryMIDInoteOn jiPitchAdjustment x s) x) = channel
  /\ midiOut (tryMIDInoteOn jiPitchAdjustment x s)
     = midiOut s
       ++ onTransports (midiD (cfg s))
            [NoteOn (note (hkey s x)) (velWheel_curValue (cfg s)) channel]
  /\ mpeAvailableChannels (tryMIDInoteOn jiPitchAdjustment x s) = mpeAvailableChannels s
  /\ pressedKeyIDs (tryMIDInoteOn jiPitchAdjustment x s) = pressedKeyIDs s ++ [x].
Proof.
  intros Hn Hx Hlen Hnote Hch Hc0 channel. fold channel in Hc0.
  assert (Ha : assignMIDIchannel x s = updKey x (set_MIDIch channel) s).
  { unfold assignMIDIchannel. rewrite Hn. change (1 =? 1) with true. cbv iota.
    subst channel. destruct (standardMidiMicrotonalActive s); [|reflexivity].
    cbn [andb]. now destruct (mappedMidiChannel (hkey s x) =? 0). }
  rewrite tryMIDInoteOn_unheld by assumption. rewrite Ha.
  assert (Hk : MIDIch (hkey (updKey x (set_MIDIch channel) s) x) = channel).
  { rewrite hkey_updKey_same by assumption. reflexivity. }
  rewrite Hk. destruct (Z.eqb_spec channel 0) as [?|_]; [contradiction|].
  destruct (updKey_facts x (set_MIDIch channel) s) as (U1 & U2 & U3 & _ & _ & _ & U7 & _).
  pose proof (hkey_updKey_fields x (set_MIDIch channel) s Z note ltac:(reflexivity)) as Unote.
  pose proof (updKey_keeps_stack x (set_MIDIch channel) s) as Ustack.
  revert Hk U1 U2 U3 U7 Unote Ustack. generalize (updKey x (set_MIDIch channel) s).
  intros s' Hk U1 U2 U3 U7 Unote Ustack.
  destruct (sendMIDInoteOn_midiOut x s') as (pb & _ & Hout).
  pose proof (sendMIDInoteOn_keeps_pool jiPitchAdjustment x s') as Hpv.
  split; [|split; [|split]].
  - rewrite (poolView_MIDIch noRetune fixedIncrement _ _ x Hpv). exact Hk.
  - rewrite Hout. unfold noteOnMessages. rewrite U3, Hn. change (1 =? 1) with true.
    cbv iota. rewrite U1, U2, Unote, Hk. reflexivity.
  - apply (poolView_inv noRetune fixedIncrement) in Hpv.
    destruct Hpv as (-> & _). exact U7.
  - rewrite sendMIDInoteOn_stack. now rewrite Ustack.
Qed.

(** X12. In MPE mode, in a state reached from a rebuild of the pool, a note-on
    for a playable key without a channel takes the channel at the front of the
    pool, a member channel of the zone (never the master channel 1), and sends
    on that channel first the pitch bend of the key, within the 14-bit range,
    then the channel pressure and CC 74 when the extra MPE messages are on,
    and last the Note On. *)
Theorem mpe_note_on_traffic (s : State) (x c : Z) (rest : list Z) :
  poolTrace jiPitchAdjustment synthIncrementFor s ->
  0 <= x -> (Z.to_nat x < length (h s))%nat ->
  note (hkey s x) < 128 -> MIDIch (hkey s x) = 0 ->
  mpeAvailableChannels s = c :: rest ->
  exists pitchBendValue,
    -8192 <= pitchBendValue <= 8191
    /\ midiOut (tryMIDInoteOn jiPitchAdjustment x s)
       = midiOut s
         ++ onTransports (midiD (cfg s)) [PitchBend pitchBendValue c]
         ++ (if extraMPE (cfg s)
             then onTransports (midiD (cfg s))
                    [AfterTouch (velWheel_curValue (cfg s)) c;
                     ControlChange 74 (CC74value (cfg s)) c]
             else [])
         ++ onTransports (midiD (cfg s))
              [NoteOn (note (hkey s x)) (velWheel_curValue (cfg s)) c]
    /\ MIDIch (hkey (tryMIDInoteOn jiPitchAdjustment x s) x) = c
    /\ 2 <= mpeLowestChannel s <= c /\ c <= mpeHighestChannel s <= 16.
Proof.
  intros Htr Hx Hlen Hnote Hch Hpool.
  pose proof (poolTrace_poolInv _ _ _ Htr) as Hinv.
  pose proof (poolInv_poolBranch s Hinv) as Hb.
  destruct Hinv as (_ & Hne & Hlo & Hhi & _ & Hpin & _).
  rewrite Hpool in Hpin. apply Forall_cons in Hpin. destruct Hpin as [Hcin _].
  assert (Hc0 : c <> 0) by lia.
  rewrite tryMIDInoteOn_unheld by assumption.
  rewrite (assignMIDIchannel_pool_take x s c rest Hb Hpool Hc0).
  set (s0 := set_mpeAvailableChannels rest s).
  assert (Hk : MIDIch (hkey (updKey x (set_MIDIch c) s0) x) = c).
  { rewrite hkey_updKey_same; [reflexivity|exact Hx|exact Hlen]. }
  destruct (updKey_facts x (set_MIDIch c) s0) as (U1 & U2 & U3 & _).
  pose proof (hkey_updKey_fields x (set_MIDIch c) s0 Z note ltac:(reflexivity)) as Unote.
  change (midiOut s0) with (midiOut s) in U1. change (cfg s0) with (cfg s) in U2.
  change (MPEpitchBendsNeeded s0) with (MPEpitchBendsNeeded s) in U3.
  change (hkey s0 x) with (hkey s x) in Unote.
  revert Hk U1 U2 U3 Unote. generalize (updKey x (set_MIDIch c) s0).
  intros s' Hk U1 U2 U3 Unote.
  set (sA := sendToLog _ s').
  change (hkey sA x) with (hkey s' x). rewrite Hk.
  destruct (Z.eqb_spec c 0) as [?|_]; [contradiction|].
  destruct (sendMIDInoteOn_midiOut x sA) as (pb & Hpb & Hout).
  pose proof (sendMIDInoteOn_keeps_pool jiPitchAdjustment x sA) as Hpv.
  exists pb. split; [exact Hpb|]. split; [|split; [|lia]].
  - rewrite Hout. unfold noteOnMessages.
    change (MPEpitchBendsNeeded sA) with (MPEpitchBendsNeeded s').
    change (cfg sA) with (cfg s'). change (hkey sA x) with (hkey s' x).
    change (midiOut sA) with (midiOut s').
    rewrite U3. destruct (Z.eqb_spec (MPEpitchBendsNeeded s) 1) as [?|_]; [contradiction|].
    rewrite U1, U2, Unote, Hk, <- !app_assoc. reflexivity.
  - rewrite (poolView_MIDIch noRetune fixedIncrement _ _ x Hpv). exact Hk.
Qed.

Lemma releaseMPEChannel_facts (c : Z) (s : State) :
  midiOut (releaseMPEChannel c s) = midiOut s /\ h (releaseMPEChannel c s) = h s.
Proof.
  unfold releaseMPEChannel. destruct (_ || _)%bool; [split; reflexivity|].
  cbv zeta. destruct (mpeLowPriorityMode (cfg s)); split; reflexivity.
Qed.

(** X13. A note-off for a key that holds channel [c] sends one Note Off per
    enabled transport with the key's note on channel [c] (followed, for a pool
    channel with the extra MPE messages on, by a zero channel pressure and
    CC 74 on [c]), then clears the key's channel and its just-intonation
    retune; a key without a channel is left alone and nothing is sent. *)
Theorem note_off_traffic (s : State) (x c : Z) :
  0 <= x -> (Z.to_nat x < length (h s))%nat ->
  MIDIch (hkey s x) = c ->
  (c = 0 -> tryMIDInoteOff x s = s)
  /\ (c <> 0 ->
      midiOut (tryMIDInoteOff x s)
      = midiOut s
        ++ onTransports (midiD (cfg s))
             [NoteOff (note (hkey s x)) (velWheel_curValue (cfg s)) c]
        ++ (if mpeChannelQueueActive s && (mpeLowestChannel s <=? c)
               && (c <=? mpeHighestChannel s) && extraMPE (cfg s)
            then onTransports (midiD (cfg s))
                   [AfterTouch 0 c; ControlChange 74 (CC74value (cfg s)) c]
            else [])
      /\ MIDIch (hkey (tryMIDInoteOff x s) x) = 0
      /\ jiRetune (hkey (tryMIDInoteOff x s) x) = 0).
Proof.
  intros Hx Hlen Hc. split.
  { intros ->. unfold tryMIDInoteOff. rewrite Hc. reflexivity. }
  intros Hc0. unfold tryMIDInoteOff. rewrite Hc.
  destruct (Z.eqb_spec c 0) as [?|_]; [contradiction|]. cbv zeta.
  set (s2 := set_pressedKeyIDs _ (withMIDI _ s)).
  assert (S2 : midiOut s2
               = midiOut s ++ onTransports (midiD (cfg s))
                                [NoteOff (note (hkey s x)) (velWheel_curValue (cfg s)) c])
    by reflexivity.
  destruct (updKey_facts x (set_jiRetune 0) s2) as (U1 & U2 & _ & U4 & U5 & U6 & _ & U8).
  pose proof (hkey_updKey_fields x (set_jiRetune 0) s2 Z MIDIch ltac:(reflexivity)) as Uch.
  assert (Uji : jiRetune (hkey (updKey x (set_jiRetune 0) s2) x) = 0).
  { rewrite hkey_updKey_same; [reflexivity|exact Hx|exact Hlen]. }
  change (hkey s2 x) with (hkey s x) in Uch. rewrite Hc in Uch.
  change (cfg s2) with (cfg s) in U2.
  change (mpeChannelQueueActive s2) with (mpeChannelQueueActive s) in U4.
  change (mpeLowestChannel s2) with (mpeLowestChannel s) in U5.
  change (mpeHighestChannel s2) with (mpeHighestChannel s) in U6.
  change (length (h s2)) with (length (h s)) in U8.
  rewrite S2 in U1. clear S2.
  revert U1 U2 U4 U5 U6 U8 Uch Uji. generalize (updKey x (set_jiRetune 0) s2). clear s2.
  intros s3 U1 U2 U4 U5 U6 U8 Uch Uji.
  set (s4 := sendToLog _ s3).
  change (mpeChannelQueueActive s4) with (mpeChannelQueueActive s3).
  change (mpeLowestChannel s4) with (mpeLowestChannel s3).
  change (mpeHighestChannel s4) with (mpeHighestChannel s3).
  change (hkey s4 x) with (hkey s3 x). change (cfg s4) with (cfg s3).
  rewrite U4, U5, U6, Uch, U2.
  set (s5 := if _ && _ && _ then _ else s4).
  assert (S5 : midiOut s5
               = midiOut s
                 ++ onTransports (midiD (cfg s))
                      [NoteOff (note (hkey s x)) (velWheel_curValue (cfg s)) c]
                 ++ (if mpeChannelQueueActive s && (mpeLowestChannel s <=? c)
                        && (c <=? mpeHighestChannel s) && extraMPE (cfg s)
                     then onTransports (midiD (cfg s))
                            [AfterTouch 0 c; ControlChange 74 (CC74value (cfg s)) c]
                     else [])
               /\ h s5 = h s3).
  { subst s5. destruct (_ && _ && _)%bool; cbn [andb].
    - match goal with
      | |- context [releaseMPEChannel ?ch ?t] =>
          destruct (releaseMPEChannel_facts ch t) as [E1 E2]; rewrite E1, E2
      end.
      destruct (extraMPE (cfg s)).
      + unfold withMIDI. cbn [midiOut set_midiOut h set_h cfg].
        change (midiOut s4) with (midiOut s3). change (cfg s4) with (cfg s3).
        change (h s4) with (h s3). rewrite U1, U2, <- !app_assoc. split; reflexivity.
      + change (midiOut s4) with (midiOut s3). change (h s4) with (h s3).
        rewrite U1, app_nil_r. split; reflexivity.
    - change (midiOut s4) with (midiOut s3). change (h s4) with (h s3).
      rewrite U1, app_nil_r. split; reflexivity. }
  destruct S5 as [S5m S5h]. clearbody s5. clear s4.
  destruct (updKey_facts x (set_MIDIch 0) s5) as (F1 & _).
  split; [now rewrite F1|]. split.
  - rewrite hkey_updKey_same; [reflexivity|exact Hx|]. now rewrite S5h, U8.
  - rewrite (hkey_updKey_fields x (set_MIDIch 0) s5 Z jiRetune) by reflexivity.
    unfold hkey. rewrite S5h. exact Uji.
Qed.

(** ** What a tuning reset sends and decides *)

(** The messages of one round of the loop over the channels at the end of
    [resetTuningMIDI]. *)
Definition controllerReset (s : State) (i : Z) : list (Transport * MidiMsg) :=
  onTransports (midiD (cfg s)) [ControlChange 123 0 i]
  ++ onTransports (midiD (cfg s))
       [BeginRpn 0 i;
        RpnValue (Z.shiftl (if (1 <? MPEpitchBendsNeeded s) && (mpeLowestChannel s <=? i)
                               && (i <=? mpeHighestChannel s)
                            then MPEpitchBendSemis (cfg s) else 2) 7) i;
        EndRpn i].

Lemma resetChannelControllers_midiOut (s : State) :
  midiOut (resetChannelControllers s)
  = midiOut s ++ flat_map (controllerReset s) (seqZ 1 16).
Proof.
  unfold resetChannelControllers.
  assert (Hgen : forall (l : list Z) (a : State),
    poolView a = poolView s ->
    midiOut (fold_left
               (fun s i =>
                  let s := withMIDI [ControlChange 123 0 i] s in
                  let range :=
                    if (1 <? MPEpitchBendsNeeded s) && (mpeLowestChannel s <=? i)
                       && (i <=? mpeHighestChannel s)
                    then MPEpitchBendSemis (cfg s) else 2 in
                  setPitchBendRange i range s) l a)
    = midiOut a ++ flat_map (controllerReset s) l).
  { induction l as [|i l IH]; intros a Ha; cbn [fold_left flat_map].
    - now rewrite app_nil_r.
    - rewrite IH by exact Ha.
      destruct (poolView_inv noRetune fixedIncrement _ _ Ha)
        as (_ & _ & E3 & E4 & _ & E6 & E7 & _).
      unfold controllerReset, setPitchBendRange, withMIDI, sendToLog. cbv zeta.
      cbn [midiOut set_midiOut set_logOut cfg MPEpitchBendsNeeded mpeLowestChannel
             mpeHighestChannel].
      rewrite E3, E4, E6, E7, <- !app_assoc. reflexivity. }
  now apply Hgen.
Qed.

Lemma rebuildMPEChannelPool_frame (s : State) :
  midiOut (rebuildMPEChannelPool s) = midiOut s
  /\ MPEpitchBendsNeeded (rebuildMPEChannelPool s) = MPEpitchBendsNeeded s
  /\ mpeLowestChannel (rebuildMPEChannelPool s) = mpeLowestChannel s
  /\ mpeHighestChannel (rebuildMPEChannelPool s) = mpeHighestChannel s
  /\ cfg (rebuildMPEChannelPool s) = cfg s
  /\ standardMidiMicrotonalActive (rebuildMPEChannelPool s) = standardMidiMicrotonalActive s
  /\ mpeChannelQueueActive (rebuildMPEChannelPool s)
     = (1 <? MPEpitchBendsNeeded s)
       && ((mpePlayableChannelCount s <? MPEpitchBendsNeeded s) || mpeLowPriorityMode (cfg s))
  /\ (mpeChannelQueueActive (rebuildMPEChannelPool s) = false ->
      mpeAvailableChannels (rebuildMPEChannelPool s) = []).
Proof.
  unfold rebuildMPEChannelPool. cbv zeta.
  change (MPEpitchBendsNeeded (set_mpeAvailableChannels [] (set_mpeChannelQueueActive false s)))
    with (MPEpitchBendsNeeded s).
  change (cfg (set_mpeAvailableChannels [] (set_mpeChannelQueueActive false s))) with (cfg s).
  destruct (1 <? MPEpitchBendsNeeded s); cbn [andb]; [|repeat split].
  destruct (_ || _)%bool; [|repeat split].
  set (t := set_mpeChannelQueueActive true _).
  destruct (resetMPEChannelPool_effect t) as (_ & _ & R3 & R4 & R5 & R6 & R7 & R8).
  assert (Hs : standardMidiMicrotonalActive (resetMPEChannelPool t)
               = standardMidiMicrotonalActive t).
  { unfold resetMPEChannelPool. cbv zeta.
    set (u := fold_left _ _ _).
    assert (Hu : standardMidiMicrotonalActive u = standardMidiMicrotonalActive t).
    { subst u. apply (fold_left_preserves _ standardMidiMicrotonalActive). reflexivity. }
    now destruct (mpeLowPriorityMode (cfg u)). }
  rewrite R3, R4, R5, R6, R7, R8, Hs. repeat split. discriminate.
Qed.

(** X14. The MIDI traffic of [resetTuningMIDI] is, on every enabled transport:
    the MPE zone message on master channel 1, with size [high - 1] when
    per-note pitch bend is required and 0 otherwise; then for each channel
    from 1 to 16 in turn an all-notes-off (CC 123) and a pitch-bend range, the
    configured MPE range on the member channels [low .. high] when per-note
    pitch bend is required and 2 semitones on every other channel. *)
Theorem resetTuningMIDI_traffic (s : State) :
  midiOut (resetTuningMIDI s)
  = midiOut s
    ++ onTransports (midiD (cfg s))
         [BeginRpn 6 1;
          RpnValue (Z.shiftl (if 1 <? MPEpitchBendsNeeded (resetTuningMIDI s)
                              then mpeHighestChannel (resetTuningMIDI s) - 1 else 0) 7) 1;
          EndRpn 1]
    ++ flat_map (controllerReset (resetTuningMIDI s)) (seqZ 1 16).
Proof.
  unfold resetTuningMIDI.
  set (s1 := decideMPEpitchBends s).
  set (s2 := normaliseMPEChannelRange s1).
  set (s3 := advertiseMPEzone s2).
  set (s4 := rebuildMPEChannelPool s3).
  destruct (poolView_inv noRetune fixedIncrement _ _
              (resetChannelControllers_keeps_pool s4))
    as (_ & _ & E3 & E4 & _ & E6 & E7 & _).
  rewrite E4, E6.
  assert (Hcr : forall i, controllerReset (resetChannelControllers s4) i = controllerReset s4 i).
  { intros i. unfold controllerReset. now rewrite E3, E4, E6, E7. }
  rewrite (flat_map_ext _ _ Hcr), resetChannelControllers_midiOut.
  destruct (decideMPEpitchBends_effect s) as (_ & _ & _ & _ & _ & D6 & D7).
  fold s1 in D6, D7.
  destruct (normaliseMPEChannelRange_effect s1) as (N1 & N2 & N3 & _ & N5 & N6).
  fold s2 in N1, N2, N3, N5, N6.
  destruct (poolView_inv noRetune fixedIncrement _ _
              (advertiseMPEzone_keeps_pool s2)) as (_ & _ & _ & A4 & _ & A6 & _).
  fold s3 in A4, A6.
  destruct (rebuildMPEChannelPool_frame s3) as (R1 & R2 & _ & R4 & _).
  fold s4 in R1, R2, R4.
  assert (H3 : midiOut s3
               = midiOut s2
                 ++ onTransports (midiD (cfg s))
                      [BeginRpn 6 1;
                       RpnValue (Z.shiftl (if 1 <? MPEpitchBendsNeeded s2
                                           then mpeHighestChannel s2 - 1 else 0) 7) 1;
                       EndRpn 1]).
  { subst s3. unfold advertiseMPEzone.
    destruct (1 <? MPEpitchBendsNeeded s2).
    - cbv zeta. destruct (Z.ltb_spec 1 (mpeHighestChannel s2)); [|lia].
      unfold u8. rewrite Z.mod_small by lia.
      unfold setMPEzone, withMIDI, sendToLog. cbv zeta.
      cbn [midiOut set_midiOut set_logOut cfg]. rewrite N5, D6. reflexivity.
    - unfold setMPEzone, withMIDI, sendToLog. cbv zeta.
      cbn [midiOut set_midiOut set_logOut cfg]. rewrite N5, D6. reflexivity. }
  rewrite R1, H3, N6, D7, R2, R4, A6, A4, <- !app_assoc. reflexivity.
Qed.

(** X15. [resetTuningMIDI] requires per-note pitch bend (255) when MPE is
    forced, or when it is not disabled and just intonation is on or the tuning
    is not the standard semitone; otherwise it requires none (1).  The channel
    pool is active exactly when per-note pitch bend is required, and is empty
    otherwise; standard-MIDI microtonal mode is on exactly when MPE is
    disabled and the tuning is not the standard semitone; and the range is
    left with [2 <= low <= high <= 16]. *)
Theorem resetTuningMIDI_mode (s : State) :
  MPEpitchBendsNeeded (resetTuningMIDI s)
  = (if mpeUserMode (cfg s) =? MPE_MODE_FORCE then 255
     else if mpeUserMode (cfg s) =? MPE_MODE_DISABLE then 1
     else if negb (useDynamicJustIntonation (cfg s)) && negb (useJustIntonationBPM (cfg s))
             && tuningIsStandardSemitone (cfg s) then 1
     else 255)
  /\ standardMidiMicrotonalActive (resetTuningMIDI s)
     = negb (mpeUserMode (cfg s) =? MPE_MODE_FORCE)
       && (mpeUserMode (cfg s) =? MPE_MODE_DISABLE)
       && negb (tuningIsStandardSemitone (cfg s))
  /\ mpeChannelQueueActive (resetTuningMIDI s) = (1 <? MPEpitchBendsNeeded (resetTuningMIDI s))
  /\ (MPEpitchBendsNeeded (resetTuningMIDI s) = 1 -> mpeAvailableChannels (resetTuningMIDI s) = [])
  /\ 2 <= mpeLowestChannel (resetTuningMIDI s) <= mpeHighestChannel (resetTuningMIDI s)
  /\ mpeHighestChannel (resetTuningMIDI s) <= 16.
Proof.
  unfold resetTuningMIDI.
  set (s1 := decideMPEpitchBends s).
  set (s2 := normaliseMPEChannelRange s1).
  set (s3 := advertiseMPEzone s2).
  set (s4 := rebuildMPEChannelPool s3).
  destruct (poolView_inv noRetune fixedIncrement _ _
              (resetChannelControllers_keeps_pool s4))
    as (E1 & _ & E3 & E4 & E5 & E6 & _).
  assert (Es : standardMidiMicrotonalActive (resetChannelControllers s4)
               = standardMidiMicrotonalActive s4).
  { unfold resetChannelControllers.
    apply (fold_left_preserves _ standardMidiMicrotonalActive). reflexivity. }
  rewrite E1, E3, E4, E5, E6, Es.
  destruct (rebuildMPEChannelPool_frame s3) as (_ & R2 & R3 & R4 & R5 & R6 & R7 & R8).
  fold s4 in R2, R3, R4, R5, R6, R7, R8.
  destruct (poolView_inv noRetune fixedIncrement _ _
              (advertiseMPEzone_keeps_pool s2)) as (_ & _ & A3 & A4 & _ & A6 & A7 & _).
  fold s3 in A3, A4, A6, A7.
  assert (As : standardMidiMicrotonalActive s3 = standardMidiMicrotonalActive s2).
  { subst s3. unfold advertiseMPEzone. now destruct (1 <? MPEpitchBendsNeeded s2). }
  destruct (normaliseMPEChannelRange_effect s1) as (N1 & N2 & N3 & _ & N5 & _).
  fold s2 in N1, N2, N3, N5.
  assert (Ns : standardMidiMicrotonalActive s2 = standardMidiMicrotonalActive s1).
  { subst s2. unfold normaliseMPEChannelRange, clampMPEChannelRange. cbv zeta.
    repeat match goal with |- context [if ?c then _ else _] => destruct c end; reflexivity. }
  assert (D : MPEpitchBendsNeeded s1
              = (if mpeUserMode (cfg s) =? MPE_MODE_FORCE then 255
                 else if mpeUserMode (cfg s) =? MPE_MODE_DISABLE then 1
                 else if negb (useDynamicJustIntonation (cfg s))
                         && negb (useJustIntonationBPM (cfg s))
                         && tuningIsStandardSemitone (cfg s) then 1
                 else 255)
              /\ standardMidiMicrotonalActive s1
                 = negb (mpeUserMode (cfg s) =? MPE_MODE_FORCE)
                   && (mpeUserMode (cfg s) =? MPE_MODE_DISABLE)
                   && negb (tuningIsStandardSemitone (cfg s))).
  { subst s1. unfold decideMPEpitchBends. cbv zeta.
    cbn [cfg set_standardMidiMicrotonalActive].
    destruct (mpeUserMode (cfg s) =? MPE_MODE_FORCE); [split; reflexivity|].
    destruct (mpeUserMode (cfg s) =? MPE_MODE_DISABLE); [split; reflexivity|]. cbn [negb andb].
    destruct (negb (useDynamicJustIntonation (cfg s)) && negb (useJustIntonationBPM (cfg s))
              && tuningIsStandardSemitone (cfg s)); split; reflexivity. }
  destruct D as [Dn Ds].
  assert (Hn4 : MPEpitchBendsNeeded s4 = MPEpitchBendsNeeded s1) by congruence.
  assert (Hq : mpeChannelQueueActive s4 = (1 <? MPEpitchBendsNeeded s4)).
  { rewrite R7, R2. destruct (Z.ltb_spec 1 (MPEpitchBendsNeeded s3)); [|reflexivity].
    cbn [andb]. apply orb_true_iff. left. apply Z.ltb_lt.
    assert (MPEpitchBendsNeeded s3 = 255).
    { destruct (decideMPEpitchBends_effect s) as ([H1|H1] & _); fold s1 in H1; [|congruence].
      exfalso. assert (MPEpitchBendsNeeded s3 = 1) by congruence. lia. }
    unfold mpePlayableChannelCount.
    destruct (Z.ltb_spec (mpeHighestChannel s3) (mpeLowestChannel s3)); [lia|].
    unfold u8. rewrite Z.mod_small by lia. lia. }
  split; [now rewrite Hn4|]. split; [now rewrite R6, As, Ns|]. split; [exact Hq|].
  split; [|split; lia].
  intros H1. apply R8. rewrite Hq, H1. reflexivity.
Qed.

(** ** The voice allocator: the ordinary paths and the error path *)

Lemma stealOldestSynthVoice_none (s : State) :
  (forall i, 0 <= i < POLYPHONY_LIMIT -> stealCandidate s i = false) ->
  stealOldestSynthVoice s = None.
Proof.
  intros Hnone. unfold stealOldestSynthVoice.
  destruct (stealScan_fold s (seqZ 0 POLYPHONY_LIMIT) 4294967295 (-1))
    as (g & i & Hf & _ & _ & Hsel).
  rewrite Hf. destruct Hsel as [[_ ->]|(Hi & Hci & _)]; [reflexivity|].
  apply list_elem_of_In, elem_of_seqZ in Hi.
  rewrite Hnone in Hci by lia. discriminate.
Qed.

Lemma processEnvelopeReleases_logOut (s : State) :
  logOut (processEnvelopeReleases s) = logOut s.
Proof.
  unfold processEnvelopeReleases. apply (fold_left_preserves _ logOut).
  intros t i. unfold processEnvelopeRelease1, updVoice, updKey. cbv zeta.
  repeat match goal with
         | |- context [if ?b then _ else _] => destruct b
         end; reflexivity.
Qed.

(** X16. Poly mode, error path: when a note-on finds the free-list empty (after
    its drain of the needs-free flags) and no voice is in use with a live
    owner and a nonzero generation tag, the note is dropped: no voice, key or
    free-list entry changes beyond what the drain did.  With debug messages
    on the log grows by exactly one line, and with debug messages off the
    note-on is the drain and nothing else. *)
Theorem note_on_without_voice_is_dropped (s : State) (x : Z) :
  playbackMode (cfg s) = SYNTH_POLY ->
  synthChQueue (processEnvelopeReleases s) = [] ->
  (forall i, 0 <= i < POLYPHONY_LIMIT -> stealCandidate (processEnvelopeReleases s) i = false) ->
  trySynthNoteOn synthIncrementFor x s
  = sendToLog "synth channels all firing, so did not add one" (processEnvelopeReleases s)
  /\ logOut (trySynthNoteOn synthIncrementFor x s)
     = (if debugMessages (cfg s)
        then logOut s ++ ["synth channels all firing, so did not add one"%string]
        else logOut s)
  /\ (debugMessages (cfg s) = false ->
      trySynthNoteOn synthIncrementFor x s = processEnvelopeReleases s).
Proof.
  intros Hpoly Hq Hnone.
  assert (Hdrop : trySynthNoteOn synthIncrementFor x s
                  = sendToLog "synth channels all firing, so did not add one"
                      (processEnvelopeReleases s)).
  { unfold trySynthNoteOn. rewrite Hpoly.
    change (SYNTH_POLY =? SYNTH_OFF) with false. change (SYNTH_POLY =? SYNTH_POLY) with true.
    cbv iota. rewrite Hq, (stealOldestSynthVoice_none _ Hnone). reflexivity. }
  destruct (processEnvelopeReleases_frame s) as (Hcfg & _).
  split; [exact Hdrop|]. split.
  - rewrite Hdrop, sendToLog_logOut, Hcfg, processEnvelopeReleases_logOut. reflexivity.
  - intros Hoff. rewrite Hdrop. apply sendToLog_quiet. rewrite Hcfg. exact Hoff.
Qed.

(** X17. Poly mode, ordinary path: a note-on that finds the free-list not
    empty (after its drain) takes the voice at its head: the key records the
    voice number, the voice gets the key as owner, the current generation
    counter as tag, is marked in use with its needs-free flag and retry
    counters cleared and StartAttack pending, the counter is incremented, the
    rest of the free-list stays in order, and no other voice changes. *)
Theorem note_on_pops_free_list (s : State) (x c : Z) (rest : list Z) :
  playbackMode (cfg s) = SYNTH_POLY ->
  0 <= x -> (Z.to_nat x < length (h s))%nat ->
  synthChQueue (processEnvelopeReleases s) = c :: rest ->
  1 <= c <= POLYPHONY_LIMIT ->
  length (voices s) = Z.to_nat POLYPHONY_LIMIT ->
  let s' := trySynthNoteOn synthIncrementFor x s in
  synthChQueue s' = rest
  /\ synthCh (hkey s' x) = c
  /\ synthChannelOwner (voice s' (c - 1)) = x
  /\ voiceGeneration (voice s' (c - 1)) = nextVoiceGeneration s
  /\ nextVoiceGeneration s' = u32 (nextVoiceGeneration s + 1)
  /\ channelInUse (voice s' (c - 1)) = true
  /\ envelopeNeedsFree (voice s' (c - 1)) = false
  /\ envelopeCommand (voice s' (c - 1)) = StartAttack
  /\ (forall j, 0 <= j -> j <> c - 1 ->
                voice s' j = voice (processEnvelopeReleases s) j).
Proof.
  intros Hpoly Hx Hlen Hq Hc Hvl s'. unfold POLYPHONY_LIMIT in Hc, Hvl.
  assert (Hs' : s' = sendToLog ("popped " ++ to_string c ++ " off the synth queue")
                       (claimSynthVoice synthIncrementFor x c
                          (set_synthChQueue rest (processEnvelopeReleases s)))).
  { subst s'. unfold trySynthNoteOn. rewrite Hpoly.
    change (SYNTH_POLY =? SYNTH_OFF) with false. change (SYNTH_POLY =? SYNTH_POLY) with true.
    cbv iota zeta. rewrite Hq. reflexivity. }
  destruct (processEnvelopeReleases_frame s) as (_ & Hng & _ & _ & Hhlen & Hvlen).
  revert Hs' Hq Hng Hhlen Hvlen. generalize (processEnvelopeReleases s).
  intros t Hs' Hq Hng Hhlen Hvlen.
  destruct (claimSynthVoice_effect synthIncrementFor x (c - 1) (set_synthChQueue rest t))
    as (inc & Cv & Ch & Cg & _ & Cq & _); [lia|].
  replace (c - 1 + 1) with c in * by lia.
  change (voices (set_synthChQueue rest t)) with (voices t) in Cv.
  change (nextVoiceGeneration (set_synthChQueue rest t)) with (nextVoiceGeneration t) in Cv, Cg.
  change (synthChQueue (set_synthChQueue rest t)) with rest in Cq.
  assert (Hv : voices s' = alter (claimedVoice x (nextVoiceGeneration s) inc)
                             (Z.to_nat (c - 1)) (voices t)).
  { rewrite Hs'. cbn [sendToLog voices set_logOut]. now rewrite Cv, Hng. }
  destruct (lookup_lt_is_Some_2 (voices t) (Z.to_nat (c - 1)) ltac:(lia)) as [v0 Hv0].
  assert (Hvoice : voice s' (c - 1) = claimedVoice x (nextVoiceGeneration s) inc v0).
  { unfold voice. rewrite Hv, list_lookup_alter_eq, Hv0. reflexivity. }
  rewrite Hvoice. split; [now rewrite Hs'|]. split.
  { rewrite Hs'. unfold hkey. cbn [sendToLog h set_logOut]. rewrite Ch.
    fold (hkey (updKey x (set_synthCh c) (set_synthChQueue rest t)) x).
    rewrite hkey_updKey_same; [reflexivity|exact Hx|].
    change (h (set_synthChQueue rest t)) with (h t). now rewrite Hhlen. }
  split; [reflexivity|]. split; [reflexivity|].
  split; [rewrite Hs'; cbn [sendToLog nextVoiceGeneration set_logOut]; now rewrite Cg, Hng|].
  split; [reflexivity|]. split; [reflexivity|]. split; [reflexivity|].
  intros j Hj Hne. unfold voice. rewrite Hv, list_lookup_alter_ne by lia. reflexivity.
Qed.

(** X18. [processEnvelopeReleases] clears every needs-free flag, so a second
    drain right after the first changes nothing; a voice that was flagged is
    left not in use, without owner, with generation tag 0 and its retry
    counters cleared, and a voice that was not flagged is left as it was. *)
Theorem drain_is_idempotent (s : State) :
  (length (voices s) <= Z.to_nat POLYPHONY_LIMIT)%nat ->
  processEnvelopeReleases (processEnvelopeReleases s) = processEnvelopeReleases s
  /\ Forall (fun v => envelopeNeedsFree v = false) (voices (processEnvelopeReleases s))
  /\ (forall i v, voices s !! i = Some v ->
        voices (processEnvelopeReleases s) !! i
        = Some (if envelopeNeedsFree v
                then set_retryCountdown 0
                       (set_retries 0
                          (set_owner NO_SYNTH_OWNER
                             (set_generation 0 (set_inUse false (set_needsFree false v)))))
                else v)).
Proof.
  intros Hlen. unfold POLYPHONY_LIMIT in Hlen.
  assert (Hlook : forall i v, voices s !! i = Some v ->
            voices (processEnvelopeReleases s) !! i
            = Some (if envelopeNeedsFree v then freedVoice v else v)).
  { intros i v Hv.
    assert (Hi : (i < 8)%nat).
    { apply lookup_lt_Some in Hv. change (Z.to_nat 8) with 8%nat in Hlen. lia. }
    rewrite <- (Nat2Z.id i) in Hv |- *.
    apply processEnvelopeReleases_voices_lookup; [unfold POLYPHONY_LIMIT; lia|exact Hv]. }
  assert (Hall : Forall (fun v => envelopeNeedsFree v = false)
                   (voices (processEnvelopeReleases s))).
  { apply Forall_lookup_2. intros i w Hw.
    destruct (processEnvelopeReleases_frame s) as (_ & _ & _ & _ & _ & Hvlen).
    destruct (lookup_lt_is_Some_2 (voices s) i) as [v Hv].
    { rewrite <- Hvlen. eapply lookup_lt_Some. exact Hw. }
    rewrite (Hlook i v Hv) in Hw. injection Hw as <-.
    destruct (envelopeNeedsFree v) eqn:E; [reflexivity|exact E]. }
  split; [now apply processEnvelopeReleases_none|]. split; [exact Hall|exact Hlook].
Qed.

(** ** Mono and arpeggio modes *)

(** The key is held on the MIDI side and is not a command key. *)
Definition heldNote (s : State) (j : Z) : bool :=
  negb (MIDIch (hkey s j) =? 0) && negb (isCmd (hkey s j)).

Lemma findNextHeldNoteFrom_scan (s : State) (n : nat) :
  forall a,
    let r := findNextHeldNoteFrom s (seqZ a (Z.of_nat n)) in
    (r = UNUSED_NOTE
     /\ forall i, a <= i < a + Z.of_nat n ->
                  heldNote s (u8 (positiveMod (arpeggiatingNow s + i) BTN_COUNT)) = false)
    \/ (exists i, a <= i < a + Z.of_nat n
                  /\ r = u8 (positiveMod (arpeggiatingNow s + i) BTN_COUNT)
                  /\ heldNote s r = true
                  /\ forall i', a <= i' < i ->
                       heldNote s (u8 (positiveMod (arpeggiatingNow s + i') BTN_COUNT)) = false).
Proof.
  induction n as [|n IH]; intros a.
  - left. split; [reflexivity|]. intros i Hi. lia.
  - rewrite seqZ_cons by lia. replace (Z.pred (Z.of_nat (S n))) with (Z.of_nat n) by lia.
    cbn [findNextHeldNoteFrom]. cbv zeta.
    fold (heldNote s (u8 (positiveMod (arpeggiatingNow s + a) BTN_COUNT))).
    destruct (heldNote s (u8 (positiveMod (arpeggiatingNow s + a) BTN_COUNT))) eqn:Ha.
    + right. exists a. split; [lia|]. split; [reflexivity|]. split; [exact Ha|].
      intros i' Hi'. lia.
    + destruct (IH (Z.succ a)) as [[Hr Hall]|(i & Hi & Hr & Hh & Hbefore)].
      * left. split; [exact Hr|]. intros i Hi.
        destruct (Z.eq_dec i a) as [->|Hne]; [exact Ha|]. apply Hall. lia.
      * right. exists i. split; [lia|]. split; [exact Hr|]. split; [exact Hh|].
        intros i' Hi'. destruct (Z.eq_dec i' a) as [->|Hne]; [exact Ha|].
        apply Hbefore. lia.
Qed.

Lemma next_key_index (a i : Z) :
  u8 (positiveMod (a + i) BTN_COUNT) = (a + i) mod BTN_COUNT.
Proof.
  assert (HB : BTN_COUNT = 160) by reflexivity. rewrite HB.
  destruct (positiveMod_floor (a + i) 160 ltac:(lia)) as [-> Hr].
  pose proof (Z.mod_pos_bound (a + i) 160 ltac:(lia)). apply u8_small. lia.
Qed.

(** X19. [findNextHeldNote] scans the 160 keys cyclically, starting just after
    the key that is sounding: it returns the first key met that holds a MIDI
    channel and is not a command key, and returns [UNUSED_NOTE] only when no
    key of the board is such a key. *)
Theorem findNextHeldNote_finds_next (s : State) :
  (findNextHeldNote s = UNUSED_NOTE /\
   forall k, 0 <= k < BTN_COUNT -> heldNote s k = false)
  \/ (exists i, 1 <= i <= BTN_COUNT
                /\ findNextHeldNote s = (arpeggiatingNow s + i) mod BTN_COUNT
                /\ 0 <= findNextHeldNote s < BTN_COUNT
                /\ MIDIch (hkey s (findNextHeldNote s)) <> 0
                /\ isCmd (hkey s (findNextHeldNote s)) = false
                /\ forall i', 1 <= i' < i ->
                     heldNote s ((arpeggiatingNow s + i') mod BTN_COUNT) = false).
Proof.
  unfold findNextHeldNote.
  assert (HB : BTN_COUNT = 160) by reflexivity.
  pose proof (findNextHeldNoteFrom_scan s 160 1) as H. cbv zeta in H.
  change (Z.of_nat 160) with BTN_COUNT in H.
  destruct H as [[Hr Hall]|(i & Hi & Hr & Hh & Hbefore)].
  - left. split; [exact Hr|]. intros k Hk.
    pose proof (Z.mod_pos_bound (k - arpeggiatingNow s - 1) BTN_COUNT ltac:(lia)) as Hb.
    specialize (Hall ((k - arpeggiatingNow s - 1) mod BTN_COUNT + 1) ltac:(lia)).
    rewrite next_key_index in Hall.
    replace (arpeggiatingNow s + ((k - arpeggiatingNow s - 1) mod BTN_COUNT + 1))
      with (arpeggiatingNow s + 1 + (k - arpeggiatingNow s - 1) mod BTN_COUNT) in Hall by lia.
    rewrite Zplus_mod_idemp_r in Hall.
    replace (arpeggiatingNow s + 1 + (k - arpeggiatingNow s - 1)) with k in Hall by lia.
    rewrite Z.mod_small in Hall by lia. exact Hall.
  - right. exists i. rewrite next_key_index in Hr.
    split; [lia|]. split; [exact Hr|].
    pose proof (Z.mod_pos_bound (arpeggiatingNow s + i) BTN_COUNT ltac:(lia)) as Hb.
    split; [rewrite Hr; lia|].
    unfold heldNote in Hh. apply andb_true_iff in Hh. destruct Hh as [H1 H2].
    apply negb_true_iff in H1, H2. apply Z.eqb_neq in H1.
    split; [exact H1|]. split; [exact H2|].
    intros i' Hi'. specialize (Hbefore i' ltac:(lia)).
    now rewrite next_key_index in Hbefore.
Qed.

Lemma claimSynthVoice_arp (x c : Z) (s : State) :
  arpeggiatingNow (claimSynthVoice synthIncrementFor x c s) = arpeggiatingNow s.
Proof.
  unfold claimSynthVoice, setSynthFreq, beginEnvelopeAttack, stampGeneration. cbv zeta.
  assert (Hv : forall i f t, arpeggiatingNow (updVoice i f t) = arpeggiatingNow t).
  { intros i f t. unfold updVoice. now destruct (i <? 0). }
  assert (Hk : forall i f t, arpeggiatingNow (updKey i f t) = arpeggiatingNow t).
  { intros i f t. unfold updKey. now destruct (i <? 0). }
  destruct (c =? 0); rewrite ?Hv; cbn [arpeggiatingNow set_nextVoiceGeneration];
    rewrite ?Hv, ?Hk; reflexivity.
Qed.

Lemma replaceMonoSynthWith_on (x : Z) (s : State) :
  arpeggiatingNow s <> x -> x <> UNUSED_NOTE ->
  replaceMonoSynthWith synthIncrementFor x s
  = claimSynthVoice synthIncrementFor x 1
      (set_arpeggiatingNow x
         (if arpeggiatingNow s =? UNUSED_NOTE then s
          else updKey (arpeggiatingNow s) (set_synthCh 0) s)).
Proof.
  intros Hne Hx. unfold replaceMonoSynthWith.
  destruct (Z.eqb_spec (arpeggiatingNow s) x); [contradiction|]. cbv zeta.
  set (s0 := if arpeggiatingNow s =? UNUSED_NOTE then s else _).
  change (arpeggiatingNow (set_arpeggiatingNow x s0)) with x.
  destruct (Z.eqb_spec x UNUSED_NOTE); [contradiction|].
  assert (Hv : forall i f t, arpeggiatingNow (updVoice i f t) = arpeggiatingNow t).
  { intros i f t. unfold updVoice. now destruct (i <? 0). }
  assert (Hk : forall i f t, arpeggiatingNow (updKey i f t) = arpeggiatingNow t).
  { intros i f t. unfold updKey. now destruct (i <? 0). }
  unfold claimSynthVoice, beginEnvelopeAttack, stampGeneration. cbv zeta.
  rewrite !Hv. cbn [arpeggiatingNow set_nextVoiceGeneration]. rewrite !Hv, !Hk.
  reflexivity.
Qed.

(** At most one key is marked as sounding on the synth, and it is the key
    that the mono voice follows. *)
Definition monoInv (s : State) : Prop :=
  forall k, 0 <= k -> synthCh (hkey s k) <> 0 -> k = arpeggiatingNow s.

(** A key index that [replaceMonoSynthWith] may be given or hold: a key of
    the board or [UNUSED_NOTE]. *)
Definition keyOrUnused (x : Z) : Prop := 0 <= x < BTN_COUNT \/ x = UNUSED_NOTE.

Lemma synthCh_updKey (a c k : Z) (s : State) :
  0 <= a -> 0 <= k -> (Z.to_nat a < length (h s))%nat ->
  synthCh (hkey (updKey a (set_synthCh c) s) k)
  = if a =? k then c else synthCh (hkey s k).
Proof.
  intros Ha Hk Hlen. destruct (Z.eqb_spec a k) as [<-|Hne].
  - rewrite hkey_updKey_same by assumption. reflexivity.
  - rewrite hkey_updKey_other by assumption. reflexivity.
Qed.

(** X20. Mono and arpeggio modes: [replaceMonoSynthWith] keeps at most one key
    marked as sounding, the key it switches to.  When it switches to a key of
    the board, that key is marked with synth channel 1 and voice 0 gets it as
    owner, the generation counter as tag and a StartAttack; when it switches
    to [UNUSED_NOTE], no key is left marked, voice 0 loses its owner and gets
    a StartRelease; and asked for the key that is already sounding it does
    nothing. *)
Theorem mono_voice_follows_one_key (s : State) (x : Z) :
  monoInv s -> keyOrUnused x -> keyOrUnused (arpeggiatingNow s) ->
  length (h s) = Z.to_nat BTN_COUNT -> (0 < length (voices s))%nat ->
  let s' := replaceMonoSynthWith synthIncrementFor x s in
  monoInv s'
  /\ arpeggiatingNow s' = x
  /\ (arpeggiatingNow s = x -> s' = s)
  /\ (arpeggiatingNow s <> x -> x <> UNUSED_NOTE ->
      synthCh (hkey s' x) = 1
      /\ synthChannelOwner (voice s' 0) = x
      /\ voiceGeneration (voice s' 0) = nextVoiceGeneration s
      /\ nextVoiceGeneration s' = u32 (nextVoiceGeneration s + 1)
      /\ channelInUse (voice s' 0) = true
      /\ envelopeCommand (voice s' 0) = StartAttack)
  /\ (arpeggiatingNow s <> x -> x = UNUSED_NOTE ->
      synthChannelOwner (voice s' 0) = NO_SYNTH_OWNER
      /\ envelopeCommand (voice s' 0) = StartRelease
      /\ forall k, 0 <= k -> synthCh (hkey s' k) = 0).
Proof.
  intros Hinv Hx Ha Hlen Hvl s'.
  assert (HB : BTN_COUNT = 160) by reflexivity.
  assert (HU : UNUSED_NOTE = 255) by reflexivity.
  unfold keyOrUnused in Hx, Ha.
  destruct (Z.eq_dec (arpeggiatingNow s) x) as [Heq|Hne].
  { assert (Hs' : s' = s).
    { subst s'. unfold replaceMonoSynthWith. destruct (Z.eqb_spec (arpeggiatingNow s) x);
        [reflexivity|contradiction]. }
    rewrite Hs'. split; [exact Hinv|]. split; [exact Heq|]. split; [reflexivity|].
    split; intros; contradiction. }
  (* the keys once the key that was sounding is unmarked *)
  set (s0 := if arpeggiatingNow s =? UNUSED_NOTE then s
             else updKey (arpeggiatingNow s) (set_synthCh 0) s).
  assert (Hunset : forall k, (length (h s) <= Z.to_nat k)%nat -> synthCh (hkey s k) = 0).
  { intros k Hk. unfold hkey. rewrite lookup_ge_None_2 by exact Hk. reflexivity. }
  assert (H0 : forall k, 0 <= k -> synthCh (hkey s0 k) = 0).
  { intros k Hk. subst s0.
    destruct (Z.eqb_spec (arpeggiatingNow s) UNUSED_NOTE) as [Hun|Hun].
    - destruct (Z.eq_dec (synthCh (hkey s k)) 0) as [Hz|Hnz]; [exact Hz|].
      pose proof (Hinv k Hk Hnz) as ->. apply Hunset. rewrite Hlen. lia.
    - rewrite synthCh_updKey by (rewrite ?Hlen; lia).
      destruct (Z.eqb_spec (arpeggiatingNow s) k) as [_|Hk']; [reflexivity|].
      destruct (Z.eq_dec (synthCh (hkey s k)) 0) as [Hz|Hnz]; [exact Hz|].
      pose proof (Hinv k Hk Hnz). congruence. }
  assert (Hlen0 : length (h s0) = length (h s)).
  { subst s0. destruct (arpeggiatingNow s =? UNUSED_NOTE); [reflexivity|].
    unfold updKey. destruct (arpeggiatingNow s <? 0); [reflexivity|].
    cbn [h set_h]. apply length_alter. }
  assert (Hv0 : voices s0 = voices s).
  { subst s0. destruct (arpeggiatingNow s =? UNUSED_NOTE); [reflexivity|].
    unfold updKey. now destruct (arpeggiatingNow s <? 0). }
  assert (Hg0 : nextVoiceGeneration s0 = nextVoiceGeneration s).
  { subst s0. destruct (arpeggiatingNow s =? UNUSED_NOTE); [reflexivity|].
    unfold updKey. now destruct (arpeggiatingNow s <? 0). }
  destruct (Z.eq_dec x UNUSED_NOTE) as [Hxu|Hxu].
  - (* switching to no key *)
    assert (Hs' : s' = beginEnvelopeRelease 0
                         (updVoice 0 (set_owner NO_SYNTH_OWNER) (set_arpeggiatingNow x s0))).
    { subst s'. unfold replaceMonoSynthWith.
      destruct (Z.eqb_spec (arpeggiatingNow s) x); [contradiction|]. cbv zeta. fold s0.
      change (arpeggiatingNow (set_arpeggiatingNow x s0)) with x.
      destruct (Z.eqb_spec x UNUSED_NOTE); [reflexivity|contradiction]. }
    assert (Hh : h s' = h s0) by (rewrite Hs'; reflexivity).
    assert (Harp : arpeggiatingNow s' = x) by (rewrite Hs'; reflexivity).
    assert (Hz : forall k, 0 <= k -> synthCh (hkey s' k) = 0).
    { intros k Hk. unfold hkey. rewrite Hh. apply (H0 k Hk). }
    assert (Hvoice : voice s' 0
                     = set_command StartRelease
                         (set_retryCountdown 0
                            (set_retries releaseRetryLimit
                               (set_owner NO_SYNTH_OWNER (voice s 0))))).
    { rewrite Hs'. unfold beginEnvelopeRelease.
      change (POLYPHONY_LIMIT <=? 0) with false. cbv iota.
      rewrite voice_updVoice_same;
        [|lia|rewrite updVoice_voices by lia; rewrite length_alter;
              change (voices (set_arpeggiatingNow x s0)) with (voices s0);
              rewrite Hv0; exact Hvl].
      rewrite voice_updVoice_same;
        [|lia|change (voices (set_arpeggiatingNow x s0)) with (voices s0);
              rewrite Hv0; exact Hvl].
      unfold voice. change (voices (set_arpeggiatingNow x s0)) with (voices s0).
      rewrite Hv0. reflexivity. }
    split; [intros k Hk Hnz; now rewrite Hz in Hnz|].
    split; [exact Harp|]. split; [intros; contradiction|].
    split; [intros; contradiction|]. intros _ _.
    rewrite Hvoice. split; [reflexivity|]. split; [reflexivity|exact Hz].
  - (* switching to a key of the board *)
    assert (Hxr : 0 <= x < BTN_COUNT) by (destruct Hx; [assumption|contradiction]).
    assert (Hs' : s' = claimSynthVoice synthIncrementFor x 1 (set_arpeggiatingNow x s0)).
    { subst s'. rewrite replaceMonoSynthWith_on by assumption. reflexivity. }
    destruct (claimSynthVoice_effect synthIncrementFor x 0 (set_arpeggiatingNow x s0))
      as (inc & Cv & Ch & Cg & _); [lia|].
    change (0 + 1) with 1 in Cv, Ch, Cg.
    change (voices (set_arpeggiatingNow x s0)) with (voices s0) in Cv.
    change (nextVoiceGeneration (set_arpeggiatingNow x s0))
      with (nextVoiceGeneration s0) in Cv, Cg.
    rewrite Hv0, Hg0 in Cv. rewrite Hg0 in Cg.
    rewrite <- Hs' in Cv, Ch, Cg.
    assert (Harp : arpeggiatingNow s' = x).
    { rewrite Hs', claimSynthVoice_arp. reflexivity. }
    assert (Hkey : forall k, 0 <= k -> synthCh (hkey s' k) = if x =? k then 1 else 0).
    { intros k Hk. unfold hkey. rewrite Ch.
      fold (hkey (updKey x (set_synthCh 1) (set_arpeggiatingNow x s0)) k).
      rewrite synthCh_updKey;
        [|lia|lia|change (h (set_arpeggiatingNow x s0)) with (h s0); rewrite Hlen0, Hlen; lia].
      destruct (x =? k); [reflexivity|]. apply (H0 k Hk). }
    destruct (lookup_lt_is_Some_2 (voices s) 0%nat Hvl) as [v0 Hv0'].
    assert (Hvoice : voice s' 0 = claimedVoice x (nextVoiceGeneration s) inc v0).
    { unfold voice. rewrite Cv. change (Z.to_nat 0) with 0%nat.
      rewrite list_lookup_alter_eq, Hv0'. reflexivity. }
    split.
    { intros k Hk Hnz. rewrite Hkey in Hnz by exact Hk. rewrite Harp.
      destruct (Z.eqb_spec x k); [congruence|contradiction]. }
    split; [exact Harp|]. split; [intros; contradiction|].
    split; [|intros; contradiction]. intros _ _.
    rewrite Hvoice. split; [rewrite Hkey, Z.eqb_refl by lia; reflexivity|].
    split; [reflexivity|]. split; [reflexivity|]. split; [exact Cg|].
    split; reflexivity.
Qed.

(** Voice [i] is sounding for key [x]. *)
Definition ownedBy (s : State) (x i : Z) : bool :=
  channelInUse (voice s i) && (synthChannelOwner (voice s i) =? x).

Lemma releaseByOwner_none (x : Z) (s : State) (l : list Z) :
  Forall (fun i => ownedBy s x i = false) l -> releaseByOwner x s l = s.
Proof.
  induction l as [|i l IH]; intros Hall; [reflexivity|].
  apply Forall_cons in Hall as (Hi & Hall). cbn [releaseByOwner].
  unfold ownedBy in Hi. destruct (channelInUse (voice s i)); cbn [negb andb] in *.
  - rewrite Hi. apply IH, Hall.
  - apply IH, Hall.
Qed.

Lemma releaseByOwner_first (x : Z) (s : State) (pre post : list Z) (i : Z) :
  Forall (fun j => ownedBy s x j = false) pre -> ownedBy s x i = true ->
  releaseByOwner x s (pre ++ i :: post)
  = beginEnvelopeRelease i (updVoice i (set_owner NO_SYNTH_OWNER) s).
Proof.
  intros Hpre Hi. induction pre as [|j pre IH]; cbn [app releaseByOwner].
  - unfold ownedBy in Hi. apply andb_true_iff in Hi as (-> & ->). reflexivity.
  - apply Forall_cons in Hpre as (Hj & Hpre). unfold ownedBy in Hj.
    destruct (channelInUse (voice s j)); cbn [negb andb] in *.
    + rewrite Hj. apply IH, Hpre.
    + apply IH, Hpre.
Qed.

(** X29. Poly mode, note-off for a key that has lost its synth channel (as
    after a steal): the voices are searched by owner.  When no voice in use
    is owned by the key nothing changes; otherwise the lowest such voice, and
    only that one, loses its owner and is sent a StartRelease with the retry
    counter armed, and the keys and the free-list stay as they are. *)
Theorem note_off_falls_back_to_owner (s : State) (x : Z) :
  playbackMode (cfg s) = SYNTH_POLY -> synthCh (hkey s x) = 0 ->
  length (voices s) = Z.to_nat POLYPHONY_LIMIT ->
  let s' := trySynthNoteOff synthIncrementFor x s in
  ((forall i, 0 <= i < POLYPHONY_LIMIT -> ownedBy s x i = false) -> s' = s)
  /\ (forall i, 0 <= i < POLYPHONY_LIMIT -> ownedBy s x i = true ->
        (forall j, 0 <= j < i -> ownedBy s x j = false) ->
        voice s' i
        = set_command StartRelease
            (set_retryCountdown 0
               (set_retries releaseRetryLimit (set_owner NO_SYNTH_OWNER (voice s i))))
        /\ (forall j, 0 <= j -> j <> i -> voice s' j = voice s j)
        /\ h s' = h s /\ synthChQueue s' = synthChQueue s).
Proof.
  intros Hpoly Hch Hlen s'.
  assert (HP : POLYPHONY_LIMIT = 8) by reflexivity.
  assert (Hs' : s' = releaseByOwner x s (seqZ 0 POLYPHONY_LIMIT)).
  { subst s'. unfold trySynthNoteOff. rewrite Hpoly, Hch.
    change (SYNTH_POLY =? 0) with false. change (SYNTH_POLY =? SYNTH_POLY) with true.
    reflexivity. }
  split.
  - intros Hnone. rewrite Hs'. apply releaseByOwner_none.
    apply Forall_forall. intros i Hi. apply elem_of_seqZ in Hi. apply Hnone. lia.
  - intros i Hi Hown Hbefore.
    assert (Hsplit : seqZ 0 POLYPHONY_LIMIT
                     = seqZ 0 i ++ i :: seqZ (i + 1) (POLYPHONY_LIMIT - i - 1)).
    { replace POLYPHONY_LIMIT with (i + (POLYPHONY_LIMIT - i)) at 1 by lia.
      rewrite seqZ_app by lia. rewrite Z.add_0_l, (seqZ_cons i) by lia.
      replace (Z.succ i) with (i + 1) by lia.
      replace (Z.pred (POLYPHONY_LIMIT - i)) with (POLYPHONY_LIMIT - i - 1) by lia.
      reflexivity. }
    assert (Hrel : s' = beginEnvelopeRelease i (updVoice i (set_owner NO_SYNTH_OWNER) s)).
    { rewrite Hs', Hsplit. apply releaseByOwner_first; [|exact Hown].
      apply Forall_forall. intros j Hj. apply elem_of_seqZ in Hj. apply Hbefore. lia. }
    assert (Hrel' : s' = updVoice i
                           (fun v => set_command StartRelease
                                       (set_retryCountdown 0
                                          (set_retries releaseRetryLimit v)))
                           (updVoice i (set_owner NO_SYNTH_OWNER) s)).
    { rewrite Hrel. unfold beginEnvelopeRelease.
      destruct (Z.leb_spec POLYPHONY_LIMIT i); [lia|reflexivity]. }
    split; [|split; [|split]].
    + rewrite Hrel'.
      rewrite voice_updVoice_same;
        [|lia|rewrite updVoice_voices by lia; rewrite length_alter, Hlen; lia].
      rewrite voice_updVoice_same by (rewrite ?Hlen; lia). reflexivity.
    + intros j Hj Hne. rewrite Hrel'.
      rewrite !voice_updVoice_other by lia. reflexivity.
    + rewrite Hrel'. rewrite !updVoice_h. reflexivity.
    + rewrite Hrel'. unfold updVoice. destruct (i <? 0); reflexivity.
Qed.
End Allocators.

(** ** The envelope parameters and the audio tick *)

Lemma clampIndex_min (index : Z) : 0 <= index -> clampIndex index = Z.min 9 index.
Proof.
  intros H. unfold clampIndex. change (Z.of_nat (length envelopeTimeMicrosOptions)) with 10.
  destruct (Z.leb_spec 10 index); [change (u8 (10 - 1)) with 9|]; lia.
Qed.

Lemma clampIndex_cases (index : Z) :
  0 <= index -> In (clampIndex index) [0; 1; 2; 3; 4; 5; 6; 7; 8; 9].
Proof.
  intros H. rewrite clampIndex_min by exact H. cbn [In].
  assert (0 <= Z.min 9 index <= 9) by lia. lia.
Qed.

(** The tick counts that the ten envelope times give. *)
Lemma ticksFromMicros_options (index : Z) :
  0 <= index ->
  let micros := envelopeTimeMicros (clampIndex index) in
  0 <= ticksFromMicros micros <= 83334
  /\ POLL_INTERVAL_IN_MICROSECONDS * (ticksFromMicros micros - 1) < micros
     <= POLL_INTERVAL_IN_MICROSECONDS * ticksFromMicros micros
  /\ (ticksFromMicros micros = 0 <-> clampIndex index = 0).
Proof.
  intros H. pose proof (clampIndex_cases index H) as Hc. cbn [In] in Hc. cbv zeta.
  repeat (destruct Hc as [Hc|Hc];
          [rewrite <- Hc; vm_compute; repeat split; intros; congruence|]).
  contradiction.
Qed.

Lemma ceiling_increment (D T : Z) :
  0 <= D <= envelopeMaxLevel -> 0 < T <= 83334 ->
  let inc := Z.max 1 (u32 (D + T - 1) / T) in
  1 <= inc <= envelopeMaxLevel /\ D <= T * inc.
Proof.
  unfold envelopeMaxLevel. intros HD HT. cbv zeta.
  assert (Hu : u32 (D + T - 1) = D + T - 1) by (unfold u32; apply Z.mod_small; lia).
  rewrite Hu. split.
  - split; [lia|]. apply Z.max_lub; [lia|].
    apply Z.div_le_upper_bound; [lia|]. nia.
  - apply release_increment_covers; lia.
Qed.

Lemma sustainLevel_scaled (sustain : Z) :
  0 <= sustain ->
  let level := u16 (u32 (Z.min 127 sustain * envelopeMaxLevel) / 127) in
  level = Z.min 127 sustain * envelopeMaxLevel / 127
  /\ 0 <= level <= envelopeMaxLevel
  /\ (envelopeMaxLevel <= level <-> 127 <= sustain).
Proof.
  unfold envelopeMaxLevel. intros H. cbv zeta.
  assert (Hb : 0 <= Z.min 127 sustain <= 127) by lia.
  set (b := Z.min 127 sustain) in *.
  assert (Hu : u32 (b * 65535) = b * 65535) by (unfold u32; apply Z.mod_small; lia).
  rewrite Hu.
  assert (Hq : 0 <= b * 65535 / 127 <= 65535).
  { split; [apply Z.div_pos; lia|]. apply Z.div_le_upper_bound; lia. }
  assert (Hw : u16 (b * 65535 / 127) = b * 65535 / 127)
    by (unfold u16; apply Z.mod_small; lia).
  rewrite Hw. split; [reflexivity|]. split; [exact Hq|]. split.
  - intros Hle. destruct (Z.eq_dec b 127) as [E|E]; [subst b; lia|].
    assert (b * 65535 / 127 < 65535); [|lia].
    apply Z.div_lt_upper_bound; lia.
  - intros Hs. replace b with 127 by (subst b; lia). vm_compute. discriminate.
Qed.

(** Parameters that keep the levels inside the 16-bit range of the mixer. *)
Definition paramsInRange (p : EnvelopeParams) : Prop :=
  0 <= sustainLevel p <= envelopeMaxLevel
  /\ 1 <= attackIncrement p <= envelopeMaxLevel
  /\ 1 <= decayIncrement p <= envelopeMaxLevel
  /\ 0 <= releaseTicks p <= 83334.

(** X21. [updateEnvelopeParamsFromSettings] clamps the three time indices to
    the ten-entry table, scales the sustain byte (capped at 127) to the 16-bit
    level range, counts for each time the least number of 24-microsecond ticks
    that covers it, and chooses increments between 1 and 65535 that are large
    enough for the attack to reach the peak within the attack ticks and for
    the decay to reach the sustain level within the decay ticks.  Run again on
    the clamped settings it gives the same result. *)
Theorem envelope_params_from_settings (e : EnvelopeSettings) :
  0 <= envelopeAttackIndex e -> 0 <= envelopeDecayIndex e ->
  0 <= envelopeReleaseIndex e -> 0 <= envelopeSustainLevel e ->
  let e' := fst (updateEnvelopeParamsFromSettings e) in
  let p := snd (updateEnvelopeParamsFromSettings e) in
  e' = mkEnvelopeSettings (Z.min 9 (envelopeAttackIndex e)) (Z.min 9 (envelopeDecayIndex e))
         (envelopeSustainLevel e) (Z.min 9 (envelopeReleaseIndex e))
  /\ sustainLevel p = Z.min 127 (envelopeSustainLevel e) * envelopeMaxLevel / 127
  /\ (envelopeMaxLevel <= sustainLevel p <-> 127 <= envelopeSustainLevel e)
  /\ POLL_INTERVAL_IN_MICROSECONDS * (attackTicks p - 1)
       < envelopeTimeMicros (envelopeAttackIndex e')
       <= POLL_INTERVAL_IN_MICROSECONDS * attackTicks p
  /\ POLL_INTERVAL_IN_MICROSECONDS * (decayTicks p - 1)
       < envelopeTimeMicros (envelopeDecayIndex e')
       <= POLL_INTERVAL_IN_MICROSECONDS * decayTicks p
  /\ POLL_INTERVAL_IN_MICROSECONDS * (releaseTicks p - 1)
       < envelopeTimeMicros (envelopeReleaseIndex e')
       <= POLL_INTERVAL_IN_MICROSECONDS * releaseTicks p
  /\ paramsInRange p
  /\ envelopeMaxLevel <= Z.max 1 (attackTicks p) * attackIncrement p
  /\ envelopeMaxLevel - sustainLevel p <= Z.max 1 (decayTicks p) * decayIncrement p
  /\ updateEnvelopeParamsFromSettings e' = (e', p).
Proof.
  intros Ha Hd Hr Hs e' p.
  destruct (ticksFromMicros_options _ Ha) as (Ta & Tam & Ta0).
  destruct (ticksFromMicros_options _ Hd) as (Td & Tdm & Td0).
  destruct (ticksFromMicros_options _ Hr) as (Tr & Trm & _).
  destruct (sustainLevel_scaled _ Hs) as (Sv & Sr & Sm).
  assert (He' : e' = mkEnvelopeSettings (clampIndex (envelopeAttackIndex e))
                       (clampIndex (envelopeDecayIndex e)) (envelopeSustainLevel e)
                       (clampIndex (envelopeReleaseIndex e))) by reflexivity.
  assert (Hat : attackTicks p
                = ticksFromMicros (envelopeTimeMicros (clampIndex (envelopeAttackIndex e))))
    by reflexivity.
  assert (Hdt : decayTicks p
                = ticksFromMicros (envelopeTimeMicros (clampIndex (envelopeDecayIndex e))))
    by reflexivity.
  assert (Hrt : releaseTicks p
                = ticksFromMicros (envelopeTimeMicros (clampIndex (envelopeReleaseIndex e))))
    by reflexivity.
  assert (Hsl : sustainLevel p
                = u16 (u32 (Z.min 127 (envelopeSustainLevel e) * envelopeMaxLevel) / 127))
    by reflexivity.
  assert (Hai : attackIncrement p
                = if attackTicks p =? 0 then envelopeMaxLevel
                  else Z.max 1 (u32 (envelopeMaxLevel + attackTicks p - 1) / attackTicks p))
    by reflexivity.
  assert (Hdi : decayIncrement p
                = if (decayTicks p =? 0) || (envelopeMaxLevel <=? sustainLevel p)
                  then envelopeMaxLevel
                  else Z.max 1 (u32 (envelopeMaxLevel - sustainLevel p + decayTicks p - 1)
                                / decayTicks p))
    by reflexivity.
  rewrite <- Hat in Ta, Tam. rewrite <- Hdt in Td, Tdm. rewrite <- Hrt in Tr, Trm.
  rewrite <- Hsl in Sv, Sr, Sm.
  assert (HM : envelopeMaxLevel = 65535) by reflexivity.
  assert (Ainc : 1 <= attackIncrement p <= envelopeMaxLevel
                 /\ envelopeMaxLevel <= Z.max 1 (attackTicks p) * attackIncrement p).
  { rewrite Hai. destruct (Z.eqb_spec (attackTicks p) 0) as [E|E].
    - rewrite E. change (Z.max 1 0) with 1. lia.
    - destruct (ceiling_increment envelopeMaxLevel (attackTicks p)) as (B & C); [lia|lia|].
      cbv zeta in B, C. split; [exact B|]. now replace (Z.max 1 (attackTicks p))
        with (attackTicks p) by lia. }
  assert (Dinc : 1 <= decayIncrement p <= envelopeMaxLevel
                 /\ envelopeMaxLevel - sustainLevel p
                    <= Z.max 1 (decayTicks p) * decayIncrement p).
  { rewrite Hdi. destruct (Z.eqb_spec (decayTicks p) 0) as [E|E]; cbn [orb].
    - rewrite E. change (Z.max 1 0) with 1. lia.
    - destruct (Z.leb_spec envelopeMaxLevel (sustainLevel p)) as [L|L]; [nia|].
      destruct (ceiling_increment (envelopeMaxLevel - sustainLevel p) (decayTicks p))
        as (B & C); [lia|lia|].
      cbv zeta in B, C. split; [exact B|]. now replace (Z.max 1 (decayTicks p))
        with (decayTicks p) by lia. }
  split; [rewrite He', !clampIndex_min by assumption; reflexivity|].
  split; [exact Sv|]. split; [exact Sm|].
  split; [rewrite He'; exact Tam|]. split; [rewrite He'; exact Tdm|].
  split; [rewrite He'; exact Trm|].
  split; [unfold paramsInRange; tauto|].
  split; [apply Ainc|]. split; [apply Dinc|].
  rewrite He'. unfold p, updateEnvelopeParamsFromSettings.
  cbn [envelopeAttackIndex envelopeDecayIndex envelopeReleaseIndex envelopeSustainLevel snd].
  assert (Hidem : forall i, 0 <= i -> clampIndex (clampIndex i) = clampIndex i).
  { intros i Hi. rewrite (clampIndex_min i) by lia. rewrite clampIndex_min by lia. lia. }
  rewrite !Hidem by assumption. reflexivity.
Qed.

(** The envelope of a voice is inside the range that the mixer expects: the
    level fits 16 bits, and an idle voice is silent. *)
Definition levelInRange (v : Voice) : Prop :=
  0 <= env_level v <= envelopeMaxLevel
  /\ 0 <= env_releaseIncrement v
  /\ (env_stage v = Idle -> env_level v = 0).

Lemma pollOscillator_envelope (v : Voice) :
  env_level (pollOscillator v) = env_level v
  /\ env_releaseIncrement (pollOscillator v) = env_releaseIncrement v
  /\ env_stage (pollOscillator v) = env_stage v.
Proof.
  unfold pollOscillator. destruct (env_stage v) eqn:E;
    try destruct ((env_level v =? 0) || (osc_increment v =? 0));
    cbn; rewrite ?E; repeat split; reflexivity.
Qed.

Lemma levelInRange_pollOscillator (v : Voice) :
  levelInRange v -> levelInRange (pollOscillator v).
Proof.
  unfold levelInRange. destruct (pollOscillator_envelope v) as (-> & -> & ->). tauto.
Qed.

Lemma pollStage_levelInRange (p : EnvelopeParams) (v : Voice) :
  paramsInRange p -> levelInRange v -> levelInRange (pollStage p v).
Proof.
  intros (Hs & Ha & Hd & _) (Hl & Hr & Hi).
  assert (HM : envelopeMaxLevel = 65535) by reflexivity.
  unfold pollStage. destruct (env_stage v) eqn:E.
  - (* Idle *) unfold levelInRange. cbn. rewrite E. lia.
  - (* Attack *)
    apply levelInRange_pollOscillator. unfold levelInRange.
    assert (Hn : u32 (env_level v + attackIncrement p) = env_level v + attackIncrement p)
      by (unfold u32; apply Z.mod_small; lia).
    rewrite Hn.
    destruct (Z.leb_spec envelopeMaxLevel (env_level v)) as [L1|L1]; cbn [orb];
      [|destruct (Z.leb_spec envelopeMaxLevel (env_level v + attackIncrement p)) as [L2|L2]];
      try (destruct ((decayTicks p =? 0) || (envelopeMaxLevel <=? sustainLevel p)));
      cbn; rewrite ?E; repeat split; try lia; try discriminate.
  - (* Decay *)
    apply levelInRange_pollOscillator. unfold levelInRange.
    destruct ((decayTicks p =? 0) || (envelopeMaxLevel <=? sustainLevel p));
      [cbn; repeat split; try lia; discriminate|].
    destruct (Z.ltb_spec (sustainLevel p) (env_level v)) as [L1|L1];
      [|cbn; repeat split; try lia; discriminate].
    destruct (Z.ltb_spec (decayIncrement p) (env_level v)) as [L2|L2].
    + destruct (Z.leb_spec (env_level v - decayIncrement p) (sustainLevel p));
        cbn; rewrite ?E; repeat split; try lia; discriminate.
    + destruct (Z.leb_spec 0 (sustainLevel p)); [|lia].
      cbn; repeat split; try lia; discriminate.
  - (* Sustain *)
    apply levelInRange_pollOscillator. unfold levelInRange.
    cbn. rewrite E. repeat split; try lia; discriminate.
  - (* Release *)
    apply levelInRange_pollOscillator. unfold levelInRange.
    destruct (releaseTicks p =? 0); cbn [orb];
      [cbn; repeat split; lia|].
    destruct (env_releaseIncrement v =? 0); cbn [orb];
      [cbn; repeat split; lia|].
    destruct (Z.leb_spec (env_level v) (env_releaseIncrement v));
      cbn; rewrite ?E; repeat split; try lia; discriminate.
Qed.

Lemma on_Decay (P : Voice -> Prop) (v w : Voice) :
  P v -> (env_stage v = Decay -> P w) ->
  P (match env_stage v with Decay => w | _ => v end).
Proof. intros Hv Hw. destruct (env_stage v); auto. Qed.

Lemma on_Sustain (P : Voice -> Prop) (v w : Voice) :
  P v -> (env_stage v = Sustain -> P w) ->
  P (match env_stage v with Sustain => w | _ => v end).
Proof. intros Hv Hw. destruct (env_stage v); auto. Qed.

Lemma pollCommand_levelInRange (p : EnvelopeParams) (v : Voice) (ng : Z) :
  paramsInRange p -> levelInRange v -> levelInRange (fst (pollCommand p v ng)).
Proof.
  intros (Hs & Ha & Hd & Ht) (Hl & Hr & Hi).
  assert (HM : envelopeMaxLevel = 65535) by reflexivity.
  unfold pollCommand. cbv zeta. destruct (envelopeCommand v) eqn:C.
  - (* None *) unfold levelInRange. cbn. tauto.
  - (* StartAttack *)
    change (voiceGeneration (set_command CmdNone v)) with (voiceGeneration v).
    set (v1 := set_needsFree false (set_releaseIncrement 0 (set_command CmdNone v))).
    set (v2 := if attackTicks p =? 0 then _ else _).
    set (v3 := match env_stage v2 with Decay => _ | _ => v2 end).
    set (v4 := match env_stage v3 with Sustain => _ | _ => v3 end).
    assert (H2 : levelInRange v2 /\ env_stage v2 <> Idle).
    { subst v2 v1. destruct (attackTicks p =? 0);
        [destruct ((decayTicks p =? 0) || (envelopeMaxLevel <=? sustainLevel p))|];
        unfold levelInRange; cbn; repeat split; try lia; discriminate. }
    assert (H3 : levelInRange v3 /\ env_stage v3 <> Idle).
    { subst v3.
      apply (on_Decay (fun w => levelInRange w /\ env_stage w <> Idle)); [exact H2|].
      intros _. destruct (decayTicks p =? 0); [|exact H2].
      destruct H2 as ((_ & R2 & _) & _).
      unfold levelInRange; cbn; repeat split; try lia; discriminate. }
    assert (H4 : levelInRange v4).
    { subst v4. apply (on_Sustain levelInRange); [apply H3|]. intros E3.
      destruct H3 as ((_ & R3 & _) & _).
      unfold levelInRange; cbn; rewrite E3; repeat split; try lia; discriminate. }
    assert (G : forall g, levelInRange (set_generation g v4)) by (intros g; exact H4).
    destruct (voiceGeneration v4 =? 0); cbn [fst]; [apply G|exact H4].
  - (* StartRelease *)
    change (env_level (set_command CmdNone v)) with (env_level v).
    destruct ((releaseTicks p =? 0) || (env_level v =? 0)); cbn [fst];
      unfold levelInRange; cbn; [repeat split; lia|].
    split; [exact Hl|]. split; [lia|discriminate].
  - (* Reset *) unfold levelInRange. cbn. repeat split; lia.
Qed.

Lemma pollVoice_levelInRange (p : EnvelopeParams) (v : Voice) (ng : Z) :
  paramsInRange p -> levelInRange v -> levelInRange (fst (pollVoice p v ng)).
Proof.
  intros Hp Hv. unfold pollVoice.
  pose proof (pollCommand_levelInRange p v ng Hp Hv) as Hc.
  destruct (pollCommand p v ng) as [v' ng']. cbn [fst] in Hc.
  destruct (osc_increment v' =? 0), (env_stage v'); cbn [fst];
    first [exact Hc | now apply pollStage_levelInRange].
Qed.

Lemma pollVoices_levelInRange (p : EnvelopeParams) (vs : list Voice) (ng : Z) :
  paramsInRange p -> Forall levelInRange vs ->
  Forall levelInRange (fst (pollVoices p vs ng)).
Proof.
  intros Hp. revert ng. induction vs as [|v vs IH]; intros ng Hvs; [constructor|].
  inversion Hvs as [|? ? Hv Hrest]; subst. cbn [pollVoices].
  pose proof (pollVoice_levelInRange p v ng Hp Hv) as H1.
  destruct (pollVoice p v ng) as [v' ng']. cbn [fst] in H1.
  specialize (IH ng' Hrest). destruct (pollVoices p vs ng') as [rest' ng''].
  cbn [fst] in *. constructor; assumption.
Qed.

(** X22. The audio tick keeps every envelope inside its range: with envelope
    parameters in range, as [updateEnvelopeParamsFromSettings] produces them,
    if every voice has its level within 0..65535, a release decrement that is
    not negative and level 0 when idle, the same holds after any number of
    ticks of [poll]; the ticks change neither the parameters nor the number
    of voices. *)
Theorem poll_keeps_levels_in_range (s : State) (n : nat) :
  paramsInRange (envelopeParams s) -> Forall levelInRange (voices s) ->
  Forall levelInRange (voices (pollN n s))
  /\ envelopeParams (pollN n s) = envelopeParams s
  /\ length (voices (pollN n s)) = length (voices s).
Proof.
  intros Hp Hv. induction n as [|n IH].
  - repeat split; assumption.
  - destruct IH as (IHv & IHp & IHl).
    change (pollN (S n) s) with (poll (pollN n s)).
    split; [|split].
    + unfold poll.
      pose proof (pollVoices_levelInRange (envelopeParams (pollN n s)) (voices (pollN n s))
                    (nextVoiceGeneration (pollN n s))) as H.
      rewrite IHp in H. specialize (H Hp IHv). rewrite IHp.
      destruct (pollVoices _ _ _) as [vs ng]. exact H.
    + rewrite poll_envelopeParams. exact IHp.
    + rewrite <- IHl. unfold poll.
      generalize (envelopeParams (pollN n s)) (nextVoiceGeneration (pollN n s)).
      generalize (voices (pollN n s)) as vs. intros vs p ng.
      transitivity (length (fst (pollVoices p vs ng)));
        [destruct (pollVoices p vs ng); reflexivity|].
      revert ng. induction vs as [|v vs IHvs]; intros ng; [reflexivity|].
      cbn [pollVoices]. destruct (pollVoice p v ng) as [v' ng'].
      specialize (IHvs ng'). destruct (pollVoices p vs ng') as [r ng''].
      cbn [fst length] in *. now rewrite IHvs.
Qed.

(** ** Resetting the synth *)

(** The settings that [resetSynthFreqs] writes at a voice index. *)
Definition resetVoice (v : Voice) : Voice :=
  set_retryCountdown 0
    (set_retries 0
       (set_owner NO_SYNTH_OWNER
          (set_generation 0
             (set_needsFree false
                (set_inUse false (set_command Reset (set_counter 0 (set_increment 0 v)))))))).

Lemma fold_alter_lookup {A : Type} (f : A -> A) (idxs : list Z) (l : list A) (j : nat) :
  NoDup idxs -> Forall (fun i => 0 <= i) idxs ->
  fold_left (fun l i => alter f (Z.to_nat i) l) idxs l !! j
  = if decide (Z.of_nat j ∈ idxs) then f <$> l !! j else l !! j.
Proof.
  revert l. induction idxs as [|i idxs IH]; intros l Hnd Hpos; cbn [fold_left].
  - rewrite decide_False; [reflexivity|]. apply not_elem_of_nil.
  - apply NoDup_cons in Hnd as (Hni & Hnd). apply Forall_cons in Hpos as (Hi & Hpos).
    rewrite IH by assumption.
    destruct (decide (Z.of_nat j = i)) as [E|E].
    + subst i. rewrite decide_False by exact Hni.
      rewrite decide_True by (apply elem_of_cons; now left).
      rewrite Nat2Z.id. apply list_lookup_alter_eq.
    + rewrite list_lookup_alter_ne by lia.
      destruct (decide (Z.of_nat j ∈ idxs)) as [M|M].
      * rewrite decide_True by (apply elem_of_cons; now right). reflexivity.
      * rewrite decide_False; [reflexivity|]. rewrite elem_of_cons. tauto.
Qed.

Lemma fold_alter_all {A : Type} (f : A -> A) (n : Z) (l : list A) :
  (length l <= Z.to_nat n)%nat ->
  fold_left (fun l i => alter f (Z.to_nat i) l) (seqZ 0 n) l = map f l.
Proof.
  intros Hlen. apply list_eq. intros j.
  rewrite fold_alter_lookup;
    [|apply NoDup_seqZ|apply Forall_forall; intros i Hi; apply elem_of_seqZ in Hi; lia].
  rewrite list_lookup_fmap.
  destruct (decide (Z.of_nat j ∈ seqZ 0 n)) as [M|M]; [reflexivity|].
  rewrite elem_of_seqZ in M.
  rewrite (lookup_ge_None_2 l j) by lia. reflexivity.
Qed.

Lemma fold_updVoice (f : Voice -> Voice) (idxs : list Z) (s : State) :
  Forall (fun i => 0 <= i) idxs ->
  fold_left (fun s i => updVoice i f s) idxs s
  = set_voices (fold_left (fun l i => alter f (Z.to_nat i) l) idxs (voices s)) s.
Proof.
  revert s. induction idxs as [|i idxs IH]; intros s Hpos; cbn [fold_left].
  - now destruct s.
  - apply Forall_cons in Hpos as (Hi & Hpos). rewrite IH by exact Hpos.
    unfold updVoice. destruct (Z.ltb_spec i 0); [lia|]. reflexivity.
Qed.

Lemma fold_updKey (f : Key -> Key) (idxs : list Z) (s : State) :
  Forall (fun i => 0 <= i) idxs ->
  fold_left (fun s i => updKey i f s) idxs s
  = set_h (fold_left (fun l i => alter f (Z.to_nat i) l) idxs (h s)) s.
Proof.
  revert s. induction idxs as [|i idxs IH]; intros s Hpos; cbn [fold_left].
  - now destruct s.
  - apply Forall_cons in Hpos as (Hi & Hpos). rewrite IH by exact Hpos.
    unfold updKey. destruct (Z.ltb_spec i 0); [lia|]. reflexivity.
Qed.

Lemma fold_push_queue (g : Z -> Z) (idxs : list Z) (s : State) :
  fold_left (fun s i => set_synthChQueue (synthChQueue s ++ [g i]) s) idxs s
  = set_synthChQueue (synthChQueue s ++ map g idxs) s.
Proof.
  revert s. induction idxs as [|i idxs IH]; intros s; cbn [fold_left map].
  - rewrite app_nil_r. now destruct s.
  - rewrite IH. cbn. now rewrite <- app_assoc.
Qed.

Lemma seqZ_nonneg (n : Z) : Forall (fun i => 0 <= i) (seqZ 0 n).
Proof. apply Forall_forall. intros i Hi. apply elem_of_seqZ in Hi. lia. Qed.

Lemma resetSynthFreqs_eq (s : State) :
  (length (voices s) <= Z.to_nat POLYPHONY_LIMIT)%nat ->
  (length (h s) <= Z.to_nat BTN_COUNT)%nat ->
  resetSynthFreqs s
  = set_synthChQueue
      (if playbackMode (cfg s) =? SYNTH_POLY then seqZ 1 POLYPHONY_LIMIT else [])
      (set_h (map (set_synthCh 0) (h s))
         (set_voices (map resetVoice (voices s)) (set_nextVoiceGeneration 1 s))).
Proof.
  intros Hv Hh. unfold resetSynthFreqs. cbv zeta.
  rewrite (fold_updVoice _ _ _ (seqZ_nonneg _)).
  rewrite (fold_updKey _ _ _ (seqZ_nonneg _)).
  cbn [voices h set_voices set_h set_synthChQueue set_nextVoiceGeneration cfg].
  fold resetVoice.
  rewrite (fold_alter_all resetVoice) by exact Hv.
  rewrite (fold_alter_all (set_synthCh 0)) by exact Hh.
  destruct (playbackMode (cfg s) =? SYNTH_POLY); [|reflexivity].
  rewrite fold_push_queue. reflexivity.
Qed.

Lemma pollVoice_reset (p : EnvelopeParams) (v : Voice) (ng : Z) :
  pollVoice p (resetVoice v) ng = (freshVoice, ng).
Proof. reflexivity. Qed.

Lemma pollVoices_reset (p : EnvelopeParams) (vs : list Voice) (ng : Z) :
  pollVoices p (map resetVoice vs) ng = (replicate (length vs) freshVoice, ng).
Proof.
  induction vs as [|v vs IH]; [reflexivity|].
  cbn [map pollVoices length replicate]. rewrite pollVoice_reset, IH. reflexivity.
Qed.

(** X23. [resetSynthFreqs] followed by one audio tick leaves every voice as a
    fresh one (idle, level 0, not in use, no owner, no pending command or
    flag), the generation counter at 1, every key without a synth channel,
    and the free-list holding the channels 1 to 8 in order in poly mode and
    nothing in the other modes; no MIDI is sent. *)
Theorem reset_then_tick_gives_fresh_voices (s : State) :
  length (voices s) = Z.to_nat POLYPHONY_LIMIT ->
  (length (h s) <= Z.to_nat BTN_COUNT)%nat ->
  let s' := poll (resetSynthFreqs s) in
  voices s' = replicate (Z.to_nat POLYPHONY_LIMIT) freshVoice
  /\ nextVoiceGeneration s' = 1
  /\ synthChQueue s'
     = (if playbackMode (cfg s) =? SYNTH_POLY then seqZ 1 POLYPHONY_LIMIT else [])
  /\ h s' = map (set_synthCh 0) (h s)
  /\ (forall k, synthCh (hkey s' k) = 0)
  /\ midiOut s' = midiOut s
  /\ mpeAvailableChannels s' = mpeAvailableChannels s.
Proof.
  intros Hv Hh s'.
  assert (Hs' : s' = set_nextVoiceGeneration 1
                       (set_voices (replicate (Z.to_nat POLYPHONY_LIMIT) freshVoice)
                          (resetSynthFreqs s))).
  { subst s'. rewrite resetSynthFreqs_eq by (rewrite ?Hv; lia || exact Hh).
    unfold poll.
    cbn [voices h set_voices set_h set_synthChQueue set_nextVoiceGeneration cfg
         envelopeParams nextVoiceGeneration].
    rewrite pollVoices_reset, Hv. reflexivity. }
  rewrite Hs'. rewrite resetSynthFreqs_eq by (rewrite ?Hv; lia || exact Hh).
  split; [reflexivity|]. split; [reflexivity|]. split; [reflexivity|].
  split; [reflexivity|]. split; [|split; reflexivity].
  intros k. unfold hkey.
  cbn [voices h set_voices set_h set_synthChQueue set_nextVoiceGeneration].
  rewrite list_lookup_fmap. destruct (h s !! Z.to_nat k); reflexivity.
Qed.

(** ** The ratio search on the values it computes

    The search of [justIntonationRetune] works on [float] values.  A finite
    [float] is a real number and two finite floats are compared exactly, so
    the comparisons below are those of the reals; what the sketch computes
    with rounding is taken as given: the cents [ratioToCents(ratio0 / ratio1)]
    of a table entry, the cents of the interval sought, the threshold, and the
    difference of two floats.  [INFINITY] is [None], as above. *)

Section ComputedSearch.

Variable centsOf : Z * Z -> R.
Variable difference : R -> R -> R.

(** The loop over the table from some position on, on the pair
    [(deviation, selectedRatio)]. *)
Fixpoint ratioScanComputed (errorThreshold EDOCents : R) (table : list (Z * Z))
    (deviation : option R) (selectedRatio : Z * Z) : option R * (Z * Z) :=
  match table with
  | [] => (deviation, selectedRatio)
  | (ratio0, ratio1) :: rest =>
      let ratioCents := centsOf (ratio0, ratio1) in
      if fartherThan deviation (Rabs (difference ratioCents EDOCents)) then
        let deviation' := difference EDOCents ratioCents in
        if Rlt_dec (Rabs deviation') errorThreshold
        then (Some deviation', (ratio0, ratio1))
        else ratioScanComputed errorThreshold EDOCents rest (Some deviation') (ratio0, ratio1)
      else ratioScanComputed errorThreshold EDOCents rest deviation selectedRatio
  end.

(** How far the computed cents of an entry lie from the interval sought. *)
Definition missBy (EDOCents : R) (q : Z * Z) : R := Rabs (difference EDOCents (centsOf q)).

(** What the scan returns: the entry [sel] of the table, [pre] before it and
    [post] after it, is either the first one within the threshold or, when
    none is, the first of the nearest ones. *)
Definition firstCloseOrNearest (thr EDOCents : R) (pre : list (Z * Z)) (sel : Z * Z)
    (post : list (Z * Z)) : Prop :=
  ((missBy EDOCents sel < thr)%R
   /\ Forall (fun q => (thr <= missBy EDOCents q)%R) pre)
  \/ ((thr <= missBy EDOCents sel)%R
      /\ Forall (fun q => (missBy EDOCents sel < missBy EDOCents q)%R) pre
      /\ Forall (fun q => (missBy EDOCents sel <= missBy EDOCents q)%R) post).

(** A float difference changes sign, and nothing else, when its operands are
    swapped. *)
Hypothesis difference_swap : forall a b, Rabs (difference a b) = Rabs (difference b a).

Lemma ratioScanComputed_from (thr E : R) (table : list (Z * Z)) (d0 : R) (sel0 : Z * Z) :
  (thr <= Rabs d0)%R ->
  (ratioScanComputed thr E table (Some d0) sel0 = (Some d0, sel0)
   /\ Forall (fun q => (Rabs d0 <= missBy E q)%R) table)
  \/ (exists pre sel post,
        table = pre ++ sel :: post
        /\ ratioScanComputed thr E table (Some d0) sel0
           = (Some (difference E (centsOf sel)), sel)
        /\ (missBy E sel < Rabs d0)%R
        /\ firstCloseOrNearest thr E pre sel post).
Proof.
  revert d0 sel0. induction table as [|[r0 r1] rest IH]; intros d0 sel0 Hthr.
  - left. split; [reflexivity|constructor].
  - cbn [ratioScanComputed fartherThan]. cbv zeta.
    rewrite (difference_swap (centsOf (r0, r1)) E). fold (missBy E (r0, r1)).
    destruct (Rlt_dec (missBy E (r0, r1)) (Rabs d0)) as [Hlt|Hge].
    + destruct (Rlt_dec (missBy E (r0, r1)) thr) as [Hhit|Hmiss].
      * right. exists [], (r0, r1), rest. split; [reflexivity|]. split; [reflexivity|].
        split; [exact Hlt|]. left. split; [exact Hhit|constructor].
      * assert (Hthr' : (thr <= Rabs (difference E (centsOf (r0, r1))))%R)
          by (fold (missBy E (r0, r1)); lra).
        destruct (IH (difference E (centsOf (r0, r1))) (r0, r1) Hthr')
          as [(Heq & Hall)|(pre & sel & post & Ht & Heq & Hcl & Hsel)].
        -- right. exists [], (r0, r1), rest. split; [reflexivity|]. split; [exact Heq|].
           split; [exact Hlt|]. right. split; [lra|]. split; [constructor|exact Hall].
        -- right. exists ((r0, r1) :: pre), sel, post. fold (missBy E (r0, r1)) in Hcl.
           split; [rewrite Ht; reflexivity|]. split; [exact Heq|]. split; [lra|].
           destruct Hsel as [(Hs & Hp)|(Hs & Hp & Hq)].
           ++ left. split; [exact Hs|]. constructor; [lra|exact Hp].
           ++ right. split; [exact Hs|]. split; [|exact Hq]. constructor; [exact Hcl|exact Hp].
    + destruct (IH d0 sel0 Hthr)
        as [(Heq & Hall)|(pre & sel & post & Ht & Heq & Hcl & Hsel)].
      * left. split; [exact Heq|]. constructor; [lra|exact Hall].
      * right. exists ((r0, r1) :: pre), sel, post.
        split; [rewrite Ht; reflexivity|]. split; [exact Heq|]. split; [exact Hcl|].
        destruct Hsel as [(Hs & Hp)|(Hs & Hp & Hq)].
        -- left. split; [exact Hs|]. constructor; [lra|exact Hp].
        -- right. split; [exact Hs|]. split; [|exact Hq]. constructor; [lra|exact Hp].
Qed.

Lemma ratioScanComputed_start (thr E : R) (q : Z * Z) (rest : list (Z * Z)) (sel0 : Z * Z) :
  exists pre sel post,
    q :: rest = pre ++ sel :: post
    /\ ratioScanComputed thr E (q :: rest) None sel0
       = (Some (difference E (centsOf sel)), sel)
    /\ firstCloseOrNearest thr E pre sel post.
Proof.
  destruct q as [r0 r1]. cbn [ratioScanComputed fartherThan]. cbv zeta.
  fold (missBy E (r0, r1)).
  destruct (Rlt_dec (missBy E (r0, r1)) thr) as [Hhit|Hmiss].
  - exists [], (r0, r1), rest. split; [reflexivity|]. split; [reflexivity|].
    left. split; [exact Hhit|constructor].
  - assert (Hthr' : (thr <= Rabs (difference E (centsOf (r0, r1))))%R)
      by (fold (missBy E (r0, r1)); lra).
    destruct (ratioScanComputed_from thr E rest (difference E (centsOf (r0, r1))) (r0, r1) Hthr')
      as [(Heq & Hall)|(pre & sel & post & Ht & Heq & Hcl & Hsel)].
    + exists [], (r0, r1), rest. split; [reflexivity|]. split; [exact Heq|].
      right. split; [lra|]. split; [constructor|exact Hall].
    + exists ((r0, r1) :: pre), sel, post. fold (missBy E (r0, r1)) in Hcl.
      split; [rewrite Ht; reflexivity|]. split; [exact Heq|].
      destruct Hsel as [(Hs & Hp)|(Hs & Hp & Hq)].
      * left. split; [exact Hs|]. constructor; [lra|exact Hp].
      * right. split; [exact Hs|]. split; [|exact Hq]. constructor; [exact Hcl|exact Hp].
Qed.

(** X24. The search of dynamic just intonation, on the values it computes:
    whatever finite values the cents of the table entries, the cents of the
    interval and the threshold are computed to, and for any float difference
    whose magnitude does not depend on the order of its operands, the search
    selects an entry of the ratio table and returns as deviation the computed
    difference between the interval and that entry.  The entry is the first
    one of the table whose computed distance from the interval is below the
    threshold; when no entry is, it is the entry of least computed distance,
    the first among equal ones. *)
Theorem ratio_search_first_close_or_nearest (errorThreshold EDOCents : R) :
  exists pre sel post,
    ratios = pre ++ sel :: post
    /\ ratioScanComputed errorThreshold EDOCents ratios None (0, 0)
       = (Some (difference EDOCents (centsOf sel)), sel)
    /\ firstCloseOrNearest errorThreshold EDOCents pre sel post.
Proof. unfold ratios. apply ratioScanComputed_start. Qed.

End ComputedSearch.

(** With exact cents and the exact difference the scan is the search over the
    real numbers of the first part. *)
Definition exactCents (q : Z * Z) : R := ratioToCents (IZR (fst q) / IZR (snd q)).

Lemma ratioScan_exact_values (thr E : R) (table : list (Z * Z)) (d : option R)
    (sel : Z * Z) :
  ratioScan thr E table d sel = ratioScanComputed exactCents Rminus thr E table d sel.
Proof.
  revert d sel. induction table as [|[r0 r1] rest IH]; intros d sel; [reflexivity|].
  cbn [ratioScan ratioScanComputed]. cbv zeta. unfold exactCents at 1 2. cbn [fst snd].
  destruct (fartherThan d _); [|apply IH].
  destruct (Rlt_dec _ thr); [reflexivity|apply IH].
Qed.

(** ** The virtual wheels

    A [wheelDef] reads, through pointers, two settings, the states of three
    command buttons and its step size; these are gathered in
    [WheelControls]. *)

Definition CC_MSG_COOLDOWN_MICROSECONDS : Z := 16667.
Definition u64 (z : Z) : Z := z mod 18446744073709551616.

Record WheelControls := mkWheelControls {
  alternateMode : Z;
  isSticky : Z;
  topBtn : Z;
  midBtn : Z;
  botBtn : Z;
  stepValue : Z
}.

Record wheelDef := mkWheelDef {
  minValue : Z;
  maxValue : Z;
  defValue : Z;
  curValue : Z;
  targetValue : Z;
  timeLastChanged : Z
}.

Definition set_targetValue (x : Z) (w : wheelDef) : wheelDef :=
  mkWheelDef (minValue w) (maxValue w) (defValue w) (curValue w) x (timeLastChanged w).
Definition set_curValue (x : Z) (w : wheelDef) : wheelDef :=
  mkWheelDef (minValue w) (maxValue w) (defValue w) x (targetValue w) (timeLastChanged w).
Definition set_timeLastChanged (x : Z) (w : wheelDef) : wheelDef :=
  mkWheelDef (minValue w) (maxValue w) (defValue w) (curValue w) (targetValue w) x.

Definition setTargetValue (c : WheelControls) (w : wheelDef) : wheelDef :=
  if negb (alternateMode c =? 0) then
    if negb (Z.shiftr (midBtn c) 1 =? 0) then
      let temp := curValue w in
      let temp := if topBtn c =? 1 then i16 (temp + stepValue c) else temp in
      let temp := if botBtn c =? 1 then i16 (temp - stepValue c) else temp in
      let temp := if maxValue w <? temp then maxValue w
                  else if temp <=? minValue w then minValue w else temp in
      set_targetValue temp w
    else
      let buttons := Z.shiftl (Z.shiftr (topBtn c) 1) 1 + Z.shiftr (botBtn c) 1 in
      if buttons =? 2 then set_targetValue (maxValue w) w
      else if buttons =? 3 then set_targetValue (defValue w) w
      else if buttons =? 1 then set_targetValue (minValue w) w
      else set_targetValue (curValue w) w
  else
    let buttons := Z.shiftl (Z.shiftr (topBtn c) 1) 2 + Z.shiftl (Z.shiftr (midBtn c) 1) 1
                   + Z.shiftr (botBtn c) 1 in
    if buttons =? 4 then set_targetValue (maxValue w) w
    else if buttons =? 6 then
      set_targetValue (i16 (Z.quot (3 * maxValue w + minValue w) 4)) w
    else if (buttons =? 2) || (buttons =? 7) || (buttons =? 5) then
      set_targetValue (i16 (Z.quot (maxValue w + minValue w) 2)) w
    else if buttons =? 3 then
      set_targetValue (i16 (Z.quot (maxValue w + 3 * minValue w) 4)) w
    else if buttons =? 1 then set_targetValue (minValue w) w
    else if buttons =? 0 then
      set_targetValue (if negb (isSticky c =? 0) then curValue w else defValue w) w
    else w.

(** [updateValue]: the flag returned and the wheel afterwards. *)
Definition updateValue (c : WheelControls) (givenTime : Z) (w : wheelDef) : bool * wheelDef :=
  let temp := i16 (targetValue w - curValue w) in
  if negb (temp =? 0) then
    if CC_MSG_COOLDOWN_MICROSECONDS <=? u64 (givenTime - timeLastChanged w) then
      let w := set_timeLastChanged givenTime w in
      if Z.abs temp <? stepValue c then (true, set_curValue (targetValue w) w)
      else (true,
            set_curValue (i16 (curValue w + stepValue c * Z.quot temp (Z.abs temp))) w)
    else (false, w)
  else (false, w).

(** The loop core calls [updateValue] once per pass; the passes at the given
    times, in order. *)
Definition updateValues (c : WheelControls) (times : list Z) (w : wheelDef) : wheelDef :=
  fold_left (fun w t => snd (updateValue c t w)) times w.

(** The bounds fit [int16_t] with their difference, and the default, current
    and target values lie between them; so it is for the three wheels of the
    sketch. *)
Definition wheelInRange (w : wheelDef) : Prop :=
  -32768 <= minValue w /\ minValue w <= maxValue w /\ maxValue w <= 32767
  /\ maxValue w - minValue w <= 32767
  /\ minValue w <= defValue w <= maxValue w
  /\ minValue w <= curValue w <= maxValue w
  /\ minValue w <= targetValue w <= maxValue w.

Definition sameBounds (w w' : wheelDef) : Prop :=
  minValue w' = minValue w /\ maxValue w' = maxValue w /\ defValue w' = defValue w.

Lemma i16_small (z : Z) : -32768 <= z <= 32767 -> i16 z = z.
Proof. intros H. unfold i16. rewrite Z.mod_small by lia. lia. Qed.

Lemma i16_range (z : Z) : -32768 <= i16 z <= 32767.
Proof. unfold i16. pose proof (Z.mod_pos_bound (z + 32768) 65536 ltac:(lia)). lia. Qed.

Lemma quot_between (lo hi x d : Z) :
  0 < d -> d * lo <= x <= d * hi -> lo <= Z.quot x d <= hi.
Proof.
  intros Hd [Hlo Hhi]. split.
  - rewrite <- (Z.quot_mul lo d) by lia. apply Z.quot_le_mono; lia.
  - rewrite <- (Z.quot_mul hi d) by lia. apply Z.quot_le_mono; lia.
Qed.

Lemma setTargetValue_frame (c : WheelControls) (w : wheelDef) :
  sameBounds w (setTargetValue c w)
  /\ curValue (setTargetValue c w) = curValue w
  /\ timeLastChanged (setTargetValue c w) = timeLastChanged w.
Proof.
  unfold setTargetValue, sameBounds. cbv zeta.
  repeat match goal with
         | |- context [if ?b then _ else _] => destruct b
         end; cbn; repeat split; reflexivity.
Qed.

Lemma setTargetValue_target (c : WheelControls) (w : wheelDef) :
  wheelInRange w ->
  minValue w <= targetValue (setTargetValue c w) <= maxValue w.
Proof.
  intros (H1 & H2 & H3 & H4 & Hd & Hc & Ht).
  assert (Q1 : minValue w <= Z.quot (3 * maxValue w + minValue w) 4 <= maxValue w)
    by (apply quot_between; lia).
  assert (Q2 : minValue w <= Z.quot (maxValue w + minValue w) 2 <= maxValue w)
    by (apply quot_between; lia).
  assert (Q3 : minValue w <= Z.quot (maxValue w + 3 * minValue w) 4 <= maxValue w)
    by (apply quot_between; lia).
  unfold setTargetValue. cbv zeta.
  destruct (negb (alternateMode c =? 0)).
  - destruct (negb (Z.shiftr (midBtn c) 1 =? 0)).
    + cbn [targetValue set_targetValue].
      set (t1 := if topBtn c =? 1 then _ else _).
      set (t2 := if botBtn c =? 1 then _ else _).
      destruct (Z.ltb_spec (maxValue w) t2); [lia|].
      destruct (Z.leb_spec t2 (minValue w)); lia.
    + repeat match goal with
             | |- context [if ?b then _ else _] => destruct b
             end; cbn; lia.
  - repeat match goal with
           | |- context [if ?b then _ else _] => destruct b
           end; cbn; rewrite ?i16_small by lia; lia.
Qed.

Lemma updateValue_frame (c : WheelControls) (t : Z) (w : wheelDef) :
  sameBounds w (snd (updateValue c t w))
  /\ targetValue (snd (updateValue c t w)) = targetValue w.
Proof.
  unfold updateValue, sameBounds. cbv zeta.
  repeat match goal with
         | |- context [if ?b then _ else _] => destruct b
         end; cbn; repeat split; reflexivity.
Qed.

(** One call of [updateValue], by cases. *)
Lemma updateValue_step (c : WheelControls) (t : Z) (w : wheelDef) :
  wheelInRange w -> 0 <= stepValue c ->
  let d := targetValue w - curValue w in
  let w' := snd (updateValue c t w) in
  (d = 0 -> updateValue c t w = (false, w))
  /\ (d <> 0 -> u64 (t - timeLastChanged w) < CC_MSG_COOLDOWN_MICROSECONDS ->
      updateValue c t w = (false, w))
  /\ (d <> 0 -> CC_MSG_COOLDOWN_MICROSECONDS <= u64 (t - timeLastChanged w) ->
      fst (updateValue c t w) = true
      /\ timeLastChanged w' = t
      /\ curValue w'
         = (if Z.abs d <? stepValue c then targetValue w
            else curValue w + stepValue c * Z.sgn d)).
Proof.
  intros (H1 & H2 & H3 & H4 & Hd & Hc & Ht) Hs. cbv zeta.
  assert (Hi : i16 (targetValue w - curValue w) = targetValue w - curValue w)
    by (apply i16_small; lia).
  unfold updateValue. cbv zeta. rewrite Hi.
  set (d := targetValue w - curValue w) in *.
  destruct (Z.eqb_spec d 0) as [E|E]; cbn [negb].
  { split; [reflexivity|]. split; intros; contradiction. }
  split; [intros; contradiction|].
  destruct (Z.leb_spec CC_MSG_COOLDOWN_MICROSECONDS (u64 (t - timeLastChanged w))) as [L|L].
  - split; [intros; lia|]. intros _ _.
    assert (Hq : Z.quot d (Z.abs d) = Z.sgn d).
    { destruct (Z.lt_trichotomy d 0) as [N|[Z0|P]]; [|contradiction|].
      - rewrite Z.abs_neq, Z.sgn_neg by lia. rewrite Z.quot_opp_r by lia.
        rewrite Z.quot_same by lia. reflexivity.
      - rewrite Z.abs_eq, Z.sgn_pos by lia. apply Z.quot_same. lia. }
    rewrite Hq.
    destruct (Z.ltb_spec (Z.abs d) (stepValue c)) as [S|S]; cbn; [repeat split|].
    split; [reflexivity|]. split; [reflexivity|].
    apply i16_small. subst d. nia.
  - split; [intros; reflexivity|]. intros; lia.
Qed.

(** X25. The virtual wheels stay inside their range: when the bounds fit 16
    bits and the default, current and target values lie between them,
    [setTargetValue] chooses a target between the bounds whatever the buttons
    and settings are, and [updateValue] with a step size that is not negative
    leaves the current value between the bounds; neither changes the bounds
    or the default, [setTargetValue] leaves the current value alone and
    [updateValue] the target. *)
Theorem wheel_stays_in_range (c : WheelControls) (t : Z) (w : wheelDef) :
  wheelInRange w -> 0 <= stepValue c ->
  wheelInRange (setTargetValue c w)
  /\ wheelInRange (snd (updateValue c t w))
  /\ sameBounds w (setTargetValue c w)
  /\ sameBounds w (snd (updateValue c t w))
  /\ curValue (setTargetValue c w) = curValue w
  /\ targetValue (snd (updateValue c t w)) = targetValue w.
Proof.
  intros Hw Hs.
  destruct (setTargetValue_frame c w) as (Sb & Sc & _).
  destruct (updateValue_frame c t w) as (Ub & Ut).
  pose proof (setTargetValue_target c w Hw) as St.
  destruct (updateValue_step c t w Hw Hs) as (U0 & U1 & U2). cbv zeta in U0, U1, U2.
  pose proof Hw as (H1 & H2 & H3 & H4 & Hd & Hc & Ht).
  split; [|split; [|tauto]].
  - destruct Sb as (Eb1 & Eb2 & Eb3). unfold wheelInRange.
    rewrite Eb1, Eb2, Eb3, Sc. tauto.
  - assert (Hcur : minValue w <= curValue (snd (updateValue c t w)) <= maxValue w).
    { destruct (Z.eq_dec (targetValue w - curValue w) 0) as [E|E];
        [rewrite (U0 E); exact Hc|].
      destruct (Z.lt_ge_cases (u64 (t - timeLastChanged w)) CC_MSG_COOLDOWN_MICROSECONDS)
        as [L|L]; [rewrite (U1 E L); exact Hc|].
      destruct (U2 E L) as (_ & _ & ->).
      destruct (Z.ltb_spec (Z.abs (targetValue w - curValue w)) (stepValue c)); [exact Ht|].
      nia. }
    destruct Ub as (Eb1 & Eb2 & Eb3). unfold wheelInRange.
    rewrite Eb1, Eb2, Eb3, Ut. tauto.
Qed.

Lemma updateValue_inRange (c : WheelControls) (t : Z) (w : wheelDef) :
  wheelInRange w -> 0 <= stepValue c -> wheelInRange (snd (updateValue c t w)).
Proof.
  intros Hw Hs.
  destruct (updateValue_frame c t w) as ((Eb1 & Eb2 & Eb3) & Ut).
  destruct (updateValue_step c t w Hw Hs) as (U0 & U1 & U2). cbv zeta in U0, U1, U2.
  pose proof Hw as (H1 & H2 & H3 & H4 & Hd & Hc & Ht).
  assert (Hcur : minValue w <= curValue (snd (updateValue c t w)) <= maxValue w).
  { destruct (Z.eq_dec (targetValue w - curValue w) 0) as [E|E];
      [rewrite (U0 E); exact Hc|].
    destruct (Z.lt_ge_cases (u64 (t - timeLastChanged w)) CC_MSG_COOLDOWN_MICROSECONDS)
      as [L|L]; [rewrite (U1 E L); exact Hc|].
    destruct (U2 E L) as (_ & _ & ->).
    destruct (Z.ltb_spec (Z.abs (targetValue w - curValue w)) (stepValue c)); [exact Ht|].
    nia. }
  unfold wheelInRange. rewrite Eb1, Eb2, Eb3, Ut. tauto.
Qed.

(** Every pass comes at least one cooldown after the one before. *)
Fixpoint spaced (last : Z) (times : list Z) : Prop :=
  match times with
  | [] => True
  | t :: rest =>
      last + CC_MSG_COOLDOWN_MICROSECONDS <= t < 18446744073709551616 /\ spaced t rest
  end.

Lemma spaced_earlier (last last' : Z) (times : list Z) :
  last' <= last -> spaced last times -> spaced last' times.
Proof. destruct times as [|t rest]; [trivial|]. cbn. intros H (H1 & H2). split; [lia|exact H2]. Qed.

Lemma updateValues_closed_form (c : WheelControls) (times : list Z) (w : wheelDef) :
  wheelInRange w -> 0 < stepValue c ->
  0 <= timeLastChanged w -> spaced (timeLastChanged w) times ->
  let d := targetValue w - curValue w in
  targetValue (updateValues c times w) = targetValue w
  /\ curValue (updateValues c times w)
     = targetValue w
       - Z.sgn d * Z.max 0 (Z.abs d - stepValue c * Z.of_nat (length times)).
Proof.
  intros Hw Hs. revert w Hw. induction times as [|t rest IH]; intros w Hw Hl Hsp; cbv zeta.
  - cbn [updateValues fold_left length]. split; [reflexivity|].
    replace (stepValue c * Z.of_nat 0) with 0 by lia. lia.
  - destruct Hsp as (Ht & Hrest).
    assert (HC : CC_MSG_COOLDOWN_MICROSECONDS = 16667) by reflexivity.
    assert (Hdue : CC_MSG_COOLDOWN_MICROSECONDS <= u64 (t - timeLastChanged w)).
    { unfold u64. rewrite Z.mod_small by lia. lia. }
    destruct (updateValue_frame c t w) as (_ & Ut).
    destruct (updateValue_step c t w Hw ltac:(lia)) as (U0 & _ & U2). cbv zeta in U0, U2.
    pose proof (updateValue_inRange c t w Hw ltac:(lia)) as Hw1.
    change (updateValues c (t :: rest) w)
      with (updateValues c rest (snd (updateValue c t w))).
    set (w1 := snd (updateValue c t w)) in *.
    assert (Hl1 : 0 <= timeLastChanged w1 /\ timeLastChanged w1 <= t).
    { destruct (Z.eq_dec (targetValue w - curValue w) 0) as [E|E].
      - subst w1. rewrite (U0 E). cbn [snd]. lia.
      - destruct (U2 E Hdue) as (_ & -> & _). lia. }
    destruct (IH w1 Hw1 (proj1 Hl1) (spaced_earlier _ _ _ (proj2 Hl1) Hrest)) as (It & Ic).
    cbv zeta in Ic. rewrite It, Ic, Ut. split; [reflexivity|].
    cbn [length]. rewrite Nat2Z.inj_succ.
    set (n := Z.of_nat (length rest)). assert (Hn : 0 <= n) by lia.
    set (step := stepValue c) in *.
    assert (Hsn : 0 <= step * n) by nia.
    replace (step * Z.succ n) with (step * n + step) by lia.
    set (sn := step * n) in *. clearbody sn.
    destruct (Z.eq_dec (targetValue w - curValue w) 0) as [E|E].
    + assert (E1 : curValue w1 = curValue w) by (subst w1; now rewrite (U0 E)).
      rewrite E1, E. cbn [Z.sgn]. lia.
    + destruct (U2 E Hdue) as (_ & _ & Ec). rewrite Ec.
      set (d := targetValue w - curValue w) in *.
      destruct (Z.ltb_spec (Z.abs d) step) as [S|S].
      * replace (targetValue w - targetValue w) with 0 by lia. cbn [Z.sgn].
        replace (Z.max 0 (Z.abs d - (sn + step))) with 0 by lia. lia.
      * destruct (Z.lt_trichotomy d 0) as [N|[Z0|P]]; [|contradiction|].
        -- rewrite (Z.sgn_neg d) by lia.
           replace (targetValue w - (curValue w + step * -1)) with (d + step) by (subst d; lia).
           destruct (Z.eq_dec (d + step) 0) as [Z1|Z1].
           ++ rewrite Z1. cbn [Z.sgn]. lia.
           ++ rewrite (Z.sgn_neg (d + step)) by lia. lia.
        -- rewrite (Z.sgn_pos d) by lia.
           replace (targetValue w - (curValue w + step * 1)) with (d - step) by (subst d; lia).
           destruct (Z.eq_dec (d - step) 0) as [Z1|Z1].
           ++ rewrite Z1. cbn [Z.sgn]. lia.
           ++ rewrite (Z.sgn_pos (d - step)) by lia. lia.
Qed.

(** X26. A wheel moves to its target without overshooting: when the passes
    come at least one message cooldown (16667 microseconds) apart and the
    step size is positive, after [n] passes of [updateValue] the current
    value is [max 0 (|d| - n * step)] short of the target, on the side it
    started from, where [d] is the distance at the start; so it is on the
    target once [n * step] reaches [|d|], and stays there. *)
Theorem wheel_reaches_target (c : WheelControls) (times : list Z) (w : wheelDef) :
  wheelInRange w -> 0 < stepValue c ->
  0 <= timeLastChanged w -> spaced (timeLastChanged w) times ->
  let d := targetValue w - curValue w in
  let n := Z.of_nat (length times) in
  targetValue (updateValues c times w) = targetValue w
  /\ curValue (updateValues c times w)
     = targetValue w - Z.sgn d * Z.max 0 (Z.abs d - stepValue c * n)
  /\ (Z.abs d <= stepValue c * n ->
      curValue (updateValues c times w) = targetValue w).
Proof.
  intros Hw Hs Hl Hsp d n.
  destruct (updateValues_closed_form c times w Hw Hs Hl Hsp) as (Ht & Hc).
  cbv zeta in Hc. fold d n in Hc.
  split; [exact Ht|]. split; [exact Hc|].
  intros Hn. rewrite Hc. replace (Z.max 0 (Z.abs d - stepValue c * n)) with 0 by lia. lia.
Qed.

(** ** The layout vectors of [applyLayout]

    [applyLayout] first turns the two step sizes of the layout, across and
    down-left, by the mirror settings and the rotation, and then gives every
    key its number of steps from middle C. *)

Definition i8 (z : Z) : Z := (z + 128) mod 256 - 128.

(** One pass of the rotation loop. *)
Definition rotateLayout (v : Z * Z) : Z * Z :=
  let '(acrossSteps, dnLeftSteps) := v in
  let keyOffsetY := u8 dnLeftSteps in
  let keyOffsetX := u8 acrossSteps in
  let dnLeftSteps := i8 (keyOffsetX + keyOffsetY) in
  let keyOffsetY := u8 dnLeftSteps in
  let dnLeftSteps := i8 (- acrossSteps) in
  let acrossSteps := i8 keyOffsetY in
  (acrossSteps, dnLeftSteps).

(** The step sizes [(acrossSteps, dnLeftSteps)] that the key loop uses. *)
Definition layoutVectors (mirrorUpDown mirrorLeftRight : bool) (layoutRotation : Z)
    (acrossSteps dnLeftSteps : Z) : Z * Z :=
  let dnLeftSteps :=
    if mirrorUpDown then i8 (- (acrossSteps + dnLeftSteps)) else dnLeftSteps in
  let '(acrossSteps, dnLeftSteps) :=
    if mirrorLeftRight then (i8 (- acrossSteps), i8 (acrossSteps + dnLeftSteps))
    else (acrossSteps, dnLeftSteps) in
  Nat.iter (Z.to_nat layoutRotation) rotateLayout (acrossSteps, dnLeftSteps).


Lemma i8_shift (x k : Z) : i8 (x + 256 * k) = i8 x.
Proof.
  unfold i8. replace (x + 256 * k + 128) with (x + 128 + k * 256) by lia.
  now rewrite Z.mod_add by lia.
Qed.

Lemma i8_wraps (x : Z) : exists k, i8 x = x + 256 * k.
Proof.
  exists (- ((x + 128) / 256)). unfold i8.
  pose proof (Z.div_mod (x + 128) 256 ltac:(lia)). lia.
Qed.

Lemma u8_wraps (x : Z) : exists k, u8 x = x + 256 * k.
Proof.
  exists (- (x / 256)). unfold u8. pose proof (Z.div_mod x 256 ltac:(lia)). lia.
Qed.

Lemma i8_small (x : Z) : -128 <= x <= 127 -> i8 x = x.
Proof. intros H. unfold i8. rewrite Z.mod_small by lia. lia. Qed.

Lemma i8_bounds (x : Z) : -128 <= i8 x <= 127.
Proof. unfold i8. pose proof (Z.mod_pos_bound (x + 128) 256 ltac:(lia)). lia. Qed.

Lemma i8_idem (x : Z) : i8 (i8 x) = i8 x.
Proof. apply i8_small, i8_bounds. Qed.

Lemma i8_add (x y : Z) : i8 (i8 x + i8 y) = i8 (x + y).
Proof.
  destruct (i8_wraps x) as [k ->]. destruct (i8_wraps y) as [l ->].
  replace (x + 256 * k + (y + 256 * l)) with (x + y + 256 * (k + l)) by lia.
  apply i8_shift.
Qed.

Lemma i8_opp (x : Z) : i8 (- i8 x) = i8 (- x).
Proof.
  destruct (i8_wraps x) as [k ->].
  replace (- (x + 256 * k)) with (- x + 256 * (- k)) by lia. apply i8_shift.
Qed.

Lemma rotateLayout_eq (a d : Z) : rotateLayout (a, d) = (i8 (a + d), i8 (- a)).
Proof.
  unfold rotateLayout. f_equal.
  destruct (u8_wraps a) as [k ->]. destruct (u8_wraps d) as [l ->].
  replace (a + 256 * k + (d + 256 * l)) with (a + d + 256 * (k + l)) by lia.
  rewrite i8_shift. destruct (u8_wraps (i8 (a + d))) as [m ->].
  rewrite i8_shift. apply i8_small, i8_bounds.
Qed.

Lemma rotateLayout_wrapped (a d : Z) :
  rotateLayout (i8 a, i8 d) = (i8 (a + d), i8 (- a)).
Proof. now rewrite rotateLayout_eq, i8_add, i8_opp. Qed.

Lemma rotateLayout_3 (a d : Z) :
  Nat.iter 3 rotateLayout (a, d) = (i8 (- a), i8 (- d)).
Proof.
  cbn [Nat.iter nat_rect]. rewrite rotateLayout_eq, !rotateLayout_wrapped.
  f_equal; f_equal; lia.
Qed.

Lemma rotateLayout_6 (a d : Z) :
  Nat.iter 6 rotateLayout (a, d) = (i8 a, i8 d).
Proof.
  change 6%nat with (3 + 3)%nat. rewrite Nat.iter_add, !rotateLayout_3, !i8_opp.
  f_equal; f_equal; lia.
Qed.

(** X27. The rotation of [applyLayout] turns the two step sizes by a sixth of
    a turn, [(across, dnLeft)] to [(across + dnLeft, - across)]: six
    rotations more give the same step sizes, and mirroring both ways gives
    the same step sizes as three rotations more. *)
Theorem layout_rotation_cycle (mirrorUpDown mirrorLeftRight : bool)
    (layoutRotation acrossSteps dnLeftSteps : Z) :
  -128 <= acrossSteps <= 127 -> -128 <= dnLeftSteps <= 127 -> 0 <= layoutRotation ->
  layoutVectors false false 1 acrossSteps dnLeftSteps
    = (i8 (acrossSteps + dnLeftSteps), i8 (- acrossSteps))
  /\ layoutVectors mirrorUpDown mirrorLeftRight (layoutRotation + 6) acrossSteps dnLeftSteps
     = layoutVectors mirrorUpDown mirrorLeftRight layoutRotation acrossSteps dnLeftSteps
  /\ layoutVectors true true layoutRotation acrossSteps dnLeftSteps
     = layoutVectors false false (layoutRotation + 3) acrossSteps dnLeftSteps.
Proof.
  intros Ha Hd Hr. split; [apply rotateLayout_eq|]. split.
  - unfold layoutVectors.
    replace (Z.to_nat (layoutRotation + 6)) with (Z.to_nat layoutRotation + 6)%nat by lia.
    destruct mirrorUpDown, mirrorLeftRight; cbv zeta iota beta;
      rewrite Nat.iter_add, rotateLayout_6,
        ?i8_idem, ?(i8_small acrossSteps Ha), ?(i8_small dnLeftSteps Hd); reflexivity.
  - unfold layoutVectors. cbv zeta iota beta.
    replace (Z.to_nat (layoutRotation + 3)) with (Z.to_nat layoutRotation + 3)%nat by lia.
    rewrite Nat.iter_add, rotateLayout_3. do 2 f_equal.
    destruct (i8_wraps (- (acrossSteps + dnLeftSteps))) as [k ->].
    replace (acrossSteps + (- (acrossSteps + dnLeftSteps) + 256 * k))
      with (- dnLeftSteps + 256 * k) by lia.
    apply i8_shift.
Qed.

















(** ** Release retries *)

(** One pass of [retryPendingReleases] on the fields of one voice index. *)
Definition retryVoice (v : Voice) : Voice :=
  let retries := releaseRetries v in
  if retries =? 0 then v
  else if negb (channelInUse v) then set_retryCountdown 0 (set_retries 0 v)
  else if 0 <? releaseRetryCountdown v then
    set_retryCountdown (u8 (releaseRetryCountdown v - 1)) v
  else
    set_retries (u8 (retries - 1))
      (set_retryCountdown releaseRetryDelayLoops (set_command StartRelease v)).

Lemma set_voices_same (s : State) : set_voices (voices s) s = s.
Proof. now destruct s. Qed.

Lemma retryPendingRelease1_eq (s : State) (i : Z) :
  0 <= i -> retryPendingRelease1 s i = updVoice i retryVoice s.
Proof.
  intros Hi. unfold retryPendingRelease1, updVoice, voice. cbv zeta.
  destruct (Z.ltb_spec i 0); [lia|].
  destruct (voices s !! Z.to_nat i) as [v|] eqn:E; cbn [default from_option Datatypes.id].
  - assert (Hext : forall f, f v = retryVoice v ->
              alter f (Z.to_nat i) (voices s) = alter retryVoice (Z.to_nat i) (voices s)).
    { intros f Hf. apply list_alter_ext; [|reflexivity].
      intros w Hw. rewrite E in Hw. injection Hw as <-. exact Hf. }
    destruct (releaseRetries v =? 0) eqn:R; cbv iota.
    + rewrite <- (Hext (fun w => w)) by (unfold retryVoice; now rewrite R).
      rewrite list_alter_id by reflexivity. symmetry. apply set_voices_same.
    + destruct (negb (channelInUse v)) eqn:U; cbv iota.
      * rewrite <- (Hext (fun w => set_retryCountdown 0 (set_retries 0 w)))
          by (unfold retryVoice; now rewrite R, U).
        reflexivity.
      * destruct (0 <? releaseRetryCountdown v) eqn:C; cbv iota.
        -- rewrite <- (Hext (fun w => set_retryCountdown (u8 (releaseRetryCountdown w - 1)) w))
             by (unfold retryVoice; now rewrite R, U, C).
           reflexivity.
        -- rewrite <- (Hext (fun w => set_retries (u8 (releaseRetries v - 1))
                                       (set_retryCountdown releaseRetryDelayLoops
                                          (set_command StartRelease w))))
             by (unfold retryVoice; now rewrite R, U, C).
           reflexivity.
  - change (releaseRetries freshVoice =? 0) with true. cbv iota.
    rewrite (list_alter_ext retryVoice (fun w => w) _ (voices s));
      [|intros w Hw; rewrite E in Hw; discriminate|reflexivity].
    rewrite list_alter_id by reflexivity. symmetry. apply set_voices_same.
Qed.

Lemma fold_left_ext_in {A B : Type} (f g : A -> B -> A) (P : B -> Prop) (l : list B) (a : A) :
  (forall a b, P b -> f a b = g a b) -> Forall P l -> fold_left f l a = fold_left g l a.
Proof.
  intros Hfg. revert a. induction l as [|b l IH]; intros a Hl; [reflexivity|].
  apply Forall_cons in Hl as (Hb & Hl). cbn [fold_left]. rewrite Hfg by exact Hb.
  apply IH, Hl.
Qed.

Lemma retryPendingReleases_eq (s : State) :
  (length (voices s) <= Z.to_nat POLYPHONY_LIMIT)%nat ->
  retryPendingReleases s = set_voices (map retryVoice (voices s)) s.
Proof.
  intros Hlen. unfold retryPendingReleases.
  rewrite (fold_left_ext_in _ (fun s i => updVoice i retryVoice s) (fun i => 0 <= i));
    [|intros; now apply retryPendingRelease1_eq|apply seqZ_nonneg].
  rewrite (fold_updVoice _ _ _ (seqZ_nonneg _)).
  now rewrite fold_alter_all by exact Hlen.
Qed.

Lemma retryPendingReleases_iter (n : nat) (s : State) :
  (length (voices s) <= Z.to_nat POLYPHONY_LIMIT)%nat ->
  Nat.iter n retryPendingReleases s = set_voices (map (Nat.iter n retryVoice) (voices s)) s.
Proof.
  intros Hlen. induction n as [|n IH].
  - cbn [Nat.iter nat_rect]. rewrite map_id. symmetry. apply set_voices_same.
  - change (Nat.iter (S n) retryPendingReleases s)
      with (retryPendingReleases (Nat.iter n retryPendingReleases s)).
    rewrite IH, retryPendingReleases_eq
      by (cbn [voices set_voices]; now rewrite length_map).
    cbn [voices set_voices]. rewrite map_map. now destruct s.
Qed.

(** The counters are bytes. *)
Definition retryCounters (v : Voice) : Prop :=
  0 <= releaseRetries v <= 255 /\ 0 <= releaseRetryCountdown v <= 255.

(** The passes that a voice can still be touched in. *)
Definition retryBudget (v : Voice) : Z :=
  if releaseRetries v =? 0 then 0
  else (releaseRetryDelayLoops + 1) * releaseRetries v + releaseRetryCountdown v.

(** What the retry loop leaves alone in a voice. *)
Definition retryFrame (v v' : Voice) : Prop :=
  env_level v' = env_level v /\ env_releaseIncrement v' = env_releaseIncrement v
  /\ env_stage v' = env_stage v /\ channelInUse v' = channelInUse v
  /\ envelopeNeedsFree v' = envelopeNeedsFree v /\ voiceGeneration v' = voiceGeneration v
  /\ synthChannelOwner v' = synthChannelOwner v /\ osc_increment v' = osc_increment v
  /\ osc_counter v' = osc_counter v
  /\ (envelopeCommand v' = envelopeCommand v \/ envelopeCommand v' = StartRelease)
  /\ releaseRetries v' <= releaseRetries v.

Lemma retryVoice_step (v : Voice) :
  retryCounters v ->
  retryCounters (retryVoice v)
  /\ retryFrame v (retryVoice v)
  /\ retryBudget (retryVoice v) <= Z.max 0 (retryBudget v - 1)
  /\ (releaseRetries v = 0 -> retryVoice v = v).
Proof.
  intros (Hr & Hc). unfold retryVoice, retryBudget, retryCounters, retryFrame. cbv zeta.
  change (releaseRetryDelayLoops + 1) with 3.
  destruct (Z.eqb_spec (releaseRetries v) 0) as [E|E].
  { rewrite E. cbn. repeat split; try lia; tauto. }
  destruct (channelInUse v) eqn:U; cbn [negb].
  - destruct (Z.ltb_spec 0 (releaseRetryCountdown v)) as [L|L].
    + assert (Hu : u8 (releaseRetryCountdown v - 1) = releaseRetryCountdown v - 1)
        by (unfold u8; apply Z.mod_small; lia).
      cbn. rewrite Hu, U. destruct (Z.eqb_spec (releaseRetries v) 0); [contradiction|].
      repeat split; try lia; tauto.
    + assert (Hu : u8 (releaseRetries v - 1) = releaseRetries v - 1)
        by (unfold u8; apply Z.mod_small; lia).
      cbn. rewrite Hu, U. change releaseRetryDelayLoops with 2.
      destruct (Z.eqb_spec (releaseRetries v - 1) 0); repeat split; try lia; tauto.
  - cbn. rewrite U. repeat split; try lia; tauto.
Qed.

Lemma retryFrame_trans (u v w : Voice) : retryFrame u v -> retryFrame v w -> retryFrame u w.
Proof.
  unfold retryFrame.
  intros (A1 & A2 & A3 & A4 & A5 & A6 & A7 & A8 & A9 & A10 & A11)
         (B1 & B2 & B3 & B4 & B5 & B6 & B7 & B8 & B9 & B10 & B11).
  repeat split; try congruence; try lia.
  destruct B10 as [B10|B10]; [rewrite B10; exact A10|right; exact B10].
Qed.

Lemma retryVoice_iter (n : nat) (v : Voice) :
  retryCounters v ->
  retryCounters (Nat.iter n retryVoice v)
  /\ retryFrame v (Nat.iter n retryVoice v)
  /\ retryBudget (Nat.iter n retryVoice v) <= Z.max 0 (retryBudget v - Z.of_nat n).
Proof.
  intros Hv. induction n as [|n (IH1 & IH2 & IH3)].
  - cbn [Nat.iter nat_rect]. split; [exact Hv|]. split; [|lia].
    unfold retryFrame. repeat split; try lia; tauto.
  - change (Nat.iter (S n) retryVoice v) with (retryVoice (Nat.iter n retryVoice v)).
    destruct (retryVoice_step _ IH1) as (S1 & S2 & S3 & _).
    split; [exact S1|]. split; [exact (retryFrame_trans _ _ _ IH2 S2)|]. lia.
Qed.

Lemma retryBudget_zero (v : Voice) :
  retryCounters v -> retryBudget v <= 0 -> releaseRetries v = 0.
Proof.
  intros (Hr & Hc). unfold retryBudget. change (releaseRetryDelayLoops + 1) with 3.
  destruct (Z.eqb_spec (releaseRetries v) 0); lia.
Qed.

(** X30. The release retries die out: [retryPendingReleases] only ever
    writes a voice's retry counters and a StartRelease command, never raises
    the retry counter, and leaves a voice with no retries alone; after [n]
    passes, with [n] at least three times the retries plus the countdown of
    every voice, no voice has a retry left and a further pass changes
    nothing.  The keys and the free-list are never touched. *)
Theorem release_retries_die_out (s : State) (n : nat) :
  (length (voices s) <= Z.to_nat POLYPHONY_LIMIT)%nat ->
  Forall retryCounters (voices s) ->
  Forall (fun v => retryBudget v <= Z.of_nat n) (voices s) ->
  let s' := Nat.iter n retryPendingReleases s in
  Forall (fun v => releaseRetries v = 0) (voices s')
  /\ retryPendingReleases s' = s'
  /\ Forall2 retryFrame (voices s) (voices s')
  /\ h s' = h s /\ synthChQueue s' = synthChQueue s.
Proof.
  intros Hlen Hcnt Hbud s'.
  assert (Hs' : s' = set_voices (map (Nat.iter n retryVoice) (voices s)) s)
    by (apply retryPendingReleases_iter, Hlen).
  assert (Hv : voices s' = map (Nat.iter n retryVoice) (voices s)) by now rewrite Hs'.
  assert (Hzero : Forall (fun v => retryCounters v /\ releaseRetries v = 0) (voices s')).
  { rewrite Hv. apply Forall_forall. intros w Hw.
    apply list_elem_of_In, in_map_iff in Hw as (v & <- & Hin).
    apply list_elem_of_In in Hin.
    pose proof (proj1 (Forall_forall _ _) Hcnt v Hin) as Hc.
    pose proof (proj1 (Forall_forall _ _) Hbud v Hin) as Hb. cbv beta in Hb.
    destruct (retryVoice_iter n v Hc) as (I1 & _ & I3).
    split; [exact I1|]. apply retryBudget_zero; [exact I1|lia]. }
  split; [eapply Forall_impl; [exact Hzero|]; intros v Hvz; apply Hvz|].
  split; [|split; [|split; [now rewrite Hs'|now rewrite Hs']]].
  - rewrite retryPendingReleases_eq by (rewrite Hv, length_map; exact Hlen).
    assert (Hm : map retryVoice (voices s') = voices s').
    { rewrite <- (map_id (voices s')) at 2. apply map_ext_Forall.
      eapply Forall_impl; [exact Hzero|]. intros v (Hc & Hz). cbv beta.
      destruct (retryVoice_step v Hc) as (_ & _ & _ & Hid). exact (Hid Hz). }
    rewrite Hm. apply set_voices_same.
  - rewrite Hv. clear Hv Hs' Hzero Hbud Hlen.
    induction (voices s) as [|v vs IH]; [constructor|].
    apply Forall_cons in Hcnt as (Hc & Hcnt). cbn [map]. constructor; [|exact (IH Hcnt)].
    apply (retryVoice_iter n v Hc).
Qed.

(** * Further worked examples *)

Lemma positiveMod_is_floor_mod_example :
  positiveMod (-7) 3 = (-7) mod 3 /\ 0 <= positiveMod (-7) 3 < 3
  /\ positiveMod 1073741824 1073741825 = -1073741822.
Proof. apply (positiveMod_is_floor_mod (-7) 3). lia. Defined.

(** Default channel 3, lowest key at index -200 (two channels below the
    plain note range), a key at index 300. *)
Lemma lowest_key_on_default_channel_example :
  (mapExtendedMidiNote (-200) (standardMidiBaseChannelFor 3 (-200))).2 = 3
  /\ (mapExtendedMidiNote 300 (standardMidiBaseChannelFor 3 (-200))).2
     = (3 - 1 + (300 / 128 - -200 / 128)) mod 16 + 1.
Proof. apply (lowest_key_on_default_channel 3 (-200) 300). lia. Defined.

Lemma applyLEDLevel_scales_example :
  0 <= applyLEDLevel 200 64 <= 200
  /\ applyLEDLevel 200 64 <= applyLEDLevel 200 128
  /\ applyLEDLevel 200 255 = 200
  /\ applyLEDLevel 200 0 = 0.
Proof. apply (applyLEDLevel_scales 200 64 128); lia. Defined.

Lemma pbWheelSpeed_round_trip_example :
  encodePbWheelSpeed 1500 = Z.max 7 (Z.log2 1500)
  /\ encodePbWheelSpeed (- 1500) = 10
  /\ 128 <= pbWheelSpeedFromSetting 200 <= 16384
  /\ encodePbWheelSpeed (2 ^ 10) = 10
  /\ pbWheelSpeedFromSetting (encodePbWheelSpeed (2 ^ 10)) = 2 ^ 10
  /\ encodePbWheelSpeed 0 = 10.
Proof. apply (pbWheelSpeed_round_trip 1500 200 10); lia. Defined.

Lemma interpBtnPress_two_samples_example :
  interpBtnPress true (interpBtnPress false 3) = BTN_STATE_NEWPRESS.
Proof. apply (interpBtnPress_two_samples 3 false true). lia. Defined.

Lemma resetMPEChannelPool_refills_example :
  mpeAvailableChannels (resetMPEChannelPool idleBoard)
  = seqZ (mpeLowestChannel idleBoard)
      (mpeHighestChannel idleBoard - mpeLowestChannel idleBoard + 1)
  /\ length (mpeAvailableChannels (resetMPEChannelPool idleBoard))
     = Z.to_nat (mpeHighestChannel idleBoard - mpeLowestChannel idleBoard + 1)
  /\ NoDup (mpeAvailableChannels (resetMPEChannelPool idleBoard))
  /\ heldChannels (resetMPEChannelPool idleBoard) = heldChannels idleBoard
  /\ midiOut (resetMPEChannelPool idleBoard) = midiOut idleBoard.
Proof. apply (resetMPEChannelPool_refills idleBoard). concrete. Defined.

(** A board in low-priority mode on which keys 0, 1 and 2 took the channels
    2, 3 and 4 and key 1 was released: channel 3 is back in the pool, in
    front of the channels 5 to 16. *)
Definition lowPriorityIdle : State :=
  mkState (mkSettings MPE_MODE_FORCE false true 1 0 3 48 false false 100 SYNTH_POLY true false)
    exampleKeys [] false 2 16 255 false []
    (updateEnvelopeParamsFromSettings exampleEnvelope).2
    (replicate 8 freshVoice) [1; 2; 3; 4; 5; 6; 7; 8] 1 UNUSED_NOTE [] [].

Definition lowPriorityBoard : State :=
  tryMIDInoteOff 1
    (tryMIDInoteOn noRetune 2
       (tryMIDInoteOn noRetune 1 (tryMIDInoteOn noRetune 0 (resetTuningMIDI lowPriorityIdle)))).

Lemma lowPriorityBoard_trace : poolTrace noRetune fixedIncrement lowPriorityBoard.
Proof.
  unfold lowPriorityBoard.
  apply trace_noteOff; [|concrete|concrete].
  apply trace_noteOn; [|concrete|concrete].
  apply trace_noteOn; [|concrete|concrete].
  apply trace_noteOn; [|concrete|concrete].
  apply trace_rebuild; concrete.
Qed.

Lemma low_priority_takes_lowest_channel_example :
  ascending (mpeAvailableChannels lowPriorityBoard) = true
  /\ In 3 (mpeAvailableChannels lowPriorityBoard)
  /\ Forall (fun c' => 3 <= c') (mpeAvailableChannels lowPriorityBoard).
Proof.
  apply (low_priority_takes_lowest_channel noRetune fixedIncrement lowPriorityBoard 5 3).
  - exact lowPriorityBoard_trace.
  - reflexivity.
  - lia.
  - concrete.
  - reflexivity.
  - vm_compute. reflexivity.
  - discriminate.
Defined.

(** A board with MPE disabled in a twelve-tone tuning. *)
Definition plainBoard : State :=
  resetTuningMIDI
    (mkState (mkSettings MPE_MODE_DISABLE false false 1 0 3 48 false false 100 SYNTH_POLY true false)
       exampleKeys [] false 2 16 255 false []
       (updateEnvelopeParamsFromSettings exampleEnvelope).2
       (replicate 8 freshVoice) [1; 2; 3; 4; 5; 6; 7; 8] 1 UNUSED_NOTE [] []).

Lemma plain_midi_note_on_example :
  let channel :=
    if standardMidiMicrotonalActive plainBoard
       && negb (mappedMidiChannel (hkey plainBoard 20) =? 0)
    then mappedMidiChannel (hkey plainBoard 20) else defaultMidiChannel (cfg plainBoard) in
  MIDIch (hkey (tryMIDInoteOn noRetune 20 plainBoard) 20) = channel
  /\ midiOut (tryMIDInoteOn noRetune 20 plainBoard)
     = midiOut plainBoard
       ++ onTransports (midiD (cfg plainBoard))
            [NoteOn (note (hkey plainBoard 20)) (velWheel_curValue (cfg plainBoard)) channel]
  /\ mpeAvailableChannels (tryMIDInoteOn noRetune 20 plainBoard)
     = mpeAvailableChannels plainBoard
  /\ pressedKeyIDs (tryMIDInoteOn noRetune 20 plainBoard) = pressedKeyIDs plainBoard ++ [20].
Proof. apply (plain_midi_note_on noRetune plainBoard 20); concrete. Defined.

Lemma mpe_note_on_traffic_example :
  exists pitchBendValue,
    -8192 <= pitchBendValue <= 8191
    /\ midiOut (tryMIDInoteOn noRetune 20 readyBoard)
       = midiOut readyBoard
         ++ onTransports (midiD (cfg readyBoard)) [PitchBend pitchBendValue 2]
         ++ (if extraMPE (cfg readyBoard)
             then onTransports (midiD (cfg readyBoard))
                    [AfterTouch (velWheel_curValue (cfg readyBoard)) 2;
                     ControlChange 74 (CC74value (cfg readyBoard)) 2]
             else [])
         ++ onTransports (midiD (cfg readyBoard))
              [NoteOn (note (hkey readyBoard 20)) (velWheel_curValue (cfg readyBoard)) 2]
    /\ MIDIch (hkey (tryMIDInoteOn noRetune 20 readyBoard) 20) = 2
    /\ 2 <= mpeLowestChannel readyBoard <= 2 /\ 2 <= mpeHighestChannel readyBoard <= 16.
Proof.
  apply (mpe_note_on_traffic noRetune fixedIncrement readyBoard 20 2 (seqZ 3 14)).
  - exact readyBoard_trace.
  - lia.
  - concrete.
  - concrete.
  - reflexivity.
  - reflexivity.
Defined.

(** Key 20 of the ready board, sounding on channel 2, is released. *)
Lemma note_off_traffic_example :
  midiOut (tryMIDInoteOff 20 (tryMIDInoteOn noRetune 20 readyBoard))
  = midiOut (tryMIDInoteOn noRetune 20 readyBoard)
    ++ onTransports (midiD (cfg (tryMIDInoteOn noRetune 20 readyBoard)))
         [NoteOff (note (hkey (tryMIDInoteOn noRetune 20 readyBoard) 20))
            (velWheel_curValue (cfg (tryMIDInoteOn noRetune 20 readyBoard))) 2]
    ++ (if mpeChannelQueueActive (tryMIDInoteOn noRetune 20 readyBoard)
           && (mpeLowestChannel (tryMIDInoteOn noRetune 20 readyBoard) <=? 2)
           && (2 <=? mpeHighestChannel (tryMIDInoteOn noRetune 20 readyBoard))
           && extraMPE (cfg (tryMIDInoteOn noRetune 20 readyBoard))
        then onTransports (midiD (cfg (tryMIDInoteOn noRetune 20 readyBoard)))
               [AfterTouch 0 2;
                ControlChange 74 (CC74value (cfg (tryMIDInoteOn noRetune 20 readyBoard))) 2]
        else [])
  /\ MIDIch (hkey (tryMIDInoteOff 20 (tryMIDInoteOn noRetune 20 readyBoard)) 20) = 0
  /\ jiRetune (hkey (tryMIDInoteOff 20 (tryMIDInoteOn noRetune 20 readyBoard)) 20) = 0.
Proof.
  apply (note_off_traffic (tryMIDInoteOn noRetune 20 readyBoard) 20 2).
  - lia.
  - concrete.
  - reflexivity.
  - discriminate.
Defined.

(** Every key from 0 to 7 was pressed and released, and its release was seen
    a second time before the audio core ran: all eight voices are still in
    use and none has an owner.  Debug messages are on. *)
Definition allOrphanBoard : State :=
  fold_left
    (fun s k => trySynthNoteOff fixedIncrement k
                  (trySynthNoteOff fixedIncrement k (trySynthNoteOn fixedIncrement k s)))
    (seqZ 0 8) (resetTuningMIDI debugIdleBoard).

Lemma note_on_without_voice_is_dropped_example :
  trySynthNoteOn fixedIncrement 30 allOrphanBoard
  = sendToLog "synth channels all firing, so did not add one"
      (processEnvelopeReleases allOrphanBoard)
  /\ logOut (trySynthNoteOn fixedIncrement 30 allOrphanBoard)
     = (if debugMessages (cfg allOrphanBoard)
        then logOut allOrphanBoard ++ ["synth channels all firing, so did not add one"%string]
        else logOut allOrphanBoard)
  /\ (debugMessages (cfg allOrphanBoard) = false ->
      trySynthNoteOn fixedIncrement 30 allOrphanBoard = processEnvelopeReleases allOrphanBoard).
Proof.
  apply (note_on_without_voice_is_dropped fixedIncrement allOrphanBoard 30).
  - reflexivity.
  - reflexivity.
  - intros i Hi.
    assert (Hcases : i = 0 \/ i = 1 \/ i = 2 \/ i = 3 \/ i = 4 \/ i = 5 \/ i = 6 \/ i = 7)
      by (unfold POLYPHONY_LIMIT in Hi; lia).
    repeat (destruct Hcases as [->|Hcases]; [reflexivity|]). subst i. reflexivity.
Defined.

Lemma note_on_pops_free_list_example :
  let s' := trySynthNoteOn fixedIncrement 20 readyBoard in
  synthChQueue s' = [2; 3; 4; 5; 6; 7; 8]
  /\ synthCh (hkey s' 20) = 1
  /\ synthChannelOwner (voice s' (1 - 1)) = 20
  /\ voiceGeneration (voice s' (1 - 1)) = nextVoiceGeneration readyBoard
  /\ nextVoiceGeneration s' = u32 (nextVoiceGeneration readyBoard + 1)
  /\ channelInUse (voice s' (1 - 1)) = true
  /\ envelopeNeedsFree (voice s' (1 - 1)) = false
  /\ envelopeCommand (voice s' (1 - 1)) = StartAttack
  /\ (forall j, 0 <= j -> j <> 1 - 1 ->
                voice s' j = voice (processEnvelopeReleases readyBoard) j).
Proof.
  apply (note_on_pops_free_list fixedIncrement readyBoard 20 1 [2; 3; 4; 5; 6; 7; 8]);
    concrete.
Defined.

(** The sounding voice has run out its release: the drain frees it. *)
Lemma drain_is_idempotent_example :
  processEnvelopeReleases
    (processEnvelopeReleases (pollN 300 (beginEnvelopeRelease 0 soundingBoard)))
  = processEnvelopeReleases (pollN 300 (beginEnvelopeRelease 0 soundingBoard))
  /\ Forall (fun v => envelopeNeedsFree v = false)
       (voices (processEnvelopeReleases (pollN 300 (beginEnvelopeRelease 0 soundingBoard))))
  /\ (forall i v,
        voices (pollN 300 (beginEnvelopeRelease 0 soundingBoard)) !! i = Some v ->
        voices (processEnvelopeReleases (pollN 300 (beginEnvelopeRelease 0 soundingBoard))) !! i
        = Some (if envelopeNeedsFree v
                then set_retryCountdown 0
                       (set_retries 0
                          (set_owner NO_SYNTH_OWNER
                             (set_generation 0 (set_inUse false (set_needsFree false v)))))
                else v)).
Proof.
  apply (drain_is_idempotent (pollN 300 (beginEnvelopeRelease 0 soundingBoard))). concrete.
Defined.

Lemma synthCh_all_zero (s : State) :
  Forall (fun key => synthCh key = 0) (h s) -> forall k, synthCh (hkey s k) = 0.
Proof.
  intros Hall k. unfold hkey. destruct (h s !! Z.to_nat k) as [key|] eqn:E; [|reflexivity].
  exact (Forall_lookup_1 _ _ _ _ Hall E).
Qed.

Lemma idleBoard_monoInv : monoInv idleBoard.
Proof.
  intros k _ Hk. exfalso. apply Hk. apply synthCh_all_zero.
  vm_compute. repeat constructor.
Qed.

(** No key is sounding; the mono voice is given key 5. *)
Lemma mono_voice_follows_one_key_example :
  let s' := replaceMonoSynthWith fixedIncrement 5 idleBoard in
  monoInv s'
  /\ arpeggiatingNow s' = 5
  /\ (arpeggiatingNow idleBoard = 5 -> s' = idleBoard)
  /\ (arpeggiatingNow idleBoard <> 5 -> 5 <> UNUSED_NOTE ->
      synthCh (hkey s' 5) = 1
      /\ synthChannelOwner (voice s' 0) = 5
      /\ voiceGeneration (voice s' 0) = nextVoiceGeneration idleBoard
      /\ nextVoiceGeneration s' = u32 (nextVoiceGeneration idleBoard + 1)
      /\ channelInUse (voice s' 0) = true
      /\ envelopeCommand (voice s' 0) = StartAttack)
  /\ (arpeggiatingNow idleBoard <> 5 -> 5 = UNUSED_NOTE ->
      synthChannelOwner (voice s' 0) = NO_SYNTH_OWNER
      /\ envelopeCommand (voice s' 0) = StartRelease
      /\ forall k, 0 <= k -> synthCh (hkey s' k) = 0).
Proof.
  apply (mono_voice_follows_one_key fixedIncrement idleBoard 5).
  - exact idleBoard_monoInv.
  - left. unfold BTN_COUNT, COLCOUNT, ROWCOUNT. lia.
  - right. reflexivity.
  - reflexivity.
  - concrete.
Defined.

(** Key 0 was pressed and released: its voice is still in use and owned by
    the key, which has no synth channel any more. *)
Definition releasedBoard : State :=
  trySynthNoteOff fixedIncrement 0 (trySynthNoteOn fixedIncrement 0 readyBoard).

Lemma note_off_falls_back_to_owner_example :
  voice (trySynthNoteOff fixedIncrement 0 releasedBoard) 0
  = set_command StartRelease
      (set_retryCountdown 0
         (set_retries releaseRetryLimit (set_owner NO_SYNTH_OWNER (voice releasedBoard 0))))
  /\ (forall j, 0 <= j -> j <> 0 ->
        voice (trySynthNoteOff fixedIncrement 0 releasedBoard) j = voice releasedBoard j)
  /\ h (trySynthNoteOff fixedIncrement 0 releasedBoard) = h releasedBoard
  /\ synthChQueue (trySynthNoteOff fixedIncrement 0 releasedBoard) = synthChQueue releasedBoard.
Proof.
  destruct (note_off_falls_back_to_owner fixedIncrement releasedBoard 0) as (_ & H).
  - reflexivity.
  - reflexivity.
  - reflexivity.
  - apply (H 0); [unfold POLYPHONY_LIMIT; lia|reflexivity|intros j Hj; lia].
Defined.

(** Attack index 3, decay index 12 and release index 200 (both beyond the
    table), sustain 100. *)
Lemma envelope_params_from_settings_example :
  let e' := fst (updateEnvelopeParamsFromSettings (mkEnvelopeSettings 3 12 100 200)) in
  let p := snd (updateEnvelopeParamsFromSettings (mkEnvelopeSettings 3 12 100 200)) in
  e' = mkEnvelopeSettings (Z.min 9 3) (Z.min 9 12) 100 (Z.min 9 200)
  /\ sustainLevel p = Z.min 127 100 * envelopeMaxLevel / 127
  /\ (envelopeMaxLevel <= sustainLevel p <-> 127 <= 100)
  /\ POLL_INTERVAL_IN_MICROSECONDS * (attackTicks p - 1)
       < envelopeTimeMicros (envelopeAttackIndex e')
       <= POLL_INTERVAL_IN_MICROSECONDS * attackTicks p
  /\ POLL_INTERVAL_IN_MICROSECONDS * (decayTicks p - 1)
       < envelopeTimeMicros (envelopeDecayIndex e')
       <= POLL_INTERVAL_IN_MICROSECONDS * decayTicks p
  /\ POLL_INTERVAL_IN_MICROSECONDS * (releaseTicks p - 1)
       < envelopeTimeMicros (envelopeReleaseIndex e')
       <= POLL_INTERVAL_IN_MICROSECONDS * releaseTicks p
  /\ paramsInRange p
  /\ envelopeMaxLevel <= Z.max 1 (attackTicks p) * attackIncrement p
  /\ envelopeMaxLevel - sustainLevel p <= Z.max 1 (decayTicks p) * decayIncrement p
  /\ updateEnvelopeParamsFromSettings e' = (e', p).
Proof.
  apply (envelope_params_from_settings (mkEnvelopeSettings 3 12 100 200)); cbn; lia.
Defined.

Lemma soundingBoard_levels :
  Forall levelInRange (voices (beginEnvelopeRelease 0 soundingBoard)).
Proof.
  unfold levelInRange. vm_compute.
  repeat constructor; try discriminate; intros H; discriminate H.
Qed.

Lemma poll_keeps_levels_in_range_example :
  Forall levelInRange (voices (pollN 5 (beginEnvelopeRelease 0 soundingBoard)))
  /\ envelopeParams (pollN 5 (beginEnvelopeRelease 0 soundingBoard))
     = envelopeParams (beginEnvelopeRelease 0 soundingBoard)
  /\ length (voices (pollN 5 (beginEnvelopeRelease 0 soundingBoard)))
     = length (voices (beginEnvelopeRelease 0 soundingBoard)).
Proof.
  apply (poll_keeps_levels_in_range (beginEnvelopeRelease 0 soundingBoard) 5).
  - unfold paramsInRange. vm_compute. repeat split; discriminate.
  - exact soundingBoard_levels.
Defined.

Lemma reset_then_tick_gives_fresh_voices_example :
  let s' := poll (resetSynthFreqs fullBoard) in
  voices s' = replicate (Z.to_nat POLYPHONY_LIMIT) freshVoice
  /\ nextVoiceGeneration s' = 1
  /\ synthChQueue s'
     = (if playbackMode (cfg fullBoard) =? SYNTH_POLY then seqZ 1 POLYPHONY_LIMIT else [])
  /\ h s' = map (set_synthCh 0) (h fullBoard)
  /\ (forall k, synthCh (hkey s' k) = 0)
  /\ midiOut s' = midiOut fullBoard
  /\ mpeAvailableChannels s' = mpeAvailableChannels fullBoard.
Proof. apply (reset_then_tick_gives_fresh_voices fullBoard); concrete. Defined.

(** The pitch-bend wheel at rest with the top button held: the target is the
    upper bound, and eight passes at the default speed reach it. *)
Definition pbWheelControls : WheelControls := mkWheelControls 0 0 3 0 0 1024.
Definition pbWheelAtRest : wheelDef := mkWheelDef (-8192) 8191 0 0 0 0.

Lemma pbWheelAtRest_inRange : wheelInRange pbWheelAtRest.
Proof. unfold wheelInRange. cbn. lia. Qed.

Lemma wheel_stays_in_range_example :
  wheelInRange (setTargetValue pbWheelControls pbWheelAtRest)
  /\ wheelInRange (snd (updateValue pbWheelControls 20000 pbWheelAtRest))
  /\ sameBounds pbWheelAtRest (setTargetValue pbWheelControls pbWheelAtRest)
  /\ sameBounds pbWheelAtRest (snd (updateValue pbWheelControls 20000 pbWheelAtRest))
  /\ curValue (setTargetValue pbWheelControls pbWheelAtRest) = curValue pbWheelAtRest
  /\ targetValue (snd (updateValue pbWheelControls 20000 pbWheelAtRest))
     = targetValue pbWheelAtRest.
Proof.
  apply (wheel_stays_in_range pbWheelControls 20000 pbWheelAtRest).
  - exact pbWheelAtRest_inRange.
  - cbn. lia.
Defined.

Definition pbWheelPushed : wheelDef := setTargetValue pbWheelControls pbWheelAtRest.
Definition eightPasses : list Z :=
  [20000; 40000; 60000; 80000; 100000; 120000; 140000; 160000].

Lemma pbWheelPushed_inRange : wheelInRange pbWheelPushed.
Proof. unfold wheelInRange. vm_compute. repeat split; discriminate. Qed.

Lemma eightPasses_spaced : spaced (timeLastChanged pbWheelPushed) eightPasses.
Proof. vm_compute. repeat split; first [discriminate | reflexivity]. Qed.

Lemma wheel_reaches_target_example :
  let d := targetValue pbWheelPushed - curValue pbWheelPushed in
  let n := Z.of_nat (length eightPasses) in
  targetValue (updateValues pbWheelControls eightPasses pbWheelPushed)
    = targetValue pbWheelPushed
  /\ curValue (updateValues pbWheelControls eightPasses pbWheelPushed)
     = targetValue pbWheelPushed - Z.sgn d * Z.max 0 (Z.abs d - stepValue pbWheelControls * n)
  /\ (Z.abs d <= stepValue pbWheelControls * n ->
      curValue (updateValues pbWheelControls eightPasses pbWheelPushed)
      = targetValue pbWheelPushed).
Proof.
  apply (wheel_reaches_target pbWheelControls eightPasses pbWheelPushed).
  - exact pbWheelPushed_inRange.
  - vm_compute. reflexivity.
  - vm_compute. discriminate.
  - exact eightPasses_spaced.
Defined.

(** With exact values: a fifth below the first key, in twelve-tone equal
    temperament. *)
Lemma ratio_search_first_close_or_nearest_example :
  exists pre sel post,
    ratios = pre ++ sel :: post
    /\ justIntonationSearch 100 660 440
       = (Some (ratioToCents (660 / 440) - exactCents sel)%R, sel)
    /\ firstCloseOrNearest exactCents Rminus (100 / 4) (ratioToCents (660 / 440)) pre sel post.
Proof.
  unfold justIntonationSearch. cbv zeta. rewrite ratioScan_exact_values.
  apply (ratio_search_first_close_or_nearest exactCents Rminus).
  intros a b. apply Rabs_minus_sym.
Defined.

(** The Wicki-Hayden step sizes, two across and minus seven down-left. *)
Lemma layout_rotation_cycle_example :
  layoutVectors false false 1 2 (-7) = (i8 (2 + -7), i8 (- 2))
  /\ layoutVectors true false (2 + 6) 2 (-7) = layoutVectors true false 2 2 (-7)
  /\ layoutVectors true true 2 2 (-7) = layoutVectors false false (2 + 3) 2 (-7).
Proof. apply (layout_rotation_cycle true false 2 2 (-7)); lia. Defined.




Lemma releasedBoard_counters : Forall retryCounters (voices releasedBoard).
Proof. unfold retryCounters. vm_compute. repeat constructor; discriminate. Qed.

Lemma releasedBoard_budget :
  Forall (fun v => retryBudget v <= Z.of_nat 6) (voices releasedBoard).
Proof. vm_compute. repeat constructor; discriminate. Qed.

(** The release of key 0 armed two retries for its voice; after six passes
    of the main loop without the audio core they are spent. *)
Lemma release_retries_die_out_example :
  let s' := Nat.iter 6 retryPendingReleases releasedBoard in
  Forall (fun v => releaseRetries v = 0) (voices s')
  /\ retryPendingReleases s' = s'
  /\ Forall2 retryFrame (voices releasedBoard) (voices s')
  /\ h s' = h releasedBoard /\ synthChQueue s' = synthChQueue releasedBoard.
Proof.
  apply (release_retries_die_out releasedBoard 6).
  - concrete.
  - exact releasedBoard_counters.
  - exact releasedBoard_budget.
Defined.
